(** * So Lang: lexer, parser, classifier and emitters, embedded from the C sources

    The definitions below follow, function by function,
    - [src/so_lang.c] with [src/so_lang.h] (module [Base]),
    - the enhanced compiler with function support (module [Enhanced]),
    - the Solana extension [so_lang_solana.c] (module [Solana]).

    C strings are [string]s read up to their first NUL, [int] counters are
    [nat], a nullable pointer is an [option], an array with its element count
    is a [list], and the file-scope statics ([has_error], [in_function],
    [function_names], ...) are fields of the state that is passed around. *)

From Stdlib Require Import String Ascii List Arith Bool Lia DecimalString.
Import ListNotations.
Local Open Scope string_scope.
Local Open Scope list_scope.
Local Open Scope nat_scope.

(** String concatenation, as [fprintf] and the buffers build text. *)
Infix "+++" := String.append (right associativity, at level 60).

(* ------------------------------------------------------------------ *)
(** ** Constants of so_lang.h *)

Definition MAX_TOKEN_LEN : nat := 256.
Definition MAX_TOKENS : nat := 1000.
Definition MAX_VARS : nat := 100.
Definition MAX_FUNCTIONS : nat := 50.

(* ------------------------------------------------------------------ *)
(** ** Characters and C strings *)

Definition NUL : ascii := Ascii.zero.
Definition LF : ascii := ascii_of_nat 10.
Definition TAB : ascii := ascii_of_nat 9.
Definition CR : ascii := ascii_of_nat 13.
Definition QUOTE : ascii := ascii_of_nat 34.
Definition BACKSLASH : ascii := ascii_of_nat 92.

Definition is_nul (c : ascii) : bool := Ascii.eqb c NUL.

(** <ctype.h> in the "C" locale. *)
Definition isspace (c : ascii) : bool :=
  let n := nat_of_ascii c in ((9 <=? n) && (n <=? 13)) || (n =? 32).
Definition isdigit (c : ascii) : bool :=
  let n := nat_of_ascii c in (48 <=? n) && (n <=? 57).
Definition isalpha (c : ascii) : bool :=
  let n := nat_of_ascii c in
  ((65 <=? n) && (n <=? 90)) || ((97 <=? n) && (n <=? 122)).
Definition isalnum (c : ascii) : bool := isalpha c || isdigit c.

(** [strlen]: the number of characters before the first NUL. *)
Fixpoint strlen (s : string) : nat :=
  match s with
  | EmptyString => 0
  | String c r => if is_nul c then 0 else S (strlen r)
  end.

(** [s[i]]; the terminator is read at and past the end. *)
Definition char_at (s : string) (i : nat) : ascii :=
  match String.get i s with
  | Some c => c
  | None => NUL
  end.

(** [strncpy (dst, src, n); dst[n] = 0]: at most [n] characters of [src],
    stopping at its terminator. *)
Fixpoint strncpy (n : nat) (src : string) : string :=
  match n, src with
  | S n', String c r => if is_nul c then EmptyString else String c (strncpy n' r)
  | _, _ => EmptyString
  end.

(** [strcpy]: the characters of [src] up to its terminator. *)
Definition strcpy (src : string) : string := strncpy (String.length src) src.

(** [strcmp (a, b) == 0] *)
Definition streq (a b : string) : bool := String.eqb a b.

Definition snoc (s : string) (c : ascii) : string := s +++ String c EmptyString.
Definition char_str (c : ascii) : string := String c EmptyString.

(** Does [needle] occur in [hay]? (the test of [strstr]) *)
Fixpoint contains (needle hay : string) : bool :=
  String.prefix needle hay ||
  match hay with
  | EmptyString => false
  | String _ r => contains needle r
  end.

(** Does [s] end with [suffix]? *)
Definition ends_with (suffix s : string) : bool :=
  let n := String.length s - String.length suffix in
  (String.length suffix <=? String.length s) &&
  String.eqb (String.substring n (String.length suffix) s) suffix.

(* ------------------------------------------------------------------ *)
(** ** Loops *)

(** [while (cond) body], run for at most [fuel] iterations. *)
Fixpoint while_fuel {S : Type} (fuel : nat) (cond : S -> bool) (body : S -> S)
  (s : S) : S :=
  match fuel with
  | 0 => s
  | Datatypes.S f => if cond s then while_fuel f cond body (body s) else s
  end.

(* ------------------------------------------------------------------ *)
(** ** Tokens (so_lang.h) *)

Inductive TokenType : Set :=
| TOKEN_EOF | TOKEN_LET | TOKEN_FN | TOKEN_IF | TOKEN_ELSE | TOKEN_RETURN
| TOKEN_PRINT | TOKEN_IDENTIFIER | TOKEN_NUMBER | TOKEN_STRING | TOKEN_ASSIGN
| TOKEN_PLUS | TOKEN_MINUS | TOKEN_MULTIPLY | TOKEN_DIVIDE | TOKEN_EQUAL
| TOKEN_NOT_EQUAL | TOKEN_LESS | TOKEN_GREATER | TOKEN_LPAREN | TOKEN_RPAREN
| TOKEN_LBRACE | TOKEN_RBRACE | TOKEN_COMMA | TOKEN_SEMICOLON | TOKEN_NEWLINE
| TOKEN_PROGRAM | TOKEN_INSTRUCTION | TOKEN_ACCOUNT | TOKEN_STATE | TOKEN_PUBKEY
| TOKEN_SIGNER | TOKEN_WRITABLE | TOKEN_INIT | TOKEN_SEEDS | TOKEN_BUMP
| TOKEN_TRANSFER | TOKEN_REQUIRE | TOKEN_EMIT | TOKEN_AT_SYMBOL.

Scheme Equality for TokenType.

Record Token : Set := mkToken {
  tok_type : TokenType;
  tok_value : string;
  tok_line : nat;
  tok_column : nat
}.

(** A diagnostic written to stderr by [error]. *)
Record Diagnostic : Set := mkDiag {
  diag_message : string;
  diag_line : nat;
  diag_column : nat
}.

(** The [Lexer] struct, together with the file-scope flag [has_error] and
    the diagnostics printed so far.  [token_count] is the length of
    [tokens]. *)
Record Lexer : Set := mkLexer {
  source : string;
  pos : nat;
  line : nat;
  column : nat;
  tokens : list Token;
  has_error : bool;
  stderr : list Diagnostic
}.

Definition token_count (l : Lexer) : nat := length (tokens l).

(** [error (message, line, column)] *)
Definition error (message : string) (ln col : nat) (l : Lexer) : Lexer :=
  mkLexer (source l) (pos l) (line l) (column l) (tokens l) true
          (stderr l ++ [mkDiag message ln col]).

Definition lexer_create (src : string) : Lexer :=
  mkLexer src 0 1 1 [] false [].

Definition lexer_current_char (l : Lexer) : ascii :=
  if strlen (source l) <=? pos l then NUL else char_at (source l) (pos l).

Definition lexer_advance (l : Lexer) : Lexer :=
  let c := lexer_current_char l in
  if Ascii.eqb c LF
  then mkLexer (source l) (S (pos l)) (S (line l)) 1 (tokens l) (has_error l) (stderr l)
  else mkLexer (source l) (S (pos l)) (line l) (S (column l)) (tokens l) (has_error l) (stderr l).

(** Characters left before the terminator: a bound on every scanning loop. *)
Definition remaining (l : Lexer) : nat := strlen (source l) - pos l.

Definition lexer_skip_whitespace (l : Lexer) : Lexer :=
  while_fuel (remaining l)
    (fun l => isspace (lexer_current_char l) && negb (Ascii.eqb (lexer_current_char l) LF))
    lexer_advance l.

Definition lexer_add_token (type : TokenType) (value : string) (l : Lexer) : Lexer :=
  if MAX_TOKENS <=? token_count l
  then error "Too many tokens" (line l) (column l) l
  else mkLexer (source l) (pos l) (line l) (column l)
         (tokens l ++ [mkToken type (strncpy (MAX_TOKEN_LEN - 1) value) (line l) (column l)])
         (has_error l) (stderr l).

(** The scanning loops fill [char buffer[MAX_TOKEN_LEN]] through an index
    [i]; the buffer is modelled by its first [i] characters. *)
Definition buffer_put (buf : string) (c : ascii) : string :=
  if String.length buf <? MAX_TOKEN_LEN - 1 then snoc buf c else buf.

(** One iteration of the loops that copy the current character under the
    guard [i < MAX_TOKEN_LEN - 1] and advance. *)
Definition copy_step (st : Lexer * string) : Lexer * string :=
  (lexer_advance (fst st), buffer_put (snd st) (lexer_current_char (fst st))).

Definition ident_char (c : ascii) : bool := isalnum c || Ascii.eqb c "_"%char.

(* ------------------------------------------------------------------ *)
(** ** The syntax tree (so_lang.h, so_lang_solana.h) *)

Inductive NodeType : Set :=
| NODE_PROGRAM | NODE_VAR_DECL | NODE_FUNC_DECL | NODE_IF_STMT
| NODE_RETURN_STMT | NODE_PRINT_STMT | NODE_BINARY_OP | NODE_IDENTIFIER
| NODE_NUMBER | NODE_STRING | NODE_FUNC_CALL
| NODE_PROGRAM_DECL | NODE_INSTRUCTION_DECL | NODE_ACCOUNT_DECL
| NODE_STATE_DECL | NODE_ACCOUNT_CONSTRAINT | NODE_PDA_DERIVATION
| NODE_TRANSFER_STMT | NODE_INVOKE_STMT | NODE_REQUIRE_STMT | NODE_ERROR_DECL
| NODE_EVENT_DECL | NODE_EMIT_STMT | NODE_ACCOUNT_ACCESS
| NODE_INSTRUCTION_HANDLER | NODE_ACCOUNT_VALIDATION | NODE_SOLANA_TYPE
| NODE_ANCHOR_ATTRIBUTE | NODE_SEEDS_EXPR | NODE_BUMP_EXPR.

Scheme Equality for NodeType.

Scheme All for option.
Scheme All for list.

(** [struct ASTNode]: a null pointer is [None], [children] with
    [child_count] is a list. *)
Inductive ASTNode : Set := mkAST {
  type : NodeType;
  value : string;
  left : option ASTNode;
  right : option ASTNode;
  condition : option ASTNode;
  then_branch : option ASTNode;
  else_branch : option ASTNode;
  children : list ASTNode;
  (* Solana-specific fields *)
  program_id : option string;
  is_signer : bool;
  is_writable : bool;
  is_init : bool;
  seeds : list string
}.

Definition child_count (n : ASTNode) : nat := length (children n).

Definition ast_create_node (t : NodeType) : ASTNode :=
  mkAST t EmptyString None None None None None [] None false false false [].

(** Assignments to the fields of a node. *)
Definition set_type (t : NodeType) (n : ASTNode) : ASTNode :=
  mkAST t (value n) (left n) (right n) (condition n) (then_branch n)
        (else_branch n) (children n) (program_id n) (is_signer n)
        (is_writable n) (is_init n) (seeds n).
Definition set_value (v : string) (n : ASTNode) : ASTNode :=
  mkAST (type n) v (left n) (right n) (condition n) (then_branch n)
        (else_branch n) (children n) (program_id n) (is_signer n)
        (is_writable n) (is_init n) (seeds n).
Definition set_left (x : option ASTNode) (n : ASTNode) : ASTNode :=
  mkAST (type n) (value n) x (right n) (condition n) (then_branch n)
        (else_branch n) (children n) (program_id n) (is_signer n)
        (is_writable n) (is_init n) (seeds n).
Definition set_right (x : option ASTNode) (n : ASTNode) : ASTNode :=
  mkAST (type n) (value n) (left n) x (condition n) (then_branch n)
        (else_branch n) (children n) (program_id n) (is_signer n)
        (is_writable n) (is_init n) (seeds n).
Definition set_condition (x : option ASTNode) (n : ASTNode) : ASTNode :=
  mkAST (type n) (value n) (left n) (right n) x (then_branch n)
        (else_branch n) (children n) (program_id n) (is_signer n)
        (is_writable n) (is_init n) (seeds n).
Definition set_then_branch (x : option ASTNode) (n : ASTNode) : ASTNode :=
  mkAST (type n) (value n) (left n) (right n) (condition n) x
        (else_branch n) (children n) (program_id n) (is_signer n)
        (is_writable n) (is_init n) (seeds n).
Definition set_else_branch (x : option ASTNode) (n : ASTNode) : ASTNode :=
  mkAST (type n) (value n) (left n) (right n) (condition n) (then_branch n)
        x (children n) (program_id n) (is_signer n)
        (is_writable n) (is_init n) (seeds n).
Definition set_children (cs : list ASTNode) (n : ASTNode) : ASTNode :=
  mkAST (type n) (value n) (left n) (right n) (condition n) (then_branch n)
        (else_branch n) cs (program_id n) (is_signer n)
        (is_writable n) (is_init n) (seeds n).

(** [if (stmt && node->child_count < cap) node->children[node->child_count++] = stmt;] *)
Definition add_child (cap : nat) (stmt : option ASTNode) (n : ASTNode) : ASTNode :=
  match stmt with
  | Some s => if child_count n <? cap then set_children (children n ++ [s]) n else n
  | None => n
  end.

(* ------------------------------------------------------------------ *)
(** ** The parser state *)

(** The [Parser] struct ([token_count] is the length of [p_tokens]),
    together with the statics the parser writes: [has_error], the
    diagnostics and the registry [function_names]. *)
Record Parser : Set := mkParser {
  p_tokens : list Token;
  p_pos : nat;
  p_has_error : bool;
  p_stderr : list Diagnostic;
  function_names : list string
}.

Definition p_token_count (p : Parser) : nat := length (p_tokens p).
Definition function_count (p : Parser) : nat := length (function_names p).

Definition parser_create (toks : list Token) : Parser :=
  mkParser toks 0 false [] [].

(** What a read outside the token array yields in the model; no parser
    created over a non-empty array performs one. *)
Definition no_token : Token := mkToken TOKEN_EOF EmptyString 0 0.

Definition parser_current_token (p : Parser) : Token :=
  if p_token_count p <=? p_pos p
  then nth (p_token_count p - 1) (p_tokens p) no_token
  else nth (p_pos p) (p_tokens p) no_token.

Definition set_pos (n : nat) (p : Parser) : Parser :=
  mkParser (p_tokens p) n (p_has_error p) (p_stderr p) (function_names p).

(** [parser_advance]: the position never moves past the last token. *)
Definition parser_advance (p : Parser) : Parser :=
  if S (p_pos p) <? p_token_count p then set_pos (S (p_pos p)) p else p.

Definition current_is (t : TokenType) (p : Parser) : bool :=
  TokenType_beq (tok_type (parser_current_token p)) t.

Definition parser_match (t : TokenType) (p : Parser) : bool * Parser :=
  if current_is t p then (true, parser_advance p) else (false, p).

Definition parser_error (message : string) (ln col : nat) (p : Parser) : Parser :=
  mkParser (p_tokens p) (p_pos p) true (p_stderr p ++ [mkDiag message ln col])
           (function_names p).

(** [while (cond) body] where running out of [fuel] is reported: [None]
    stands for a loop that has not finished within [fuel] iterations. *)
Fixpoint while_opt {S : Type} (fuel : nat) (cond : S -> bool) (body : S -> S)
  (s : S) : option S :=
  match fuel with
  | 0 => None
  | Datatypes.S f => if cond s then while_opt f cond body (body s) else Some s
  end.

(** Sequencing of steps that may not return. *)
Notation "'do' x <- a ; b" :=
  (match a with Some x => b | None => None end)
  (at level 10, x pattern, a at level 100, b at level 200).

(** [while (current != ')' && current != EOF) parser_advance (parser);]
    The position grows at every iteration until the last token, so a loop
    still running after [token_count] iterations runs forever. *)
Definition skip_to_rparen (p : Parser) : option Parser :=
  while_opt (S (p_token_count p))
    (fun p => negb (current_is TOKEN_RPAREN p) && negb (current_is TOKEN_EOF p))
    parser_advance p.

Definition is_binary_operator (t : TokenType) : bool :=
  match t with
  | TOKEN_PLUS | TOKEN_MINUS | TOKEN_MULTIPLY | TOKEN_DIVIDE
  | TOKEN_EQUAL | TOKEN_LESS | TOKEN_GREATER => true
  | _ => false
  end.

(** The body of [parser_parse_binary], over the primary parser it calls
    (the two functions are mutually recursive through parentheses). *)
Definition parse_binary_body
  (primary : Parser -> option (option ASTNode * Parser)) (p : Parser)
  : option (option ASTNode * Parser) :=
  match primary p with
  | None => None
  | Some (left, p1) =>
      let op := parser_current_token p1 in
      if is_binary_operator (tok_type op) then
        match primary (parser_advance p1) with
        | None => None
        | Some (right, p2) =>
            Some (Some (set_right right (set_left left
                          (set_value (strcpy (tok_value op))
                             (ast_create_node NODE_BINARY_OP)))), p2)
        end
      else Some (left, p1)
  end.

(* ------------------------------------------------------------------ *)
(** ** The lexer of so_lang.c *)

Module Base.

Definition lexer_read_string (l : Lexer) : Lexer :=
  let l1 := lexer_advance l in
  let '(l2, buffer) :=
    while_fuel (remaining l1)
      (fun st => negb (Ascii.eqb (lexer_current_char (fst st)) QUOTE)
                 && negb (is_nul (lexer_current_char (fst st))))
      copy_step (l1, EmptyString) in
  let l3 := if Ascii.eqb (lexer_current_char l2) QUOTE then lexer_advance l2 else l2 in
  lexer_add_token TOKEN_STRING buffer l3.

Definition keyword (buffer : string) : TokenType :=
  if streq buffer "let" then TOKEN_LET
  else if streq buffer "fn" then TOKEN_FN
  else if streq buffer "if" then TOKEN_IF
  else if streq buffer "else" then TOKEN_ELSE
  else if streq buffer "return" then TOKEN_RETURN
  else if streq buffer "print" then TOKEN_PRINT
  else if streq buffer "program" then TOKEN_PROGRAM
  else if streq buffer "instruction" then TOKEN_INSTRUCTION
  else if streq buffer "account" then TOKEN_ACCOUNT
  else if streq buffer "state" then TOKEN_STATE
  else if streq buffer "pubkey" then TOKEN_PUBKEY
  else if streq buffer "signer" then TOKEN_SIGNER
  else if streq buffer "writable" then TOKEN_WRITABLE
  else if streq buffer "init" then TOKEN_INIT
  else if streq buffer "seeds" then TOKEN_SEEDS
  else if streq buffer "bump" then TOKEN_BUMP
  else if streq buffer "transfer" then TOKEN_TRANSFER
  else if streq buffer "require" then TOKEN_REQUIRE
  else if streq buffer "emit" then TOKEN_EMIT
  else TOKEN_IDENTIFIER.

Definition lexer_read_identifier (l : Lexer) : Lexer :=
  let '(l1, buffer) :=
    while_fuel (remaining l)
      (fun st => ident_char (lexer_current_char (fst st)))
      copy_step (l, EmptyString) in
  lexer_add_token (keyword buffer) buffer l1.

Definition lexer_read_number (l : Lexer) : Lexer :=
  let '(l1, buffer) :=
    while_fuel (remaining l)
      (fun st => isdigit (lexer_current_char (fst st))
                 || Ascii.eqb (lexer_current_char (fst st)) "."%char)
      copy_step (l, EmptyString) in
  lexer_add_token TOKEN_NUMBER buffer l1.

(** The [switch (c)] of [lexer_tokenize], with the [lexer_advance] that
    follows it. *)
Definition lexer_punctuation (c : ascii) (l : Lexer) : Lexer :=
  let token_str := char_str c in
  let l1 :=
    if Ascii.eqb c "="%char then
      if Ascii.eqb (char_at (source l) (pos l + 1)) "="%char
      then lexer_add_token TOKEN_EQUAL "==" (lexer_advance l)
      else lexer_add_token TOKEN_ASSIGN "=" l
    else if Ascii.eqb c "+"%char then lexer_add_token TOKEN_PLUS token_str l
    else if Ascii.eqb c "-"%char then lexer_add_token TOKEN_MINUS token_str l
    else if Ascii.eqb c "*"%char then lexer_add_token TOKEN_MULTIPLY token_str l
    else if Ascii.eqb c "/"%char then lexer_add_token TOKEN_DIVIDE token_str l
    else if Ascii.eqb c "<"%char then lexer_add_token TOKEN_LESS token_str l
    else if Ascii.eqb c ">"%char then lexer_add_token TOKEN_GREATER token_str l
    else if Ascii.eqb c "("%char then lexer_add_token TOKEN_LPAREN token_str l
    else if Ascii.eqb c ")"%char then lexer_add_token TOKEN_RPAREN token_str l
    else if Ascii.eqb c "{"%char then lexer_add_token TOKEN_LBRACE token_str l
    else if Ascii.eqb c "}"%char then lexer_add_token TOKEN_RBRACE token_str l
    else if Ascii.eqb c ","%char then lexer_add_token TOKEN_COMMA token_str l
    else if Ascii.eqb c ";"%char then lexer_add_token TOKEN_SEMICOLON token_str l
    else if Ascii.eqb c "@"%char then lexer_add_token TOKEN_AT_SYMBOL token_str l
    else error "Unexpected character" (line l) (column l) l in
  lexer_advance l1.

(** The body of the [while] loop of [lexer_tokenize]. *)
Definition lexer_step (l : Lexer) : Lexer :=
  let c := lexer_current_char l in
  if isspace c && negb (Ascii.eqb c LF) then lexer_skip_whitespace l
  else if Ascii.eqb c LF then lexer_advance (lexer_add_token TOKEN_NEWLINE (char_str LF) l)
  else if Ascii.eqb c QUOTE then lexer_read_string l
  else if isalpha c || Ascii.eqb c "_"%char then lexer_read_identifier l
  else if isdigit c then lexer_read_number l
  else lexer_punctuation c l.

(** The [while] loop of [lexer_tokenize]: every iteration consumes a
    character, so [remaining] iterations are enough (lemma
    [Base_lexer_scan_reaches_end]). *)
Definition lexer_scan (l : Lexer) : Lexer :=
  while_fuel (remaining l) (fun l => negb (is_nul (lexer_current_char l))) lexer_step l.

Definition lexer_tokenize (l : Lexer) : Lexer :=
  lexer_add_token TOKEN_EOF EmptyString (lexer_scan l).

(** *** Expression parser of so_lang.c *)

(** [fuel] bounds the nesting of parentheses; [None] is "out of fuel". *)
Fixpoint parser_parse_primary (fuel : nat) (p : Parser)
  : option (option ASTNode * Parser) :=
  match fuel with
  | 0 => None
  | S f =>
      let token := parser_current_token p in
      match tok_type token with
      | TOKEN_NUMBER =>
          Some (Some (set_value (strcpy (tok_value token)) (ast_create_node NODE_NUMBER)),
                parser_advance p)
      | TOKEN_STRING =>
          Some (Some (set_value (strcpy (tok_value token)) (ast_create_node NODE_STRING)),
                parser_advance p)
      | TOKEN_IDENTIFIER =>
          let node := set_value (strcpy (tok_value token)) (ast_create_node NODE_IDENTIFIER) in
          let p1 := parser_advance p in
          if current_is TOKEN_LPAREN p1
          then Some (Some (set_type NODE_FUNC_CALL node),
                     snd (parser_match TOKEN_RPAREN (parser_advance p1)))
          else Some (Some node, p1)
      | TOKEN_LPAREN =>
          match parse_binary_body (parser_parse_primary f) (parser_advance p) with
          | None => None
          | Some (node, p2) => Some (node, snd (parser_match TOKEN_RPAREN p2))
          end
      | _ => Some (None, p)
      end
  end.

Definition parser_parse_binary (fuel : nat) (p : Parser)
  : option (option ASTNode * Parser) :=
  parse_binary_body (parser_parse_primary fuel) p.

Definition parser_parse_expression (fuel : nat) (p : Parser)
  : option (option ASTNode * Parser) :=
  parser_parse_binary fuel p.

(** *** Detection of Solana programs *)

(** The statics [detected_solana] and [detected_program_name]. *)
Record Detected : Set := mkDetected {
  detected_solana : bool;
  detected_program_name : option string
}.

Definition is_solana_node (t : NodeType) : bool :=
  match t with
  | NODE_INSTRUCTION_DECL | NODE_ACCOUNT_CONSTRAINT | NODE_TRANSFER_STMT
  | NODE_REQUIRE_STMT | NODE_EMIT_STMT => true
  | _ => false
  end.

(** [detect_solana_program] on a node that is not null. *)
Fixpoint detect_solana_program_node (ast : ASTNode) (g : Detected) : bool * Detected :=
  if NodeType_beq (type ast) NODE_PROGRAM_DECL
  then (true, mkDetected true (Some (strcpy (value ast))))
  else if is_solana_node (type ast)
  then (true, mkDetected true (detected_program_name g))
  else
    (fix loop (cs : list ASTNode) (g : Detected) : bool * Detected :=
       match cs with
       | [] => (false, g)
       | c :: cs' =>
           let (found, g') := detect_solana_program_node c g in
           if found then (true, g') else loop cs' g'
       end) (children ast) g.

Definition detect_solana_program (ast : option ASTNode) (g : Detected) : bool * Detected :=
  match ast with
  | None => (false, g)
  | Some n => detect_solana_program_node n g
  end.

(** The classification of section 4.3, read off the returned flag. *)
Inductive Classification : Set := Generic | ChainProgram.

Definition classify (ast : ASTNode) : Classification :=
  if fst (detect_solana_program (Some ast) (mkDetected false None))
  then ChainProgram else Generic.

(** *** The driver [main] of so_lang.c *)

Record Options : Set := mkOptions {
  to_rust : bool;
  force_solana : bool;
  use_anchor : bool;
  output_file : option string
}.

(** The loop over [argv[2..]]. *)
Fixpoint parse_options (args : list string) (o : Options) : Options :=
  match args with
  | [] => o
  | a :: rest =>
      if streq a "--rust"
      then parse_options rest (mkOptions true (force_solana o) (use_anchor o) (output_file o))
      else if streq a "--solana"
      then parse_options rest (mkOptions true true (use_anchor o) (output_file o))
      else if streq a "--anchor"
      then parse_options rest (mkOptions true true true (output_file o))
      else if streq a "--native-solana"
      then parse_options rest (mkOptions true true false (output_file o))
      else if streq a "--output" then
        match rest with
        | f :: rest' =>
            parse_options rest' (mkOptions (to_rust o) (force_solana o) (use_anchor o) (Some f))
        | [] => o
        end
      else parse_options rest o
  end.

(** The stages [main] calls, in the order it calls them. *)
Inductive Stage : Set :=
| CallReadFile | CallLexerTokenize | CallParserParse | CallDetect | CallCompile.

Record Run : Set := mkRun {
  exit_code : nat;
  calls : list Stage;
  written : option (string * string)   (* output file name and its text *)
}.

Section Driver.

(** The file system, and the two later stages, taken as given:
    [parser_parse] of so_lang.c reaches [parser_parse_program_declaration]
    and [parser_parse_instruction_declaration], which the file only
    declares, and the [switch] of its [compiler_compile_node] has the label
    [case NODE_PROGRAM] twice. *)
Variable read_file : string -> option string.
Variable fopen_w : string -> bool.
Variable parser_parse : Parser -> option (ASTNode * Parser).
Variable compiler_compile : bool -> bool -> bool -> ASTNode -> string.

Definition default_output (is_solana anchor rust : bool) : string :=
  if is_solana then (if anchor then "lib.rs" else "program.rs")
  else if rust then "output.rs" else "output.c".

(** [main]; [None] when [parser_parse] does not return. *)
Definition main (argv : list string) : option Run :=
  match argv with
  | [] | [_] => Some (mkRun 1 [] None)
  | _ :: input :: flags =>
      let o := parse_options flags (mkOptions false false false None) in
      match read_file input with
      | None => Some (mkRun 1 [CallReadFile] None)
      | Some src =>
          let lexer := lexer_tokenize (lexer_create src) in
          if has_error lexer
          then Some (mkRun 1 [CallReadFile; CallLexerTokenize] None)
          else
            match parser_parse (parser_create (tokens lexer)) with
            | None => None
            | Some (ast, parser) =>
                if p_has_error parser
                then Some (mkRun 1 [CallReadFile; CallLexerTokenize; CallParserParse] None)
                else
                  let is_solana :=
                    force_solana o
                    || fst (detect_solana_program (Some ast) (mkDetected false None)) in
                  let rust := if is_solana then true else to_rust o in
                  let file :=
                    match output_file o with
                    | Some f => f
                    | None => default_output is_solana (use_anchor o) rust
                    end in
                  let done :=
                    [CallReadFile; CallLexerTokenize; CallParserParse]
                    ++ (if force_solana o then [] else [CallDetect]) in
                  if fopen_w file
                  then Some (mkRun 0 (done ++ [CallCompile])
                         (Some (file, compiler_compile rust is_solana (use_anchor o) ast)))
                  else Some (mkRun 1 done None)
            end
      end
  end.

End Driver.

(** *** Validation of a program id *)

(** [strchr (s, c) != NULL]: [c] occurs in the C string [s]; the terminator
    itself is found when [c] is NUL. *)
Fixpoint strchr (s : string) (c : ascii) : bool :=
  match s with
  | EmptyString => is_nul c
  | String a r =>
      if is_nul a then is_nul c
      else if Ascii.eqb a c then true
      else strchr r c
  end.

Definition valid_chars : string :=
  "123456789ABCDEFGHJKLMNPQRSTUVWXYZabcdefghijkmnopqrstuvwxyz".

(** What [validate_program_id] prints: nothing for a null pointer, one of
    the two warnings on stderr, or the message on stdout. *)
Inductive Validation : Set :=
| NotChecked
| InvalidLength (len : nat)
| InvalidCharacter (c : ascii)
| ValidationPassed (id : string).

(** The [for] loop over [program_id[i]], [i < len]. *)
Fixpoint first_invalid (id : string) : option ascii :=
  match id with
  | EmptyString => None
  | String c r => if strchr valid_chars c then first_invalid r else Some c
  end.

Definition validate_program_id (program_id : option string) : Validation :=
  match program_id with
  | None => NotChecked
  | Some id =>
      let len := strlen id in
      if (len <? 32) || (44 <? len) then InvalidLength len
      else
        match first_invalid (strcpy id) with
        | Some c => InvalidCharacter c
        | None => ValidationPassed (strcpy id)
        end
  end.
(** *** Statement parser of so_lang.c *)

(** [while (parser_match (NEWLINE) || parser_match (SEMICOLON)) { }] *)
Definition skip_terminators (p : Parser) : option Parser :=
  while_opt (S (p_token_count p))
    (fun p => current_is TOKEN_NEWLINE p || current_is TOKEN_SEMICOLON p)
    parser_advance p.

(** What [parser_parse] comes to when it returns: its result, or a store
    past the 100 pointers allocated for [program->children]. *)
Inductive Outcome : Set :=
| Parsed (program : ASTNode) (p : Parser)
| ChildrenOverrun.

Section Statements.

(** [parser_parse_program_declaration] and
    [parser_parse_instruction_declaration]: so_lang.c declares and calls
    them and defines neither; what they do is taken as given. *)
Variable parser_parse_program_declaration : Parser -> option (option ASTNode * Parser).
Variable parser_parse_instruction_declaration : Parser -> option (option ASTNode * Parser).

(** [fuel] bounds the depth of the calls; [None] is "out of fuel". *)
Fixpoint parser_parse_statement (fuel : nat) (p : Parser)
  : option (option ASTNode * Parser) :=
  match fuel with
  | 0 => None
  | S f =>
      let token := parser_current_token p in
      do (node, p') <-
        match tok_type token with
        | TOKEN_PROGRAM => parser_parse_program_declaration p
        | TOKEN_INSTRUCTION => parser_parse_instruction_declaration p
        | TOKEN_LET =>
            let p1 := parser_advance p in
            let node := ast_create_node NODE_VAR_DECL in
            let name := parser_current_token p1 in
            if TokenType_beq (tok_type name) TOKEN_IDENTIFIER then
              let node := set_value (strcpy (tok_value name)) node in
              let '(matched, p2) := parser_match TOKEN_ASSIGN (parser_advance p1) in
              if matched then
                do (e, p3) <- parser_parse_expression f p2;
                Some (Some (set_right e node), p3)
              else Some (Some node, p2)
            else Some (Some node, p1)
        | TOKEN_PRINT =>
            let node := ast_create_node NODE_PRINT_STMT in
            let '(matched, p1) := parser_match TOKEN_LPAREN (parser_advance p) in
            if matched then
              do (e, p2) <- parser_parse_expression f p1;
              Some (Some (set_left e node), snd (parser_match TOKEN_RPAREN p2))
            else Some (Some node, p1)
        | TOKEN_IF =>
            let node := ast_create_node NODE_IF_STMT in
            do (c, p1) <- parser_parse_expression f (parser_advance p);
            let node := set_condition c node in
            let '(matched, p2) := parser_match TOKEN_LBRACE p1 in
            if matched then
              do (t, p3) <- parser_parse_statement f p2;
              let node := set_then_branch t node in
              let p4 := snd (parser_match TOKEN_RBRACE p3) in
              let '(matched, p5) := parser_match TOKEN_ELSE p4 in
              if matched then
                let '(matched, p6) := parser_match TOKEN_LBRACE p5 in
                if matched then
                  do (e, p7) <- parser_parse_statement f p6;
                  Some (Some (set_else_branch e node),
                        snd (parser_match TOKEN_RBRACE p7))
                else Some (Some node, p6)
              else Some (Some node, p5)
            else Some (Some node, p2)
        | TOKEN_RETURN =>
            let node := ast_create_node NODE_RETURN_STMT in
            do (e, p1) <- parser_parse_expression f (parser_advance p);
            Some (Some (set_left e node), p1)
        | _ => parser_parse_expression f p
        end;
      do p'' <- skip_terminators p';
      Some (node, p'')
  end.

(** The [while] loop of [parser_parse]:
    [program->children[program->child_count++] = stmt] has no bound check. *)
Fixpoint program_loop (fuel : nat) (p : Parser) (program : ASTNode) : option Outcome :=
  match fuel with
  | 0 => None
  | S f =>
      if negb (current_is TOKEN_EOF p) then
        do (stmt, p1) <- parser_parse_statement f p;
        match stmt with
        | Some s =>
            if child_count program <? 100
            then program_loop f p1 (set_children (children program ++ [s]) program)
            else Some ChildrenOverrun
        | None => program_loop f p1 program
        end
      else Some (Parsed program p)
  end.

Definition parser_parse (fuel : nat) (p : Parser) : option Outcome :=
  program_loop fuel p (ast_create_node NODE_PROGRAM).

End Statements.

End Base.

(* ------------------------------------------------------------------ *)
(** ** The lexer of the enhanced compiler

    [lexer_read_string] decodes escape sequences.  Its escape branch stores
    into [buffer[i++]] without the guard [i < MAX_TOKEN_LEN - 1] that every
    other store has, so a store can fall outside [char buffer[MAX_TOKEN_LEN]].
    The functions that can do so return [None] for a store outside the
    buffer (the behaviour of the C program is undefined from there on); they
    return [Some] in every other case. *)

Module Enhanced.

Definition lexer_skip_comment (l : Lexer) : Lexer :=
  if Ascii.eqb (lexer_current_char l) "/"%char
     && Ascii.eqb (char_at (source l) (pos l + 1)) "/"%char
  then while_fuel (remaining l)
         (fun l => negb (Ascii.eqb (lexer_current_char l) LF)
                   && negb (is_nul (lexer_current_char l)))
         lexer_advance l
  else l.

(** [buffer[i++] = c] with no guard: inside the array only while
    [i < MAX_TOKEN_LEN]. *)
Definition buffer_store (buf : string) (c : ascii) : option string :=
  if String.length buf <? MAX_TOKEN_LEN then Some (snoc buf c) else None.

(** The [switch (escaped)] of [lexer_read_string]. *)
Definition unescape (escaped : ascii) : ascii :=
  if Ascii.eqb escaped "n"%char then LF
  else if Ascii.eqb escaped "t"%char then TAB
  else if Ascii.eqb escaped "r"%char then CR
  else if Ascii.eqb escaped BACKSLASH then BACKSLASH
  else if Ascii.eqb escaped QUOTE then QUOTE
  else escaped.

(** The [while] loop of [lexer_read_string]; [fuel] bounds its iterations. *)
Fixpoint read_string_loop (fuel : nat) (l : Lexer) (buffer : string)
  : option (Lexer * string) :=
  match fuel with
  | 0 => Some (l, buffer)
  | S f =>
      let c := lexer_current_char l in
      if negb (Ascii.eqb c QUOTE) && negb (is_nul c) then
        if Ascii.eqb c BACKSLASH then
          let l1 := lexer_advance l in
          match buffer_store buffer (unescape (lexer_current_char l1)) with
          | None => None
          | Some b => read_string_loop f (lexer_advance l1) b
          end
        else read_string_loop f (lexer_advance l) (buffer_put buffer c)
      else Some (l, buffer)
  end.

Definition lexer_read_string (l : Lexer) : option Lexer :=
  let l1 := lexer_advance l in
  match read_string_loop (remaining l1) l1 EmptyString with
  | None => None
  | Some (l2, buffer) =>
      let l3 := if Ascii.eqb (lexer_current_char l2) QUOTE then lexer_advance l2 else l2 in
      (* buffer[i] = '\0' *)
      if String.length buffer <? MAX_TOKEN_LEN
      then Some (lexer_add_token TOKEN_STRING buffer l3)
      else None
  end.

Definition keyword (buffer : string) : TokenType :=
  if streq buffer "let" then TOKEN_LET
  else if streq buffer "fn" then TOKEN_FN
  else if streq buffer "if" then TOKEN_IF
  else if streq buffer "else" then TOKEN_ELSE
  else if streq buffer "return" then TOKEN_RETURN
  else if streq buffer "print" then TOKEN_PRINT
  else TOKEN_IDENTIFIER.

Definition lexer_read_identifier (l : Lexer) : Lexer :=
  let '(l1, buffer) :=
    while_fuel (remaining l)
      (fun st => ident_char (lexer_current_char (fst st)))
      copy_step (l, EmptyString) in
  lexer_add_token (keyword buffer) buffer l1.

(** The loop state of [lexer_read_number]: the lexer, [buffer], [has_dot]. *)
Definition number_cond (st : Lexer * string * bool) : bool :=
  let '(l, _, has_dot) := st in
  isdigit (lexer_current_char l)
  || (Ascii.eqb (lexer_current_char l) "."%char && negb has_dot).

Definition number_step (st : Lexer * string * bool) : Lexer * string * bool :=
  let '(l, buffer, has_dot) := st in
  let c := lexer_current_char l in
  (lexer_advance l, buffer_put buffer c,
   if Ascii.eqb c "."%char then true else has_dot).

Definition lexer_read_number (l : Lexer) : Lexer :=
  let '(l1, buffer, _) :=
    while_fuel (remaining l) number_cond number_step (l, EmptyString, false) in
  lexer_add_token TOKEN_NUMBER buffer l1.

Definition lexer_punctuation (c : ascii) (l : Lexer) : Lexer :=
  let token_str := char_str c in
  let l1 :=
    if Ascii.eqb c "="%char then
      if Ascii.eqb (char_at (source l) (pos l + 1)) "="%char
      then lexer_add_token TOKEN_EQUAL "==" (lexer_advance l)
      else lexer_add_token TOKEN_ASSIGN "=" l
    else if Ascii.eqb c "+"%char then lexer_add_token TOKEN_PLUS token_str l
    else if Ascii.eqb c "-"%char then lexer_add_token TOKEN_MINUS token_str l
    else if Ascii.eqb c "*"%char then lexer_add_token TOKEN_MULTIPLY token_str l
    else if Ascii.eqb c "/"%char then lexer_add_token TOKEN_DIVIDE token_str l
    else if Ascii.eqb c "<"%char then lexer_add_token TOKEN_LESS token_str l
    else if Ascii.eqb c ">"%char then lexer_add_token TOKEN_GREATER token_str l
    else if Ascii.eqb c "("%char then lexer_add_token TOKEN_LPAREN token_str l
    else if Ascii.eqb c ")"%char then lexer_add_token TOKEN_RPAREN token_str l
    else if Ascii.eqb c "{"%char then lexer_add_token TOKEN_LBRACE token_str l
    else if Ascii.eqb c "}"%char then lexer_add_token TOKEN_RBRACE token_str l
    else if Ascii.eqb c ","%char then lexer_add_token TOKEN_COMMA token_str l
    else if Ascii.eqb c ";"%char then lexer_add_token TOKEN_SEMICOLON token_str l
    else error "Unexpected character" (line l) (column l) l in
  lexer_advance l1.

(** The body of the [while] loop of [lexer_tokenize]. *)
Definition lexer_step (l : Lexer) : option Lexer :=
  let c := lexer_current_char l in
  if isspace c && negb (Ascii.eqb c LF) then Some (lexer_skip_whitespace l)
  else if Ascii.eqb c "/"%char && Ascii.eqb (char_at (source l) (pos l + 1)) "/"%char
  then Some (lexer_skip_comment l)
  else if Ascii.eqb c LF then Some (lexer_advance (lexer_add_token TOKEN_NEWLINE (char_str LF) l))
  else if Ascii.eqb c QUOTE then lexer_read_string l
  else if isalpha c || Ascii.eqb c "_"%char then Some (lexer_read_identifier l)
  else if isdigit c then Some (lexer_read_number l)
  else Some (lexer_punctuation c l).

Fixpoint lexer_scan (fuel : nat) (l : Lexer) : option Lexer :=
  match fuel with
  | 0 => Some l
  | S f =>
      if negb (is_nul (lexer_current_char l)) then
        match lexer_step l with
        | None => None
        | Some l1 => lexer_scan f l1
        end
      else Some l
  end.

Definition lexer_tokenize (l : Lexer) : option Lexer :=
  match lexer_scan (remaining l) l with
  | None => None
  | Some l1 => Some (lexer_add_token TOKEN_EOF EmptyString l1)
  end.

(** *** Parser of the enhanced compiler

    Every function takes [fuel], an upper bound on the depth of the calls it
    may make, and returns [None] when the bound is reached: a call that
    returns [None] for every [fuel] does not return in the C program. *)

Fixpoint parser_parse_primary (fuel : nat) (p : Parser)
  : option (option ASTNode * Parser) :=
  match fuel with
  | 0 => None
  | S f =>
      let token := parser_current_token p in
      match tok_type token with
      | TOKEN_NUMBER =>
          Some (Some (set_value (strcpy (tok_value token)) (ast_create_node NODE_NUMBER)),
                parser_advance p)
      | TOKEN_STRING =>
          Some (Some (set_value (strcpy (tok_value token)) (ast_create_node NODE_STRING)),
                parser_advance p)
      | TOKEN_IDENTIFIER =>
          let node := set_value (strcpy (tok_value token)) (ast_create_node NODE_IDENTIFIER) in
          let p1 := parser_advance p in
          if current_is TOKEN_LPAREN p1 then
            do p2 <- skip_to_rparen (parser_advance p1);
            Some (Some (set_type NODE_FUNC_CALL node), snd (parser_match TOKEN_RPAREN p2))
          else Some (Some node, p1)
      | TOKEN_LPAREN =>
          do (node, p2) <- parse_binary_body (parser_parse_primary f) (parser_advance p);
          Some (node, snd (parser_match TOKEN_RPAREN p2))
      | _ => Some (None, p)
      end
  end.

Definition parser_parse_binary (fuel : nat) (p : Parser)
  : option (option ASTNode * Parser) :=
  parse_binary_body (parser_parse_primary fuel) p.

Definition parser_parse_expression (fuel : nat) (p : Parser)
  : option (option ASTNode * Parser) :=
  parser_parse_binary fuel p.

(** [while (parser_match (NEWLINE) || parser_match (SEMICOLON)) { }] *)
Definition skip_terminators (p : Parser) : option Parser :=
  while_opt (S (p_token_count p))
    (fun p => current_is TOKEN_NEWLINE p || current_is TOKEN_SEMICOLON p)
    parser_advance p.

Definition register_function (name : string) (p : Parser) : Parser :=
  if function_count p <? MAX_FUNCTIONS
  then mkParser (p_tokens p) (p_pos p) (p_has_error p) (p_stderr p)
                (function_names p ++ [strcpy name])
  else p.

Definition block_continues (p : Parser) : bool :=
  negb (current_is TOKEN_RBRACE p) && negb (current_is TOKEN_EOF p).

Fixpoint parser_parse_statement (fuel : nat) (p : Parser) {struct fuel}
  : option (option ASTNode * Parser) :=
  match fuel with
  | 0 => None
  | S f =>
      let token := parser_current_token p in
      do (node, p') <-
        match tok_type token with
        | TOKEN_FN =>
            do (func, p1) <- parser_parse_function f p; Some (Some func, p1)
        | TOKEN_LET =>
            let p1 := parser_advance p in
            let node := ast_create_node NODE_VAR_DECL in
            let name := parser_current_token p1 in
            if TokenType_beq (tok_type name) TOKEN_IDENTIFIER then
              let node := set_value (strcpy (tok_value name)) node in
              let '(matched, p2) := parser_match TOKEN_ASSIGN (parser_advance p1) in
              if matched then
                do (e, p3) <- parser_parse_expression f p2;
                Some (Some (set_right e node), p3)
              else Some (Some node, p2)
            else Some (Some node, p1)
        | TOKEN_PRINT =>
            let node := ast_create_node NODE_PRINT_STMT in
            let '(matched, p1) := parser_match TOKEN_LPAREN (parser_advance p) in
            if matched then
              do (e, p2) <- parser_parse_expression f p1;
              Some (Some (set_left e node), snd (parser_match TOKEN_RPAREN p2))
            else Some (Some node, p1)
        | TOKEN_IF =>
            let node := ast_create_node NODE_IF_STMT in
            do (c, p1) <- parser_parse_expression f (parser_advance p);
            do (b, p2) <- parser_parse_block f p1;
            let node := set_then_branch (Some b) (set_condition c node) in
            let '(matched, p3) := parser_match TOKEN_ELSE p2 in
            if matched then
              if current_is TOKEN_IF p3 then
                do (s, p4) <- parser_parse_statement f p3;
                Some (Some (set_else_branch s node), p4)
              else
                do (b2, p4) <- parser_parse_block f p3;
                Some (Some (set_else_branch (Some b2) node), p4)
            else Some (Some node, p3)
        | TOKEN_RETURN =>
            let p1 := parser_advance p in
            let node := ast_create_node NODE_RETURN_STMT in
            if negb (current_is TOKEN_NEWLINE p1) && negb (current_is TOKEN_SEMICOLON p1)
               && negb (current_is TOKEN_EOF p1) then
              do (e, p2) <- parser_parse_expression f p1;
              Some (Some (set_left e node), p2)
            else Some (Some node, p1)
        | _ => parser_parse_expression f p
        end;
      do p'' <- skip_terminators p';
      Some (node, p'')
  end

with parser_parse_block (fuel : nat) (p : Parser) {struct fuel}
  : option (ASTNode * Parser) :=
  match fuel with
  | 0 => None
  | S f =>
      let block := ast_create_node NODE_PROGRAM in
      let '(matched, p1) := parser_match TOKEN_LBRACE p in
      if matched then
        do (block, p2) <- block_loop f p1 block;
        Some (block, snd (parser_match TOKEN_RBRACE p2))
      else
        Some (block,
              parser_error "Expected '{'" (tok_line (parser_current_token p1))
                           (tok_column (parser_current_token p1)) p1)
  end

(** The [while] loop of [parser_parse_block]. *)
with block_loop (fuel : nat) (p : Parser) (block : ASTNode) {struct fuel}
  : option (ASTNode * Parser) :=
  match fuel with
  | 0 => None
  | S f =>
      if block_continues p then
        if current_is TOKEN_NEWLINE p then block_loop f (parser_advance p) block
        else
          do (stmt, p1) <- parser_parse_statement f p;
          block_loop f p1 (add_child 50 stmt block)
      else Some (block, p)
  end

with parser_parse_function (fuel : nat) (p : Parser) {struct fuel}
  : option (ASTNode * Parser) :=
  match fuel with
  | 0 => None
  | S f =>
      let p1 := parser_advance p in
      let func := ast_create_node NODE_FUNC_DECL in
      let name := parser_current_token p1 in
      if TokenType_beq (tok_type name) TOKEN_IDENTIFIER then
        let func := set_value (strcpy (tok_value name)) func in
        let '(matched, p2) := parser_match TOKEN_LPAREN (parser_advance p1) in
        do p3 <-
          (if matched then
             do p' <- skip_to_rparen p2; Some (snd (parser_match TOKEN_RPAREN p'))
           else Some p2);
        do (body, p4) <- parser_parse_block f p3;
        Some (set_left (Some body) func, register_function (value func) p4)
      else Some (func, p1)
  end.

(** The [while] loop of [parser_parse]. *)
Fixpoint program_loop (fuel : nat) (p : Parser) (program : ASTNode)
  : option (ASTNode * Parser) :=
  match fuel with
  | 0 => None
  | S f =>
      if negb (current_is TOKEN_EOF p) then
        if current_is TOKEN_NEWLINE p then program_loop f (parser_advance p) program
        else
          do (stmt, p1) <- parser_parse_statement f p;
          program_loop f p1 (add_child 200 stmt program)
      else Some (program, p)
  end.

Definition parser_parse (fuel : nat) (p : Parser) : option (ASTNode * Parser) :=
  program_loop fuel p (ast_create_node NODE_PROGRAM).
(** *** Code generator of the enhanced compiler *)

(** The [Compiler] struct, with the text written to [output] so far, and
    the static [in_function]. *)
Record Compiler : Set := mkCompiler {
  output : string;
  to_rust : bool;
  in_function : bool
}.

(** [compiler_create]; [in_function] is [false] when the program starts. *)
Definition compiler_create (rust : bool) : Compiler := mkCompiler EmptyString rust false.

(** [fprintf (compiler->output, text)] *)
Definition emit (text : string) (c : Compiler) : Compiler :=
  mkCompiler (output c +++ text) (to_rust c) (in_function c).

Definition set_in_function (b : bool) (c : Compiler) : Compiler :=
  mkCompiler (output c) (to_rust c) b.

Definition compiler_emit_c_headers (c : Compiler) : Compiler :=
  emit "#include <string.h>

" (emit "#include <stdlib.h>
" (emit "#include <stdio.h>
" c)).

Definition is_func_decl (n : ASTNode) : bool := NodeType_beq (type n) NODE_FUNC_DECL.

Section Statements.

(** [compiler_compile_node], as the functions below call it back. *)
Variable compile_node : ASTNode -> Compiler -> Compiler.

(** [for (i...) compiler_compile_node (compiler, nodes[i]);] *)
Definition compile_each (nodes : list ASTNode) (c : Compiler) : Compiler :=
  fold_left (fun c n => compile_node n c) nodes c.

(** The same loop with the indentation [fprintf] of the if branches. *)
Definition compile_each_indented (nodes : list ASTNode) (c : Compiler) : Compiler :=
  fold_left (fun c n => compile_node n (emit "    " c)) nodes c.

Definition compile_function (func : ASTNode) (c : Compiler) : Compiler :=
  let c1 :=
    if to_rust c
    then emit ("fn " +++ strcpy (value func) +++ "() -> i32 {
") c
    else emit ("int " +++ strcpy (value func) +++ "() {
") c in
  let c2 :=
    match left func with
    | Some body => set_in_function false (compile_each (children body) (set_in_function true c1))
    | None => c1
    end in
  let c3 :=
    if to_rust c2 then emit "    0
" c2 else emit "    return 0;
" c2 in
  emit "}

" c3.

(** The loops of the [NODE_PROGRAM] case. *)
Definition compile_functions (nodes : list ASTNode) (c : Compiler) : Compiler :=
  fold_left (fun c n => if is_func_decl n then compile_function n c else c) nodes c.

Definition compile_statements (nodes : list ASTNode) (c : Compiler) : Compiler :=
  fold_left (fun c n => if is_func_decl n then c else compile_node n c) nodes c.

End Statements.

Fixpoint compiler_compile_node (node : ASTNode) (c : Compiler) {struct node} : Compiler :=
  let compile (n : option ASTNode) (c : Compiler) : Compiler :=
    match n with
    | Some n => compiler_compile_node n c
    | None => c
    end in
  match type node with
  | NODE_PROGRAM =>
      let c1 :=
        if negb (in_function c) then
          if to_rust c then
            emit "fn main() {
" (compile_functions compiler_compile_node (children node) c)
          else
            emit "int main() {
" (compile_functions compiler_compile_node (children node)
     (compiler_emit_c_headers c))
        else c in
      let c2 := compile_statements compiler_compile_node (children node) c1 in
      if negb (in_function c2) then
        if to_rust c2 then emit "}
" c2
        else emit "    return 0;
}
" c2
      else c2
  | NODE_FUNC_DECL => c
  | NODE_VAR_DECL =>
      let c1 :=
        if to_rust c then emit ("    let " +++ strcpy (value node) +++ " = ") c
        else emit ("    int " +++ strcpy (value node) +++ " = ") c in
      let c2 :=
        match right node with
        | Some r => compiler_compile_node r c1
        | None => emit "0" c1
        end in
      emit ";
" c2
  | NODE_PRINT_STMT =>
      let c1 :=
        if to_rust c then emit ("    println!(" +++ char_str QUOTE +++ "{}" +++ char_str QUOTE) c
        else emit ("    printf(" +++ char_str QUOTE +++ "%d\n" +++ char_str QUOTE +++ ", ") c in
      let c2 :=
        match left node with
        | Some l => compiler_compile_node l (if to_rust c1 then emit ", " c1 else c1)
        | None => c1
        end in
      emit ");
" c2
  | NODE_IF_STMT =>
      let c1 := if to_rust c then emit "    if " c else emit "    if (" c in
      let c2 := compile (condition node) c1 in
      let c3 := if negb (to_rust c2) then emit ")" c2 else c2 in
      let c4 := emit " {
" c3 in
      let c5 :=
        match then_branch node with
        | Some t => compile_each_indented compiler_compile_node (children t) c4
        | None => c4
        end in
      let c6 := emit "    }" c5 in
      let c7 :=
        match else_branch node with
        | Some e =>
            let d1 := emit " else {
" c6 in
            let d2 :=
              if NodeType_beq (type e) NODE_IF_STMT
              then compiler_compile_node e (emit "    " d1)
              else compile_each_indented compiler_compile_node (children e) d1 in
            emit "    }" d2
        | None => c6
        end in
      emit "
" c7
  | NODE_RETURN_STMT =>
      let c1 := emit "    return " c in
      let c2 :=
        match left node with
        | Some l => compiler_compile_node l c1
        | None => emit "0" c1
        end in
      emit ";
" c2
  | NODE_BINARY_OP =>
      let c1 := compile (left node) c in
      let c2 := emit (" " +++ strcpy (value node) +++ " ") c1 in
      compile (right node) c2
  | NODE_NUMBER => emit (strcpy (value node)) c
  | NODE_STRING => emit (char_str QUOTE +++ strcpy (value node) +++ char_str QUOTE) c
  | NODE_IDENTIFIER => emit (strcpy (value node)) c
  | NODE_FUNC_CALL => emit (strcpy (value node) +++ "()") c
  | _ => c
  end.

Definition compiler_compile_function : ASTNode -> Compiler -> Compiler :=
  compile_function compiler_compile_node.

(** [compiler_compile (compiler, ast)]; a null [ast] emits nothing. *)
Definition compiler_compile (ast : option ASTNode) (c : Compiler) : Compiler :=
  match ast with
  | Some n => compiler_compile_node n c
  | None => c
  end.

(** *** The driver [main] of the enhanced compiler *)

(** What a run of [main] leaves: its exit code, and the output file it has
    written with its text. *)
Record Result : Set := mkResult {
  exit_code : nat;
  written : option (string * string)
}.

(** The loop over [argv[2..]]: [to_rust] and [bootstrap]. *)
Fixpoint parse_flags (args : list string) (o : bool * bool) : bool * bool :=
  match args with
  | [] => o
  | a :: rest =>
      if streq a "--rust" then parse_flags rest (true, snd o)
      else if streq a "--bootstrap" then parse_flags rest (fst o, true)
      else parse_flags rest o
  end.

Definition output_filename (rust bootstrap : bool) : string :=
  (if bootstrap then "solang_self_hosted" else "output")
  +++ (if rust then ".rs" else ".c").

Section Driver.

(** The file system, taken as given. *)
Variable read_file : string -> option string.
Variable fopen_w : string -> bool.

(** [main]; [None] when the lexer stores outside its buffer, or when
    [parser_parse] has not returned within [fuel]. *)
Definition main (fuel : nat) (argv : list string) : option Result :=
  match argv with
  | [] | [_] => Some (mkResult 1 None)
  | _ :: input :: flags =>
      let '(rust, bootstrap) := parse_flags flags (false, false) in
      match read_file input with
      | None => Some (mkResult 1 None)
      | Some src =>
          do lexer <- lexer_tokenize (lexer_create src);
          if has_error lexer then Some (mkResult 1 None)
          else
            do (ast, parser) <- parser_parse fuel (parser_create (tokens lexer));
            if p_has_error parser then Some (mkResult 1 None)
            else
              let file := output_filename rust bootstrap in
              if fopen_w file
              then Some (mkResult 0
                     (Some (file, output (compiler_compile (Some ast)
                                            (compiler_create rust)))))
              else Some (mkResult 1 None)
      end
  end.

End Driver.

End Enhanced.

(* ------------------------------------------------------------------ *)
(** ** The Solana extension (so_lang_solana.h, so_lang_solana.c) *)

Module Solana.

Inductive ConstraintType : Set :=
| CONSTRAINT_SIGNER | CONSTRAINT_WRITABLE | CONSTRAINT_INIT | CONSTRAINT_SEEDS
| CONSTRAINT_BUMP | CONSTRAINT_OWNER | CONSTRAINT_RENT_EXEMPT
| CONSTRAINT_TOKEN_MINT | CONSTRAINT_TOKEN_AUTHORITY.

Inductive SolanaDataType : Set :=
| SOLANA_TYPE_PUBKEY | SOLANA_TYPE_LAMPORTS | SOLANA_TYPE_U64 | SOLANA_TYPE_U32
| SOLANA_TYPE_U8 | SOLANA_TYPE_STRING | SOLANA_TYPE_BOOL
| SOLANA_TYPE_ACCOUNT_INFO | SOLANA_TYPE_INSTRUCTION | SOLANA_TYPE_PROGRAM_ID.

(** [struct SolanaASTNode] *)
Inductive SolanaASTNode : Set := mkSolanaAST {
  type : NodeType;
  value : string;
  left : option SolanaASTNode;
  right : option SolanaASTNode;
  condition : option SolanaASTNode;
  then_branch : option SolanaASTNode;
  else_branch : option SolanaASTNode;
  children : list SolanaASTNode;
  (* Solana-specific fields *)
  solana_type : SolanaDataType;
  constraint_type : ConstraintType;
  account_name : option string;
  instruction_name : option string;
  program_id : option string;
  is_signer : bool;
  is_writable : bool;
  is_init : bool;
  seeds : list string;
  bump : nat
}.

Definition solana_ast_create_node (t : NodeType) : SolanaASTNode :=
  mkSolanaAST t EmptyString None None None None None []
              SOLANA_TYPE_U64 CONSTRAINT_SIGNER None None None false false false [] 0.

(** [struct SolanaCompiler], with the text written to [output] so far. *)
Record SolanaCompiler : Set := mkSolanaCompiler {
  output : string;
  use_anchor : bool;
  native_solana : bool;
  program_name : option string;
  compiler_program_id : option string;
  instruction_count : nat;
  account_count : nat;
  state_count : nat
}.

Definition solana_compiler_create (anchor : bool) : SolanaCompiler :=
  mkSolanaCompiler EmptyString anchor (negb anchor) None None 0 0 0.

Definition emit (text : string) (c : SolanaCompiler) : SolanaCompiler :=
  mkSolanaCompiler (output c +++ text) (use_anchor c) (native_solana c)
    (program_name c) (compiler_program_id c) (instruction_count c)
    (account_count c) (state_count c).

(** [compiler->instruction_count++] *)
Definition count_instruction (c : SolanaCompiler) : SolanaCompiler :=
  mkSolanaCompiler (output c) (use_anchor c) (native_solana c)
    (program_name c) (compiler_program_id c) (S (instruction_count c))
    (account_count c) (state_count c).

(** [%s] of a [char*] field: the C string, and what glibc prints for a
    null pointer. *)
Definition show_str (s : option string) : string :=
  match s with
  | Some s => strcpy s
  | None => "(null)"
  end.

(** [%d] *)
Definition show_int (n : nat) : string := NilZero.string_of_uint (Nat.to_uint n).

Definition emit_anchor_imports (c : SolanaCompiler) : SolanaCompiler :=
  emit "use anchor_lang::prelude::*;
use anchor_spl::token::{self, Token, TokenAccount, Mint};
use anchor_spl::associated_token::AssociatedToken;

" c.

Definition emit_native_solana_imports (c : SolanaCompiler) : SolanaCompiler :=
  emit "use solana_program::{
    account_info::{next_account_info, AccountInfo},
    entrypoint,
    entrypoint::ProgramResult,
    msg,
    program_error::ProgramError,
    pubkey::Pubkey,
    system_instruction,
    program::{invoke, invoke_signed},
};

" c.

Definition declare_id (indent : string) (id : option string) (c : SolanaCompiler)
  : SolanaCompiler :=
  match id with
  | Some id =>
      emit (indent +++ "declare_id!(" +++ char_str QUOTE +++ strcpy id
            +++ char_str QUOTE +++ ");

") c
  | None => c
  end.

Definition emit_program_structure (program : SolanaASTNode) (c : SolanaCompiler)
  : SolanaCompiler :=
  if use_anchor c then
    declare_id "    " (program_id program)
      (emit ("#[program]
pub mod " +++ strcpy (value program) +++ " {
    use super::*;

") c)
  else
    emit "pub fn process_instruction(
    program_id: &Pubkey,
    accounts: &[AccountInfo],
    instruction_data: &[u8],
) -> ProgramResult {
" (declare_id EmptyString (program_id program)
     (emit "entrypoint!(process_instruction);

" c)).

Definition account_type_name (t : SolanaDataType) : string :=
  match t with
  | SOLANA_TYPE_PUBKEY => "Pubkey"
  | SOLANA_TYPE_ACCOUNT_INFO => "AccountInfo"
  | _ => "AccountInfo"
  end.

Definition emit_account (account : SolanaASTNode) (c : SolanaCompiler) : SolanaCompiler :=
  let c1 := emit "    #[account(" c in
  let c2 := if is_signer account then emit "signer, " c1 else c1 in
  let c3 := if is_writable account then emit "mut, " c2 else c2 in
  let c4 := if is_init account then emit "init, payer = payer, space = 8 + 32, " c3 else c3 in
  emit (")]
    pub " +++ show_str (account_name account) +++ ": Account<'info, "
        +++ account_type_name (solana_type account) +++ ">,
") c4.

Definition emit_account_validation (accounts : SolanaASTNode) (c : SolanaCompiler)
  : SolanaCompiler :=
  if use_anchor c then
    emit "}

" (fold_left (fun c a => emit_account a c) (children accounts)
     (emit ("#[derive(Accounts)]
pub struct " +++ show_str (instruction_name accounts) +++ "Context<'info> {
") c))
  else c.

Definition field_type_name (t : SolanaDataType) : string :=
  match t with
  | SOLANA_TYPE_PUBKEY => "Pubkey"
  | SOLANA_TYPE_U64 => "u64"
  | SOLANA_TYPE_U32 => "u32"
  | SOLANA_TYPE_BOOL => "bool"
  | SOLANA_TYPE_STRING => "String"
  | _ => "u64"
  end.

Definition emit_state_structure (state : SolanaASTNode) (c : SolanaCompiler)
  : SolanaCompiler :=
  let c1 := if use_anchor c then emit "#[account]
" c else c in
  let c2 := emit ("#[derive(Clone, Debug, PartialEq)]
pub struct " +++ strcpy (value state) +++ " {
") c1 in
  emit "}

" (fold_left
     (fun c field =>
        emit ("    pub " +++ strcpy (value field) +++ ": "
              +++ field_type_name (solana_type field) +++ ",
") c)
     (children state) c2).

Definition emit_error_types (c : SolanaCompiler) : SolanaCompiler :=
  if use_anchor c then
    emit ("#[error_code]
pub enum ErrorCode {
    #[msg(" +++ char_str QUOTE +++ "Custom error message" +++ char_str QUOTE +++ ")]
    CustomError,
}

") c
  else c.

Definition transfer_text (anchor : bool) : string :=
  if anchor then
"        token::transfer(
            CpiContext::new(
                ctx.accounts.token_program.to_account_info(),
                token::Transfer {
                    from: ctx.accounts.from.to_account_info(),
                    to: ctx.accounts.to.to_account_info(),
                    authority: ctx.accounts.authority.to_account_info(),
                },
            ),
            amount,
        )?;
"
  else
"            let instruction = system_instruction::transfer(
                from.key,
                to.key,
                amount,
            );
            invoke(&instruction, &[from.clone(), to.clone()])?;
".

Section Compile.

(** [compiler_compile_node], the code generator of the plain language.  It
    is a static function of another file, which [solana_compiler_compile]
    reaches through casts of its two arguments; what it writes for a node
    is taken as given. *)
Variable compiler_compile_node : SolanaCompiler -> SolanaASTNode -> string.

Section Handler.

(** [solana_compiler_compile], as [emit_instruction_handler] calls it back. *)
Variable compile : SolanaASTNode -> SolanaCompiler -> SolanaCompiler.

Definition compile_opt (n : option SolanaASTNode) (c : SolanaCompiler) : SolanaCompiler :=
  match n with
  | Some n => compile n c
  | None => c
  end.

Definition emit_instruction_handler_with (instruction : SolanaASTNode) (c : SolanaCompiler)
  : SolanaCompiler :=
  let c' :=
    if use_anchor c then
      let c1 := emit ("    pub fn " +++ show_str (instruction_name instruction)
                      +++ "(ctx: Context<" +++ show_str (instruction_name instruction)
                      +++ "Context>) -> Result<()> {
") c in
      let c2 :=
        match left instruction with
        | Some body => compile body (emit "        // Generated instruction logic
" c1)
        | None => c1
        end in
      emit "        Ok(())
    }

" c2
    else
      let c1 := emit ("    match instruction_data[0] {
        " +++ show_int (instruction_count c) +++ " => {
            msg!(" +++ char_str QUOTE +++ "Executing "
               +++ show_str (instruction_name instruction) +++ char_str QUOTE +++ ");
") c in
      let c2 := compile_opt (left instruction) c1 in
      emit "        },
    }
" c2 in
  count_instruction c'.

End Handler.

Fixpoint solana_compiler_compile (ast : SolanaASTNode) (c : SolanaCompiler) {struct ast}
  : SolanaCompiler :=
  match type ast with
  | NODE_PROGRAM_DECL =>
      let c1 := if use_anchor c then emit_anchor_imports c else emit_native_solana_imports c in
      let c2 := emit_program_structure ast c1 in
      let c3 := fold_left (fun c n => solana_compiler_compile n c) (children ast) c2 in
      if use_anchor c3 then emit "}
" c3
      else emit "    Ok(())
}
" c3
  | NODE_INSTRUCTION_DECL => emit_instruction_handler_with solana_compiler_compile ast c
  | NODE_ACCOUNT_DECL => emit_account_validation ast c
  | NODE_STATE_DECL => emit_state_structure ast c
  | NODE_TRANSFER_STMT => emit (transfer_text (use_anchor c)) c
  | NODE_REQUIRE_STMT =>
      if use_anchor c then
        emit ", ErrorCode::CustomError);
" (compile_opt solana_compiler_compile (condition ast) (emit "        require!(" c))
      else
        emit ") {
                return Err(ProgramError::InvalidArgument);
            }
" (compile_opt solana_compiler_compile (condition ast) (emit "            if !(" c))
  | NODE_PRINT_STMT =>
      let c1 := emit ("        msg!(" +++ char_str QUOTE) c in
      let c2 :=
        match left ast with
        | Some _ => emit ("Debug: {}" +++ char_str QUOTE) c1
        | None => c1
        end in
      emit ");
" c2
  | _ => emit (compiler_compile_node c ast) c
  end.

Definition emit_instruction_handler : SolanaASTNode -> SolanaCompiler -> SolanaCompiler :=
  emit_instruction_handler_with solana_compiler_compile.

End Compile.

(** The cast [(ASTNode* ) ast]: a node read through its leading fields. *)
Fixpoint as_ASTNode (n : SolanaASTNode) : ASTNode :=
  mkAST (type n) (value n)
    (option_map as_ASTNode (left n)) (option_map as_ASTNode (right n))
    (option_map as_ASTNode (condition n)) (option_map as_ASTNode (then_branch n))
    (option_map as_ASTNode (else_branch n)) (map as_ASTNode (children n))
    None false false false [].

(** An instance of the plain code generator: the one of the enhanced
    compiler, whose [to_rust] lies where [use_anchor] does. *)
Definition enhanced_compile_node (c : SolanaCompiler) (n : SolanaASTNode) : string :=
  Enhanced.output
    (Enhanced.compiler_compile_node (as_ASTNode n)
       (Enhanced.compiler_create (use_anchor c))).

End Solana.

(* ------------------------------------------------------------------ *)
(** ** Vocabulary of the statements *)

Definition last_token (toks : list Token) : option Token :=
  last (map Some toks) None.

(** The token sequence ends with the end-of-input token. *)
Definition ends_in_eof (toks : list Token) : bool :=
  match last_token toks with
  | Some t => TokenType_beq (tok_type t) TOKEN_EOF
  | None => false
  end.

(** [n] copies of a character, and of a string. *)
Definition chars (n : nat) (c : ascii) : string := string_of_list_ascii (repeat c n).

Fixpoint copies (n : nat) (s : string) : string :=
  match n with
  | 0 => EmptyString
  | S k => s +++ copies k s
  end.

(** The scan is over: the current character is the terminator. *)
Definition at_end (l : Lexer) : Prop := strlen (source l) <= pos l.
(** Lexemes fit the [value] array of a token. *)
Definition lexemes_fit (l : Lexer) : Prop :=
  Forall (fun t => String.length (tok_value t) <= MAX_TOKEN_LEN - 1) (tokens l).

(** The single [NODE_BINARY_OP] node [parser_parse_binary] builds. *)
Definition binary_op (op : string) (l r : option ASTNode) : ASTNode :=
  mkAST NODE_BINARY_OP (strcpy op) l r None None None [] None false false false [].

(** The source text [}] as the lexer hands it to the parser. *)
Definition stray_brace : list Token :=
  [mkToken TOKEN_RBRACE "}" 1 1; mkToken TOKEN_EOF EmptyString 1 2].

(** Tokens for examples, with positions left out. *)
Definition tk (t : TokenType) (v : string) : Token := mkToken t v 0 0.
(** [p'] is a later state of the parse [p] works on. *)
Definition follows (p p' : Parser) : Prop :=
  p_tokens p' = p_tokens p /\ p_pos p <= p_pos p'.

(** The tokens not yet consumed, the current one included. *)
Definition tokens_left (p : Parser) : nat := p_token_count p - p_pos p.
(** The tokens of [a + b * c]. *)
Definition a_plus_b_times_c : list Token :=
  [tk TOKEN_IDENTIFIER "a"; tk TOKEN_PLUS "+"; tk TOKEN_IDENTIFIER "b";
   tk TOKEN_MULTIPLY "*"; tk TOKEN_IDENTIFIER "c"; tk TOKEN_EOF EmptyString].

Definition leaf (t : NodeType) (v : string) : ASTNode :=
  mkAST t v None None None None None [] None false false false [].

(** The node kind of a literal token. *)
Definition literal_kind (t : TokenType) : option NodeType :=
  match t with
  | TOKEN_NUMBER => Some NODE_NUMBER
  | TOKEN_STRING => Some NODE_STRING
  | _ => None
  end.

(** The arguments of a call as each parser passes over them, from the
    token after the opening parenthesis: so_lang.c reads none; the enhanced
    compiler moves to the first closing parenthesis or end-of-input token. *)
Definition base_arguments (q q' : Parser) : Prop := q' = q.

Definition enhanced_arguments (q q' : Parser) : Prop :=
  q' = set_pos (p_pos q') q
  /\ p_pos q <= p_pos q'
  /\ (current_is TOKEN_RPAREN q' || current_is TOKEN_EOF q') = true
  /\ forall i, p_pos q <= i < p_pos q' ->
       (current_is TOKEN_RPAREN (set_pos i q) || current_is TOKEN_EOF (set_pos i q))
       = false.

Section Grammar.

Variable arguments : Parser -> Parser -> Prop.

(** The expressions of the two parsers as a grammar over parser states:
    [parsed_expression p r p'] reads: an expression parsed at [p] gives
    the tree [r] and ends at [p'].  An expression is one primary, then,
    exactly when an operator token follows it, that operator and one more
    primary, the two becoming the operands of one [NODE_BINARY_OP] node.
    A primary is nothing at a token that starts none, a leaf for a
    literal, an identifier or a call, and at an opening parenthesis
    whatever the expression after it gives; a closing parenthesis that
    follows is consumed, one that is missing is not asked for. *)
Inductive parsed_primary : Parser -> option ASTNode -> Parser -> Prop :=
| Primary_none p :
    literal_kind (tok_type (parser_current_token p)) = None ->
    current_is TOKEN_IDENTIFIER p = false ->
    current_is TOKEN_LPAREN p = false ->
    parsed_primary p None p
| Primary_literal p k :
    literal_kind (tok_type (parser_current_token p)) = Some k ->
    parsed_primary p
      (Some (leaf k (strcpy (tok_value (parser_current_token p)))))
      (parser_advance p)
| Primary_identifier p :
    current_is TOKEN_IDENTIFIER p = true ->
    current_is TOKEN_LPAREN (parser_advance p) = false ->
    parsed_primary p
      (Some (leaf NODE_IDENTIFIER (strcpy (tok_value (parser_current_token p)))))
      (parser_advance p)
| Primary_call p q :
    current_is TOKEN_IDENTIFIER p = true ->
    current_is TOKEN_LPAREN (parser_advance p) = true ->
    arguments (parser_advance (parser_advance p)) q ->
    parsed_primary p
      (Some (leaf NODE_FUNC_CALL (strcpy (tok_value (parser_current_token p)))))
      (snd (parser_match TOKEN_RPAREN q))
| Primary_parenthesis p r q :
    current_is TOKEN_LPAREN p = true ->
    parsed_expression (parser_advance p) r q ->
    parsed_primary p r (snd (parser_match TOKEN_RPAREN q))
with parsed_expression : Parser -> option ASTNode -> Parser -> Prop :=
| Expression_primary p l q :
    parsed_primary p l q ->
    is_binary_operator (tok_type (parser_current_token q)) = false ->
    parsed_expression p l q
| Expression_operator p l q r q' :
    parsed_primary p l q ->
    is_binary_operator (tok_type (parser_current_token q)) = true ->
    parsed_primary (parser_advance q) r q' ->
    parsed_expression p
      (Some (binary_op (tok_value (parser_current_token q)) l r)) q'.

End Grammar.

(** The tokens of [( a + b * c )]. *)
Definition open_a_plus_b_times_c : list Token :=
  [tk TOKEN_LPAREN "("; tk TOKEN_IDENTIFIER "a"; tk TOKEN_PLUS "+";
   tk TOKEN_IDENTIFIER "b"; tk TOKEN_MULTIPLY "*"; tk TOKEN_IDENTIFIER "c";
   tk TOKEN_RPAREN ")"; tk TOKEN_EOF EmptyString].

(** The tokens of [+ b]. *)
Definition plus_b : list Token :=
  [tk TOKEN_PLUS "+"; tk TOKEN_IDENTIFIER "b"; tk TOKEN_EOF EmptyString].

(** The node kinds of section 4.3 that make a chain program. *)
Definition is_chain_kind (t : NodeType) : bool :=
  match t with
  | NODE_PROGRAM_DECL | NODE_INSTRUCTION_DECL | NODE_ACCOUNT_CONSTRAINT
  | NODE_TRANSFER_STMT | NODE_REQUIRE_STMT | NODE_EMIT_STMT => true
  | _ => false
  end.

Definition holds_in (f : ASTNode -> bool) (n : option ASTNode) : bool :=
  match n with
  | Some n => f n
  | None => false
  end.

(** "The tree contains a node of such a kind anywhere in it": in any
    child slot, at any depth. *)
Fixpoint contains_chain_node (n : ASTNode) : bool :=
  is_chain_kind (type n)
  || holds_in contains_chain_node (left n)
  || holds_in contains_chain_node (right n)
  || holds_in contains_chain_node (condition n)
  || holds_in contains_chain_node (then_branch n)
  || holds_in contains_chain_node (else_branch n)
  || existsb contains_chain_node (children n).

(** The same search restricted to the [children] arrays. *)
Fixpoint contains_chain_child (n : ASTNode) : bool :=
  is_chain_kind (type n) || existsb contains_chain_child (children n).

(** [if x { instruction foo ... }]: an instruction declaration in the
    branch of an if statement at top level. *)
Definition instruction_under_if : ASTNode :=
  set_children
    [set_then_branch (Some (set_value "foo" (ast_create_node NODE_INSTRUCTION_DECL)))
       (set_condition (Some (leaf NODE_IDENTIFIER "x")) (ast_create_node NODE_IF_STMT))]
    (ast_create_node NODE_PROGRAM).

(** An instruction declaration in the body of a function declaration. *)
Definition instruction_in_function : ASTNode :=
  set_children
    [set_left (Some (set_children
                       [set_value "foo" (ast_create_node NODE_INSTRUCTION_DECL)]
                       (ast_create_node NODE_PROGRAM)))
       (set_value "f" (ast_create_node NODE_FUNC_DECL))]
    (ast_create_node NODE_PROGRAM).
(** The number of nodes of a tree. *)
Definition size_in (f : ASTNode -> nat) (n : option ASTNode) : nat :=
  match n with
  | Some n => f n
  | None => 0
  end.

Fixpoint node_size (n : ASTNode) : nat :=
  S (size_in node_size (left n) + size_in node_size (right n)
     + size_in node_size (condition n) + size_in node_size (then_branch n)
     + size_in node_size (else_branch n)
     + list_sum (map node_size (children n))).

(** Texts put one after the other. *)
Definition concat_text (l : list string) : string :=
  fold_right String.append EmptyString l.

(** The state of the enhanced code generator with nothing written yet,
    and the same state with text written before. *)
Definition blank (rust inf : bool) : Enhanced.Compiler :=
  Enhanced.mkCompiler EmptyString rust inf.

Definition prepend (s : string) (c : Enhanced.Compiler) : Enhanced.Compiler :=
  Enhanced.mkCompiler (s +++ Enhanced.output c) (Enhanced.to_rust c)
                      (Enhanced.in_function c).

(** The text [compiler_compile_node] writes for a node, and the text
    [compiler_compile_function] writes for a function declaration. *)
Definition emitted (rust inf : bool) (n : ASTNode) : string :=
  Enhanced.output (Enhanced.compiler_compile_node n (blank rust inf)).

Definition function_text (rust : bool) (f : ASTNode) : string :=
  Enhanced.output (Enhanced.compiler_compile_function f (blank rust false)).

(** The fixed pieces of the generated program. *)
Definition c_headers : string :=
  "#include <stdio.h>
#include <stdlib.h>
#include <string.h>

".

Definition preamble (rust : bool) : string :=
  if rust then EmptyString else c_headers.

Definition entry_open (rust : bool) : string :=
  if rust then "fn main() {
" else "int main() {
".

Definition entry_close (rust : bool) : string :=
  if rust then "}
" else "    return 0;
}
".

Definition function_open (rust : bool) (name : string) : string :=
  if rust then "fn " +++ strcpy name +++ "() -> i32 {
" else "int " +++ strcpy name +++ "() {
".

Definition fallback_return (rust : bool) : string :=
  if rust then "    0
" else "    return 0;
".

(** The text of the statements of a function body. *)
Definition body_text (rust : bool) (f : ASTNode) : string :=
  match left f with
  | Some body => concat_text (map (emitted rust true) (children body))
  | None => EmptyString
  end.
(** [fn f() { return 1 }], [let x = 42], [print(x)] *)
Definition example_program : ASTNode :=
  set_children
    [set_left (Some (set_children
                       [set_left (Some (leaf NODE_NUMBER "1"))
                          (ast_create_node NODE_RETURN_STMT)]
                       (ast_create_node NODE_PROGRAM)))
       (set_value "f" (ast_create_node NODE_FUNC_DECL));
     set_right (Some (leaf NODE_NUMBER "42"))
       (set_value "x" (ast_create_node NODE_VAR_DECL));
     set_left (Some (leaf NODE_IDENTIFIER "x")) (ast_create_node NODE_PRINT_STMT)]
    (ast_create_node NODE_PROGRAM).
(** Trees of the Solana extension for the examples. *)
Definition sleaf (t : NodeType) (v : string) : Solana.SolanaASTNode :=
  Solana.mkSolanaAST t v None None None None None []
    Solana.SOLANA_TYPE_U64 Solana.CONSTRAINT_SIGNER None None None
    false false false [] 0.

Definition sbinary (op : string) (l r : Solana.SolanaASTNode) : Solana.SolanaASTNode :=
  Solana.mkSolanaAST NODE_BINARY_OP op (Some l) (Some r) None None None []
    Solana.SOLANA_TYPE_U64 Solana.CONSTRAINT_SIGNER None None None
    false false false [] 0.

(** [require(cond, message)] as [solana_parse_require_statement] builds it:
    the condition in [condition], the message in [value]. *)
Definition require_stmt (cond : option Solana.SolanaASTNode) (message : string)
  : Solana.SolanaASTNode :=
  Solana.mkSolanaAST NODE_REQUIRE_STMT message None None cond None None []
    Solana.SOLANA_TYPE_U64 Solana.CONSTRAINT_SIGNER None None None
    false false false [] 0.

(** [instruction name() { body }] as [solana_parse_instruction_declaration]
    builds it. *)
Definition instruction_decl (name : string) (body : option Solana.SolanaASTNode)
  : Solana.SolanaASTNode :=
  Solana.mkSolanaAST NODE_INSTRUCTION_DECL name body None None None None []
    Solana.SOLANA_TYPE_U64 Solana.CONSTRAINT_SIGNER None (Some name) None
    false false false [] 0.

Definition program_decl (name : string) (items : list Solana.SolanaASTNode)
  : Solana.SolanaASTNode :=
  Solana.mkSolanaAST NODE_PROGRAM_DECL name None None None None None items
    Solana.SOLANA_TYPE_U64 Solana.CONSTRAINT_SIGNER None None None
    false false false [] 0.

(** [require(x > 0, "must be positive")], scenario E of the specification. *)
Definition require_positive : Solana.SolanaASTNode :=
  require_stmt (Some (sbinary ">" (sleaf NODE_IDENTIFIER "x") (sleaf NODE_NUMBER "0")))
               "must be positive".

(** [program P { instruction a() { instruction b() { } } instruction c() { } }] *)
Definition nested_instructions : Solana.SolanaASTNode :=
  program_decl "P"
    [instruction_decl "a" (Some (instruction_decl "b" None));
     instruction_decl "c" None].

(** [program P { instruction a() { print(1) } instruction c() { } }] *)
Definition flat_instructions : Solana.SolanaASTNode :=
  program_decl "P"
    [instruction_decl "a"
       (Some (Solana.mkSolanaAST NODE_PRINT_STMT EmptyString
                (Some (sleaf NODE_NUMBER "1")) None None None None []
                Solana.SOLANA_TYPE_U64 Solana.CONSTRAINT_SIGNER None None None
                false false false [] 0));
     instruction_decl "c" None].

(** The node with another message in [value]. *)
Definition with_message (m : string) (n : Solana.SolanaASTNode) : Solana.SolanaASTNode :=
  Solana.mkSolanaAST (Solana.type n) m (Solana.left n) (Solana.right n)
    (Solana.condition n) (Solana.then_branch n) (Solana.else_branch n)
    (Solana.children n) (Solana.solana_type n) (Solana.constraint_type n)
    (Solana.account_name n) (Solana.instruction_name n) (Solana.program_id n)
    (Solana.is_signer n) (Solana.is_writable n) (Solana.is_init n)
    (Solana.seeds n) (Solana.bump n).

(** The compiler has only appended text, and kept its target. *)
Definition extends (c c' : Solana.SolanaCompiler) : Prop :=
  Solana.use_anchor c' = Solana.use_anchor c
  /\ exists t, Solana.output c' = Solana.output c +++ t.

(** The node kinds [solana_compiler_compile] has no case of its own for:
    it hands them to the plain code generator. *)
Definition plain_kind (t : NodeType) : bool :=
  match t with
  | NODE_PROGRAM_DECL | NODE_INSTRUCTION_DECL | NODE_ACCOUNT_DECL | NODE_STATE_DECL
  | NODE_TRANSFER_STMT | NODE_REQUIRE_STMT | NODE_PRINT_STMT => false
  | _ => true
  end.

(** The text before and after the condition of a require guard. *)
Definition guard_opening (anchor : bool) : string :=
  if anchor then "        require!(" else "            if !(".

Definition guard_closing (anchor : bool) : string :=
  if anchor then ", ErrorCode::CustomError);
"
  else ") {
                return Err(ProgramError::InvalidArgument);
            }
".

(** The opening of the dispatch arm of opcode [k] for instruction [name]. *)
Definition dispatch_arm (k : nat) (name : string) : string :=
  "    match instruction_data[0] {
        " +++ Solana.show_int k +++ " => {
            msg!(" +++ char_str QUOTE +++ "Executing " +++ name +++ char_str QUOTE +++ ");
".

Definition is_instruction (n : Solana.SolanaASTNode) : bool :=
  NodeType_beq (Solana.type n) NODE_INSTRUCTION_DECL.

(** No instruction or program declaration where
    [solana_compiler_compile] descends. *)
Fixpoint instruction_free (n : Solana.SolanaASTNode) : bool :=
  match Solana.type n with
  | NODE_INSTRUCTION_DECL | NODE_PROGRAM_DECL => false
  | NODE_REQUIRE_STMT =>
      match Solana.condition n with
      | Some c => instruction_free c
      | None => true
      end
  | _ => true
  end.

(** An item of a program body whose instructions do not nest. *)
Definition flat_item (n : Solana.SolanaASTNode) : bool :=
  if is_instruction n
  then match Solana.left n with
       | Some b => instruction_free b
       | None => true
       end
  else instruction_free n.

(** The instruction declarations among the items. *)
Definition count_instructions (items : list Solana.SolanaASTNode) : nat :=
  length (filter is_instruction items).
(** "The source is [src] and the position is at least [k]". *)
Definition scanned_to (src : string) (k : nat) (l : Lexer) : Prop :=
  source l = src /\ k <= pos l.

(** "[f] writes by appending, and leaves [to_rust] and [in_function] as
    they were", at one state and at every state. *)
Definition appends_at (f : Enhanced.Compiler -> Enhanced.Compiler)
  (c : Enhanced.Compiler) : Prop :=
  Enhanced.to_rust (f c) = Enhanced.to_rust c
  /\ Enhanced.in_function (f c) = Enhanced.in_function c
  /\ forall s, f (prepend s c) = prepend s (f c).

Definition appends (f : Enhanced.Compiler -> Enhanced.Compiler) : Prop :=
  forall c, appends_at f c.

(** The instruction counter is untouched. *)
Definition same_count (c c' : Solana.SolanaCompiler) : Prop :=
  Solana.instruction_count c' = Solana.instruction_count c.

(* ------------------------------------------------------------------ *)
(** ** Vocabulary of the further properties: the lexers *)

(** The newline characters among the first [n] characters of the C string [s]. *)
Fixpoint newlines_before (n : nat) (s : string) : nat :=
  match n, s with
  | S n', String c r =>
      if is_nul c then 0
      else (if Ascii.eqb c LF then 1 else 0) + newlines_before n' r
  | _, _ => 0
  end.

(** The newline characters of the C string [s]. *)
Definition newlines (s : string) : nat := newlines_before (String.length s) s.

(** The lexer's line counter is one more than the newlines it has passed. *)
Definition line_tracks (l : Lexer) : Prop :=
  line l = 1 + newlines_before (pos l) (source l).

(** The lines recorded in the tokens start at [from] and never go down. *)
Fixpoint lines_ascend (from : nat) (toks : list Token) : Prop :=
  match toks with
  | [] => True
  | t :: r => from <= tok_line t /\ lines_ascend (tok_line t) r
  end.

Definition lines_ordered (l : Lexer) : Prop :=
  1 <= line l
  /\ lines_ascend 1 (tokens l)
  /\ Forall (fun t => tok_line t <= line l) (tokens l).

(** No token of the sequence is the end-of-input token. *)
Definition eof_free (toks : list Token) : bool :=
  forallb (fun t => negb (TokenType_beq (tok_type t) TOKEN_EOF)) toks.

(** Every character of [s] passes the test [f]. *)
Definition all_chars (f : ascii -> bool) (s : string) : bool :=
  forallb f (list_ascii_of_string s).

Definition no_backslash (s : string) : bool :=
  all_chars (fun c => negb (Ascii.eqb c BACKSLASH)) s.

(** The first [n] characters of [s]. *)
Definition first_chars (n : nat) (s : string) : string := String.substring 0 n s.

(** [n] rounds of a loop body. *)
Fixpoint steps {S : Type} (step : S -> S) (n : nat) (s : S) : S :=
  match n with
  | 0 => s
  | Datatypes.S k => steps step k (step s)
  end.

(** [n] calls of [lexer_advance]. *)
Definition advance_n (n : nat) (l : Lexer) : Lexer := steps lexer_advance n l.

(** The buffer after the characters of [s] have been stored under the guard
    [i < MAX_TOKEN_LEN - 1]. *)
Fixpoint copy_into (buf s : string) : string :=
  match s with
  | EmptyString => buf
  | String c r => copy_into (buffer_put buf c) r
  end.

(** The lexeme [run] lies at the current position of [l], after [pre] and
    before [rest]. *)
Definition lexeme_at (pre run rest : string) (l : Lexer) : Prop :=
  source l = pre +++ run +++ rest
  /\ pos l = String.length pre
  /\ strlen pre = String.length pre.

(** The tests of the scanning loops, and the lexemes they accept. *)
Definition blank_char (c : ascii) : bool := isspace c && negb (Ascii.eqb c LF).

Definition digit_or_dot (c : ascii) : bool := isdigit c || Ascii.eqb c "."%char.

Definition string_char (c : ascii) : bool := negb (Ascii.eqb c QUOTE) && negb (is_nul c).

Definition identifier_shape (s : string) : bool :=
  match s with
  | EmptyString => false
  | String c r => (isalpha c || Ascii.eqb c "_"%char) && all_chars ident_char r
  end.

Definition number_shape (s : string) : bool :=
  match s with
  | EmptyString => false
  | String c r => isdigit c && all_chars digit_or_dot r
  end.

(** The type and the text of the tokens. *)
Definition lexemes (toks : list Token) : list (TokenType * string) :=
  map (fun t => (tok_type t, tok_value t)) toks.

(** The lexer has read [pre], has [rest] before it, has stored the tokens
    [L] and has reported no error. *)
Definition scanned (pre rest : string) (L : list (TokenType * string)) (l : Lexer) : Prop :=
  lexeme_at pre EmptyString rest l
  /\ lexemes (tokens l) = L
  /\ has_error l = false.

(* ------------------------------------------------------------------ *)
(** ** Vocabulary of the further properties: the parser *)

(** [p'] is a state the parser reaches from [p]: the same tokens, a
    position that is not before, the error flag still set if it was, the
    diagnostics and the registry of functions extended at their ends, and
    the registry within its bound if it was. *)
Definition later (p p' : Parser) : Prop :=
  p_tokens p' = p_tokens p
  /\ p_pos p <= p_pos p'
  /\ (p_has_error p = true -> p_has_error p' = true)
  /\ (exists ds, p_stderr p' = p_stderr p ++ ds)
  /\ (exists fs, function_names p' = function_names p ++ fs)
  /\ (function_count p <= MAX_FUNCTIONS -> function_count p' <= MAX_FUNCTIONS).

(** The only diagnostic of the parser. *)
Definition brace_errors (p p' : Parser) : Prop :=
  exists ds,
    p_stderr p' = p_stderr p ++ ds
    /\ Forall (fun d => diag_message d = "Expected '{'") ds
    /\ p_has_error p' = p_has_error p || negb (length ds =? 0).

(** The tokens at which [parser_parse_primary] consumes something. *)
Definition starts_primary (t : TokenType) : bool :=
  match t with
  | TOKEN_NUMBER | TOKEN_STRING | TOKEN_IDENTIFIER | TOKEN_LPAREN => true
  | _ => false
  end.

(** The tokens at which [parser_parse_statement] consumes something. *)
Definition starts_statement (t : TokenType) : bool :=
  match t with
  | TOKEN_FN | TOKEN_LET | TOKEN_PRINT | TOKEN_IF | TOKEN_RETURN
  | TOKEN_NUMBER | TOKEN_STRING | TOKEN_IDENTIFIER | TOKEN_LPAREN
  | TOKEN_NEWLINE | TOKEN_SEMICOLON => true
  | t => is_binary_operator t
  end.

(** Token sequences for examples. *)
Definition let_x_tokens : list Token :=
  [tk TOKEN_LET "let"; tk TOKEN_IDENTIFIER "x"; tk TOKEN_ASSIGN "=";
   tk TOKEN_NUMBER "1"; tk TOKEN_EOF EmptyString].

Definition if_without_block : list Token :=
  [tk TOKEN_IF "if"; tk TOKEN_IDENTIFIER "x"; tk TOKEN_EOF EmptyString].

(* ------------------------------------------------------------------ *)
(** ** Vocabulary of the further properties: the code generators *)

(** Expression trees: literals, identifiers, calls, and operator nodes with
    both operands. *)
Fixpoint is_expression (n : ASTNode) : bool :=
  match type n with
  | NODE_BINARY_OP =>
      match left n, right n with
      | Some l, Some r => is_expression l && is_expression r
      | _, _ => false
      end
  | NODE_NUMBER | NODE_STRING | NODE_IDENTIFIER | NODE_FUNC_CALL => true
  | _ => false
  end.

(** The leaves and the operators of an expression tree, from left to right,
    each as it is written to the output. *)
Fixpoint in_order (n : ASTNode) : list string :=
  match type n with
  | NODE_BINARY_OP =>
      (match left n with Some l => in_order l | None => [] end)
      ++ [strcpy (value n)]
      ++ (match right n with Some r => in_order r | None => [] end)
  | NODE_STRING => [char_str QUOTE +++ strcpy (value n) +++ char_str QUOTE]
  | NODE_FUNC_CALL => [strcpy (value n) +++ "()"]
  | _ => [strcpy (value n)]
  end.

(** Words separated by single spaces. *)
Fixpoint spaced (l : list string) : string :=
  match l with
  | [] => EmptyString
  | [x] => x
  | x :: r => x +++ " " +++ spaced r
  end.

(** The trees of [(a + b) * c] and of [a + (b * c)]. *)
Definition grouped_left : ASTNode :=
  binary_op "*" (Some (binary_op "+" (Some (leaf NODE_IDENTIFIER "a"))
                                      (Some (leaf NODE_IDENTIFIER "b"))))
                (Some (leaf NODE_IDENTIFIER "c")).

Definition grouped_right : ASTNode :=
  binary_op "+" (Some (leaf NODE_IDENTIFIER "a"))
                (Some (binary_op "*" (Some (leaf NODE_IDENTIFIER "b"))
                                     (Some (leaf NODE_IDENTIFIER "c")))).

(* ------------------------------------------------------------------ *)
(** ** Vocabulary of the further properties: classifier, driver, Solana *)

(** The first node of a chain kind met when the tree is walked from the
    root through the [children] arrays, a node before its children. *)
Fixpoint first_chain_child (n : ASTNode) : option ASTNode :=
  if is_chain_kind (type n) then Some n
  else
    (fix first (cs : list ASTNode) : option ASTNode :=
       match cs with
       | [] => None
       | c :: cs' =>
           match first_chain_child c with
           | Some m => Some m
           | None => first cs'
           end
       end) (children n).

(** The statics after a search that stopped at the node [m]. *)
Definition detected_at (m : ASTNode) (g : Base.Detected) : Base.Detected :=
  Base.mkDetected true
    (if NodeType_beq (type m) NODE_PROGRAM_DECL
     then Some (strcpy (value m))
     else Base.detected_program_name g).

(** [instruction foo] before [program bar] at top level. *)
Definition instruction_then_program : ASTNode :=
  set_children
    [set_value "foo" (ast_create_node NODE_INSTRUCTION_DECL);
     set_value "bar" (ast_create_node NODE_PROGRAM_DECL)]
    (ast_create_node NODE_PROGRAM).

(** What the usage text of [main] promises of the flags. *)
Definition flags_consistent (o : Base.Options) : Prop :=
  (Base.use_anchor o = true -> Base.force_solana o = true)
  /\ (Base.force_solana o = true -> Base.to_rust o = true).

(** The fields of the Solana compiler that its code generator only reads,
    and the instruction counter, which it only increments. *)
Definition bookkeeping (c c' : Solana.SolanaCompiler) : Prop :=
  Solana.use_anchor c' = Solana.use_anchor c
  /\ Solana.native_solana c' = Solana.native_solana c
  /\ Solana.program_name c' = Solana.program_name c
  /\ Solana.compiler_program_id c' = Solana.compiler_program_id c
  /\ Solana.account_count c' = Solana.account_count c
  /\ Solana.state_count c' = Solana.state_count c
  /\ Solana.instruction_count c <= Solana.instruction_count c'.

(** The text [emit_account] writes for one account, and the line
    [emit_state_structure] writes for one field. *)
Definition account_text (a : Solana.SolanaASTNode) : string :=
  "    #[account("
  +++ (if Solana.is_signer a then "signer, " else EmptyString)
  +++ (if Solana.is_writable a then "mut, " else EmptyString)
  +++ (if Solana.is_init a then "init, payer = payer, space = 8 + 32, " else EmptyString)
  +++ ")]
    pub " +++ Solana.show_str (Solana.account_name a) +++ ": Account<'info, "
  +++ Solana.account_type_name (Solana.solana_type a) +++ ">,
".

Definition field_text (f : Solana.SolanaASTNode) : string :=
  "    pub " +++ strcpy (Solana.value f) +++ ": "
  +++ Solana.field_type_name (Solana.solana_type f) +++ ",
".

(** The characters of a program id that passes: letters and digits other
    than [0], [O], [I] and [l]. *)
Definition base58_char (c : ascii) : bool :=
  isalnum c
  && negb (Ascii.eqb c "0"%char) && negb (Ascii.eqb c "O"%char)
  && negb (Ascii.eqb c "I"%char) && negb (Ascii.eqb c "l"%char).

(* ------------------------------------------------------------------ *)
(** ** Vocabulary of the further properties: the enhanced compiler end to end *)

(** A run of digits with at most one dot, none when [has_dot] is set: what
    the loop of [lexer_read_number] of the enhanced compiler accepts. *)
Fixpoint decimal_run (has_dot : bool) (s : string) : bool :=
  match s with
  | EmptyString => true
  | String c r =>
      (isdigit c || (Ascii.eqb c "."%char && negb has_dot))
      && decimal_run (if Ascii.eqb c "."%char then true else has_dot) r
  end.

(** [has_dot] after the run. *)
Fixpoint dot_seen (has_dot : bool) (s : string) : bool :=
  match s with
  | EmptyString => has_dot
  | String c r => dot_seen (if Ascii.eqb c "."%char then true else has_dot) r
  end.

Definition decimal_shape (s : string) : bool :=
  match s with
  | EmptyString => false
  | String c r => isdigit c && decimal_run false r
  end.

(** The characters of a line comment. *)
Definition comment_char (c : ascii) : bool := negb (Ascii.eqb c LF) && negb (is_nul c).

(** The program generated for [let name = number]. *)
Definition let_program_text (rust : bool) (name number : string) : string :=
  if rust then
    "fn main() {
    let " +++ name +++ " = " +++ number +++ ";
}
"
  else
    c_headers +++ "int main() {
    int " +++ name +++ " = " +++ number +++ ";
    return 0;
}
".

(* ------------------------------------------------------------------ *)
(** ** Vocabulary of the further properties: the statement parser of so_lang.c *)

(** The tokens at which [parser_parse_statement] of so_lang.c consumes
    something, or calls one of the two functions it only declares. *)
Definition base_starts_statement (t : TokenType) : bool :=
  match t with
  | TOKEN_PROGRAM | TOKEN_INSTRUCTION
  | TOKEN_LET | TOKEN_PRINT | TOKEN_IF | TOKEN_RETURN
  | TOKEN_NUMBER | TOKEN_STRING | TOKEN_IDENTIFIER | TOKEN_LPAREN
  | TOKEN_NEWLINE | TOKEN_SEMICOLON => true
  | t => is_binary_operator t
  end.

(** No token is the keyword [program] or [instruction]. *)
Definition no_declarations (toks : list Token) : bool :=
  forallb (fun t => negb (TokenType_beq (tok_type t) TOKEN_PROGRAM)
                    && negb (TokenType_beq (tok_type t) TOKEN_INSTRUCTION)) toks.

(** A node of no chain kind and with no children. *)
Definition plain_node (n : ASTNode) : Prop :=
  is_chain_kind (type n) = false /\ children n = [].

(** More than a hundred numbers, then the end of the input. *)
Definition numbers_then_eof (nums : list Token) (e : Token) : bool :=
  forallb (fun t => TokenType_beq (tok_type t) TOKEN_NUMBER) nums
  && TokenType_beq (tok_type e) TOKEN_EOF
  && (100 <? length nums).

(** What a statement parser returns is null or a plain node. *)
Definition plain_result (n : option ASTNode) : Prop :=
  forall s, n = Some s -> plain_node s.

(** [fn main] as the lexer of so_lang.c hands it to the parser. *)
Definition fn_tokens : list Token :=
  [tk TOKEN_FN "fn"; tk TOKEN_IDENTIFIER "main"; tk TOKEN_EOF EmptyString].

(* ------------------------------------------------------------------ *)
(** ** Vocabulary of the further properties: tokens and their types *)

(** The text a token of so_lang.c may hold, by its type: the text of the
    punctuation, a number, the inside of a string literal, or a word that
    [lexer_read_identifier] classifies as the type says. *)
Definition lexeme_ok (t : TokenType) (v : string) : bool :=
  match t with
  | TOKEN_EOF => String.eqb v EmptyString
  | TOKEN_NEWLINE => String.eqb v (char_str LF)
  | TOKEN_NUMBER => number_shape v
  | TOKEN_STRING => all_chars string_char v
  | TOKEN_ASSIGN => String.eqb v "="
  | TOKEN_EQUAL => String.eqb v "=="
  | TOKEN_PLUS => String.eqb v "+"
  | TOKEN_MINUS => String.eqb v "-"
  | TOKEN_MULTIPLY => String.eqb v "*"
  | TOKEN_DIVIDE => String.eqb v "/"
  | TOKEN_LESS => String.eqb v "<"
  | TOKEN_GREATER => String.eqb v ">"
  | TOKEN_LPAREN => String.eqb v "("
  | TOKEN_RPAREN => String.eqb v ")"
  | TOKEN_LBRACE => String.eqb v "{"
  | TOKEN_RBRACE => String.eqb v "}"
  | TOKEN_COMMA => String.eqb v ","
  | TOKEN_SEMICOLON => String.eqb v ";"
  | TOKEN_AT_SYMBOL => String.eqb v "@"
  | TOKEN_NOT_EQUAL => false
  | _ => identifier_shape v && TokenType_beq (Base.keyword v) t
  end.

Definition token_ok (t : Token) : bool := lexeme_ok (tok_type t) (tok_value t).

Definition tokens_ok (l : Lexer) : Prop := forallb token_ok (tokens l) = true.

(** The buffer of a copy loop holds characters that passed its test, at
    most 255 of them. *)
Definition buffer_of (cnd : ascii -> bool) (b : string) : Prop :=
  all_chars cnd b = true /\ String.length b <= MAX_TOKEN_LEN - 1.

(** The types [lexer_read_identifier] gives. *)
Definition word_type (t : TokenType) : bool :=
  match t with
  | TOKEN_LET | TOKEN_FN | TOKEN_IF | TOKEN_ELSE | TOKEN_RETURN | TOKEN_PRINT
  | TOKEN_IDENTIFIER | TOKEN_PROGRAM | TOKEN_INSTRUCTION | TOKEN_ACCOUNT
  | TOKEN_STATE | TOKEN_PUBKEY | TOKEN_SIGNER | TOKEN_WRITABLE | TOKEN_INIT
  | TOKEN_SEEDS | TOKEN_BUMP | TOKEN_TRANSFER | TOKEN_REQUIRE | TOKEN_EMIT => true
  | _ => false
  end.


(** The text of the file a run has written, if any. *)
Definition written_text (r : option Enhanced.Result) : option (option string) :=
  option_map (fun r => option_map snd (Enhanced.written r)) r.

(* ================================================================== *)
(** * Properties *)

(* ------------------------------------------------------------------ *)
(** ** Loops *)

Section WhileFuel.

Context {S : Type} (cond : S -> bool) (body : S -> S).

Lemma while_fuel_invariant (P : S -> Prop) :
  (forall s, cond s = true -> P s -> P (body s)) ->
  forall fuel s, P s -> P (while_fuel fuel cond body s).
Proof.
  intros Hbody fuel; induction fuel as [|f IH]; intros s Hs; simpl; auto.
  destruct (cond s) eqn:E; auto.
Qed.

(** A loop whose body decreases a measure below the fuel exits with its
    condition false: the fuel is not what stops it. *)
Lemma while_fuel_done (m : S -> nat) :
  (forall s, cond s = true -> m (body s) < m s) ->
  forall fuel s, m s <= fuel -> cond (while_fuel fuel cond body s) = false.
Proof.
  intros Hdec fuel; induction fuel as [|f IH]; intros s Hm; simpl.
  - destruct (cond s) eqn:E; auto.
    specialize (Hdec s E); lia.
  - destruct (cond s) eqn:E; auto.
    apply IH. specialize (Hdec s E); lia.
Qed.

Lemma while_fuel_first fuel s :
  cond s = true ->
  while_fuel (Datatypes.S fuel) cond body s = while_fuel fuel cond body (body s).
Proof. intros E; simpl; now rewrite E. Qed.

Lemma while_opt_some (P : S -> Prop) :
  (forall s, cond s = true -> P s -> P (body s)) ->
  forall fuel s s', P s -> while_opt fuel cond body s = Some s' ->
                    P s' /\ cond s' = false.
Proof.
  intros Hbody fuel; induction fuel as [|f IH]; intros s s' Hs; simpl.
  - discriminate.
  - destruct (cond s) eqn:E.
    + intros H; apply (IH (body s)); auto.
    + intros H; inversion H; subst; auto.
Qed.

Lemma while_opt_done (m : S -> nat) :
  (forall s, cond s = true -> m (body s) < m s) ->
  forall fuel s, m s < fuel -> exists s', while_opt fuel cond body s = Some s'.
Proof.
  intros Hdec fuel; induction fuel as [|f IH]; intros s Hm; simpl.
  - lia.
  - destruct (cond s) eqn:E; eauto.
    apply IH. specialize (Hdec s E); lia.
Qed.

End WhileFuel.

(* ------------------------------------------------------------------ *)
(** ** C strings *)

Lemma strncpy_length n s : String.length (strncpy n s) <= n.
Proof.
  revert s; induction n as [|n IH]; intros [|c r]; simpl; try lia.
  destruct (is_nul c); simpl; [lia|]. specialize (IH r); lia.
Qed.

Lemma strncpy_prefix n s : String.prefix (strncpy n s) s = true.
Proof.
  revert s; induction n as [|n IH]; intros [|c r]; simpl; auto.
  destruct (is_nul c); simpl; auto.
  destruct (ascii_dec c c); [apply IH | congruence].
Qed.

(** A string without NUL that fits is copied whole; a longer one is cut to
    its first [n] characters. *)
Lemma strncpy_no_nul n s :
  strlen s = String.length s -> strncpy n s = String.substring 0 n s.
Proof.
  revert s; induction n as [|n IH]; intros [|c r]; simpl; auto.
  destruct (is_nul c); simpl; [discriminate|].
  intros H; f_equal; apply IH; lia.
Qed.

Lemma strlen_le s : strlen s <= String.length s.
Proof. induction s as [|c r IH]; simpl; [lia|]. destruct (is_nul c); lia. Qed.

Lemma snoc_length s c : String.length (snoc s c) = S (String.length s).
Proof. unfold snoc. induction s; simpl; auto. Qed.

Lemma buffer_put_length buf c :
  String.length buf <= MAX_TOKEN_LEN - 1 ->
  String.length (buffer_put buf c) <= MAX_TOKEN_LEN - 1.
Proof.
  unfold buffer_put; intros H.
  destruct (String.length buf <? MAX_TOKEN_LEN - 1) eqn:E; auto.
  apply Nat.ltb_lt in E. rewrite snoc_length. lia.
Qed.

(* ------------------------------------------------------------------ *)
(** ** The lexer: what the shared steps do to the state *)

Lemma advance_source l : source (lexer_advance l) = source l.
Proof. unfold lexer_advance; destruct (Ascii.eqb _ _); reflexivity. Qed.

Lemma advance_pos l : pos (lexer_advance l) = S (pos l).
Proof. unfold lexer_advance; destruct (Ascii.eqb _ _); reflexivity. Qed.

Lemma advance_tokens l : tokens (lexer_advance l) = tokens l.
Proof. unfold lexer_advance; destruct (Ascii.eqb _ _); reflexivity. Qed.

Lemma advance_has_error l : has_error (lexer_advance l) = has_error l.
Proof. unfold lexer_advance; destruct (Ascii.eqb _ _); reflexivity. Qed.

Lemma add_token_source t v l : source (lexer_add_token t v l) = source l.
Proof. unfold lexer_add_token; destruct (MAX_TOKENS <=? _); reflexivity. Qed.

Lemma add_token_pos t v l : pos (lexer_add_token t v l) = pos l.
Proof. unfold lexer_add_token; destruct (MAX_TOKENS <=? _); reflexivity. Qed.

(** [lexer_add_token] either appends one token, cut to 255 characters, or,
    at capacity, drops it and records the error. *)
Lemma add_token_cases t v l :
  (token_count l < MAX_TOKENS /\
   tokens (lexer_add_token t v l)
   = tokens l ++ [mkToken t (strncpy (MAX_TOKEN_LEN - 1) v) (line l) (column l)] /\
   has_error (lexer_add_token t v l) = has_error l)
  \/
  (MAX_TOKENS <= token_count l /\
   tokens (lexer_add_token t v l) = tokens l /\
   has_error (lexer_add_token t v l) = true).
Proof.
  unfold lexer_add_token.
  destruct (MAX_TOKENS <=? token_count l) eqn:E.
  - right. apply Nat.leb_le in E. auto.
  - left. apply Nat.leb_gt in E. auto.
Qed.

Lemma current_char_nul_iff l :
  lexer_current_char l <> NUL -> pos l < strlen (source l).
Proof.
  unfold lexer_current_char.
  destruct (strlen (source l) <=? pos l) eqn:E.
  - congruence.
  - intros _. now apply Nat.leb_gt in E.
Qed.

Lemma not_nul_remaining l :
  is_nul (lexer_current_char l) = false -> 0 < remaining l.
Proof.
  intros H. unfold remaining.
  assert (lexer_current_char l <> NUL).
  { intros E. unfold is_nul in H. rewrite E in H. vm_compute in H. discriminate. }
  apply current_char_nul_iff in H0. lia.
Qed.

Lemma advance_remaining l :
  0 < remaining l -> remaining (lexer_advance l) < remaining l.
Proof.
  unfold remaining. rewrite advance_source, advance_pos. lia.
Qed.

(** Case analysis on the conditionals of a goal. *)
Ltac split_ifs :=
  repeat match goal with
         | |- context [if ?b then _ else _] => destruct b
         end.

Section LexerInvariant.

(** A property of the lexer state that the three state-changing steps
    keep is kept by every scanning function. *)
Variable P : Lexer -> Prop.
Hypothesis P_advance : forall l, P l -> P (lexer_advance l).
Hypothesis P_add_token : forall t v l, P l -> P (lexer_add_token t v l).
Hypothesis P_error : forall m a b l, P l -> P (error m a b l).

Lemma P_skip_whitespace l : P l -> P (lexer_skip_whitespace l).
Proof. intros H. unfold lexer_skip_whitespace. apply while_fuel_invariant; auto. Qed.

Lemma P_copy_loop fuel cond l buf :
  P l -> P (fst (while_fuel fuel cond copy_step (l, buf))).
Proof.
  intros H.
  apply (while_fuel_invariant cond copy_step (fun st => P (fst st))); auto.
  intros [l' b'] _ H'. simpl in *. auto.
Qed.

Lemma P_base_read_string l : P l -> P (Base.lexer_read_string l).
Proof.
  intros H. unfold Base.lexer_read_string.
  match goal with |- context [while_fuel ?f ?c copy_step ?s] =>
    pose proof (P_copy_loop f c (fst s) (snd s)) as HL;
    destruct (while_fuel f c copy_step s) as [l2 buffer] eqn:E end.
  simpl in HL. rewrite E in HL. simpl in HL.
  apply P_add_token. split_ifs; auto.
Qed.

Lemma P_base_read_identifier l : P l -> P (Base.lexer_read_identifier l).
Proof.
  intros H. unfold Base.lexer_read_identifier.
  match goal with |- context [while_fuel ?f ?c copy_step ?s] =>
    pose proof (P_copy_loop f c (fst s) (snd s)) as HL;
    destruct (while_fuel f c copy_step s) as [l2 buffer] eqn:E end.
  simpl in HL. rewrite E in HL. simpl in HL. auto.
Qed.

Lemma P_base_read_number l : P l -> P (Base.lexer_read_number l).
Proof.
  intros H. unfold Base.lexer_read_number.
  match goal with |- context [while_fuel ?f ?c copy_step ?s] =>
    pose proof (P_copy_loop f c (fst s) (snd s)) as HL;
    destruct (while_fuel f c copy_step s) as [l2 buffer] eqn:E end.
  simpl in HL. rewrite E in HL. simpl in HL. auto.
Qed.

Lemma P_base_punctuation c l : P l -> P (Base.lexer_punctuation c l).
Proof.
  intros H. unfold Base.lexer_punctuation. apply P_advance. split_ifs; auto.
Qed.

Lemma P_base_step l : P l -> P (Base.lexer_step l).
Proof.
  intros H. unfold Base.lexer_step.
  split_ifs; auto using P_skip_whitespace, P_base_read_string,
    P_base_read_identifier, P_base_read_number, P_base_punctuation.
Qed.

Lemma P_base_scan l : P l -> P (Base.lexer_scan l).
Proof.
  intros H. unfold Base.lexer_scan. apply while_fuel_invariant; auto.
  intros; now apply P_base_step.
Qed.

Lemma P_base_tokenize l : P l -> P (Base.lexer_tokenize l).
Proof. intros H. unfold Base.lexer_tokenize. auto using P_base_scan. Qed.

(** The enhanced lexer. *)

Lemma P_skip_comment l : P l -> P (Enhanced.lexer_skip_comment l).
Proof.
  intros H. unfold Enhanced.lexer_skip_comment.
  destruct (_ && _); auto. apply while_fuel_invariant; auto.
Qed.

Lemma P_read_string_loop fuel l buf l' buf' :
  P l -> Enhanced.read_string_loop fuel l buf = Some (l', buf') -> P l'.
Proof.
  revert l buf; induction fuel as [|f IH]; intros l buf H; simpl.
  - intros E; inversion E; subst; auto.
  - destruct (_ && _).
    + destruct (Ascii.eqb _ BACKSLASH).
      * destruct (Enhanced.buffer_store _ _); [|discriminate].
        apply IH; auto.
      * apply IH; auto.
    + intros E; inversion E; subst; auto.
Qed.

Lemma P_enhanced_read_string l l' :
  P l -> Enhanced.lexer_read_string l = Some l' -> P l'.
Proof.
  intros H. unfold Enhanced.lexer_read_string.
  destruct (Enhanced.read_string_loop _ _ _) as [[l2 buffer]|] eqn:E; [|discriminate].
  apply P_read_string_loop in E; auto.
  destruct (String.length buffer <? MAX_TOKEN_LEN); [|discriminate].
  intros E'; inversion E'; subst. apply P_add_token. split_ifs; auto.
Qed.

Lemma P_enhanced_read_identifier l : P l -> P (Enhanced.lexer_read_identifier l).
Proof.
  intros H. unfold Enhanced.lexer_read_identifier.
  match goal with |- context [while_fuel ?f ?c copy_step ?s] =>
    pose proof (P_copy_loop f c (fst s) (snd s)) as HL;
    destruct (while_fuel f c copy_step s) as [l2 buffer] eqn:E end.
  simpl in HL. rewrite E in HL. simpl in HL. auto.
Qed.

Lemma P_enhanced_read_number l : P l -> P (Enhanced.lexer_read_number l).
Proof.
  intros H. unfold Enhanced.lexer_read_number.
  match goal with |- context [while_fuel ?f ?c ?b ?s] =>
    pose proof (while_fuel_invariant c b (fun st => P (fst (fst st)))) as HL;
    destruct (while_fuel f c b s) as [[l2 buffer] d] eqn:E end.
  apply P_add_token.
  change l2 with (fst (fst (l2, buffer, d))). rewrite <- E.
  apply HL; auto.
  intros [[l' b'] d'] _ H'. simpl in *. auto.
Qed.

Lemma P_enhanced_punctuation c l : P l -> P (Enhanced.lexer_punctuation c l).
Proof.
  intros H. unfold Enhanced.lexer_punctuation. apply P_advance. split_ifs; auto.
Qed.

Lemma P_enhanced_step l l' : P l -> Enhanced.lexer_step l = Some l' -> P l'.
Proof.
  intros H. unfold Enhanced.lexer_step.
  repeat match goal with
         | |- context [if ?b then _ else _] => destruct b
         end;
    try (intros E; inversion E; subst;
         auto using P_skip_whitespace, P_skip_comment,
           P_enhanced_read_identifier, P_enhanced_read_number,
           P_enhanced_punctuation).
  eapply P_enhanced_read_string; eauto.
Qed.

Lemma P_enhanced_scan fuel l l' : P l -> Enhanced.lexer_scan fuel l = Some l' -> P l'.
Proof.
  revert l; induction fuel as [|f IH]; intros l H; simpl.
  - intros E; inversion E; subst; auto.
  - destruct (negb _).
    + destruct (Enhanced.lexer_step l) as [l1|] eqn:E; [|discriminate].
      apply IH. eapply P_enhanced_step; eauto.
    + intros E; inversion E; subst; auto.
Qed.

Lemma P_enhanced_tokenize l l' : P l -> Enhanced.lexer_tokenize l = Some l' -> P l'.
Proof.
  intros H. unfold Enhanced.lexer_tokenize.
  destruct (Enhanced.lexer_scan _ _) as [l1|] eqn:E; [|discriminate].
  intros E'; inversion E'; subst. apply P_add_token. eapply P_enhanced_scan; eauto.
Qed.

End LexerInvariant.

(* ------------------------------------------------------------------ *)
(** ** The lexer of so_lang.c: bounds and progress *)

Lemma tokens_bounded_add t v l :
  token_count l <= MAX_TOKENS -> token_count (lexer_add_token t v l) <= MAX_TOKENS.
Proof.
  intros H. destruct (add_token_cases t v l) as [(Hlt & E & _)|(_ & E & _)];
    unfold token_count in *; rewrite E; auto.
  rewrite length_app; simpl. lia.
Qed.

Lemma base_tokens_bounded l :
  token_count l <= MAX_TOKENS -> token_count (Base.lexer_tokenize l) <= MAX_TOKENS.
Proof.
  apply (P_base_tokenize (fun l => token_count l <= MAX_TOKENS)).
  - intros l0. unfold token_count. now rewrite advance_tokens.
  - intros; now apply tokens_bounded_add.
  - auto.
Qed.

Lemma scanned_to_advance src k l : scanned_to src k l -> scanned_to src k (lexer_advance l).
Proof. intros [H1 H2]; split; [now rewrite advance_source | rewrite advance_pos; lia]. Qed.

Lemma scanned_to_add src k t v l :
  scanned_to src k l -> scanned_to src k (lexer_add_token t v l).
Proof. intros [H1 H2]; split; [now rewrite add_token_source | now rewrite add_token_pos]. Qed.

Lemma scanned_to_error src k m a b l : scanned_to src k l -> scanned_to src k (error m a b l).
Proof. auto. Qed.

Lemma scanned_to_next l : scanned_to (source l) (S (pos l)) (lexer_advance l).
Proof. split; [apply advance_source | rewrite advance_pos; lia]. Qed.

Lemma scanned_to_remaining l l' :
  0 < remaining l -> scanned_to (source l) (S (pos l)) l' -> remaining l' < remaining l.
Proof. unfold remaining. intros H [E1 E2]. rewrite E1. lia. Qed.

Create HintDb scan.
#[local] Hint Resolve scanned_to_advance scanned_to_add scanned_to_error
  scanned_to_next : scan.

Lemma isspace_not_nul c : isspace c = true -> is_nul c = false.
Proof.
  unfold is_nul. destruct (Ascii.eqb c NUL) eqn:E; auto.
  apply Ascii.eqb_eq in E; subst. vm_compute. auto.
Qed.

Lemma ident_char_not_nul c : ident_char c = true -> is_nul c = false.
Proof.
  unfold is_nul. destruct (Ascii.eqb c NUL) eqn:E; auto.
  apply Ascii.eqb_eq in E; subst. vm_compute. auto.
Qed.

Lemma digit_or_dot_not_nul c :
  isdigit c || Ascii.eqb c "."%char = true -> is_nul c = false.
Proof.
  unfold is_nul. destruct (Ascii.eqb c NUL) eqn:E; auto.
  apply Ascii.eqb_eq in E; subst. vm_compute. auto.
Qed.

(** A copying loop entered with its condition true moves the position. *)
Lemma copy_loop_progress cond l buf :
  cond (l, buf) = true -> 0 < remaining l ->
  scanned_to (source l) (S (pos l))
    (fst (while_fuel (remaining l) cond copy_step (l, buf))).
Proof.
  intros Hc Hr. destruct (remaining l) as [|k] eqn:E; [lia|].
  rewrite while_fuel_first by assumption.
  unfold copy_step at 2. simpl fst. simpl snd.
  apply (P_copy_loop (scanned_to (source l) (S (pos l)))); auto with scan.
Qed.

Lemma skip_whitespace_progress l :
  isspace (lexer_current_char l) && negb (Ascii.eqb (lexer_current_char l) LF) = true ->
  0 < remaining l ->
  scanned_to (source l) (S (pos l)) (lexer_skip_whitespace l).
Proof.
  intros Hc Hr. unfold lexer_skip_whitespace.
  destruct (remaining l) as [|k] eqn:E; [lia|].
  rewrite while_fuel_first by assumption.
  apply while_fuel_invariant; auto with scan.
Qed.

Lemma base_read_string_progress l :
  scanned_to (source l) (S (pos l)) (Base.lexer_read_string l).
Proof.
  unfold Base.lexer_read_string.
  match goal with |- context [while_fuel ?f ?c copy_step ?s] =>
    pose proof (P_copy_loop (scanned_to (source l) (S (pos l)))
                  (scanned_to_advance _ _) f c (fst s) (snd s)) as HL;
    destruct (while_fuel f c copy_step s) as [l2 buffer] eqn:E end.
  simpl in HL. rewrite E in HL. simpl in HL.
  apply scanned_to_add. split_ifs; auto with scan.
Qed.

Lemma base_punctuation_progress c l :
  scanned_to (source l) (S (pos l)) (Base.lexer_punctuation c l).
Proof.
  unfold Base.lexer_punctuation.
  match goal with |- scanned_to _ _ (lexer_advance ?x) =>
    assert (H : scanned_to (source l) (pos l) x) end.
  { assert (H0 : scanned_to (source l) (pos l) l) by (split; auto).
    split_ifs; auto with scan. }
  destruct H as [H1 H2]. split; [now rewrite advance_source | rewrite advance_pos; lia].
Qed.

Lemma base_step_progress l :
  is_nul (lexer_current_char l) = false ->
  scanned_to (source l) (S (pos l)) (Base.lexer_step l).
Proof.
  intros Hn. pose proof (not_nul_remaining l Hn) as Hr.
  unfold Base.lexer_step.
  destruct (isspace _ && negb _) eqn:E1; [now apply skip_whitespace_progress|].
  destruct (Ascii.eqb _ LF) eqn:E2.
  { split; [now rewrite advance_source, add_token_source
           | rewrite advance_pos, add_token_pos; lia]. }
  destruct (Ascii.eqb _ QUOTE) eqn:E3; [apply base_read_string_progress|].
  destruct (isalpha _ || Ascii.eqb _ "_"%char) eqn:E4.
  { unfold Base.lexer_read_identifier.
    match goal with |- context [while_fuel ?f ?c copy_step ?s] =>
      pose proof (copy_loop_progress c l EmptyString) as HL;
      destruct (while_fuel f c copy_step s) as [l2 buffer] eqn:E end.
    simpl in HL. apply scanned_to_add. apply HL; auto.
    unfold ident_char, isalnum.
    apply orb_true_iff in E4. destruct E4 as [-> | ->]; auto using orb_true_r. }
  destruct (isdigit _) eqn:E5.
  { unfold Base.lexer_read_number.
    match goal with |- context [while_fuel ?f ?c copy_step ?s] =>
      pose proof (copy_loop_progress c l EmptyString) as HL;
      destruct (while_fuel f c copy_step s) as [l2 buffer] eqn:E end.
    simpl in HL. apply scanned_to_add. apply HL; auto.
    now rewrite E5. }
  apply base_punctuation_progress.
Qed.

(** The scan of so_lang.c runs to the end of the input: its loop stops on
    the terminator, not on the bound [remaining]. *)
Lemma Base_lexer_scan_reaches_end l : at_end (Base.lexer_scan l).
Proof.
  unfold Base.lexer_scan.
  pose proof (while_fuel_done (fun l => negb (is_nul (lexer_current_char l)))
                Base.lexer_step remaining) as H.
  specialize (H (fun s Hs =>
    scanned_to_remaining s _ (not_nul_remaining s (proj1 (negb_true_iff _) Hs))
      (base_step_progress s (proj1 (negb_true_iff _) Hs)))).
  specialize (H (remaining l) l (le_n _)).
  apply negb_false_iff in H. unfold at_end.
  set (r := while_fuel _ _ _ _) in *.
  unfold lexer_current_char in H.
  destruct (strlen (source r) <=? pos r) eqn:E; [now apply Nat.leb_le in E|].
  apply Nat.leb_gt in E. exfalso.
  (* below [strlen] every character differs from the terminator *)
  clear -H E. revert H E. generalize (pos r). generalize (source r).
  induction s as [|c s IH]; intros n H E; simpl in *; [lia|].
  destruct (is_nul c) eqn:Ec; [lia|].
  destruct n as [|n]; unfold char_at in *; simpl in *.
  - congruence.
  - apply (IH n); auto. lia.
Qed.

(** The inner loops stop on their own condition as well. *)
Lemma scanning_loop_done {S : Type} (lx : S -> Lexer) (cond : S -> bool) (body : S -> S) :
  (forall s, cond s = true -> is_nul (lexer_current_char (lx s)) = false) ->
  (forall s, lx (body s) = lexer_advance (lx s)) ->
  forall s, cond (while_fuel (remaining (lx s)) cond body s) = false.
Proof.
  intros Hnn Hbody s.
  apply (while_fuel_done cond body (fun s => remaining (lx s))); auto.
  intros s0 Hs. rewrite Hbody. apply advance_remaining, not_nul_remaining; auto.
Qed.

Lemma Base_read_identifier_loop_done l :
  let st := while_fuel (remaining l)
              (fun st => ident_char (lexer_current_char (fst st))) copy_step
              (l, EmptyString) in
  ident_char (lexer_current_char (fst st)) = false.
Proof.
  refine (scanning_loop_done fst (fun st => ident_char (lexer_current_char (fst st)))
            copy_step _ _ (l, EmptyString)); auto using ident_char_not_nul.
Qed.

Lemma Base_read_number_loop_done l :
  let st := while_fuel (remaining l)
              (fun st => isdigit (lexer_current_char (fst st))
                         || Ascii.eqb (lexer_current_char (fst st)) "."%char)
              copy_step (l, EmptyString) in
  isdigit (lexer_current_char (fst st))
  || Ascii.eqb (lexer_current_char (fst st)) "."%char = false.
Proof.
  refine (scanning_loop_done fst
            (fun st => isdigit (lexer_current_char (fst st))
                       || Ascii.eqb (lexer_current_char (fst st)) "."%char)
            copy_step _ _ (l, EmptyString)); auto using digit_or_dot_not_nul.
Qed.

Lemma Base_read_string_loop_done l :
  let cond := fun st : Lexer * string =>
                negb (Ascii.eqb (lexer_current_char (fst st)) QUOTE)
                && negb (is_nul (lexer_current_char (fst st))) in
  cond (while_fuel (remaining l) cond copy_step (l, EmptyString)) = false.
Proof.
  intros cond.
  refine (scanning_loop_done fst cond copy_step _ _ (l, EmptyString)); auto.
  intros s Hs. apply andb_true_iff in Hs. now apply negb_true_iff.
Qed.

Lemma skip_whitespace_loop_done l :
  let c := lexer_current_char (lexer_skip_whitespace l) in
  isspace c && negb (Ascii.eqb c LF) = false.
Proof.
  refine (scanning_loop_done (fun l => l)
            (fun l => isspace (lexer_current_char l)
                      && negb (Ascii.eqb (lexer_current_char l) LF))
            lexer_advance _ _ l); auto.
  intros s Hs. apply andb_true_iff in Hs. now apply isspace_not_nul.
Qed.

(* ------------------------------------------------------------------ *)
(** ** C7: the end-of-input token *)

Lemma ends_in_eof_app toks t :
  ends_in_eof (toks ++ [t]) = TokenType_beq (tok_type t) TOKEN_EOF.
Proof.
  unfold ends_in_eof, last_token. rewrite map_app. simpl.
  now rewrite last_last.
Qed.

(** C7 as the specification words it does not hold: on a source of 1000 newlines the
    scan fills the token array, the final [lexer_add_token] drops the
    end-of-input token, and the sequence ends with a newline token. *)
Lemma lexer_eof_dropped_at_capacity :
  let l := Base.lexer_tokenize (lexer_create (chars 1000 LF)) in
  ends_in_eof (tokens l) = false
  /\ token_count l = MAX_TOKENS
  /\ option_map tok_type (last_token (tokens l)) = Some TOKEN_NEWLINE
  /\ has_error l = true.
Proof. vm_compute. repeat split; reflexivity. Qed.

(** C7 (amended): for every source text the token sequence is finite, at
    most [MAX_TOKENS] tokens; its last token is the end-of-input token
    whenever the scan produced fewer than [MAX_TOKENS] tokens, in
    particular whenever no lexical error was recorded; once [MAX_TOKENS]
    tokens are there, the end-of-input token is dropped and the error is
    recorded. *)
Theorem lexer_tokens_end_with_eof (src : string) :
  let scanned := Base.lexer_scan (lexer_create src) in
  let l := Base.lexer_tokenize (lexer_create src) in
  token_count l <= MAX_TOKENS
  /\ (token_count scanned < MAX_TOKENS ->
      ends_in_eof (tokens l) = true /\ has_error l = has_error scanned)
  /\ (has_error l = false -> ends_in_eof (tokens l) = true)
  /\ (MAX_TOKENS <= token_count scanned ->
      tokens l = tokens scanned /\ has_error l = true).
Proof.
  intros scanned l.
  assert (Hb : token_count l <= MAX_TOKENS).
  { apply base_tokens_bounded. unfold token_count; simpl. unfold MAX_TOKENS. lia. }
  unfold l, Base.lexer_tokenize. fold scanned.
  destruct (add_token_cases TOKEN_EOF EmptyString scanned)
    as [(Hlt & E & He)|(Hge & E & He)].
  - repeat split; auto.
    + rewrite E. now rewrite ends_in_eof_app.
    + rewrite E. now rewrite ends_in_eof_app.
    + lia.
    + lia.
  - repeat split; auto; try lia.
    rewrite He. discriminate.
Qed.

Lemma lexer_tokens_end_with_eof_witness :
  token_count (Base.lexer_scan (lexer_create "let x = 42")) < MAX_TOKENS
  /\ ends_in_eof (tokens (Base.lexer_tokenize (lexer_create "let x = 42"))) = true.
Proof.
  split.
  - vm_compute. lia.
  - apply (lexer_tokens_end_with_eof "let x = 42"). vm_compute. lia.
Defined.

(* ------------------------------------------------------------------ *)
(** ** C8: a lexical error stops the pipeline *)

(** [has_error] is set exactly when a diagnostic was printed. *)
Lemma lexer_error_recorded src :
  let l := Base.lexer_tokenize (lexer_create src) in
  has_error l = true <-> stderr l <> [].
Proof.
  apply (P_base_tokenize (fun l => has_error l = true <-> stderr l <> [])).
  - intros l H. unfold lexer_advance. destruct (Ascii.eqb _ _); exact H.
  - intros t v l H. unfold lexer_add_token. destruct (MAX_TOKENS <=? _); [|exact H].
    simpl. split; [|reflexivity]. intros _ E. now apply app_eq_nil in E.
  - intros m a b l H. simpl. split; [|reflexivity].
    intros _ E. now apply app_eq_nil in E.
  - simpl. split; [discriminate | congruence].
Qed.

(** C8: if the lexer has recorded an error (an unexpected character or
    the token overflow), the scan has still run to the end of the input,
    [main] returns 1, and the parser is not called: the calls made are
    [read_file] and [lexer_tokenize] only, whatever the later stages are. *)
Theorem lexical_error_stops_pipeline
  (read_file : string -> option string) (fopen_w : string -> bool)
  (parser_parse : Parser -> option (ASTNode * Parser))
  (compiler_compile : bool -> bool -> bool -> ASTNode -> string)
  (prog input src : string) (flags : list string) :
  read_file input = Some src ->
  has_error (Base.lexer_tokenize (lexer_create src)) = true ->
  at_end (Base.lexer_tokenize (lexer_create src))
  /\ Base.main read_file fopen_w parser_parse compiler_compile (prog :: input :: flags)
     = Some (Base.mkRun 1 [Base.CallReadFile; Base.CallLexerTokenize] None)
  /\ forall run,
       Base.main read_file fopen_w parser_parse compiler_compile (prog :: input :: flags)
       = Some run ->
       Base.exit_code run = 1 /\ ~ In Base.CallParserParse (Base.calls run).
Proof.
  intros Hread Herr.
  assert (Hmain : Base.main read_file fopen_w parser_parse compiler_compile
                    (prog :: input :: flags)
                  = Some (Base.mkRun 1 [Base.CallReadFile; Base.CallLexerTokenize] None)).
  { unfold Base.main. rewrite Hread, Herr. reflexivity. }
  split; [|split; auto].
  - unfold Base.lexer_tokenize, at_end.
    rewrite add_token_source, add_token_pos. apply Base_lexer_scan_reaches_end.
  - intros run Hrun. rewrite Hmain in Hrun. inversion Hrun; subst; simpl.
    split; auto. intros [H|[H|[]]]; discriminate.
Qed.

Lemma lexical_error_stops_pipeline_witness :
  Base.main (fun _ => Some "let x = $") (fun _ => true) (fun _ => None)
            (fun _ _ _ _ => EmptyString) ["solang"; "bad.so"; "--rust"]
  = Some (Base.mkRun 1 [Base.CallReadFile; Base.CallLexerTokenize] None).
Proof.
  apply (lexical_error_stops_pipeline (fun _ => Some "let x = $") (fun _ => true)
           (fun _ => None) (fun _ _ _ _ => EmptyString)
           "solang" "bad.so" "let x = $" ["--rust"]).
  - reflexivity.
  - vm_compute. reflexivity.
Defined.

(* ------------------------------------------------------------------ *)
(** ** C10: the length of lexemes in the enhanced lexer *)

Lemma lexemes_fit_add t v l : lexemes_fit l -> lexemes_fit (lexer_add_token t v l).
Proof.
  unfold lexemes_fit. intros H.
  destruct (add_token_cases t v l) as [(_ & E & _)|(_ & E & _)]; rewrite E; auto.
  apply Forall_app; split; auto.
  constructor; auto. cbn [tok_value]. apply strncpy_length.
Qed.

(** Whenever the enhanced lexer returns, every token it has stored holds
    at most 255 characters. *)
Lemma enhanced_lexemes_fit src l :
  Enhanced.lexer_tokenize (lexer_create src) = Some l -> lexemes_fit l.
Proof.
  apply (P_enhanced_tokenize lexemes_fit).
  - intros l0. unfold lexemes_fit. now rewrite advance_tokens.
  - intros; now apply lexemes_fit_add.
  - auto.
  - constructor.
Qed.

(** Identifiers, numbers and strings of plain characters are cut to their
    first 255 characters, silently. *)
Example enhanced_long_lexemes_truncated :
  option_map (fun l => (map (fun t => (tok_type t, tok_value t)) (tokens l), has_error l))
    (Enhanced.lexer_tokenize
       (lexer_create (chars 300 "a" +++ " " +++ chars 300 "7" +++ " "
                      +++ char_str QUOTE +++ chars 300 "s" +++ char_str QUOTE)))
  = Some ([(TOKEN_IDENTIFIER, chars 255 "a"); (TOKEN_NUMBER, chars 255 "7");
           (TOKEN_STRING, chars 255 "s"); (TOKEN_EOF, EmptyString)], false).
Proof. vm_compute. reflexivity. Qed.

(** C10 (the code departs from it): a string literal of 255 plain
    characters followed by one escape sequence.  The escape branch of
    [lexer_read_string] stores the 256th character with no guard, and the
    terminator then goes to [buffer[256]], outside [char buffer[256]]:
    the lexer does not produce the truncated token.  A literal of 300
    escape sequences stores 44 characters and the terminator outside the
    array.  The first literal with a plain character in place of the
    escape is cut to 255 characters. *)
Theorem enhanced_read_string_escape_overflow :
  Enhanced.lexer_tokenize
    (lexer_create (char_str QUOTE +++ chars 255 "a" +++ "\n" +++ char_str QUOTE))
  = None
  /\ Enhanced.lexer_tokenize
       (lexer_create (char_str QUOTE +++ copies 300 "\n" +++ char_str QUOTE))
     = None
  /\ option_map (fun l => map (fun t => (tok_type t, tok_value t)) (tokens l))
       (Enhanced.lexer_tokenize
          (lexer_create (char_str QUOTE +++ chars 255 "a" +++ "n" +++ char_str QUOTE)))
     = Some [(TOKEN_STRING, chars 255 "a"); (TOKEN_EOF, EmptyString)].
Proof. repeat split; vm_compute; reflexivity. Qed.

(* ------------------------------------------------------------------ *)
(** ** C9: the statement loop of [parser_parse] on a stray closing brace *)

Lemma stray_brace_lexed :
  option_map tokens (Enhanced.lexer_tokenize (lexer_create "}")) = Some stray_brace.
Proof. vm_compute. reflexivity. Qed.

Lemma stray_brace_statement fuel :
  Enhanced.parser_parse_statement (2 + fuel) (parser_create stray_brace)
  = Some (None, parser_create stray_brace).
Proof. reflexivity. Qed.

Lemma stray_brace_loop fuel program :
  Enhanced.program_loop fuel (parser_create stray_brace) program = None.
Proof.
  revert program; induction fuel as [|f IH]; intros program; [reflexivity|].
  cbn [Enhanced.program_loop].
  change (current_is TOKEN_EOF (parser_create stray_brace)) with false.
  change (current_is TOKEN_NEWLINE (parser_create stray_brace)) with false.
  cbn [negb].
  destruct f as [|[|f']]; [reflexivity | reflexivity |].
  change (S (S f')) with (2 + f'). rewrite (stray_brace_statement f').
  cbn [add_child]. apply IH.
Qed.

(** C9 (the code departs from it): on the tokens of the source text [}],
    [parser_parse_statement] returns null without consuming the brace, so
    every iteration of the loop of [parser_parse] starts from the same
    parser state: [parser_parse] returns for no amount of fuel. *)
Theorem parser_parse_stray_brace_diverges :
  option_map tokens (Enhanced.lexer_tokenize (lexer_create "}")) = Some stray_brace
  /\ ends_in_eof stray_brace = true
  /\ (forall fuel,
        Enhanced.parser_parse_statement (2 + fuel) (parser_create stray_brace)
        = Some (None, parser_create stray_brace))
  /\ (forall fuel, Enhanced.parser_parse fuel (parser_create stray_brace) = None).
Proof.
  split; [exact stray_brace_lexed|].
  split; [reflexivity|].
  split; [exact stray_brace_statement|].
  intros fuel. apply stray_brace_loop.
Qed.

(* ------------------------------------------------------------------ *)
(** ** The parser: positions *)

Lemma TokenType_beq_eq a b : TokenType_beq a b = true <-> a = b.
Proof.
  split; [apply internal_TokenType_dec_bl | apply internal_TokenType_dec_lb].
Qed.

Lemma NodeType_beq_eq a b : NodeType_beq a b = true <-> a = b.
Proof.
  split; [apply internal_NodeType_dec_bl | apply internal_NodeType_dec_lb].
Qed.

Lemma current_is_type t p :
  tok_type (parser_current_token p) = t -> current_is t p = true.
Proof. intros E. unfold current_is. rewrite E. now apply TokenType_beq_eq. Qed.

Lemma current_is_other t u p :
  tok_type (parser_current_token p) = t -> t <> u -> current_is u p = false.
Proof.
  intros E Hne. unfold current_is. rewrite E.
  destruct (TokenType_beq t u) eqn:B; auto.
  apply TokenType_beq_eq in B. contradiction.
Qed.

Lemma follows_refl p : follows p p.
Proof. split; auto. Qed.

Lemma follows_trans p q r : follows p q -> follows q r -> follows p r.
Proof. intros [A1 A2] [B1 B2]; split; [congruence | lia]. Qed.

Lemma advance_follows p : follows p (parser_advance p).
Proof.
  unfold parser_advance. destruct (_ <? _); [|apply follows_refl].
  split; simpl; auto.
Qed.

Lemma parser_advance_tokens p : p_tokens (parser_advance p) = p_tokens p.
Proof. apply advance_follows. Qed.

Lemma match_follows t p : follows p (snd (parser_match t p)).
Proof.
  unfold parser_match. destruct (current_is t p); simpl;
    [apply advance_follows | apply follows_refl].
Qed.

Lemma follows_count p q : follows p q -> p_token_count q = p_token_count p.
Proof. intros [E _]. unfold p_token_count. now rewrite E. Qed.

Lemma follows_left p q : follows p q -> tokens_left q <= tokens_left p.
Proof.
  intros H. unfold tokens_left. rewrite (follows_count _ _ H). destruct H. lia.
Qed.

#[local] Hint Resolve follows_refl advance_follows match_follows : scan.

Lemma ends_in_eof_last toks :
  ends_in_eof toks = true ->
  tok_type (nth (length toks - 1) toks no_token) = TOKEN_EOF.
Proof.
  destruct toks as [|t toks] using rev_ind; [discriminate|].
  rewrite ends_in_eof_app. intros H. apply TokenType_beq_eq in H.
  rewrite length_app. simpl.
  rewrite app_nth2 by lia.
  replace (length toks + 1 - 1 - length toks) with 0 by lia. exact H.
Qed.

(** On tokens that end with the end-of-input token, a current token of
    another kind is not the last one: [parser_advance] moves. *)
Lemma not_eof_advances p :
  ends_in_eof (p_tokens p) = true -> current_is TOKEN_EOF p = false ->
  S (p_pos p) < p_token_count p
  /\ p_pos (parser_advance p) = S (p_pos p)
  /\ tokens_left (parser_advance p) < tokens_left p.
Proof.
  intros He Hc.
  assert (Hlt : S (p_pos p) < p_token_count p).
  { pose proof (ends_in_eof_last _ He) as Hl.
    unfold current_is, parser_current_token in Hc. fold (p_token_count p) in Hl.
    destruct (p_token_count p <=? p_pos p) eqn:E.
    - rewrite Hl in Hc. discriminate.
    - apply Nat.leb_gt in E.
      destruct (Nat.eq_dec (p_pos p) (p_token_count p - 1)) as [Heq|Hne]; [|lia].
      rewrite Heq, Hl in Hc. discriminate. }
  split; auto.
  unfold tokens_left, parser_advance.
  apply Nat.ltb_lt in Hlt. rewrite Hlt. apply Nat.ltb_lt in Hlt.
  unfold p_token_count in *. simpl. split; lia.
Qed.

(** [while_opt] returns when its body decreases a measure under an
    invariant. *)
Lemma while_opt_returns {S : Type} (cond : S -> bool) (body : S -> S)
  (P : S -> Prop) (m : S -> nat) :
  (forall s, P s -> cond s = true -> P (body s) /\ m (body s) < m s) ->
  forall fuel s, P s -> m s < fuel -> exists s', while_opt fuel cond body s = Some s'.
Proof.
  intros Hdec fuel; induction fuel as [|f IH]; intros s Hs Hm; simpl.
  - lia.
  - destruct (cond s) eqn:E; eauto.
    destruct (Hdec s Hs E) as [HP Hlt]. apply IH; auto. lia.
Qed.

Lemma skip_to_rparen_follows p p' : skip_to_rparen p = Some p' -> follows p p'.
Proof.
  unfold skip_to_rparen. intros H.
  eapply (while_opt_some _ _ (follows p)) in H; [tauto | | apply follows_refl].
  intros s _ Hs. eapply follows_trans; eauto with scan.
Qed.

Lemma skip_to_rparen_returns p :
  ends_in_eof (p_tokens p) = true -> exists p', skip_to_rparen p = Some p'.
Proof.
  intros He. unfold skip_to_rparen.
  apply (while_opt_returns _ _ (follows p) tokens_left).
  - intros s Hs Hc. apply andb_true_iff in Hc. destruct Hc as [_ Hc].
    apply negb_true_iff in Hc.
    assert (He' : ends_in_eof (p_tokens s) = true) by (destruct Hs as [-> _]; auto).
    split; [eapply follows_trans; eauto with scan|].
    apply not_eof_advances; auto.
  - apply follows_refl.
  - unfold tokens_left. lia.
Qed.

Lemma skip_terminators_follows p p' : Enhanced.skip_terminators p = Some p' -> follows p p'.
Proof.
  unfold Enhanced.skip_terminators. intros H.
  eapply (while_opt_some _ _ (follows p)) in H; [tauto | | apply follows_refl].
  intros s _ Hs. eapply follows_trans; eauto with scan.
Qed.

Lemma binary_body_follows prim p n p' :
  (forall q m q', prim q = Some (m, q') -> follows q q') ->
  parse_binary_body prim p = Some (n, p') -> follows p p'.
Proof.
  intros Hprim. unfold parse_binary_body.
  destruct (prim p) as [[l p1]|] eqn:E1; [|discriminate].
  apply Hprim in E1.
  destruct (is_binary_operator _).
  - destruct (prim (parser_advance p1)) as [[r p2]|] eqn:E2; [|discriminate].
    apply Hprim in E2. intros H; inversion H; subst.
    eauto using follows_trans with scan.
  - intros H; inversion H; subst. auto.
Qed.

Lemma binary_body_returns prim p :
  (forall q, follows p q -> exists r, prim q = Some r) ->
  (forall q m q', prim q = Some (m, q') -> follows q q') ->
  exists r, parse_binary_body prim p = Some r.
Proof.
  intros Htot Hfol. unfold parse_binary_body.
  destruct (Htot p (follows_refl p)) as [[l p1] E1]. rewrite E1.
  pose proof (Hfol _ _ _ E1) as F1.
  destruct (is_binary_operator _); eauto.
  destruct (Htot (parser_advance p1)) as [[r p2] E2];
    [eauto using follows_trans with scan|].
  rewrite E2. eauto.
Qed.

(* ------------------------------------------------------------------ *)
(** ** C1: the expression parsers *)

(** Inversion of a successful step. *)
Ltac some_inv :=
  match goal with
  | |- Some _ = Some _ -> _ =>
      let H := fresh in intros H; inversion H; subst; clear H
  | |- None = Some _ -> _ => discriminate
  end.

Lemma enhanced_primary_follows fuel : forall p n p',
  Enhanced.parser_parse_primary fuel p = Some (n, p') -> follows p p'.
Proof.
  induction fuel as [|f IH]; intros p n p'; [discriminate|].
  cbn [Enhanced.parser_parse_primary].
  destruct (tok_type (parser_current_token p)) eqn:E; try (some_inv; auto with scan).
  - (* identifier *)
    destruct (current_is TOKEN_LPAREN (parser_advance p)); [|some_inv; auto with scan].
    destruct (skip_to_rparen _) as [p2|] eqn:E2; [|discriminate].
    apply skip_to_rparen_follows in E2. some_inv.
    eauto 6 using follows_trans with scan.
  - (* parenthesis *)
    destruct (parse_binary_body _ _) as [[m p2]|] eqn:E2; [|discriminate].
    apply binary_body_follows in E2; auto. some_inv.
    eauto 6 using follows_trans with scan.
Qed.

Lemma base_primary_follows fuel : forall p n p',
  Base.parser_parse_primary fuel p = Some (n, p') -> follows p p'.
Proof.
  induction fuel as [|f IH]; intros p n p'; [discriminate|].
  cbn [Base.parser_parse_primary].
  destruct (tok_type (parser_current_token p)) eqn:E; try (some_inv; auto with scan).
  - destruct (current_is TOKEN_LPAREN (parser_advance p)); some_inv;
      eauto 6 using follows_trans with scan.
  - destruct (parse_binary_body _ _) as [[m p2]|] eqn:E2; [|discriminate].
    apply binary_body_follows in E2; auto. some_inv.
    eauto 6 using follows_trans with scan.
Qed.

(** On tokens that end with the end-of-input token the primary parsers
    return, with fuel above the number of tokens left. *)
Lemma enhanced_primary_returns fuel : forall p,
  ends_in_eof (p_tokens p) = true -> tokens_left p < fuel ->
  exists r, Enhanced.parser_parse_primary fuel p = Some r.
Proof.
  induction fuel as [|f IH]; intros p He Hf; [lia|].
  cbn [Enhanced.parser_parse_primary].
  destruct (tok_type (parser_current_token p)) eqn:E; eauto.
  - destruct (current_is TOKEN_LPAREN (parser_advance p)); eauto.
    destruct (skip_to_rparen_returns (parser_advance (parser_advance p))) as [p2 E2].
    { now rewrite !parser_advance_tokens. }
    rewrite E2. eauto.
  - assert (Hadv : tokens_left (parser_advance p) < tokens_left p).
    { apply not_eof_advances; auto.
      eapply current_is_other; eauto. discriminate. }
    destruct (binary_body_returns (Enhanced.parser_parse_primary f) (parser_advance p))
      as [[m p2] E2].
    + intros q Hq. apply IH.
      * destruct Hq as [-> _]. now rewrite parser_advance_tokens.
      * apply follows_left in Hq. lia.
    + apply enhanced_primary_follows.
    + rewrite E2. eauto.
Qed.

Lemma base_primary_returns fuel : forall p,
  ends_in_eof (p_tokens p) = true -> tokens_left p < fuel ->
  exists r, Base.parser_parse_primary fuel p = Some r.
Proof.
  induction fuel as [|f IH]; intros p He Hf; [lia|].
  cbn [Base.parser_parse_primary].
  destruct (tok_type (parser_current_token p)) eqn:E; eauto.
  - destruct (current_is TOKEN_LPAREN (parser_advance p)); eauto.
  - assert (Hadv : tokens_left (parser_advance p) < tokens_left p).
    { apply not_eof_advances; auto.
      eapply current_is_other; eauto. discriminate. }
    destruct (binary_body_returns (Base.parser_parse_primary f) (parser_advance p))
      as [[m p2] E2].
    + intros q Hq. apply IH.
      * destruct Hq as [-> _]. now rewrite parser_advance_tokens.
      * apply follows_left in Hq. lia.
    + apply base_primary_follows.
    + rewrite E2. eauto.
Qed.

(** The parsers against the grammar. *)
Lemma set_pos_here p : set_pos (p_pos p) p = p.
Proof. now destruct p. Qed.

Lemma set_pos_advance i p : set_pos i (parser_advance p) = set_pos i p.
Proof.
  unfold parser_advance. destruct (S (p_pos p) <? p_token_count p); reflexivity.
Qed.

Lemma advance_pos_cases p :
  parser_advance p = p \/ p_pos (parser_advance p) = S (p_pos p).
Proof.
  unfold parser_advance. destruct (S (p_pos p) <? p_token_count p); auto.
Qed.

Lemma advance_keeps_origin q s :
  s = set_pos (p_pos s) q -> parser_advance s = set_pos (p_pos (parser_advance s)) q.
Proof.
  intros Hs. unfold parser_advance.
  destruct (S (p_pos s) <? p_token_count s); [|exact Hs].
  transitivity (set_pos (S (p_pos s)) (set_pos (p_pos s) q)); [|reflexivity].
  now rewrite <- Hs.
Qed.

Lemma skipped_tokens (cond : Parser -> bool) fuel : forall q q',
  while_opt fuel cond parser_advance q = Some q' ->
  forall i, p_pos q <= i < p_pos q' -> cond (set_pos i q) = true.
Proof.
  induction fuel as [|f IH]; intros q q' H i Hi; [discriminate|].
  cbn [while_opt] in H. destruct (cond q) eqn:E.
  - destruct (advance_pos_cases q) as [A|A].
    + rewrite A in H. eapply IH; eauto.
    + destruct (Nat.eq_dec i (p_pos q)) as [->|Hne].
      * now rewrite set_pos_here.
      * rewrite <- (set_pos_advance i q). eapply IH; eauto. lia.
  - inversion H; subst. lia.
Qed.

Lemma skip_to_rparen_arguments q q' :
  skip_to_rparen q = Some q' -> enhanced_arguments q q'.
Proof.
  intros H. split; [|split; [now apply skip_to_rparen_follows in H; destruct H|split]].
  - unfold skip_to_rparen in H.
    eapply (while_opt_some _ _ (fun s => s = set_pos (p_pos s) q)) in H;
      [tauto| |now rewrite set_pos_here].
    intros s _ Hs. now apply advance_keeps_origin.
  - unfold skip_to_rparen in H.
    eapply (while_opt_some _ _ (fun _ => True)) in H; auto.
    destruct H as [_ H]. rewrite <- negb_orb in H.
    now apply negb_false_iff in H.
  - intros i Hi. unfold skip_to_rparen in H.
    pose proof (skipped_tokens _ _ _ _ H i Hi) as C. cbv beta in C.
    rewrite <- negb_orb in C. now apply negb_true_iff in C.
Qed.

Lemma binary_body_grammar arguments prim p r p' :
  (forall q m q', prim q = Some (m, q') -> parsed_primary arguments q m q') ->
  parse_binary_body prim p = Some (r, p') -> parsed_expression arguments p r p'.
Proof.
  intros Hprim. unfold parse_binary_body.
  destruct (prim p) as [[l p1]|] eqn:E1; [|discriminate].
  apply Hprim in E1.
  destruct (is_binary_operator (tok_type (parser_current_token p1))) eqn:Eop.
  - destruct (prim (parser_advance p1)) as [[rt p2]|] eqn:E2; [|discriminate].
    apply Hprim in E2. some_inv.
    now apply (Expression_operator arguments p l p1 rt p').
  - some_inv. now apply Expression_primary.
Qed.

Lemma enhanced_primary_grammar fuel : forall p n p',
  Enhanced.parser_parse_primary fuel p = Some (n, p') ->
  parsed_primary enhanced_arguments p n p'.
Proof.
  induction fuel as [|f IH]; intros p n p'; [discriminate|].
  cbn [Enhanced.parser_parse_primary].
  destruct (tok_type (parser_current_token p)) eqn:E;
    try (some_inv; apply Primary_none; unfold current_is; rewrite E; reflexivity).
  - assert (Hi : current_is TOKEN_IDENTIFIER p = true)
      by (unfold current_is; now rewrite E).
    destruct (current_is TOKEN_LPAREN (parser_advance p)) eqn:El.
    + destruct (skip_to_rparen _) as [q|] eqn:Es; [|discriminate]. some_inv.
      apply (Primary_call _ p q); auto. now apply skip_to_rparen_arguments.
    + some_inv. now apply Primary_identifier.
  - some_inv. apply (Primary_literal _ p NODE_NUMBER). now rewrite E.
  - some_inv. apply (Primary_literal _ p NODE_STRING). now rewrite E.
  - destruct (parse_binary_body _ _) as [[m p2]|] eqn:E2; [|discriminate]. some_inv.
    apply Primary_parenthesis.
    + unfold current_is; now rewrite E.
    + eapply binary_body_grammar; eauto.
Qed.

Lemma base_primary_grammar fuel : forall p n p',
  Base.parser_parse_primary fuel p = Some (n, p') ->
  parsed_primary base_arguments p n p'.
Proof.
  induction fuel as [|f IH]; intros p n p'; [discriminate|].
  cbn [Base.parser_parse_primary].
  destruct (tok_type (parser_current_token p)) eqn:E;
    try (some_inv; apply Primary_none; unfold current_is; rewrite E; reflexivity).
  - assert (Hi : current_is TOKEN_IDENTIFIER p = true)
      by (unfold current_is; now rewrite E).
    destruct (current_is TOKEN_LPAREN (parser_advance p)) eqn:El.
    + some_inv.
      apply (Primary_call _ p (parser_advance (parser_advance p))); auto.
      reflexivity.
    + some_inv. now apply Primary_identifier.
  - some_inv. apply (Primary_literal _ p NODE_NUMBER). now rewrite E.
  - some_inv. apply (Primary_literal _ p NODE_STRING). now rewrite E.
  - destruct (parse_binary_body _ _) as [[m p2]|] eqn:E2; [|discriminate]. some_inv.
    apply Primary_parenthesis.
    + unfold current_is; now rewrite E.
    + eapply binary_body_grammar; eauto.
Qed.

(** The flat grammar at work: [a + b * c] yields the node for [a + b] and
    leaves [* c] unread, in both parsers. *)
Example a_plus_b_times_c_parsed :
  let expected :=
    Some (Some (binary_op "+" (Some (leaf NODE_IDENTIFIER "a"))
                              (Some (leaf NODE_IDENTIFIER "b"))),
          set_pos 3 (parser_create a_plus_b_times_c)) in
  Enhanced.parser_parse_expression 1 (parser_create a_plus_b_times_c) = expected
  /\ Base.parser_parse_expression 1 (parser_create a_plus_b_times_c) = expected
  /\ tok_type (parser_current_token (set_pos 3 (parser_create a_plus_b_times_c)))
     = TOKEN_MULTIPLY.
Proof. repeat split; reflexivity. Qed.

(** C1 as the specification words it does not hold.  On [( a + b * c )]
    the expression after the parenthesis ends before [*]; the closing
    parenthesis is then looked for and, being absent, not asked for, and
    the outer expression takes [* c]: both parsers return one tree with two
    operators, whose left operand is an operator node that no parenthesis
    closes, and stop at the [)].  On [+ b] the left operand is null. *)
Lemma unclosed_parenthesis_chains_operators :
  let a := Some (leaf NODE_IDENTIFIER "a") in
  let b := Some (leaf NODE_IDENTIFIER "b") in
  let c := Some (leaf NODE_IDENTIFIER "c") in
  let chained :=
    Some (Some (binary_op "*" (Some (binary_op "+" a b)) c),
          set_pos 6 (parser_create open_a_plus_b_times_c)) in
  let half := Some (Some (binary_op "+" None b), set_pos 2 (parser_create plus_b)) in
  Enhanced.parser_parse_expression 2 (parser_create open_a_plus_b_times_c) = chained
  /\ Base.parser_parse_expression 2 (parser_create open_a_plus_b_times_c) = chained
  /\ tok_type (parser_current_token (set_pos 6 (parser_create open_a_plus_b_times_c)))
     = TOKEN_RPAREN
  /\ Enhanced.parser_parse_expression 1 (parser_create plus_b) = half
  /\ Base.parser_parse_expression 1 (parser_create plus_b) = half.
Proof. repeat split; reflexivity. Qed.

(** C1 (amended): [parser_parse_expression], in the enhanced compiler and
    in so_lang.c, follows the flat grammar [parsed_expression].  Whenever it
    returns it has parsed one primary and then, exactly when an operator
    token follows, that operator and one more primary, and its result is
    the first primary alone or a single [NODE_BINARY_OP] node over the two:
    no precedence is applied.  A primary is null at a token that starts
    none, a leaf for a literal, an identifier or a call, and at an opening
    parenthesis the result of the expression after it, a closing
    parenthesis being consumed when it follows and not asked for when it
    does not.  On tokens that end with the end-of-input token the parse
    does return, given fuel above the number of tokens left. *)
Theorem expression_follows_flat_grammar (p : Parser) (fuel : nat) :
  (forall r p',
     Enhanced.parser_parse_expression fuel p = Some (r, p') ->
     parsed_expression enhanced_arguments p r p')
  /\ (forall r p',
        Base.parser_parse_expression fuel p = Some (r, p') ->
        parsed_expression base_arguments p r p')
  /\ (ends_in_eof (p_tokens p) = true -> tokens_left p < fuel ->
      (exists res, Enhanced.parser_parse_expression fuel p = Some res)
      /\ (exists res, Base.parser_parse_expression fuel p = Some res)).
Proof.
  split; [|split].
  - intros r p'. apply binary_body_grammar.
    intros q m q'. apply enhanced_primary_grammar.
  - intros r p'. apply binary_body_grammar.
    intros q m q'. apply base_primary_grammar.
  - intros He Hf. split.
    + apply binary_body_returns; [|apply enhanced_primary_follows].
      intros q Hq. apply enhanced_primary_returns.
      * destruct Hq as [-> _]; auto.
      * apply follows_left in Hq. lia.
    + apply binary_body_returns; [|apply base_primary_follows].
      intros q Hq. apply base_primary_returns.
      * destruct Hq as [-> _]; auto.
      * apply follows_left in Hq. lia.
Qed.

Lemma expression_follows_flat_grammar_witness :
  ends_in_eof open_a_plus_b_times_c = true
  /\ tokens_left (parser_create open_a_plus_b_times_c) < 9
  /\ parsed_expression enhanced_arguments (parser_create open_a_plus_b_times_c)
       (Some (binary_op "*"
                (Some (binary_op "+" (Some (leaf NODE_IDENTIFIER "a"))
                                     (Some (leaf NODE_IDENTIFIER "b"))))
                (Some (leaf NODE_IDENTIFIER "c"))))
       (set_pos 6 (parser_create open_a_plus_b_times_c))
  /\ exists res,
       Base.parser_parse_expression 9 (parser_create open_a_plus_b_times_c) = Some res.
Proof.
  split; [reflexivity|]. split; [vm_compute; lia|]. split.
  - apply (expression_follows_flat_grammar (parser_create open_a_plus_b_times_c) 9).
    reflexivity.
  - apply (expression_follows_flat_grammar (parser_create open_a_plus_b_times_c) 9).
    + reflexivity.
    + vm_compute; lia.
Defined.

(* ------------------------------------------------------------------ *)
(** ** C2: the classifier *)

Lemma is_chain_kind_code t :
  is_chain_kind t = NodeType_beq t NODE_PROGRAM_DECL || Base.is_solana_node t.
Proof. destruct t; reflexivity. Qed.

(** What [detect_solana_program] returns: it searches the [children]
    arrays, and no other child slot. *)
Lemma detect_searches_children n : forall g,
  fst (Base.detect_solana_program_node n g) = contains_chain_child n.
Proof.
  induction n as [t v l _ r _ c _ tb _ eb _ cs IH pid sg wr ini sd].
  intros g. cbn [Base.detect_solana_program_node contains_chain_child type children].
  rewrite is_chain_kind_code.
  destruct (NodeType_beq t NODE_PROGRAM_DECL); [reflexivity|].
  destruct (Base.is_solana_node t); [reflexivity|].
  cbn [orb]. revert g.
  induction IH as [|c0 Hc0 cs0 _ IHcs]; intros g; [reflexivity|].
  cbn [existsb]. rewrite <- (Hc0 g).
  destruct (Base.detect_solana_program_node c0 g) as [found g'].
  cbn [fst]. destruct found; [reflexivity|]. apply IHcs.
Qed.

Lemma existsb_impl {A : Type} (f g : A -> bool) (l : list A) :
  list_all A (fun a => f a = true -> g a = true) l ->
  existsb f l = true -> existsb g l = true.
Proof.
  induction 1 as [|a Ha l _ IH]; simpl; auto.
  intros H. apply orb_true_iff in H. apply orb_true_iff.
  destruct H; auto.
Qed.

Lemma chain_child_is_chain_node n :
  contains_chain_child n = true -> contains_chain_node n = true.
Proof.
  induction n as [t v l _ r _ c _ tb _ eb _ cs IH pid sg wr ini sd].
  cbn [contains_chain_child contains_chain_node type children].
  intros H. apply orb_true_iff in H. destruct H as [H|H].
  - rewrite H. reflexivity.
  - apply orb_true_iff. right. eapply existsb_impl; eauto.
Qed.

(** The half of C2 that holds: a tree with no node of a chain kind
    is classified [Generic]; and a chain node found along [children]
    arrays gives [ChainProgram]. *)
Lemma classify_generic n :
  contains_chain_node n = false -> Base.classify n = Base.Generic.
Proof.
  intros H. unfold Base.classify, Base.detect_solana_program.
  rewrite detect_searches_children.
  destruct (contains_chain_child n) eqn:E; auto.
  apply chain_child_is_chain_node in E. congruence.
Qed.

Lemma classify_chain_child n :
  contains_chain_child n = true -> Base.classify n = Base.ChainProgram.
Proof.
  intros H. unfold Base.classify, Base.detect_solana_program.
  now rewrite detect_searches_children, H.
Qed.

(** C2 (the code departs from it): a tree is classified [ChainProgram]
    exactly when a node of a chain kind is reached through [children]
    arrays.  An instruction declaration in the branch of an if statement,
    or in the body of a function, is in the tree, yet
    [detect_solana_program] does not find it and the tree is classified
    [Generic]: the search does not follow [left], [right], [condition],
    [then_branch] and [else_branch]. *)
Theorem classify_misses_nested_instruction :
  (forall n, Base.classify n = Base.ChainProgram <-> contains_chain_child n = true)
  /\ contains_chain_node instruction_under_if = true
  /\ Base.classify instruction_under_if = Base.Generic
  /\ contains_chain_node instruction_in_function = true
  /\ Base.classify instruction_in_function = Base.Generic.
Proof.
  split; [|repeat split; reflexivity].
  intros n. unfold Base.classify, Base.detect_solana_program.
  rewrite detect_searches_children.
  destruct (contains_chain_child n); split; congruence.
Qed.

(* ------------------------------------------------------------------ *)
(** ** The code generator of the enhanced compiler writes by appending *)

Lemma append_assoc (a b c : string) : (a +++ b) +++ c = a +++ (b +++ c).
Proof. induction a as [|x a IH]; simpl; [reflexivity | now rewrite IH]. Qed.

Lemma append_nil_r (a : string) : a +++ EmptyString = a.
Proof. induction a as [|x a IH]; simpl; [reflexivity | now rewrite IH]. Qed.

Lemma concat_text_app l1 l2 :
  concat_text (l1 ++ l2) = concat_text l1 +++ concat_text l2.
Proof.
  induction l1 as [|x l1 IH]; simpl; [reflexivity|].
  now rewrite IH, append_assoc.
Qed.

Module Import EmitFacts.
Import Enhanced.

Lemma emit_prepend t s c : emit t (prepend s c) = prepend s (emit t c).
Proof. unfold emit, prepend; simpl. now rewrite append_assoc. Qed.

Lemma set_in_function_prepend b s c :
  set_in_function b (prepend s c) = prepend s (set_in_function b c).
Proof. reflexivity. Qed.

Lemma headers_prepend s c :
  compiler_emit_c_headers (prepend s c) = prepend s (compiler_emit_c_headers c).
Proof. unfold compiler_emit_c_headers. now rewrite !emit_prepend. Qed.

Lemma prepend_output c : prepend (output c) (blank (to_rust c) (in_function c)) = c.
Proof. destruct c; unfold prepend, blank; simpl. now rewrite append_nil_r. Qed.

Lemma appends_emit t : appends (emit t).
Proof.
  intros c. split; [reflexivity|]. split; [reflexivity|].
  intros s. apply emit_prepend.
Qed.

Lemma appends_id : appends (fun c => c).
Proof. intros c. split; [reflexivity|]. split; reflexivity. Qed.

Lemma appends_compose f g : appends f -> appends g -> appends (fun c => g (f c)).
Proof.
  intros Hf Hg c. destruct (Hf c) as (F1 & F2 & F3). destruct (Hg (f c)) as (G1 & G2 & G3).
  split; [congruence|]. split; [congruence|].
  intros s. now rewrite F3, G3.
Qed.

Lemma appends_if_rust f g :
  appends f -> appends g -> appends (fun c => if to_rust c then f c else g c).
Proof.
  intros Hf Hg c.
  destruct (Hf c) as (F1 & F2 & F3). destruct (Hg c) as (G1 & G2 & G3).
  cbv beta. split; [|split].
  - destruct (to_rust c); auto.
  - destruct (to_rust c); auto.
  - intros s. cbn [prepend to_rust]. destruct (to_rust c); auto.
Qed.

Lemma appends_fold (F : ASTNode -> Compiler -> Compiler) (l : list ASTNode) :
  (forall n, In n l -> appends (F n)) ->
  appends (fun c => fold_left (fun c n => F n c) l c).
Proof.
  induction l as [|n l IH]; intros H; simpl.
  - apply appends_id.
  - apply (appends_compose (F n) (fun c => fold_left (fun c n => F n c) l c)).
    + apply H. now left.
    + apply IH. intros m Hm. apply H. now right.
Qed.

Lemma appends_option (F : ASTNode -> Compiler -> Compiler) (o : option ASTNode)
  (g : Compiler -> Compiler) :
  (forall n, o = Some n -> appends (F n)) -> appends g ->
  appends (fun c => match o with Some n => F n c | None => g c end).
Proof. intros H Hg. destruct o; auto. Qed.

End EmitFacts.

Module Import EmitProofs.
Import Enhanced.

Lemma size_child n c : In c (children n) -> node_size c < node_size n.
Proof.
  destruct n as [t v l r cd tb eb cs pid sg wr ini sd]. cbn [children node_size].
  intros H. assert (node_size c <= list_sum (map node_size cs)).
  { clear -H. induction cs as [|x cs IH]; simpl in *; [tauto|].
    destruct H as [->|H]; [lia|]. specialize (IH H). lia. }
  simpl. lia.
Qed.

Lemma size_left n c : left n = Some c -> node_size c < node_size n.
Proof. destruct n; simpl; intros ->; simpl; lia. Qed.
Lemma size_right n c : right n = Some c -> node_size c < node_size n.
Proof. destruct n; simpl; intros ->; simpl; lia. Qed.
Lemma size_condition n c : condition n = Some c -> node_size c < node_size n.
Proof. destruct n; simpl; intros ->; simpl; lia. Qed.
Lemma size_then n c : then_branch n = Some c -> node_size c < node_size n.
Proof. destruct n; simpl; intros ->; simpl; lia. Qed.
Lemma size_else n c : else_branch n = Some c -> node_size c < node_size n.
Proof. destruct n; simpl; intros ->; simpl; lia. Qed.

Lemma appends_then f g : appends g -> appends f -> appends (fun c => g (f c)).
Proof. intros; now apply appends_compose. Qed.

Lemma appends_ext (f g : Compiler -> Compiler) :
  (forall c, f c = g c) -> appends g -> appends f.
Proof.
  intros E Hg c. unfold appends_at. rewrite !E. destruct (Hg c) as (G1 & G2 & G3).
  split; [auto|]. split; [auto|]. intros s. now rewrite E.
Qed.

Lemma appends_if_rust_at x f g :
  appends x -> appends (fun c => if to_rust c then f c else g c) ->
  appends (fun c => if to_rust (x c) then f c else g c).
Proof.
  intros Hx H. eapply appends_ext; [|exact H].
  intros c. cbv beta. now destruct (Hx c) as (-> & _).
Qed.

Lemma appends_if_not_rust_at x f g :
  appends x -> appends (fun c => if to_rust c then g c else f c) ->
  appends (fun c => if negb (to_rust (x c)) then f c else g c).
Proof.
  intros Hx H. eapply appends_ext; [|exact H].
  intros c. cbv beta. destruct (Hx c) as (-> & _). now destruct (to_rust c).
Qed.

Lemma appends_each (F : ASTNode -> Compiler -> Compiler) l :
  (forall n, In n l -> appends (F n)) -> appends (compile_each F l).
Proof. intros H. unfold compile_each. now apply appends_fold. Qed.

Lemma appends_each_indented (F : ASTNode -> Compiler -> Compiler) l :
  (forall n, In n l -> appends (F n)) -> appends (compile_each_indented F l).
Proof.
  intros H. unfold compile_each_indented.
  apply (appends_fold (fun n c => F n (emit "    " c))).
  intros n Hn. apply (appends_then (emit "    ") (F n)); auto using appends_emit.
Qed.

Lemma appends_statements (F : ASTNode -> Compiler -> Compiler) l :
  (forall n, In n l -> appends (F n)) -> appends (compile_statements F l).
Proof.
  intros H. unfold compile_statements.
  apply (appends_fold (fun n c => if is_func_decl n then c else F n c)).
  intros n Hn. destruct (is_func_decl n); auto using appends_id.
Qed.

Lemma size_in_list c (cs : list ASTNode) :
  In c cs -> node_size c <= list_sum (map node_size cs).
Proof.
  induction cs as [|x cs IH]; simpl; [tauto|].
  intros [->|H]; [lia|]. specialize (IH H). lia.
Qed.

Ltac size_tac :=
  repeat match goal with
         | H : In _ (children _) |- _ => apply size_child in H
         | H : In _ _ |- _ => apply size_in_list in H
         end;
  simpl in *; lia.

Ltac appends_step Hsub :=
  match goal with
  | |- appends (fun c => c) => apply appends_id
  | |- appends (fun c => emit ?t (@?f c)) =>
      apply (appends_then f (emit t)); [apply appends_emit|]
  | |- appends (fun c => compiler_compile_node ?n (@?f c)) =>
      apply (appends_then f (compiler_compile_node n)); [apply Hsub; size_tac|]
  | |- appends (fun c => compile_each_indented compiler_compile_node ?l (@?f c)) =>
      apply (appends_then f (compile_each_indented compiler_compile_node l));
      [apply appends_each_indented; intros ? ?; apply Hsub; size_tac|]
  | |- appends (fun c => if ?b then _ else _) => destruct b
  | |- appends (fun c => if to_rust c then @?f c else @?g c) =>
      apply (appends_if_rust f g)
  | |- appends (fun c => if to_rust (@?x c) then @?f c else @?g c) =>
      apply (appends_if_rust_at x f g)
  | |- appends (fun c => if negb (to_rust (@?x c)) then @?f c else @?g c) =>
      apply (appends_if_not_rust_at x f g)
  end.

Lemma appends_at_compose f g c :
  appends_at f c -> appends_at g (f c) -> appends_at (fun c => g (f c)) c.
Proof.
  intros (F1 & F2 & F3) (G1 & G2 & G3).
  split; [congruence|]. split; [congruence|].
  intros s. now rewrite F3, G3.
Qed.

Lemma appends_at_ext f g c :
  f c = g c -> (forall s, f (prepend s c) = g (prepend s c)) ->
  appends_at g c -> appends_at f c.
Proof.
  intros E1 E2 (G1 & G2 & G3). unfold appends_at. rewrite E1.
  split; [auto|]. split; [auto|]. intros s. now rewrite E2.
Qed.

(** [compiler_compile_function] is entered outside a function and
    leaves [in_function] cleared. *)
Lemma compile_function_at (F : ASTNode -> Compiler -> Compiler) fn c :
  (forall b n, left fn = Some b -> In n (children b) -> appends (F n)) ->
  in_function c = false -> appends_at (compile_function F fn) c.
Proof.
  intros HF Hc. unfold compile_function.
  set (sig := fun c => if to_rust c
                       then emit ("fn " +++ strcpy (value fn) +++ "() -> i32 {
") c
                       else emit ("int " +++ strcpy (value fn) +++ "() {
") c).
  set (body := fun c1 => match left fn with
                         | Some body =>
                             set_in_function false
                               (compile_each F (children body) (set_in_function true c1))
                         | None => c1
                         end).
  set (tail := fun c2 => emit "}

" (if to_rust c2 then emit "    0
" c2 else emit "    return 0;
" c2)).
  change (appends_at (fun c => tail (body (sig c))) c).
  assert (Hsig : appends sig) by (apply appends_if_rust; apply appends_emit).
  assert (Htail : appends tail).
  { unfold tail. apply (appends_then _ (emit _)); [apply appends_emit|].
    apply appends_if_rust; apply appends_emit. }
  apply (appends_at_compose (fun c => body (sig c)) tail); [|apply Htail].
  apply (appends_at_compose sig body); [apply Hsig|].
  destruct (Hsig c) as (S1 & S2 & _). rewrite Hc in S2.
  generalize dependent (sig c). intros c1 _ Hc1.
  unfold body, appends_at. destruct (left fn) as [b|] eqn:Eb.
  - pose proof (appends_each F (children b) (fun n Hn => HF b n eq_refl Hn)) as He.
    destruct (He (set_in_function true c1)) as (E1 & E2 & E3).
    split; [exact E1|]. split; [simpl; congruence|].
    intros s. rewrite set_in_function_prepend, E3. reflexivity.
  - split; [reflexivity|]. split; reflexivity.
Qed.

Lemma compile_functions_at (F : ASTNode -> Compiler -> Compiler) l c :
  (forall fn b n, In fn l -> left fn = Some b -> In n (children b) -> appends (F n)) ->
  in_function c = false -> appends_at (compile_functions F l) c.
Proof.
  unfold compile_functions. revert c.
  induction l as [|fn l IH]; intros c HF Hc; simpl.
  - split; [reflexivity|]. split; reflexivity.
  - set (step := fun c => if is_func_decl fn then compile_function F fn c else c).
    assert (Hstep : appends_at step c).
    { unfold step. destruct (is_func_decl fn).
      - apply compile_function_at; auto. intros b n. apply HF. now left.
      - split; [reflexivity|]. split; reflexivity. }
    apply (appends_at_compose step
             (fun c => fold_left (fun c n => if is_func_decl n then compile_function F n c else c) l c));
      [exact Hstep|].
    apply IH.
    + intros fn' b n Hin. apply HF. now right.
    + destruct Hstep as (_ & H2 & _). congruence.
Qed.

Lemma appends_headers : appends compiler_emit_c_headers.
Proof.
  unfold compiler_emit_c_headers.
  apply (appends_then _ (emit _)); [apply appends_emit|].
  apply (appends_then _ (emit _)); apply appends_emit.
Qed.

(** The [NODE_PROGRAM] case. *)
Lemma compile_program_at (F : ASTNode -> Compiler -> Compiler) cs c :
  (forall n, In n cs -> appends (F n)) ->
  (forall fn b n, In fn cs -> left fn = Some b -> In n (children b) -> appends (F n)) ->
  appends_at
    (fun c =>
       let c1 :=
         if negb (in_function c) then
           if to_rust c then emit "fn main() {
" (compile_functions F cs c)
           else emit "int main() {
" (compile_functions F cs (compiler_emit_c_headers c))
         else c in
       let c2 := compile_statements F cs c1 in
       if negb (in_function c2) then
         if to_rust c2 then emit "}
" c2
         else emit "    return 0;
}
" c2
       else c2) c.
Proof.
  intros Hcs Hfn.
  pose proof (appends_statements F cs Hcs) as Hst.
  destruct (in_function c) eqn:Ei.
  - (* inside a function: the statements only *)
    apply (appends_at_ext _ (compile_statements F cs)); [| |apply Hst].
    + cbv zeta. rewrite Ei. cbn [negb].
      destruct (Hst c) as (_ & -> & _). now rewrite Ei.
    + intros s. cbv zeta. cbn [prepend in_function]. rewrite Ei. cbn [negb].
      destruct (Hst (prepend s c)) as (_ & -> & _). cbn [prepend in_function].
      now rewrite Ei.
  - set (pre := fun c => if to_rust c then emit "fn main() {
" (compile_functions F cs c)
           else emit "int main() {
" (compile_functions F cs (compiler_emit_c_headers c))).
    set (close := fun c2 => if to_rust c2 then emit "}
" c2
         else emit "    return 0;
}
" c2).
    assert (Hclose : appends close) by (apply appends_if_rust; apply appends_emit).
    assert (Hpre : appends_at pre c).
    { destruct (to_rust c) eqn:Er.
      - apply (appends_at_ext _ (fun c => emit "fn main() {
" (compile_functions F cs c))).
        + unfold pre. now rewrite Er.
        + intros s. unfold pre. cbn [prepend to_rust]. now rewrite Er.
        + apply (appends_at_compose (compile_functions F cs) (emit _));
            [now apply compile_functions_at | apply appends_emit].
      - apply (appends_at_ext _ (fun c => emit "int main() {
" (compile_functions F cs (compiler_emit_c_headers c)))).
        + unfold pre. now rewrite Er.
        + intros s. unfold pre. cbn [prepend to_rust]. now rewrite Er.
        + apply (appends_at_compose
                   (fun c => compile_functions F cs (compiler_emit_c_headers c)) (emit _));
            [|apply appends_emit].
          apply (appends_at_compose compiler_emit_c_headers (compile_functions F cs));
            [apply appends_headers|].
          apply compile_functions_at; [auto | exact Ei]. }
    assert (Hmid : appends_at (fun c => compile_statements F cs (pre c)) c).
    { apply (appends_at_compose pre (compile_statements F cs)); [exact Hpre | apply Hst]. }
    assert (Hin : in_function (compile_statements F cs (pre c)) = false).
    { destruct Hmid as (_ & -> & _). exact Ei. }
    apply (appends_at_ext _ (fun c => close (compile_statements F cs (pre c)))).
    + cbv zeta. rewrite Ei. cbn [negb]. fold (pre c). rewrite Hin. reflexivity.
    + intros s. cbv zeta. cbn [prepend in_function]. rewrite Ei. cbn [negb].
      change (if to_rust (prepend s c) then emit "fn main() {
" (compile_functions F cs (prepend s c))
           else emit "int main() {
" (compile_functions F cs (compiler_emit_c_headers (prepend s c))))
        with (pre (prepend s c)).
      destruct Hmid as (_ & _ & H3). rewrite H3. cbn [prepend in_function].
      rewrite Hin. reflexivity.
    + apply (appends_at_compose (fun c => compile_statements F cs (pre c)) close);
        [exact Hmid | apply Hclose].
Qed.

Lemma compile_node_appends k : forall n, node_size n <= k -> appends (compiler_compile_node n).
Proof.
  induction k as [|k IH]; intros n Hk; [destruct n; simpl in Hk; lia|].
  assert (Hsub : forall m, node_size m < node_size n -> appends (compiler_compile_node m)).
  { intros m Hm. apply IH. lia. }
  clear IH Hk.
  destruct n as [t v l r cd tb eb cs pid sg wr ini sd].
  destruct t;
    match goal with |- appends (compiler_compile_node ?n) =>
      change (appends (fun c => compiler_compile_node n c)) end;
    cbn [compiler_compile_node type value left right condition then_branch else_branch children];
    try apply appends_id.
  - (* program *)
    intros c. apply (compile_program_at compiler_compile_node cs c).
    + intros n Hn. apply Hsub. size_tac.
    + intros fn b n Hfn Hb Hn. apply Hsub.
      apply size_left in Hb. size_tac.
  - destruct r; repeat appends_step Hsub.
  - destruct cd, tb, eb; repeat appends_step Hsub.
  - destruct l; repeat appends_step Hsub.
  - destruct l; repeat appends_step Hsub.
  - destruct l, r; repeat appends_step Hsub.
  - repeat appends_step Hsub.
  - repeat appends_step Hsub.
  - repeat appends_step Hsub.
  - repeat appends_step Hsub.
Qed.

Lemma compile_node_appends_all n : appends (compiler_compile_node n).
Proof. apply (compile_node_appends (node_size n)). lia. Qed.

Lemma appends_at_output f c :
  appends_at f (blank (to_rust c) (in_function c)) ->
  f c = prepend (output c) (f (blank (to_rust c) (in_function c))).
Proof.
  intros (_ & _ & H). rewrite <- H. now rewrite prepend_output.
Qed.

Lemma fold_output (G : ASTNode -> Compiler -> Compiler) l r i :
  (forall n, In n l -> forall c, to_rust c = r -> in_function c = i -> appends_at (G n) c) ->
  forall c, to_rust c = r -> in_function c = i ->
  let c' := fold_left (fun c n => G n c) l c in
  to_rust c' = r /\ in_function c' = i
  /\ output c' = output c +++ concat_text (map (fun n => output (G n (blank r i))) l).
Proof.
  induction l as [|n l IH]; intros HG c Hr Hi; simpl.
  - rewrite append_nil_r. auto.
  - assert (Hn : appends_at (G n) c) by (apply HG; simpl; auto).
    assert (Hb : appends_at (G n) (blank r i)) by (apply HG; simpl; auto).
    destruct Hn as (N1 & N2 & _).
    destruct (IH (fun m Hm => HG m (or_intror Hm)) (G n c)) as (I1 & I2 & I3);
      [congruence | congruence |].
    split; [exact I1|]. split; [exact I2|].
    rewrite I3. rewrite (appends_at_output (G n) c) by (rewrite Hr, Hi; exact Hb).
    cbn [prepend output]. rewrite Hr, Hi. now rewrite append_assoc.
Qed.

Lemma statements_text rust inf l :
  concat_text (map (fun n => output ((fun n c => if is_func_decl n then c
                                                 else compiler_compile_node n c) n
                                       (blank rust inf))) l)
  = concat_text (map (emitted rust inf) (filter (fun n => negb (is_func_decl n)) l)).
Proof.
  induction l as [|n l IH]; simpl; [reflexivity|].
  destruct (is_func_decl n); simpl; now rewrite IH.
Qed.

Lemma functions_text rust l :
  concat_text (map (fun n => output ((fun n c => if is_func_decl n
                                                 then compile_function compiler_compile_node n c
                                                 else c) n (blank rust false))) l)
  = concat_text (map (function_text rust) (filter is_func_decl l)).
Proof.
  induction l as [|n l IH]; simpl; [reflexivity|].
  destruct (is_func_decl n); simpl; now rewrite IH.
Qed.

Lemma compile_statements_output cs c :
  let c' := compile_statements compiler_compile_node cs c in
  to_rust c' = to_rust c /\ in_function c' = in_function c
  /\ output c' = output c
       +++ concat_text (map (emitted (to_rust c) (in_function c))
                            (filter (fun n => negb (is_func_decl n)) cs)).
Proof.
  cbv zeta. unfold compile_statements.
  rewrite <- statements_text.
  apply (fold_output (fun n c => if is_func_decl n then c else compiler_compile_node n c));
    auto.
  intros n _ c0 _ _. destruct (is_func_decl n).
  - split; [reflexivity|]. split; reflexivity.
  - apply compile_node_appends_all.
Qed.

Lemma compile_functions_output cs c :
  in_function c = false ->
  let c' := compile_functions compiler_compile_node cs c in
  to_rust c' = to_rust c /\ in_function c' = false
  /\ output c' = output c
       +++ concat_text (map (function_text (to_rust c)) (filter is_func_decl cs)).
Proof.
  intros Hc. cbv zeta. unfold compile_functions.
  rewrite <- functions_text.
  apply (fold_output (fun n c => if is_func_decl n
                                 then compile_function compiler_compile_node n c else c));
    auto.
  intros n _ c0 _ Hc0. destruct (is_func_decl n).
  - apply compile_function_at; auto. intros; apply compile_node_appends_all.
  - split; [reflexivity|]. split; reflexivity.
Qed.

Lemma append_nil_l (a : string) : EmptyString +++ a = a.
Proof. reflexivity. Qed.

Lemma compile_function_output fn c :
  in_function c = false ->
  output (compile_function compiler_compile_node fn c)
  = output c +++ function_open (to_rust c) (value fn) +++ body_text (to_rust c) fn
    +++ fallback_return (to_rust c) +++ "}

".
Proof.
  destruct c as [o rust inf]. cbn [in_function to_rust output].
  intros Hc. unfold compile_function. cbn [to_rust].
  match goal with |- context [match left fn with Some _ => _ | None => ?x end] =>
    set (c1 := x) end.
  assert (E1 : output c1 = o +++ function_open rust (value fn)
               /\ to_rust c1 = rust).
  { unfold c1, function_open. destruct rust; split; reflexivity. }
  destruct E1 as (O1 & R1).
  match goal with |- context [if to_rust ?x then _ else _] => set (c2 := x) end.
  assert (E2 : output c2 = output c1 +++ body_text rust fn
               /\ to_rust c2 = rust).
  { unfold c2, body_text. destruct (left fn) as [b|].
    - destruct (fold_output compiler_compile_node (children b) rust true
                  (fun n _ c _ _ => compile_node_appends_all n c)
                  (set_in_function true c1) R1 eq_refl) as (H1 & H2 & H3).
      unfold compile_each. cbn [output set_in_function to_rust].
      split; [exact H3 | exact H1].
    - rewrite append_nil_r. auto. }
  destruct E2 as (O2 & R2).
  rewrite R2. unfold fallback_return.
  destruct rust; cbn [emit output]; rewrite O2, O1; now rewrite !append_assoc.
Qed.

Lemma function_text_layout rust f :
  function_text rust f
  = function_open rust (value f) +++ body_text rust f +++ fallback_return rust +++ "}

".
Proof.
  unfold function_text, compiler_compile_function.
  now rewrite compile_function_output.
Qed.

End EmitProofs.

(* ------------------------------------------------------------------ *)
(** ** C3: the layout of a generated program *)

(** C3: for a [NODE_PROGRAM] tree compiled to C or to Rust by a fresh
    compiler, the output is the preamble (the C headers), then every
    top-level function declaration as a function of its own, in source
    order, then the opening of [main], then the text of the top-level items
    that are not function declarations, in source order, then the closing of
    [main] (in C with [return 0;]).  Every function text ends with the
    fallback return of zero before its closing brace. *)
Theorem generic_program_layout (n : ASTNode) (rust : bool) :
  type n = NODE_PROGRAM ->
  Enhanced.output (Enhanced.compiler_compile (Some n) (Enhanced.compiler_create rust))
  = preamble rust
    +++ concat_text (map (function_text rust) (filter Enhanced.is_func_decl (children n)))
    +++ entry_open rust
    +++ concat_text (map (emitted rust false)
                         (filter (fun m => negb (Enhanced.is_func_decl m)) (children n)))
    +++ entry_close rust
  /\ forall f,
       function_text rust f
       = function_open rust (value f) +++ body_text rust f
         +++ fallback_return rust +++ "}

".
Proof.
  intros Ht. split; [|intros f; apply function_text_layout].
  destruct n as [t v l r cd tb eb cs pid sg wr ini sd]. simpl in Ht. subst t.
  unfold Enhanced.compiler_compile, Enhanced.compiler_create.
  cbn [Enhanced.compiler_compile_node type children Enhanced.in_function negb
       Enhanced.to_rust].
  destruct rust.
  - destruct (compile_functions_output cs (Enhanced.mkCompiler EmptyString true false)
                eq_refl) as (F1 & F2 & F3).
    match goal with |- context [Enhanced.compile_statements _ _ ?c] =>
      destruct (compile_statements_output cs c) as (S1 & S2 & S3) end.
    cbn [Enhanced.emit Enhanced.to_rust Enhanced.in_function Enhanced.output] in S1, S2, S3.
    rewrite S2, F2, S1, F1. cbn [negb Enhanced.to_rust Enhanced.emit Enhanced.output].
    rewrite S3, F3, F1, F2.
    cbn [Enhanced.to_rust Enhanced.output preamble entry_open entry_close].
    now rewrite !append_nil_l, !append_assoc.
  - destruct (compile_functions_output cs
                (Enhanced.compiler_emit_c_headers
                   (Enhanced.mkCompiler EmptyString false false)) eq_refl)
      as (F1 & F2 & F3).
    match goal with |- context [Enhanced.compile_statements _ _ ?c] =>
      destruct (compile_statements_output cs c) as (S1 & S2 & S3) end.
    cbn [Enhanced.emit Enhanced.to_rust Enhanced.in_function Enhanced.output] in S1, S2, S3.
    rewrite S2, F2, S1, F1.
    cbn [negb Enhanced.to_rust Enhanced.emit Enhanced.output Enhanced.compiler_emit_c_headers].
    rewrite S3, F3, F1, F2.
    cbn [Enhanced.to_rust Enhanced.output preamble entry_open entry_close
         Enhanced.compiler_emit_c_headers Enhanced.emit].
    unfold c_headers.
    now rewrite !append_nil_l, !append_assoc.
Qed.

Lemma generic_program_layout_witness :
  type example_program = NODE_PROGRAM
  /\ Enhanced.output
       (Enhanced.compiler_compile (Some example_program) (Enhanced.compiler_create false))
     = preamble false
       +++ concat_text (map (function_text false)
                            (filter Enhanced.is_func_decl (children example_program)))
       +++ entry_open false
       +++ concat_text (map (emitted false false)
                            (filter (fun m => negb (Enhanced.is_func_decl m))
                                    (children example_program)))
       +++ entry_close false.
Proof.
  split; [reflexivity|].
  apply (generic_program_layout example_program false). reflexivity.
Defined.

(** The generated C text of the example, in full. *)
Example example_program_in_c :
  Enhanced.output
    (Enhanced.compiler_compile (Some example_program) (Enhanced.compiler_create false))
  = "#include <stdio.h>
#include <stdlib.h>
#include <string.h>

int f() {
    return 1;
    return 0;
}

int main() {
    int x = 42;
    printf(" +++ char_str QUOTE +++ "%d\n" +++ char_str QUOTE +++ ", x);
    return 0;
}
".
Proof. vm_compute. reflexivity. Qed.

(** Scenarios A and B of the specification, from source text to output:
    [let x = 42] and [print(x)] compiled to C and to Rust. *)
Example scenario_a_and_b :
  let compile rust :=
    do l <- Enhanced.lexer_tokenize (lexer_create "let x = 42
print(x)");
    do (ast, _) <- Enhanced.parser_parse 4 (parser_create (tokens l));
    Some (Enhanced.output
            (Enhanced.compiler_compile (Some ast) (Enhanced.compiler_create rust))) in
  compile false = Some ("#include <stdio.h>
#include <stdlib.h>
#include <string.h>

int main() {
    int x = 42;
    printf(" +++ char_str QUOTE +++ "%d\n" +++ char_str QUOTE +++ ", x);
    return 0;
}
")
  /\ compile true = Some ("fn main() {
    let x = 42;
    println!(" +++ char_str QUOTE +++ "{}" +++ char_str QUOTE +++ ", x);
}
").
Proof. vm_compute. split; reflexivity. Qed.

(* ------------------------------------------------------------------ *)
(** ** C6: emission is deterministic *)

(** C6: the one piece of state the code generator keeps outside its
    arguments is the static [in_function].  A run started by a fresh
    compiler leaves it as it found it, cleared; so a second run on the same
    tree and target, started with the flag as the first run left it, writes
    the same text, and a run that starts after other text was written
    appends that same text. *)
Theorem emission_is_deterministic (ast : option ASTNode) (rust : bool) :
  let first := Enhanced.compiler_compile ast (Enhanced.compiler_create rust) in
  let second :=
    Enhanced.compiler_compile ast
      (Enhanced.mkCompiler EmptyString rust (Enhanced.in_function first)) in
  Enhanced.in_function first = false
  /\ Enhanced.output second = Enhanced.output first
  /\ forall written,
       Enhanced.output
         (Enhanced.compiler_compile ast (Enhanced.mkCompiler written rust false))
       = written +++ Enhanced.output first.
Proof.
  cbv zeta. unfold Enhanced.compiler_create.
  destruct ast as [n|]; cbn [Enhanced.compiler_compile].
  - destruct (compile_node_appends_all n (Enhanced.mkCompiler EmptyString rust false))
      as (_ & H2 & H3).
    cbn [Enhanced.in_function] in H2.
    split; [exact H2|]. rewrite H2. split; [reflexivity|].
    intros written. specialize (H3 written).
    unfold prepend in H3. cbn [Enhanced.output Enhanced.to_rust Enhanced.in_function] in H3.
    rewrite append_nil_r in H3. rewrite H3. reflexivity.
  - cbn [Enhanced.in_function Enhanced.output].
    split; [reflexivity|]. split; [reflexivity|].
    intros written. now rewrite append_nil_r.
Qed.

(* ------------------------------------------------------------------ *)
(** ** The Solana code generator writes by appending *)

Module Import SolanaFacts.
Import Solana.

Lemma extends_refl c : extends c c.
Proof. split; [reflexivity|]. exists EmptyString. now rewrite append_nil_r. Qed.

Lemma extends_trans a b c : extends a b -> extends b c -> extends a c.
Proof.
  intros (U1 & t1 & O1) (U2 & t2 & O2). split; [congruence|].
  exists (t1 +++ t2). now rewrite O2, O1, append_assoc.
Qed.

Lemma extends_emit t c : extends c (emit t c).
Proof. split; [reflexivity|]. now exists t. Qed.

Lemma extends_count c : extends c (count_instruction c).
Proof. split; [reflexivity|]. exists EmptyString. simpl. now rewrite append_nil_r. Qed.

Lemma extends_fold {A : Type} (F : A -> SolanaCompiler -> SolanaCompiler) (l : list A) :
  (forall n, In n l -> forall c, extends c (F n c)) ->
  forall c, extends c (fold_left (fun c n => F n c) l c).
Proof.
  induction l as [|n l IH]; intros H c; simpl; [apply extends_refl|].
  eapply extends_trans; [apply H; now left|].
  apply IH. intros m Hm. apply H. now right.
Qed.

Ltac ext :=
  repeat first
    [ apply extends_refl
    | match goal with
      | |- extends ?c (emit _ ?x) =>
          apply (extends_trans c x); [|apply extends_emit]
      | |- extends ?c (count_instruction ?x) =>
          apply (extends_trans c x); [|apply extends_count]
      | |- extends _ (if ?b then _ else _) => destruct b
      | |- extends _ (match ?o with Some _ => _ | None => _ end) => destruct o
      end ].

Lemma extends_account a c : extends c (emit_account a c).
Proof. unfold emit_account. ext. Qed.

Lemma extends_declare_id i id c : extends c (declare_id i id c).
Proof. unfold declare_id. ext. Qed.

Lemma list_all_in {A : Type} (P : A -> Prop) (l : list A) :
  list_all A P l -> forall a, In a l -> P a.
Proof.
  induction 1 as [|x Hx l _ IH]; simpl; [tauto|].
  intros a [<-|H]; auto.
Qed.

Lemma compile_extends g n : forall c, extends c (solana_compiler_compile g n c).
Proof.
  induction n as [t v l IHl r _ cd IHcd tb _ eb _ cs IHcs st ct an iname pid sg wr ini sd bp].
  intros c.
  destruct t; cbn [solana_compiler_compile type left condition children];
    try (ext; fail).
  - (* program declaration *)
    assert (H : extends c (fold_left (fun c n => solana_compiler_compile g n c) cs
                 (emit_program_structure
                    (mkSolanaAST NODE_PROGRAM_DECL v l r cd tb eb cs st ct an iname pid
                                 sg wr ini sd bp)
                    (if use_anchor c then emit_anchor_imports c
                     else emit_native_solana_imports c)))).
    { eapply extends_trans; [|apply (extends_fold (solana_compiler_compile g))].
      - unfold emit_program_structure, emit_anchor_imports, emit_native_solana_imports.
        cbn [value program_id].
        destruct (use_anchor c) eqn:E; cbn [use_anchor emit]; rewrite ?E.
        + eapply extends_trans; [|apply extends_declare_id]. ext.
        + ext. eapply extends_trans; [|apply extends_declare_id]. ext.
      - intros n Hn. apply (list_all_in _ _ IHcs n Hn). }
    ext; exact H.
  - (* instruction declaration *)
    unfold emit_instruction_handler_with, compile_opt. cbn [left instruction_name].
    destruct IHl as [b Hb|]; ext;
      try (eapply extends_trans; [|apply Hb]; ext).
  - (* account declaration *)
    unfold emit_account_validation. cbn [children instruction_name]. ext.
    eapply extends_trans; [|apply (extends_fold emit_account)].
    + ext.
    + intros; apply extends_account.
  - (* state declaration *)
    unfold emit_state_structure. cbn [children value]. ext.
    eapply extends_trans;
      [|apply (extends_fold (fun field c => emit ("    pub " +++ strcpy (value field) +++ ": "
            +++ field_type_name (solana_type field) +++ ",
") c))].
    + ext.
    + intros; apply extends_emit.
  - (* require *)
    unfold compile_opt. destruct IHcd as [b Hb|]; ext;
      try (eapply extends_trans; [|apply Hb]; ext).
Qed.


Lemma same_count_fold {A : Type} (F : A -> SolanaCompiler -> SolanaCompiler) (l : list A) :
  (forall n, In n l -> forall c, same_count c (F n c)) ->
  forall c, same_count c (fold_left (fun c n => F n c) l c).
Proof.
  unfold same_count.
  induction l as [|n l IH]; intros H c; simpl; [reflexivity|].
  rewrite IH; [apply H; now left|].
  intros m Hm. apply H. now right.
Qed.

Lemma same_count_account a c : same_count c (emit_account a c).
Proof. unfold same_count, emit_account. now destruct (is_signer a), (is_writable a), (is_init a). Qed.

Lemma free_keeps_count g n :
  instruction_free n = true -> forall c, same_count c (solana_compiler_compile g n c).
Proof.
  induction n as [t v l _ r _ cd IHcd tb _ eb _ cs _ st ct an iname pid sg wr ini sd bp].
  unfold same_count.
  destruct t; cbn [instruction_free solana_compiler_compile type condition children left];
    intros Hfree c; try discriminate; try reflexivity; try (destruct l; reflexivity).
  - (* account declaration *)
    unfold emit_account_validation. destruct (use_anchor c); [|reflexivity].
    cbn [emit instruction_count].
    pose proof (same_count_fold emit_account cs
                  (fun a _ c => same_count_account a c)) as H.
    unfold same_count in H. now rewrite H.
  - (* state declaration *)
    unfold emit_state_structure. cbn [emit instruction_count].
    pose proof (same_count_fold
                  (fun field c => emit ("    pub " +++ strcpy (value field) +++ ": "
                     +++ field_type_name (solana_type field) +++ ",
") c) cs (fun a _ c => eq_refl)) as H.
    unfold same_count in H. rewrite H. now destruct (use_anchor c).
  - (* require *)
    unfold compile_opt. destruct IHcd as [b Hb|].
    + destruct (use_anchor c); cbn [emit instruction_count]; now rewrite Hb.
    + now destruct (use_anchor c).
Qed.

Lemma is_instruction_type n : is_instruction n = true -> type n = NODE_INSTRUCTION_DECL.
Proof. unfold is_instruction. apply NodeType_beq_eq. Qed.

(** An instruction declaration whose body declares no instruction takes
    the current counter as its opcode and increments the counter. *)
Lemma flat_item_count g n c :
  flat_item n = true ->
  instruction_count (solana_compiler_compile g n c)
  = instruction_count c + (if is_instruction n then 1 else 0).
Proof.
  unfold flat_item. destruct (is_instruction n) eqn:E.
  - apply is_instruction_type in E. intros Hb.
    destruct n as [t v l r cd tb eb cs st ct an iname pid sg wr ini sd bp].
    cbn [type left] in *. subst t.
    cbn [solana_compiler_compile type]. unfold emit_instruction_handler_with, compile_opt.
    cbn [left instruction_name count_instruction instruction_count].
    destruct l as [b|].
    + destruct (use_anchor c); cbn [emit instruction_count];
        rewrite (free_keeps_count g b Hb); cbn [emit instruction_count]; lia.
    + destruct (use_anchor c); cbn [emit instruction_count]; lia.
  - intros Hf. rewrite (free_keeps_count g n Hf). lia.
Qed.

Lemma flat_items_count g items : forall c,
  forallb flat_item items = true ->
  instruction_count (fold_left (fun c n => solana_compiler_compile g n c) items c)
  = instruction_count c + count_instructions items.
Proof.
  unfold count_instructions.
  induction items as [|n items IH]; intros c H; simpl; [lia|].
  simpl in H. apply andb_true_iff in H. destruct H as [Hn H].
  rewrite IH by assumption. rewrite flat_item_count by assumption.
  destruct (is_instruction n); simpl; lia.
Qed.

(** Under the raw target an instruction declaration opens a dispatch arm
    keyed on the current value of the counter. *)
Lemma instruction_arm g n c :
  is_instruction n = true -> use_anchor c = false ->
  exists rest,
    output (solana_compiler_compile g n c)
    = output c +++ dispatch_arm (instruction_count c) (show_str (instruction_name n))
      +++ rest.
Proof.
  intros E Hc. apply is_instruction_type in E.
  destruct n as [t v l r cd tb eb cs st ct an iname pid sg wr ini sd bp].
  cbn [type] in E. subst t.
  cbn [solana_compiler_compile type]. unfold emit_instruction_handler_with.
  rewrite Hc. cbn [left instruction_name count_instruction output].
  match goal with |- context [compile_opt _ l ?c1] =>
    assert (H : extends c1 (compile_opt (solana_compiler_compile g) l c1))
      by (unfold compile_opt; destruct l; [apply compile_extends | apply extends_refl]);
    destruct H as (_ & t & Ht) end.
  cbn [emit output] in *. rewrite Ht.
  exists (t +++ "        },
    }
").
  unfold dispatch_arm. now rewrite !append_assoc.
Qed.

Lemma compile_ignores_message g n m c :
  type n = NODE_REQUIRE_STMT ->
  solana_compiler_compile g (with_message m n) c = solana_compiler_compile g n c.
Proof.
  destruct n as [t v l r cd tb eb cs st ct an iname pid sg wr ini sd bp].
  cbn [type]. intros ->. reflexivity.
Qed.

End SolanaFacts.

(* ------------------------------------------------------------------ *)
(** ** C4: opcodes of the raw target *)

Lemma fold_left_at {A B : Type} (F : A -> B -> A) (l : list B) : forall k n a,
  nth_error l k = Some n ->
  fold_left F l a = fold_left F (skipn (S k) l) (F (fold_left F (firstn k l) a) n).
Proof.
  induction l as [|x l IH]; intros k n a Hk.
  - destruct k; discriminate.
  - destruct k as [|k]; simpl in *.
    + now inversion Hk.
    + now apply IH.
Qed.

(** Where C4 holds: in a program declaration whose items do not
    nest instruction declarations, compiled by a fresh compiler for the raw
    target, the instruction declaration at item [k] is compiled with the
    counter equal to the number of instruction declarations before it, and
    opens the dispatch arm keyed on that number. *)
Lemma flat_program_opcodes g P k n :
  Solana.type P = NODE_PROGRAM_DECL ->
  forallb flat_item (Solana.children P) = true ->
  nth_error (Solana.children P) k = Some n ->
  is_instruction n = true ->
  let before :=
    fold_left (fun c m => Solana.solana_compiler_compile g m c)
      (firstn k (Solana.children P))
      (Solana.emit_program_structure P
         (Solana.emit_native_solana_imports (Solana.solana_compiler_create false))) in
  Solana.instruction_count before = count_instructions (firstn k (Solana.children P))
  /\ (exists rest,
        Solana.output (Solana.solana_compiler_compile g n before)
        = Solana.output before
          +++ dispatch_arm (count_instructions (firstn k (Solana.children P)))
                (Solana.show_str (Solana.instruction_name n))
          +++ rest)
  /\ Solana.solana_compiler_compile g P (Solana.solana_compiler_create false)
     = Solana.emit "    Ok(())
}
" (fold_left (fun c m => Solana.solana_compiler_compile g m c)
     (skipn (S k) (Solana.children P))
     (Solana.solana_compiler_compile g n before)).
Proof.
  intros Ht Hflat Hk Hn before.
  assert (Hsplit : Solana.children P
                   = firstn k (Solana.children P) ++ n :: skipn (S k) (Solana.children P)).
  { clear -Hk. revert k Hk. induction (Solana.children P) as [|x l IH]; intros k Hk.
    - destruct k; discriminate.
    - destruct k as [|k]; simpl in *.
      + now inversion Hk.
      + f_equal. now apply IH. }
  assert (Hfirst : forallb flat_item (firstn k (Solana.children P)) = true).
  { rewrite Hsplit in Hflat. rewrite forallb_app in Hflat.
    now apply andb_true_iff in Hflat. }
  assert (Hanchor : Solana.use_anchor before = false).
  { unfold before.
    match goal with |- Solana.use_anchor (fold_left _ _ ?c0) = _ =>
      pose proof (extends_fold (Solana.solana_compiler_compile g)
                    (firstn k (Solana.children P))
                    (fun m _ c => compile_extends g m c) c0) as (U & _) end.
    rewrite U. unfold Solana.emit_program_structure. cbn.
    now destruct (Solana.program_id P). }
  assert (Hcount : Solana.instruction_count before
                   = count_instructions (firstn k (Solana.children P))).
  { unfold before. rewrite flat_items_count by assumption.
    unfold Solana.emit_program_structure. cbn. now destruct (Solana.program_id P). }
  split; [exact Hcount|]. split.
  - rewrite <- Hcount. now apply instruction_arm.
  - destruct P as [t v l r cd tb eb cs st ct an iname pid sg wr ini sd bp].
    cbn [Solana.type] in Ht. subst t. cbn [Solana.children] in *.
    cbn [Solana.solana_compiler_compile Solana.type Solana.children
         Solana.solana_compiler_create Solana.use_anchor].
    rewrite (fold_left_at (fun c m => Solana.solana_compiler_compile g m c) cs k n _ Hk).
    fold before.
    match goal with |- context [if Solana.use_anchor ?x then _ else _] =>
      assert (Hx : Solana.use_anchor x = false) end.
    { pose proof (extends_fold (Solana.solana_compiler_compile g) (skipn (S k) cs)
                    (fun m _ c => compile_extends g m c)
                    (Solana.solana_compiler_compile g n before)) as (U & _).
      rewrite U. destruct (compile_extends g n before) as (U' & _).
      now rewrite U'. }
    now rewrite Hx.
Qed.

(** C4 (the code departs from it): [emit_instruction_handler] increments
    the counter after it has compiled the body.  In
    [program P { instruction a() { instruction b() { } } instruction c() { } }]
    the nested [b] is keyed on 0 like [a], and [c], the second instruction
    declaration among the items of [P], is keyed on 2: opcode 1 is never
    assigned.  Without the nesting the arms are keyed 0 and 1. *)
Theorem nested_instruction_breaks_opcode_sequence :
  let out :=
    Solana.output
      (Solana.solana_compiler_compile Solana.enhanced_compile_node nested_instructions
         (Solana.solana_compiler_create false)) in
  contains (dispatch_arm 0 "a") out = true
  /\ contains (dispatch_arm 0 "b") out = true
  /\ contains (dispatch_arm 2 "c") out = true
  /\ contains (dispatch_arm 1 "c") out = false
  /\ Solana.output
       (Solana.solana_compiler_compile Solana.enhanced_compile_node flat_instructions
          (Solana.solana_compiler_create false))
     = Solana.output (Solana.emit_program_structure flat_instructions
          (Solana.emit_native_solana_imports (Solana.solana_compiler_create false)))
       +++ dispatch_arm 0 "a" +++ "        msg!(" +++ char_str QUOTE +++ "Debug: {}"
       +++ char_str QUOTE +++ ");
        },
    }
" +++ dispatch_arm 1 "c" +++ "        },
    }
    Ok(())
}
".
Proof. vm_compute. repeat split; reflexivity. Qed.

(* ------------------------------------------------------------------ *)
(** ** C5: the require guard *)

(** C5 as the specification words it does not hold: for
    [require(x > 0, "must be positive")] under the framework target the
    guard names the fixed [ErrorCode::CustomError]; the message is not in
    the output. *)
Lemma require_message_is_not_emitted :
  let out :=
    Solana.output
      (Solana.solana_compiler_compile Solana.enhanced_compile_node require_positive
         (Solana.solana_compiler_create true)) in
  out = "        require!(x > 0, ErrorCode::CustomError);
"
  /\ contains "must be positive" out = false.
Proof. vm_compute. split; reflexivity. Qed.

Lemma compile_plain_kind g x c :
  plain_kind (Solana.type x) = true ->
  Solana.solana_compiler_compile g x c = Solana.emit (g c x) c.
Proof.
  destruct x as [t v l r cd tb eb cs st ct an iname pid sg wr ini sd bp].
  cbn [Solana.type]. destruct t; intros H; try discriminate H; reflexivity.
Qed.

Lemma require_compiled g n c :
  Solana.type n = NODE_REQUIRE_STMT ->
  Solana.solana_compiler_compile g n c
  = Solana.emit (guard_closing (Solana.use_anchor c))
      (Solana.compile_opt (Solana.solana_compiler_compile g) (Solana.condition n)
         (Solana.emit (guard_opening (Solana.use_anchor c)) c)).
Proof.
  destruct n as [t v l r cd tb eb cs st ct an iname pid sg wr ini sd bp].
  cbn [Solana.type]. intros ->.
  cbn [Solana.solana_compiler_compile Solana.type Solana.condition].
  unfold guard_closing, guard_opening. now destruct (Solana.use_anchor c).
Qed.

(** C5 (amended): for every require statement, under either target, the
    output does not depend on the message.  What is written is the opening
    of the guard, the text the generator writes for the condition, and the
    closing: under the framework target [require!(] and the fixed error
    [ErrorCode::CustomError], under the raw target [if !(] and the return
    of [Err(ProgramError::InvalidArgument)].  For a condition of a kind the
    Solana generator has no case for, an expression, the text of the
    condition is that of the plain code generator; with no condition the
    opening is followed by the closing. *)
Theorem require_guard_drops_message
  (g : Solana.SolanaCompiler -> Solana.SolanaASTNode -> string)
  (n : Solana.SolanaASTNode) (c : Solana.SolanaCompiler) :
  Solana.type n = NODE_REQUIRE_STMT ->
  let opening := guard_opening (Solana.use_anchor c) in
  let closing := guard_closing (Solana.use_anchor c) in
  let at_condition := Solana.emit opening c in
  (forall m,
     Solana.solana_compiler_compile g (with_message m n) c
     = Solana.solana_compiler_compile g n c)
  /\ (exists cond_text,
        Solana.output
          (Solana.compile_opt (Solana.solana_compiler_compile g) (Solana.condition n)
             at_condition)
        = Solana.output at_condition +++ cond_text
        /\ Solana.output (Solana.solana_compiler_compile g n c)
           = Solana.output c +++ opening +++ cond_text +++ closing)
  /\ (forall x,
        Solana.condition n = Some x -> plain_kind (Solana.type x) = true ->
        Solana.output (Solana.solana_compiler_compile g n c)
        = Solana.output c +++ opening +++ g at_condition x +++ closing)
  /\ (Solana.condition n = None ->
      Solana.output (Solana.solana_compiler_compile g n c)
      = Solana.output c +++ opening +++ closing).
Proof.
  intros Ht opening closing at_condition.
  split; [intros m; now apply compile_ignores_message|].
  rewrite (require_compiled g n c Ht). fold opening closing at_condition.
  split; [|split].
  - assert (H : extends at_condition
                  (Solana.compile_opt (Solana.solana_compiler_compile g)
                     (Solana.condition n) at_condition)).
    { unfold Solana.compile_opt. destruct (Solana.condition n);
        [apply compile_extends | apply extends_refl]. }
    destruct H as (_ & t & H). exists t. split; [exact H|].
    cbn [Solana.emit Solana.output]. rewrite H. unfold at_condition.
    cbn [Solana.emit Solana.output]. now rewrite !append_assoc.
  - intros x Hx Hk. rewrite Hx. cbn [Solana.compile_opt].
    rewrite (compile_plain_kind g x at_condition Hk). unfold at_condition.
    cbn [Solana.emit Solana.output]. now rewrite !append_assoc.
  - intros Hx. rewrite Hx. cbn [Solana.compile_opt]. unfold at_condition.
    cbn [Solana.emit Solana.output]. now rewrite !append_assoc.
Qed.

Lemma require_guard_drops_message_witness :
  Solana.type require_positive = NODE_REQUIRE_STMT
  /\ plain_kind NODE_BINARY_OP = true
  /\ Solana.solana_compiler_compile Solana.enhanced_compile_node
       (with_message "another message" require_positive)
       (Solana.solana_compiler_create false)
     = Solana.solana_compiler_compile Solana.enhanced_compile_node require_positive
         (Solana.solana_compiler_create false)
  /\ Solana.output
       (Solana.solana_compiler_compile Solana.enhanced_compile_node require_positive
          (Solana.solana_compiler_create false))
     = "            if !(x > 0) {
                return Err(ProgramError::InvalidArgument);
            }
".
Proof.
  split; [reflexivity|]. split; [reflexivity|].
  pose proof (require_guard_drops_message Solana.enhanced_compile_node require_positive
                (Solana.solana_compiler_create false) eq_refl) as (Hm & _ & Hc & _).
  split; [apply Hm|].
  exact (Hc _ eq_refl eq_refl).
Defined.

(* ------------------------------------------------------------------ *)
(** ** The enhanced lexer: its loops run to their own exit *)

Lemma nul_at_end l : remaining l = 0 -> lexer_current_char l = NUL.
Proof.
  unfold remaining, lexer_current_char. intros H.
  destruct (strlen (source l) <=? pos l) eqn:E; auto.
  apply Nat.leb_gt in E. lia.
Qed.

Lemma enhanced_read_string_loop_done fuel : forall l buf l' buf',
  remaining l <= fuel ->
  Enhanced.read_string_loop fuel l buf = Some (l', buf') ->
  negb (Ascii.eqb (lexer_current_char l') QUOTE)
  && negb (is_nul (lexer_current_char l')) = false.
Proof.
  induction fuel as [|f IH]; intros l buf l' buf' Hr; simpl.
  - intros E; inversion E; subst. rewrite nul_at_end by lia.
    reflexivity.
  - destruct (negb (Ascii.eqb (lexer_current_char l) QUOTE)
              && negb (is_nul (lexer_current_char l))) eqn:Ec.
    + assert (Hpos : 0 < remaining l).
      { apply andb_true_iff in Ec. destruct Ec as [_ Ec].
        apply negb_true_iff in Ec. now apply not_nul_remaining. }
      destruct (Ascii.eqb _ BACKSLASH).
      * destruct (Enhanced.buffer_store _ _); [|discriminate].
        apply IH. unfold remaining in *.
        rewrite !advance_source, !advance_pos. lia.
      * apply IH. unfold remaining in *.
        rewrite !advance_source, !advance_pos. lia.
    + intros E; inversion E; subst. exact Ec.
Qed.

Lemma enhanced_read_string_progress l l' :
  Enhanced.lexer_read_string l = Some l' -> scanned_to (source l) (S (pos l)) l'.
Proof.
  unfold Enhanced.lexer_read_string.
  destruct (Enhanced.read_string_loop _ _ _) as [[l2 buffer]|] eqn:E; [|discriminate].
  apply (P_read_string_loop (scanned_to (source l) (S (pos l)))
           (scanned_to_advance _ _)) in E; [|apply scanned_to_next].
  destruct (String.length buffer <? MAX_TOKEN_LEN); [|discriminate].
  intros H; inversion H; subst.
  apply scanned_to_add. split_ifs; auto with scan.
Qed.

Lemma enhanced_punctuation_progress c l :
  scanned_to (source l) (S (pos l)) (Enhanced.lexer_punctuation c l).
Proof.
  unfold Enhanced.lexer_punctuation.
  match goal with |- scanned_to _ _ (lexer_advance ?x) =>
    assert (H : scanned_to (source l) (pos l) x) end.
  { assert (H0 : scanned_to (source l) (pos l) l) by (split; auto).
    split_ifs; auto with scan. }
  destruct H as [H1 H2]. split; [now rewrite advance_source | rewrite advance_pos; lia].
Qed.

Lemma enhanced_step_progress l l' :
  is_nul (lexer_current_char l) = false ->
  Enhanced.lexer_step l = Some l' ->
  scanned_to (source l) (S (pos l)) l'.
Proof.
  intros Hn. pose proof (not_nul_remaining l Hn) as Hr.
  unfold Enhanced.lexer_step.
  destruct (isspace _ && negb _) eqn:E1.
  { intros H; inversion H; subst. now apply skip_whitespace_progress. }
  destruct (Ascii.eqb (lexer_current_char l) "/" && _) eqn:E0.
  { intros H; inversion H; subst. unfold Enhanced.lexer_skip_comment. rewrite E0.
    apply andb_true_iff in E0. destruct E0 as [E0 _].
    apply Ascii.eqb_eq in E0.
    destruct (remaining l) as [|k] eqn:E; [lia|].
    rewrite while_fuel_first by (rewrite E0; reflexivity).
    apply while_fuel_invariant; auto with scan. }
  destruct (Ascii.eqb _ LF) eqn:E2.
  { intros H; inversion H; subst.
    split; [now rewrite advance_source, add_token_source
           | rewrite advance_pos, add_token_pos; lia]. }
  destruct (Ascii.eqb _ QUOTE) eqn:E3; [apply enhanced_read_string_progress|].
  destruct (isalpha _ || Ascii.eqb _ "_"%char) eqn:E4.
  { intros H; inversion H; subst. unfold Enhanced.lexer_read_identifier.
    match goal with |- context [while_fuel ?f ?c copy_step ?s] =>
      pose proof (copy_loop_progress c l EmptyString) as HL;
      destruct (while_fuel f c copy_step s) as [l2 buffer] eqn:E end.
    simpl in HL. apply scanned_to_add. apply HL; auto.
    unfold ident_char, isalnum.
    apply orb_true_iff in E4. destruct E4 as [-> | ->]; auto using orb_true_r. }
  destruct (isdigit _) eqn:E5.
  { intros H; inversion H; subst. unfold Enhanced.lexer_read_number.
    destruct (remaining l) as [|k] eqn:E; [lia|].
    rewrite while_fuel_first by (cbn [Enhanced.number_cond]; now rewrite E5).
    match goal with |- context [while_fuel ?f ?c ?b ?s] =>
      pose proof (while_fuel_invariant c b
                    (fun st => scanned_to (source l) (S (pos l)) (fst (fst st)))) as HL;
      destruct (while_fuel f c b s) as [[l2 buffer] d] eqn:E' end.
    apply scanned_to_add.
    change l2 with (fst (fst (l2, buffer, d))). rewrite <- E'.
    apply HL.
    - intros [[l0 b0] d0] _ H0. simpl in *. auto with scan.
    - simpl. auto with scan. }
  intros H; inversion H; subst. apply enhanced_punctuation_progress.
Qed.

(** Whenever the enhanced scan returns, it has reached the end of the
    input. *)
Lemma Enhanced_lexer_scan_reaches_end fuel : forall l l',
  remaining l <= fuel -> Enhanced.lexer_scan fuel l = Some l' -> at_end l'.
Proof.
  induction fuel as [|f IH]; intros l l' Hr; simpl.
  - intros E; inversion E; subst. unfold at_end, remaining in *. lia.
  - destruct (is_nul (lexer_current_char l)) eqn:En; cbn [negb].
    + intros E; inversion E; subst. unfold at_end.
      destruct (Nat.le_gt_cases (strlen (source l')) (pos l')) as [|Hlt]; auto.
      exfalso. unfold lexer_current_char in En.
      apply Nat.leb_gt in Hlt. rewrite Hlt in En. apply Nat.leb_gt in Hlt.
      clear -En Hlt. revert En Hlt. generalize (pos l'). generalize (source l').
      induction s as [|c s IHs]; intros n En Hlt; simpl in *; [lia|].
      destruct (is_nul c) eqn:Ec; [lia|].
      destruct n as [|n]; unfold char_at in *; simpl in *.
      * congruence.
      * apply (IHs n); auto. lia.
    + destruct (Enhanced.lexer_step l) as [l1|] eqn:E; [|discriminate].
      apply IH. apply enhanced_step_progress in E; auto.
      pose proof (not_nul_remaining l En).
      pose proof (scanned_to_remaining l l1 H E). lia.
Qed.

(* ================================================================== *)
(** * Further properties *)

(* ------------------------------------------------------------------ *)
(** ** The lexer of so_lang.c: line numbers *)

Lemma newlines_before_step s : forall n,
  newlines_before (S n) s
  = newlines_before n s
    + (if strlen s <=? n then 0 else if Ascii.eqb (char_at s n) LF then 1 else 0).
Proof.
  induction s as [|c r IH]; intros n.
  - simpl. destruct n; reflexivity.
  - destruct n as [|n].
    + simpl. destruct (is_nul c); simpl; [reflexivity|].
      unfold char_at; simpl. destruct (Ascii.eqb c LF); reflexivity.
    + change (newlines_before (S (S n)) (String c r))
        with (if is_nul c then 0
              else (if Ascii.eqb c LF then 1 else 0) + newlines_before (S n) r).
      change (newlines_before (S n) (String c r))
        with (if is_nul c then 0
              else (if Ascii.eqb c LF then 1 else 0) + newlines_before n r).
      simpl strlen. destruct (is_nul c); [reflexivity|].
      rewrite IH. change (char_at (String c r) (S n)) with (char_at r n).
      change (S (strlen r) <=? S n) with (strlen r <=? n). lia.
Qed.

Lemma newlines_before_past s : forall n,
  strlen s <= n -> newlines_before n s = newlines s.
Proof.
  unfold newlines.
  induction s as [|c r IH]; intros n H.
  - destruct n; reflexivity.
  - simpl in H. simpl String.length.
    destruct n as [|n].
    + simpl. destruct (is_nul c); [reflexivity|lia].
    + simpl. destruct (is_nul c); [reflexivity|].
      rewrite (IH n); [reflexivity|lia].
Qed.

Lemma line_tracks_advance l : line_tracks l -> line_tracks (lexer_advance l).
Proof.
  unfold line_tracks. intros H.
  rewrite advance_source, advance_pos, newlines_before_step.
  unfold lexer_advance, lexer_current_char.
  destruct (strlen (source l) <=? pos l) eqn:E.
  - change (Ascii.eqb NUL LF) with false. simpl. lia.
  - destruct (Ascii.eqb (char_at (source l) (pos l)) LF); simpl; lia.
Qed.

Lemma line_tracks_add t v l : line_tracks l -> line_tracks (lexer_add_token t v l).
Proof.
  unfold line_tracks, lexer_add_token. destruct (MAX_TOKENS <=? _); auto.
Qed.

Lemma base_tokenize_source l : source (Base.lexer_tokenize l) = source l.
Proof.
  apply (P_base_tokenize (fun l' => source l' = source l)); auto.
  - intros l0 H. now rewrite advance_source.
  - intros t v l0 H. now rewrite add_token_source.
Qed.

Lemma base_tokenize_at_end l : at_end (Base.lexer_tokenize l).
Proof.
  pose proof (Base_lexer_scan_reaches_end l) as E.
  unfold Base.lexer_tokenize, at_end in *.
  now rewrite add_token_pos, add_token_source.
Qed.

Lemma base_line_counts_newlines (src : string) :
  line (Base.lexer_tokenize (lexer_create src)) = 1 + newlines src.
Proof.
  pose proof (P_base_tokenize line_tracks line_tracks_advance line_tracks_add
                (fun m a b l H => H) (lexer_create src)) as H.
  unfold line_tracks in H at 2.
  rewrite H by (unfold line_tracks; reflexivity).
  rewrite base_tokenize_source. simpl source.
  f_equal. apply newlines_before_past.
  pose proof (base_tokenize_at_end (lexer_create src)) as E.
  unfold at_end in E. now rewrite base_tokenize_source in E.
Qed.

Lemma lines_ascend_snoc toks : forall from t,
  lines_ascend from toks ->
  from <= tok_line t ->
  Forall (fun t' => tok_line t' <= tok_line t) toks ->
  lines_ascend from (toks ++ [t]).
Proof.
  induction toks as [|a r IH]; intros from t H1 H2 H3; simpl in *.
  - auto.
  - destruct H1 as [Ha Hr]. inversion H3; subst. split; auto.
Qed.

Lemma lines_ordered_advance l : lines_ordered l -> lines_ordered (lexer_advance l).
Proof.
  unfold lines_ordered. rewrite advance_tokens. intros (H1 & H2 & H3).
  assert (L : line l <= line (lexer_advance l)).
  { unfold lexer_advance. destruct (Ascii.eqb _ _); simpl; lia. }
  repeat split; auto; [lia|].
  eapply Forall_impl; [|exact H3]. simpl. intros; lia.
Qed.

Lemma lines_ordered_add t v l : lines_ordered l -> lines_ordered (lexer_add_token t v l).
Proof.
  unfold lines_ordered. intros (H1 & H2 & H3).
  assert (L : line (lexer_add_token t v l) = line l).
  { unfold lexer_add_token. destruct (MAX_TOKENS <=? _); reflexivity. }
  rewrite L.
  destruct (add_token_cases t v l) as [(_ & E & _)|(_ & E & _)]; rewrite E; auto.
  repeat split; auto.
  - apply lines_ascend_snoc; auto.
  - apply Forall_app; split; auto.
Qed.

(** X1: when the lexer of so_lang.c is done, its line
    counter is one more than the number of newline characters of the source;
    the lines recorded in the tokens start at 1, never go down along the
    sequence and never exceed that count. *)
Theorem base_lexer_lines (src : string) :
  let l := Base.lexer_tokenize (lexer_create src) in
  line l = 1 + newlines src
  /\ lines_ascend 1 (tokens l)
  /\ Forall (fun t => tok_line t <= 1 + newlines src) (tokens l).
Proof.
  intros l.
  pose proof (base_line_counts_newlines src) as HL. fold l in HL.
  destruct (P_base_tokenize lines_ordered lines_ordered_advance lines_ordered_add
              (fun m a b l H => H) (lexer_create src)) as (_ & H2 & H3).
  { repeat split; simpl; auto. }
  fold l in H2, H3. rewrite HL in H3. auto.
Qed.

(* ------------------------------------------------------------------ *)
(** ** The lexer of so_lang.c: where the end-of-input token stands *)

Section ScanInvariant.

(** A property kept by [lexer_advance], by [error] and by the storing of
    any token but the end-of-input token is kept by the scanning loop. *)
Variable P : Lexer -> Prop.
Hypothesis P_advance : forall l, P l -> P (lexer_advance l).
Hypothesis P_add_token :
  forall t v l, t <> TOKEN_EOF -> P l -> P (lexer_add_token t v l).
Hypothesis P_error : forall m a b l, P l -> P (error m a b l).

Lemma base_keyword_not_eof b : Base.keyword b <> TOKEN_EOF.
Proof. unfold Base.keyword. split_ifs; discriminate. Qed.

Lemma S_copy_loop fuel cond l buf :
  P l -> P (fst (while_fuel fuel cond copy_step (l, buf))).
Proof.
  intros H.
  apply (while_fuel_invariant cond copy_step (fun st => P (fst st))); auto.
  intros [l' b'] _ H'. simpl in *. auto.
Qed.

Lemma S_base_step l : P l -> P (Base.lexer_step l).
Proof.
  intros H. unfold Base.lexer_step.
  destruct (_ && _).
  { unfold lexer_skip_whitespace. apply while_fuel_invariant; auto. }
  destruct (Ascii.eqb _ LF).
  { apply P_advance, P_add_token; [discriminate|auto]. }
  destruct (Ascii.eqb _ QUOTE).
  { unfold Base.lexer_read_string.
    match goal with |- context [while_fuel ?f ?c copy_step ?s] =>
      pose proof (S_copy_loop f c (fst s) (snd s)) as HL;
      destruct (while_fuel f c copy_step s) as [l2 buffer] eqn:E end.
    simpl in HL. rewrite E in HL. simpl in HL.
    apply P_add_token; [discriminate|]. split_ifs; auto. }
  destruct (_ || _).
  { unfold Base.lexer_read_identifier.
    match goal with |- context [while_fuel ?f ?c copy_step ?s] =>
      pose proof (S_copy_loop f c (fst s) (snd s)) as HL;
      destruct (while_fuel f c copy_step s) as [l2 buffer] eqn:E end.
    simpl in HL. rewrite E in HL. simpl in HL.
    apply P_add_token; [apply base_keyword_not_eof|auto]. }
  destruct (isdigit _).
  { unfold Base.lexer_read_number.
    match goal with |- context [while_fuel ?f ?c copy_step ?s] =>
      pose proof (S_copy_loop f c (fst s) (snd s)) as HL;
      destruct (while_fuel f c copy_step s) as [l2 buffer] eqn:E end.
    simpl in HL. rewrite E in HL. simpl in HL.
    apply P_add_token; [discriminate|auto]. }
  unfold Base.lexer_punctuation. apply P_advance.
  split_ifs; auto; apply P_add_token; auto; discriminate.
Qed.

Lemma S_base_scan l : P l -> P (Base.lexer_scan l).
Proof.
  intros H. unfold Base.lexer_scan. apply while_fuel_invariant; auto.
  intros; now apply S_base_step.
Qed.

End ScanInvariant.

Lemma eof_free_app a b : eof_free (a ++ b) = eof_free a && eof_free b.
Proof. apply forallb_app. Qed.

(** X2: the scanning loop of [lexer_tokenize]
    stores no end-of-input token and at most 1000 tokens; the token types
    [lexer_tokenize] leaves are those of the loop followed by one
    end-of-input token, which is there exactly when the loop has stored
    fewer than 1000 tokens. *)
Theorem base_lexer_eof_only_last (src : string) :
  let body := tokens (Base.lexer_scan (lexer_create src)) in
  eof_free body = true
  /\ length body <= MAX_TOKENS
  /\ map tok_type (tokens (Base.lexer_tokenize (lexer_create src)))
     = map tok_type body ++ (if length body <? MAX_TOKENS then [TOKEN_EOF] else []).
Proof.
  intros body.
  assert (H : eof_free body = true /\ length body <= MAX_TOKENS).
  { apply (S_base_scan (fun l => eof_free (tokens l) = true
                                 /\ length (tokens l) <= MAX_TOKENS)).
    - intros l. now rewrite advance_tokens.
    - intros t v l Ht [H1 H2].
      destruct (add_token_cases t v l) as [(Hc & E & _)|(_ & E & _)]; rewrite E; auto.
      rewrite eof_free_app, H1, length_app. unfold token_count in Hc. simpl.
      split; [|lia].
      destruct t; try reflexivity. congruence.
    - auto.
    - split; [reflexivity|simpl; unfold MAX_TOKENS; lia]. }
  destruct H as [H1 H2]. repeat split; auto.
  unfold Base.lexer_tokenize. fold body.
  destruct (add_token_cases TOKEN_EOF EmptyString (Base.lexer_scan (lexer_create src)))
    as [(Hc & E & _)|(Hc & E & _)]; rewrite E; unfold token_count in Hc; fold body in Hc |- *.
  - apply Nat.ltb_lt in Hc. rewrite Hc, map_app. reflexivity.
  - apply Nat.ltb_ge in Hc. rewrite Hc, app_nil_r. reflexivity.
Qed.

(* ------------------------------------------------------------------ *)
(** ** The lexer of so_lang.c: the stored lexemes *)

Lemma strncpy_is_c_string n s : strlen (strncpy n s) = String.length (strncpy n s).
Proof.
  revert s; induction n as [|n IH]; intros [|c r]; simpl; auto.
  destruct (is_nul c) eqn:E; simpl; auto. rewrite E. f_equal. apply IH.
Qed.

(** X3: whatever the source, every token the
    lexer of so_lang.c stores holds at most 255 characters, none of them
    NUL: the value fits [char value[MAX_TOKEN_LEN]] with its terminator. *)
Theorem base_lexemes_are_c_strings (src : string) :
  Forall (fun t => String.length (tok_value t) <= MAX_TOKEN_LEN - 1
                   /\ strlen (tok_value t) = String.length (tok_value t))
         (tokens (Base.lexer_tokenize (lexer_create src))).
Proof.
  apply (P_base_tokenize
           (fun l => Forall (fun t => String.length (tok_value t) <= MAX_TOKEN_LEN - 1
                                      /\ strlen (tok_value t) = String.length (tok_value t))
                            (tokens l))).
  - intros l0. now rewrite advance_tokens.
  - intros t v l0 H.
    destruct (add_token_cases t v l0) as [(_ & E & _)|(_ & E & _)]; rewrite E; auto.
    apply Forall_app; split; auto.
    constructor; auto. cbn [tok_value]. split.
    + apply strncpy_length.
    + apply strncpy_is_c_string.
  - auto.
  - constructor.
Qed.

(* ------------------------------------------------------------------ *)
(** ** The enhanced lexer on sources without a backslash *)

Lemma char_at_in s i : char_at s i = NUL \/ In (char_at s i) (list_ascii_of_string s).
Proof.
  revert i; induction s as [|c r IH]; intros i.
  - left. destruct i; reflexivity.
  - destruct i as [|i].
    + right. left. reflexivity.
    + destruct (IH i) as [H|H]; [left|right; right]; exact H.
Qed.

Lemma no_backslash_current l :
  no_backslash (source l) = true -> Ascii.eqb (lexer_current_char l) BACKSLASH = false.
Proof.
  intros H. unfold lexer_current_char.
  destruct (strlen (source l) <=? pos l); [reflexivity|].
  destruct (char_at_in (source l) (pos l)) as [E|E].
  - rewrite E. reflexivity.
  - unfold no_backslash, all_chars in H. rewrite forallb_forall in H.
    apply H in E. now apply negb_true_iff in E.
Qed.

Lemma read_string_loop_plain fuel : forall l buf,
  no_backslash (source l) = true ->
  String.length buf <= MAX_TOKEN_LEN - 1 ->
  exists l' buf',
    Enhanced.read_string_loop fuel l buf = Some (l', buf')
    /\ String.length buf' <= MAX_TOKEN_LEN - 1.
Proof.
  induction fuel as [|f IH]; intros l buf Hs Hb; simpl.
  - eauto.
  - destruct (_ && _); [|eauto].
    rewrite (no_backslash_current l Hs).
    apply IH.
    + now rewrite advance_source.
    + now apply buffer_put_length.
Qed.

Lemma enhanced_step_plain l :
  no_backslash (source l) = true ->
  exists l', Enhanced.lexer_step l = Some l'.
Proof.
  intros Hs. unfold Enhanced.lexer_step.
  split_ifs; eauto.
  unfold Enhanced.lexer_read_string.
  destruct (read_string_loop_plain (remaining (lexer_advance l)) (lexer_advance l)
              EmptyString) as (l2 & b & E & Hb).
  - now rewrite advance_source.
  - simpl. unfold MAX_TOKEN_LEN. lia.
  - rewrite E.
    assert (Hlt : (String.length b <? MAX_TOKEN_LEN) = true).
    { apply Nat.ltb_lt. unfold MAX_TOKEN_LEN in *. lia. }
    rewrite Hlt. eauto.
Qed.

Lemma enhanced_scan_plain fuel : forall l,
  no_backslash (source l) = true ->
  exists l', Enhanced.lexer_scan fuel l = Some l'.
Proof.
  induction fuel as [|f IH]; intros l Hs; simpl; eauto.
  destruct (negb _); eauto.
  destruct (enhanced_step_plain l Hs) as (l1 & E). rewrite E.
  apply IH.
  assert (S : source l1 = source l).
  { apply (P_enhanced_step (fun l' => source l' = source l)) in E; auto.
    - intros l0 H. now rewrite advance_source.
    - intros t v l0 H. now rewrite add_token_source. }
  now rewrite S.
Qed.

(** X4: on a source with no
    backslash the enhanced lexer makes no store outside its buffer: it
    returns, having read the whole input, with at most 1000 tokens of at
    most 255 characters each. *)
Theorem enhanced_lexer_safe_without_backslash (src : string) :
  no_backslash src = true ->
  exists l,
    Enhanced.lexer_tokenize (lexer_create src) = Some l
    /\ at_end l
    /\ lexemes_fit l
    /\ token_count l <= MAX_TOKENS.
Proof.
  intros H.
  destruct (enhanced_scan_plain (remaining (lexer_create src)) (lexer_create src) H)
    as (l1 & E).
  assert (T : Enhanced.lexer_tokenize (lexer_create src)
              = Some (lexer_add_token TOKEN_EOF EmptyString l1)).
  { unfold Enhanced.lexer_tokenize. now rewrite E. }
  exists (lexer_add_token TOKEN_EOF EmptyString l1). split; [exact T|].
  split; [|split].
  - apply Enhanced_lexer_scan_reaches_end in E; auto.
    unfold at_end in *. now rewrite add_token_source, add_token_pos.
  - eapply enhanced_lexemes_fit; eauto.
  - apply (P_enhanced_tokenize (fun l => token_count l <= MAX_TOKENS)) in T; auto.
    + intros l0. unfold token_count. now rewrite advance_tokens.
    + intros; now apply tokens_bounded_add.
    + simpl. unfold token_count, MAX_TOKENS. simpl. lia.
Qed.

Lemma enhanced_lexer_safe_without_backslash_witness :
  exists l,
    Enhanced.lexer_tokenize (lexer_create "let x = 1") = Some l
    /\ at_end l /\ lexemes_fit l /\ token_count l <= MAX_TOKENS.
Proof. apply (enhanced_lexer_safe_without_backslash "let x = 1"). reflexivity. Defined.

(* ------------------------------------------------------------------ *)
(** ** The lexer of so_lang.c on a lexeme *)

Lemma append_snoc pre c s : (pre +++ String c EmptyString) +++ s = pre +++ String c s.
Proof. induction pre as [|a p IH]; simpl; [reflexivity|now rewrite IH]. Qed.

Lemma length_append a b : String.length (a +++ b) = String.length a + String.length b.
Proof. induction a as [|c a IH]; simpl; auto. Qed.

Lemma strlen_app pre s :
  strlen pre = String.length pre -> strlen (pre +++ s) = String.length pre + strlen s.
Proof.
  induction pre as [|c p IH]; simpl; auto.
  destruct (is_nul c); [discriminate|]. intros H. f_equal. apply IH. lia.
Qed.

Lemma char_at_app pre s i : char_at (pre +++ s) (String.length pre + i) = char_at s i.
Proof. induction pre as [|c p IH]; simpl; auto. Qed.

Lemma is_nul_true c : is_nul c = true -> c = NUL.
Proof. unfold is_nul. apply Ascii.eqb_eq. Qed.

Lemma strlen_snoc pre c :
  strlen pre = String.length pre -> is_nul c = false ->
  strlen (pre +++ String c EmptyString) = String.length (pre +++ String c EmptyString).
Proof.
  intros H Hc. rewrite strlen_app, length_append by auto. simpl. now rewrite Hc.
Qed.

Lemma all_chars_c_string f s :
  f NUL = false -> all_chars f s = true -> strlen s = String.length s.
Proof.
  intros Hf. unfold all_chars. induction s as [|c r IH]; simpl; auto.
  intros H. apply andb_true_iff in H as [Hc Hr].
  destruct (is_nul c) eqn:E.
  - apply is_nul_true in E. congruence.
  - f_equal. auto.
Qed.

Lemma cond_not_nul (f : ascii -> bool) c : f NUL = false -> f c = true -> is_nul c = false.
Proof.
  intros H0 Hc. destruct (is_nul c) eqn:E; auto.
  apply is_nul_true in E. congruence.
Qed.

Lemma substring_prefix n : forall a b,
  n <= String.length a -> String.substring 0 n (a +++ b) = String.substring 0 n a.
Proof.
  induction n as [|n IH]; intros a b H.
  - destruct a, b; reflexivity.
  - destruct a as [|c a]; simpl in *; [lia|]. f_equal. apply IH. lia.
Qed.

Lemma substring_whole s : forall n, String.length s <= n -> String.substring 0 n s = s.
Proof.
  induction s as [|c s IH]; intros n H.
  - destruct n; reflexivity.
  - destruct n; simpl in *; [lia|]. f_equal. apply IH. lia.
Qed.

Lemma first_chars_whole n s : String.length s <= n -> first_chars n s = s.
Proof. apply substring_whole. Qed.

Lemma first_chars_length n s : String.length (first_chars n s) <= n.
Proof.
  unfold first_chars. revert s; induction n as [|n IH]; intros [|c s]; simpl; try lia.
  specialize (IH s). lia.
Qed.

Lemma first_chars_c_string n : forall s,
  strlen s = String.length s ->
  strlen (first_chars n s) = String.length (first_chars n s).
Proof.
  unfold first_chars. induction n as [|n IH]; intros [|c s]; simpl; auto.
  destruct (is_nul c); [discriminate|]. intros H. f_equal. apply IH. lia.
Qed.

Lemma strncpy_first_chars n s :
  strlen s = String.length s ->
  strncpy n (first_chars n s) = first_chars n s.
Proof.
  intros H. rewrite strncpy_no_nul by now apply first_chars_c_string.
  apply substring_whole, first_chars_length.
Qed.

Lemma copy_into_first run : forall buf,
  String.length buf <= MAX_TOKEN_LEN - 1 ->
  copy_into buf run = first_chars (MAX_TOKEN_LEN - 1) (buf +++ run).
Proof.
  unfold first_chars.
  induction run as [|c r IH]; intros buf H; cbn [copy_into].
  - rewrite append_nil_r.
    symmetry. now apply substring_whole.
  - rewrite IH by now apply buffer_put_length.
    unfold buffer_put. destruct (String.length buf <? MAX_TOKEN_LEN - 1) eqn:E.
    + unfold snoc. now rewrite append_snoc.
    + apply Nat.ltb_ge in E.
      rewrite (substring_prefix _ buf r), (substring_prefix _ buf (String c r)) by lia.
      reflexivity.
Qed.

Lemma advance_stderr l : stderr (lexer_advance l) = stderr l.
Proof. unfold lexer_advance; destruct (Ascii.eqb _ _); reflexivity. Qed.

(** What [n] calls of [lexer_advance] leave as they were. *)
Lemma advance_n_facts n : forall l,
  source (advance_n n l) = source l
  /\ pos (advance_n n l) = pos l + n
  /\ tokens (advance_n n l) = tokens l
  /\ has_error (advance_n n l) = has_error l
  /\ stderr (advance_n n l) = stderr l.
Proof.
  unfold advance_n.
  induction n as [|n IH]; intros l; simpl.
  - repeat split; lia.
  - destruct (IH (lexer_advance l)) as (H1 & H2 & H3 & H4 & H5).
    rewrite H1, H2, H3, H4, H5, advance_source, advance_pos, advance_tokens,
      advance_has_error.
    repeat split; try lia.
    unfold lexer_advance. destruct (Ascii.eqb _ _); reflexivity.
Qed.

Lemma lexeme_current pre c r rest l :
  lexeme_at pre (String c r) rest l -> is_nul c = false -> lexer_current_char l = c.
Proof.
  intros (Hs & Hp & Hn) Hc. unfold lexer_current_char.
  rewrite Hs, Hp, strlen_app by auto. simpl strlen. rewrite Hc.
  replace (String.length pre + S (strlen (r +++ rest)) <=? String.length pre) with false
    by (symmetry; apply Nat.leb_gt; lia).
  rewrite <- (Nat.add_0_r (String.length pre)) at 1. now rewrite char_at_app.
Qed.

Lemma lexeme_end pre rest l f :
  lexeme_at pre EmptyString rest l -> f NUL = false -> f (char_at rest 0) = false ->
  f (lexer_current_char l) = false.
Proof.
  intros (Hs & Hp & Hn) H0 Hr. unfold lexer_current_char.
  destruct (_ <=? _); auto.
  rewrite Hs, Hp. simpl. rewrite <- (Nat.add_0_r (String.length pre)).
  now rewrite char_at_app.
Qed.

Lemma lexeme_next pre c r rest l :
  lexeme_at pre (String c r) rest l -> is_nul c = false ->
  lexeme_at (pre +++ String c EmptyString) r rest (lexer_advance l).
Proof.
  intros (Hs & Hp & Hn) Hc. unfold lexeme_at.
  rewrite advance_source, advance_pos, Hs, Hp, append_snoc, length_append.
  simpl. repeat split; try lia.
  rewrite strlen_snoc, length_append by auto. simpl. lia.
Qed.

Lemma lexeme_remaining pre run rest l f :
  lexeme_at pre run rest l -> f NUL = false -> all_chars f run = true ->
  String.length run <= remaining l.
Proof.
  intros (Hs & Hp & Hn) H0 Hr. unfold remaining.
  rewrite Hs, Hp, strlen_app by auto.
  assert (String.length run <= strlen (run +++ rest)).
  { rewrite strlen_app by (eapply all_chars_c_string; eauto). lia. }
  lia.
Qed.

Lemma lexeme_split pre run rest l :
  lexeme_at pre EmptyString (run +++ rest) l -> lexeme_at pre run rest l.
Proof. unfold lexeme_at. simpl. tauto. Qed.

Lemma lexeme_after pre run rest l :
  lexeme_at pre run rest l -> strlen run = String.length run ->
  lexeme_at (pre +++ run) EmptyString rest (advance_n (String.length run) l).
Proof.
  intros (Hs & Hp & Hn) Hr. unfold lexeme_at.
  destruct (advance_n_facts (String.length run) l) as (E1 & E2 & _).
  rewrite E1, E2, Hs, Hp, length_append, append_assoc. simpl.
  split; [reflexivity|]. split; [reflexivity|].
  rewrite strlen_app by auto. now rewrite Hr.
Qed.

Lemma lexeme_add_token pre run rest t v l :
  lexeme_at pre run rest l -> lexeme_at pre run rest (lexer_add_token t v l).
Proof. unfold lexeme_at. now rewrite add_token_source, add_token_pos. Qed.

Section RunLoop.

(** A loop that advances by one character while the current character
    passes a test runs over the whole lexeme and stops behind it. *)
Variable S : Type.
Variable lx : S -> Lexer.
Variable step : S -> S.
Variable cnd : ascii -> bool.
Hypothesis lx_step : forall s, lx (step s) = lexer_advance (lx s).
Hypothesis cnd_nul : cnd NUL = false.

Lemma run_loop run : forall pre rest s fuel,
  lexeme_at pre run rest (lx s) ->
  all_chars cnd run = true ->
  cnd (char_at rest 0) = false ->
  String.length run <= fuel ->
  while_fuel fuel (fun s => cnd (lexer_current_char (lx s))) step s
  = steps step (String.length run) s.
Proof.
  induction run as [|c r IH]; intros pre rest s fuel Hl Hr Hrest Hf.
  - simpl. destruct fuel; simpl; auto.
    now rewrite (lexeme_end pre rest (lx s) cnd).
  - unfold all_chars in Hr. simpl in Hr. apply andb_true_iff in Hr as [Hc Hr].
    destruct fuel as [|fuel]; [simpl in Hf; lia|]. simpl.
    rewrite (lexeme_current pre c r rest (lx s)) by eauto using cond_not_nul.
    rewrite Hc.
    apply (IH (pre +++ String c EmptyString) rest); auto.
    + rewrite lx_step. apply lexeme_next; eauto using cond_not_nul.
    + simpl in Hf; lia.
Qed.

End RunLoop.

Lemma copy_steps run : forall pre rest l buf,
  lexeme_at pre run rest l ->
  strlen run = String.length run ->
  steps copy_step (String.length run) (l, buf)
  = (advance_n (String.length run) l, copy_into buf run).
Proof.
  unfold advance_n.
  induction run as [|c r IH]; intros pre rest l buf Hl Hn; simpl; auto.
  simpl in Hn. destruct (is_nul c) eqn:Hc; [discriminate|].
  unfold copy_step at 2. simpl fst. simpl snd.
  rewrite (lexeme_current pre c r rest l) by auto.
  apply (IH (pre +++ String c EmptyString) rest).
  - apply lexeme_next; auto.
  - lia.
Qed.

(** The copy loop over a lexeme: the position moves past the whole lexeme
    and the buffer holds its first 255 characters. *)
Lemma copy_loop_lexeme cnd pre run rest l :
  cnd NUL = false ->
  lexeme_at pre run rest l ->
  all_chars cnd run = true ->
  cnd (char_at rest 0) = false ->
  while_fuel (remaining l) (fun st => cnd (lexer_current_char (fst st)))
    copy_step (l, EmptyString)
  = (advance_n (String.length run) l, first_chars (MAX_TOKEN_LEN - 1) run).
Proof.
  intros H0 Hl Hr Hrest.
  rewrite (run_loop _ fst copy_step cnd (fun s => eq_refl) H0 run pre rest); auto.
  - rewrite (copy_steps run pre rest) by eauto using all_chars_c_string.
    rewrite copy_into_first by (simpl; unfold MAX_TOKEN_LEN; lia). reflexivity.
  - simpl. eapply lexeme_remaining; eauto.
Qed.

(** Line and column after a lexeme without a newline. *)
Lemma advance_run_position run : forall pre rest l,
  lexeme_at pre run rest l ->
  all_chars (fun c => negb (Ascii.eqb c LF) && negb (is_nul c)) run = true ->
  line (advance_n (String.length run) l) = line l
  /\ column (advance_n (String.length run) l) = column l + String.length run.
Proof.
  unfold advance_n.
  induction run as [|c r IH]; intros pre rest l Hl Hr; simpl.
  - split; lia.
  - unfold all_chars in Hr. simpl in Hr.
    apply andb_true_iff in Hr as [Hc Hr]. apply andb_true_iff in Hc as [Hc1 Hc2].
    apply negb_true_iff in Hc1, Hc2.
    destruct (IH (pre +++ String c EmptyString) rest (lexer_advance l)) as [E1 E2]; auto.
    { apply lexeme_next; auto. }
    rewrite E1, E2. unfold lexer_advance.
    rewrite (lexeme_current pre c r rest l), Hc1 by auto. simpl. split; lia.
Qed.

Lemma base_read_identifier_at pre name rest l :
  lexeme_at pre name rest l ->
  all_chars ident_char name = true ->
  ident_char (char_at rest 0) = false ->
  Base.lexer_read_identifier l
  = lexer_add_token (Base.keyword (first_chars (MAX_TOKEN_LEN - 1) name))
      (first_chars (MAX_TOKEN_LEN - 1) name) (advance_n (String.length name) l).
Proof.
  intros Hl Hn Hr. unfold Base.lexer_read_identifier.
  now rewrite (copy_loop_lexeme ident_char pre name rest).
Qed.

Lemma base_read_number_at pre number rest l :
  lexeme_at pre number rest l ->
  all_chars digit_or_dot number = true ->
  digit_or_dot (char_at rest 0) = false ->
  Base.lexer_read_number l
  = lexer_add_token TOKEN_NUMBER
      (first_chars (MAX_TOKEN_LEN - 1) number) (advance_n (String.length number) l).
Proof.
  intros Hl Hn Hr. unfold Base.lexer_read_number.
  now rewrite (copy_loop_lexeme digit_or_dot pre number rest).
Qed.

Lemma all_chars_impl (f g : ascii -> bool) s :
  (forall c, f c = true -> g c = true) -> all_chars f s = true -> all_chars g s = true.
Proof.
  intros H. unfold all_chars. rewrite !forallb_forall. auto.
Qed.

Ltac by_cases_on c :=
  destruct c as [[] [] [] [] [] [] [] []]; vm_compute; intros; try discriminate; auto.

Lemma class_letter c :
  isalpha c || Ascii.eqb c "_"%char = true ->
  isspace c = false /\ Ascii.eqb c LF = false /\ Ascii.eqb c QUOTE = false
  /\ ident_char c = true.
Proof. by_cases_on c. Qed.

Lemma class_digit c :
  isdigit c = true ->
  isspace c = false /\ Ascii.eqb c LF = false /\ Ascii.eqb c QUOTE = false
  /\ isalpha c || Ascii.eqb c "_"%char = false /\ digit_or_dot c = true.
Proof. by_cases_on c. Qed.

Lemma class_ident_char c :
  ident_char c = true -> negb (Ascii.eqb c LF) && negb (is_nul c) = true.
Proof. by_cases_on c. Qed.

Lemma class_digit_or_dot c :
  digit_or_dot c = true -> negb (Ascii.eqb c LF) && negb (is_nul c) = true.
Proof. by_cases_on c. Qed.

(** What [lexer_add_token] stores below capacity. *)
Lemma add_token_below t v l :
  token_count l < MAX_TOKENS ->
  lexer_add_token t v l
  = mkLexer (source l) (pos l) (line l) (column l)
      (tokens l ++ [mkToken t (strncpy (MAX_TOKEN_LEN - 1) v) (line l) (column l)])
      (has_error l) (stderr l).
Proof.
  intros H. unfold lexer_add_token.
  apply Nat.leb_gt in H. now rewrite H.
Qed.

(** X5: [lexer_read_identifier] of
    so_lang.c, at a run of letters, digits and underscores of any length
    that ends before another character or the end of the input, moves past
    the whole run and stores one token: the first 255 characters of the
    run, classified as a keyword or an identifier by those characters, with
    the line and the column reached after the run; nothing is reported when
    characters are dropped. *)
Theorem base_read_identifier_takes_whole_word (pre name rest : string) (l : Lexer) :
  lexeme_at pre name rest l ->
  all_chars ident_char name = true ->
  ident_char (char_at rest 0) = false ->
  token_count l < MAX_TOKENS ->
  let l' := Base.lexer_read_identifier l in
  let text := first_chars (MAX_TOKEN_LEN - 1) name in
  pos l' = pos l + String.length name
  /\ tokens l'
     = tokens l ++ [mkToken (Base.keyword text) text (line l)
                            (column l + String.length name)]
  /\ has_error l' = has_error l
  /\ stderr l' = stderr l.
Proof.
  intros Hl Hn Hr Hc l' text. subst l'.
  rewrite (base_read_identifier_at pre name rest) by auto. fold text.
  destruct (advance_n_facts (String.length name) l) as (E1 & E2 & E3 & E4 & E5).
  destruct (advance_run_position name pre rest l Hl) as [E6 E7].
  { eapply all_chars_impl; [|exact Hn]. apply class_ident_char. }
  rewrite add_token_below by (unfold token_count; now rewrite E3).
  cbn [pos tokens has_error stderr]. rewrite E2, E3, E4, E5, E6, E7.
  unfold text.
  rewrite strncpy_first_chars
    by (apply (all_chars_c_string ident_char); [reflexivity|exact Hn]).
  auto.
Qed.

Lemma base_read_identifier_takes_whole_word_witness :
  let l := lexer_create (chars 300 "a" +++ " = 1") in
  let l' := Base.lexer_read_identifier l in
  pos l' = 300
  /\ tokens l' = [mkToken TOKEN_IDENTIFIER (chars 255 "a") 1 301]
  /\ has_error l' = false
  /\ stderr l' = [].
Proof.
  apply (base_read_identifier_takes_whole_word EmptyString (chars 300 "a") " = 1"
           (lexer_create (chars 300 "a" +++ " = 1"))).
  - vm_compute. auto.
  - vm_compute. reflexivity.
  - vm_compute. reflexivity.
  - vm_compute. lia.
Defined.

(** X6: [lexer_read_number] of
    so_lang.c takes a whole run of digits and dots, with however many dots,
    as one number token holding the first 255 characters of the run. *)
Theorem base_read_number_takes_digits_and_dots (pre number rest : string) (l : Lexer) :
  lexeme_at pre number rest l ->
  all_chars digit_or_dot number = true ->
  digit_or_dot (char_at rest 0) = false ->
  token_count l < MAX_TOKENS ->
  let l' := Base.lexer_read_number l in
  pos l' = pos l + String.length number
  /\ tokens l'
     = tokens l ++ [mkToken TOKEN_NUMBER (first_chars (MAX_TOKEN_LEN - 1) number)
                            (line l) (column l + String.length number)]
  /\ has_error l' = has_error l
  /\ stderr l' = stderr l.
Proof.
  intros Hl Hn Hr Hc l'. subst l'.
  rewrite (base_read_number_at pre number rest) by auto.
  destruct (advance_n_facts (String.length number) l) as (E1 & E2 & E3 & E4 & E5).
  destruct (advance_run_position number pre rest l Hl) as [E6 E7].
  { eapply all_chars_impl; [|exact Hn]. apply class_digit_or_dot. }
  rewrite add_token_below by (unfold token_count; now rewrite E3).
  cbn [pos tokens has_error stderr]. rewrite E2, E3, E4, E5, E6, E7.
  rewrite strncpy_first_chars
    by (apply (all_chars_c_string digit_or_dot); [reflexivity|exact Hn]).
  auto.
Qed.

Lemma base_read_number_takes_digits_and_dots_witness :
  let l := lexer_create "1.2.3 + 4" in
  let l' := Base.lexer_read_number l in
  pos l' = 5
  /\ tokens l' = [mkToken TOKEN_NUMBER "1.2.3" 1 6]
  /\ has_error l' = false
  /\ stderr l' = [].
Proof.
  apply (base_read_number_takes_digits_and_dots EmptyString "1.2.3" " + 4"
           (lexer_create "1.2.3 + 4")).
  - vm_compute. auto.
  - reflexivity.
  - reflexivity.
  - vm_compute. lia.
Defined.

Lemma lexeme_end_char pre rest l :
  lexeme_at pre EmptyString rest l -> lexer_current_char l = char_at rest 0.
Proof.
  intros (Hs & Hp & Hn). unfold lexer_current_char.
  rewrite Hs, Hp. simpl. rewrite strlen_app by auto.
  rewrite <- (Nat.add_0_r (String.length pre)) at 3. rewrite char_at_app.
  destruct (String.length pre + strlen rest <=? String.length pre) eqn:E; auto.
  apply Nat.leb_le in E.
  destruct rest as [|c r]; [reflexivity|]. simpl in E.
  destruct (is_nul c) eqn:Ec; [|lia].
  apply is_nul_true in Ec. now subst.
Qed.

(** X7: [lexer_read_string] of so_lang.c, at an
    opening quote followed by characters that are neither a quote nor the
    terminator, stores one string token with the first 255 of these
    characters and moves past them, and past the closing quote when there
    is one.  When the input ends before a closing quote the token is stored
    all the same and nothing is reported. *)
Theorem base_read_string_literal (pre content rest : string) (l : Lexer) :
  lexeme_at pre (String QUOTE content) rest l ->
  all_chars string_char content = true ->
  string_char (char_at rest 0) = false ->
  token_count l < MAX_TOKENS ->
  let l' := Base.lexer_read_string l in
  pos l' = pos l + 1 + String.length content
           + (if Ascii.eqb (char_at rest 0) QUOTE then 1 else 0)
  /\ lexemes (tokens l')
     = lexemes (tokens l) ++ [(TOKEN_STRING, first_chars (MAX_TOKEN_LEN - 1) content)]
  /\ has_error l' = has_error l
  /\ stderr l' = stderr l.
Proof.
  intros Hl Hn Hr Hc l'. subst l'.
  assert (Hq : is_nul QUOTE = false) by reflexivity.
  pose proof (lexeme_next pre QUOTE content rest l Hl Hq) as H1.
  unfold Base.lexer_read_string.
  fold string_char.
  change (fun st : Lexer * string =>
            negb (Ascii.eqb (lexer_current_char (fst st)) QUOTE)
            && negb (is_nul (lexer_current_char (fst st))))
    with (fun st : Lexer * string => string_char (lexer_current_char (fst st))).
  rewrite (copy_loop_lexeme string_char _ content rest (lexer_advance l) eq_refl H1 Hn Hr).
  assert (Hcs : strlen content = String.length content)
    by (apply (all_chars_c_string string_char); auto).
  pose proof (lexeme_after _ content rest (lexer_advance l) H1 Hcs) as H2.
  rewrite (lexeme_end_char _ rest _ H2).
  destruct (advance_n_facts (String.length content) (lexer_advance l))
    as (E1 & E2 & E3 & E4 & E5).
  pose proof (advance_stderr l) as A5.
  rewrite advance_pos in E2. rewrite advance_tokens in E3.
  rewrite advance_has_error in E4. rewrite A5 in E5.
  set (l2 := advance_n (String.length content) (lexer_advance l)) in *.
  assert (F : forall l3, pos l3 = pos l2 + (if Ascii.eqb (char_at rest 0) QUOTE then 1 else 0)
                         -> tokens l3 = tokens l2 -> has_error l3 = has_error l2
                         -> stderr l3 = stderr l2 ->
    let l' := lexer_add_token TOKEN_STRING (first_chars (MAX_TOKEN_LEN - 1) content) l3 in
    pos l' = pos l + 1 + String.length content
             + (if Ascii.eqb (char_at rest 0) QUOTE then 1 else 0)
    /\ lexemes (tokens l')
       = lexemes (tokens l) ++ [(TOKEN_STRING, first_chars (MAX_TOKEN_LEN - 1) content)]
    /\ has_error l' = has_error l
    /\ stderr l' = stderr l).
  { intros l3 P3 T3 H3 S3 l'. subst l'.
    rewrite add_token_below by (unfold token_count; now rewrite T3, E3).
    cbn [pos tokens has_error stderr].
    rewrite strncpy_first_chars by auto.
    rewrite P3, T3, H3, S3, E2, E3, E4, E5.
    unfold lexemes. rewrite map_app. simpl. repeat split; lia. }
  destruct (Ascii.eqb (char_at rest 0) QUOTE) eqn:Eq.
  - apply F.
    + rewrite advance_pos. lia.
    + apply advance_tokens.
    + apply advance_has_error.
    + apply advance_stderr.
  - apply F; auto.
Qed.

Lemma base_read_string_literal_witness :
  let l := lexer_create (char_str QUOTE +++ "never closed") in
  let l' := Base.lexer_read_string l in
  pos l' = 13
  /\ lexemes (tokens l') = [(TOKEN_STRING, "never closed")]
  /\ has_error l' = false
  /\ stderr l' = [].
Proof.
  apply (base_read_string_literal EmptyString "never closed" EmptyString
           (lexer_create (char_str QUOTE +++ "never closed"))).
  - vm_compute. auto.
  - reflexivity.
  - reflexivity.
  - vm_compute. lia.
Defined.

(* ------------------------------------------------------------------ *)
(** ** The lexer of so_lang.c on a declaration *)

Lemma while_fuel_enough {S : Type} (cond : S -> bool) (body : S -> S) (m : S -> nat) :
  (forall s, cond s = true -> m (body s) < m s) ->
  forall f1 f2 s, m s <= f1 -> m s <= f2 ->
    while_fuel f1 cond body s = while_fuel f2 cond body s.
Proof.
  intros Hdec f1; induction f1 as [|f1 IH]; intros f2 s H1 H2.
  - simpl. destruct f2; simpl; auto.
    destruct (cond s) eqn:E; auto. specialize (Hdec s E). lia.
  - destruct f2 as [|f2]; simpl.
    + destruct (cond s) eqn:E; auto. specialize (Hdec s E). lia.
    + destruct (cond s) eqn:E; auto.
      specialize (Hdec s E). apply IH; lia.
Qed.

Lemma base_step_decreases l :
  negb (is_nul (lexer_current_char l)) = true ->
  remaining (Base.lexer_step l) < remaining l.
Proof.
  intros H. apply negb_true_iff in H.
  apply scanned_to_remaining.
  - now apply not_nul_remaining.
  - now apply base_step_progress.
Qed.

(** One iteration of the loop of [lexer_tokenize], and its exit. *)
Lemma base_scan_step l :
  is_nul (lexer_current_char l) = false ->
  Base.lexer_scan l = Base.lexer_scan (Base.lexer_step l).
Proof.
  intros H. unfold Base.lexer_scan.
  pose proof (not_nul_remaining l H) as Hr.
  pose proof (base_step_decreases l) as Hd. rewrite H in Hd. specialize (Hd eq_refl).
  destruct (remaining l) as [|k] eqn:E; [lia|].
  rewrite while_fuel_first by now rewrite H.
  apply (while_fuel_enough _ _ remaining base_step_decreases); lia.
Qed.

Lemma base_scan_stop l :
  is_nul (lexer_current_char l) = true -> Base.lexer_scan l = l.
Proof.
  intros H. unfold Base.lexer_scan. destruct (remaining l); simpl; auto.
  now rewrite H.
Qed.

Lemma lexemes_length toks : length (lexemes toks) = length toks.
Proof. apply length_map. Qed.

Lemma add_token_lexemes t v l L :
  lexemes (tokens l) = L -> has_error l = false -> length L < MAX_TOKENS ->
  lexemes (tokens (lexer_add_token t v l)) = L ++ [(t, strncpy (MAX_TOKEN_LEN - 1) v)]
  /\ has_error (lexer_add_token t v l) = false.
Proof.
  intros HL He Hc. rewrite <- HL, lexemes_length in Hc.
  destruct (add_token_cases t v l) as [(_ & E & E')|(Hge & _)].
  - rewrite E, E'. unfold lexemes in *. rewrite map_app, HL. auto.
  - unfold token_count in Hge. lia.
Qed.

(** The branches of the loop body of [lexer_tokenize]. *)

Lemma base_step_identifier pre name rest L l :
  scanned pre (name +++ rest) L l ->
  identifier_shape name = true ->
  ident_char (char_at rest 0) = false ->
  length L < MAX_TOKENS ->
  is_nul (lexer_current_char l) = false
  /\ scanned (pre +++ name) rest
       (L ++ [(Base.keyword (first_chars (MAX_TOKEN_LEN - 1) name),
               first_chars (MAX_TOKEN_LEN - 1) name)])
       (Base.lexer_step l).
Proof.
  intros (Hl & HL & He) Hn Hr Hc.
  destruct name as [|c name]; [discriminate|].
  simpl in Hn. apply andb_true_iff in Hn as [Hc1 Hn].
  destruct (class_letter c Hc1) as (C1 & C2 & C3 & C4).
  assert (Hnul : is_nul c = false) by (eapply (cond_not_nul ident_char); eauto).
  assert (Hall : all_chars ident_char (String c name) = true).
  { unfold all_chars in *. simpl. now rewrite C4. }
  assert (Hcs : strlen (String c name) = String.length (String c name)).
  { eapply (all_chars_c_string ident_char); eauto. }
  apply lexeme_split in Hl.
  assert (Hcur : lexer_current_char l = c) by (eapply lexeme_current; eauto).
  split; [now rewrite Hcur|].
  unfold Base.lexer_step. rewrite Hcur, C1, C2, C3, Hc1. cbn [andb].
  rewrite (base_read_identifier_at pre (String c name) rest) by auto.
  destruct (advance_n_facts (String.length (String c name)) l) as (_ & _ & E3 & E4 & _).
  destruct (add_token_lexemes
              (Base.keyword (first_chars (MAX_TOKEN_LEN - 1) (String c name)))
              (first_chars (MAX_TOKEN_LEN - 1) (String c name))
              (advance_n (String.length (String c name)) l) L) as [T1 T2];
    auto; try congruence.
  rewrite strncpy_first_chars in T1 by auto.
  split; [|split]; auto.
  apply lexeme_add_token, lexeme_after; auto.
Qed.

Lemma base_step_number pre number rest L l :
  scanned pre (number +++ rest) L l ->
  number_shape number = true ->
  digit_or_dot (char_at rest 0) = false ->
  length L < MAX_TOKENS ->
  is_nul (lexer_current_char l) = false
  /\ scanned (pre +++ number) rest
       (L ++ [(TOKEN_NUMBER, first_chars (MAX_TOKEN_LEN - 1) number)])
       (Base.lexer_step l).
Proof.
  intros (Hl & HL & He) Hn Hr Hc.
  destruct number as [|c number]; [discriminate|].
  simpl in Hn. apply andb_true_iff in Hn as [Hc1 Hn].
  destruct (class_digit c Hc1) as (C1 & C2 & C3 & C4 & C5).
  assert (Hnul : is_nul c = false) by (eapply (cond_not_nul digit_or_dot); eauto).
  assert (Hall : all_chars digit_or_dot (String c number) = true).
  { unfold all_chars in *. simpl. now rewrite C5. }
  assert (Hcs : strlen (String c number) = String.length (String c number)).
  { eapply (all_chars_c_string digit_or_dot); eauto. }
  apply lexeme_split in Hl.
  assert (Hcur : lexer_current_char l = c) by (eapply lexeme_current; eauto).
  split; [now rewrite Hcur|].
  unfold Base.lexer_step. rewrite Hcur, C1, C2, C3, C4, Hc1. cbn [andb].
  rewrite (base_read_number_at pre (String c number) rest) by auto.
  destruct (advance_n_facts (String.length (String c number)) l) as (_ & _ & E3 & E4 & _).
  destruct (add_token_lexemes TOKEN_NUMBER
              (first_chars (MAX_TOKEN_LEN - 1) (String c number))
              (advance_n (String.length (String c number)) l) L) as [T1 T2];
    auto; try congruence.
  rewrite strncpy_first_chars in T1 by auto.
  split; [|split]; auto.
  apply lexeme_add_token, lexeme_after; auto.
Qed.

Lemma base_step_blanks pre run rest L l :
  scanned pre (run +++ rest) L l ->
  run <> EmptyString ->
  all_chars blank_char run = true ->
  blank_char (char_at rest 0) = false ->
  is_nul (lexer_current_char l) = false
  /\ scanned (pre +++ run) rest L (Base.lexer_step l).
Proof.
  intros (Hl & HL & He) Hne Hn Hr.
  destruct run as [|c run]; [congruence|].
  assert (Hcs : strlen (String c run) = String.length (String c run)).
  { eapply (all_chars_c_string blank_char); eauto. }
  pose proof Hn as Hn'. unfold all_chars in Hn'. simpl in Hn'.
  apply andb_true_iff in Hn' as [Hc1 _].
  assert (Hnul : is_nul c = false) by (eapply (cond_not_nul blank_char); eauto).
  apply lexeme_split in Hl.
  assert (Hcur : lexer_current_char l = c) by (eapply lexeme_current; eauto).
  split; [now rewrite Hcur|].
  unfold Base.lexer_step. rewrite Hcur. fold (blank_char c). rewrite Hc1.
  unfold lexer_skip_whitespace.
  assert (Loop : while_fuel (remaining l)
                   (fun l0 => isspace (lexer_current_char l0)
                              && negb (Ascii.eqb (lexer_current_char l0) LF))
                   lexer_advance l
                 = steps lexer_advance (String.length (String c run)) l).
  { apply (run_loop _ (fun l => l) lexer_advance blank_char (fun s => eq_refl) eq_refl
             (String c run) pre rest); auto.
    apply (lexeme_remaining pre (String c run) rest l blank_char); auto. }
  rewrite Loop. fold (advance_n (String.length (String c run)) l).
  destruct (advance_n_facts (String.length (String c run)) l) as (_ & _ & E3 & E4 & _).
  split; [|split]; try congruence.
  apply lexeme_after; auto.
Qed.

Lemma base_step_assign pre rest L l :
  scanned pre ("=" +++ rest) L l ->
  Ascii.eqb (char_at rest 0) "="%char = false ->
  length L < MAX_TOKENS ->
  is_nul (lexer_current_char l) = false
  /\ scanned (pre +++ "=") rest (L ++ [(TOKEN_ASSIGN, "=")]) (Base.lexer_step l).
Proof.
  intros (Hl & HL & He) Hr Hc.
  apply lexeme_split in Hl.
  assert (Hcur : lexer_current_char l = "="%char) by (eapply lexeme_current; eauto).
  split; [now rewrite Hcur|].
  unfold Base.lexer_step. rewrite Hcur. cbn -[Base.lexer_punctuation].
  unfold Base.lexer_punctuation. cbn [Ascii.eqb Bool.eqb].
  assert (Hnext : char_at (source l) (pos l + 1) = char_at rest 0).
  { destruct Hl as (Hs & Hp & _). rewrite Hs, Hp.
    replace (pre +++ "=" +++ rest) with ((pre +++ "=") +++ rest)
      by apply append_assoc.
    replace (String.length pre + 1) with (String.length (pre +++ "=") + 0)
      by (rewrite length_append; simpl; lia).
    apply char_at_app. }
  rewrite Hnext, Hr.
  destruct (add_token_lexemes TOKEN_ASSIGN "=" l L) as [T1 T2]; auto.
  change (isspace "=") with false. change (isalpha "=") with false.
  change (isdigit "=") with false. cbn [andb orb].
  split; [|split].
  - apply (lexeme_after pre "=" rest (lexer_add_token TOKEN_ASSIGN "=" l)); auto.
    now apply lexeme_add_token.
  - now rewrite advance_tokens.
  - now rewrite advance_has_error.
Qed.

Lemma base_scan_finished pre L l :
  scanned pre EmptyString L l ->
  length L < MAX_TOKENS ->
  lexemes (tokens (Base.lexer_tokenize l)) = L ++ [(TOKEN_EOF, EmptyString)]
  /\ has_error (Base.lexer_tokenize l) = false.
Proof.
  intros (Hl & HL & He) Hc. unfold Base.lexer_tokenize.
  rewrite base_scan_stop.
  - apply (add_token_lexemes TOKEN_EOF EmptyString l L); auto.
  - now rewrite (lexeme_end_char pre EmptyString l Hl).
Qed.

Lemma identifier_first name :
  identifier_shape name = true ->
  exists c r, name = String c r /\ isalpha c || Ascii.eqb c "_"%char = true.
Proof.
  destruct name as [|c r]; [discriminate|]. simpl. intros H.
  apply andb_true_iff in H as [H _]. eauto.
Qed.

Lemma number_first number :
  number_shape number = true -> exists c r, number = String c r /\ isdigit c = true.
Proof.
  destruct number as [|c r]; [discriminate|]. simpl. intros H.
  apply andb_true_iff in H as [H _]. eauto.
Qed.

Lemma scanned_create src : scanned EmptyString src [] (lexer_create src).
Proof. repeat split. Qed.

(** X8: for every identifier [name] that is no
    keyword and every number [number] (a digit, then digits and dots), each
    of at most 255 characters, the lexer of so_lang.c turns
    "let name = number" into exactly the tokens let, identifier [name],
    assignment, number [number] and end of input, without an error. *)
Theorem base_lexer_let_statement (name number : string) :
  identifier_shape name = true ->
  Base.keyword name = TOKEN_IDENTIFIER ->
  number_shape number = true ->
  String.length name <= MAX_TOKEN_LEN - 1 ->
  String.length number <= MAX_TOKEN_LEN - 1 ->
  let l := Base.lexer_tokenize (lexer_create ("let " +++ name +++ " = " +++ number)) in
  lexemes (tokens l)
  = [(TOKEN_LET, "let"); (TOKEN_IDENTIFIER, name); (TOKEN_ASSIGN, "=");
     (TOKEN_NUMBER, number); (TOKEN_EOF, EmptyString)]
  /\ has_error l = false.
Proof.
  intros Hn Hk Hd Ln Ld l. subst l.
  destruct (identifier_first name Hn) as (c & r & En & Hc).
  destruct (number_first number Hd) as (d & q & Ed & Hdg).
  destruct (class_letter c Hc) as (C1 & _).
  destruct (class_digit d Hdg) as (D1 & _).
  set (l0 := lexer_create ("let " +++ name +++ " = " +++ number)).
  assert (S0 : scanned EmptyString ("let" +++ " " +++ name +++ " = " +++ number) [] l0)
    by apply scanned_create.
  apply base_step_identifier in S0 as [N0 S1];
    [|reflexivity|reflexivity|simpl; unfold MAX_TOKENS; lia].
  apply base_step_blanks in S1 as [N1 S2];
    [|discriminate|reflexivity
     |rewrite En; unfold blank_char; simpl; unfold char_at; simpl; now rewrite C1].
  apply base_step_identifier in S2 as [N2 S3];
    [|assumption|reflexivity|simpl; unfold MAX_TOKENS; lia].
  change (" = " +++ number) with (" " +++ "=" +++ " " +++ number) in S3.
  apply base_step_blanks in S3 as [N3 S4]; [|discriminate|reflexivity|reflexivity].
  apply base_step_assign in S4 as [N4 S5]; [|reflexivity|simpl; unfold MAX_TOKENS; lia].
  apply base_step_blanks in S5 as [N5 S6];
    [|discriminate|reflexivity
     |rewrite Ed; unfold blank_char; simpl; unfold char_at; simpl; now rewrite D1].
  rewrite <- (append_nil_r number) in S6 at 1.
  apply base_step_number in S6 as [N6 S7];
    [|assumption|reflexivity|simpl; unfold MAX_TOKENS; lia].
  match type of S7 with scanned _ _ _ ?l7 =>
    assert (T : Base.lexer_tokenize l0 = Base.lexer_tokenize l7)
  end.
  { unfold Base.lexer_tokenize.
    now rewrite (base_scan_step _ N0), (base_scan_step _ N1), (base_scan_step _ N2),
      (base_scan_step _ N3), (base_scan_step _ N4), (base_scan_step _ N5),
      (base_scan_step _ N6). }
  rewrite T.
  apply base_scan_finished in S7; [|simpl; unfold MAX_TOKENS; lia].
  rewrite !first_chars_whole in S7 by (auto; simpl; unfold MAX_TOKEN_LEN; lia).
  rewrite Hk in S7. exact S7.
Qed.

Lemma base_lexer_let_statement_witness :
  let l := Base.lexer_tokenize (lexer_create ("let " +++ "x" +++ " = " +++ "42")) in
  lexemes (tokens l)
  = [(TOKEN_LET, "let"); (TOKEN_IDENTIFIER, "x"); (TOKEN_ASSIGN, "=");
     (TOKEN_NUMBER, "42"); (TOKEN_EOF, EmptyString)]
  /\ has_error l = false.
Proof.
  apply (base_lexer_let_statement "x" "42");
    try reflexivity; unfold MAX_TOKEN_LEN; simpl; lia.
Defined.


(* ------------------------------------------------------------------ *)
(** ** The parser of the enhanced compiler: what every function keeps *)

Section ParserRelation.

(** A relation between parser states that the three state-changing steps
    establish, and that is reflexive and transitive, holds between the
    state a parsing function is called in and the state it returns. *)
Variable R : Parser -> Parser -> Prop.
Hypothesis R_refl : forall p, R p p.
Hypothesis R_trans : forall p q r, R p q -> R q r -> R p r.
Hypothesis R_advance : forall p, R p (parser_advance p).
Hypothesis R_error : forall a b p, R p (parser_error "Expected '{'" a b p).
Hypothesis R_register : forall n p, R p (Enhanced.register_function n p).

Lemma R_match t p : R p (snd (parser_match t p)).
Proof. unfold parser_match. destruct (current_is t p); simpl; auto. Qed.

Lemma R_while_advance fuel cond p p' :
  while_opt fuel cond parser_advance p = Some p' -> R p p'.
Proof.
  intros H.
  eapply (while_opt_some _ _ (R p)) in H; [tauto | | apply R_refl].
  intros s _ Hs. eauto.
Qed.

Lemma R_binary_body prim p n p' :
  (forall q m q', prim q = Some (m, q') -> R q q') ->
  parse_binary_body prim p = Some (n, p') -> R p p'.
Proof.
  intros Hprim. unfold parse_binary_body.
  destruct (prim p) as [[l p1]|] eqn:E1; [|discriminate].
  apply Hprim in E1.
  destruct (is_binary_operator _).
  - destruct (prim (parser_advance p1)) as [[r p2]|] eqn:E2; [|discriminate].
    apply Hprim in E2. intros H; inversion H; subst. eauto.
  - intros H; inversion H; subst. auto.
Qed.

Lemma R_primary fuel : forall p n p',
  Enhanced.parser_parse_primary fuel p = Some (n, p') -> R p p'.
Proof.
  induction fuel as [|f IH]; intros p n p'; [discriminate|].
  cbn [Enhanced.parser_parse_primary].
  destruct (tok_type (parser_current_token p)) eqn:E; try (some_inv; auto).
  - destruct (current_is TOKEN_LPAREN (parser_advance p)); [|some_inv; auto].
    destruct (skip_to_rparen _) as [p2|] eqn:E2; [|discriminate].
    apply R_while_advance in E2. some_inv.
    eauto 6 using R_match.
  - destruct (parse_binary_body _ _) as [[m p2]|] eqn:E2; [|discriminate].
    apply R_binary_body in E2; auto. some_inv.
    eauto 6 using R_match.
Qed.

Lemma R_expression fuel p n p' :
  Enhanced.parser_parse_expression fuel p = Some (n, p') -> R p p'.
Proof. apply R_binary_body. apply R_primary. Qed.

Lemma R_statements fuel :
  (forall p n p', Enhanced.parser_parse_statement fuel p = Some (n, p') -> R p p')
  /\ (forall p n p', Enhanced.parser_parse_block fuel p = Some (n, p') -> R p p')
  /\ (forall p b n p', Enhanced.block_loop fuel p b = Some (n, p') -> R p p')
  /\ (forall p n p', Enhanced.parser_parse_function fuel p = Some (n, p') -> R p p').
Proof.
  induction fuel as [|f (IHs & IHb & IHl & IHf)].
  { repeat split; intros; discriminate. }
  split; [|split; [|split]].
  - intros p n p'. cbn [Enhanced.parser_parse_statement].
    match goal with
    | |- match ?body with _ => _ end = _ -> _ =>
        assert (Hb : forall m q, body = Some (m, q) -> R p q);
        [|destruct body as [[m q]|] eqn:Eb; [|discriminate];
          specialize (Hb _ _ eq_refl)]
    end.
    + intros m q.
      destruct (tok_type (parser_current_token p)) eqn:E;
        try (apply R_expression).
      * (* let *)
        destruct (TokenType_beq _ TOKEN_IDENTIFIER); [|some_inv; auto].
        destruct (parser_match TOKEN_ASSIGN _) as [matched p2] eqn:Em.
        assert (R p p2).
        { replace p2 with (snd (parser_match TOKEN_ASSIGN (parser_advance (parser_advance p))))
            by now rewrite Em.
          eauto using R_match. }
        destruct matched; [|some_inv; auto].
        destruct (Enhanced.parser_parse_expression f p2) as [[e p3]|] eqn:Ee; [|discriminate].
        apply R_expression in Ee. some_inv. eauto.
      * (* fn *)
        destruct (Enhanced.parser_parse_function f p) as [[fn p1]|] eqn:Ef; [|discriminate].
        apply IHf in Ef. some_inv. auto.
      * (* if *)
        destruct (Enhanced.parser_parse_expression f _) as [[c p1]|] eqn:Ee; [|discriminate].
        apply R_expression in Ee.
        destruct (Enhanced.parser_parse_block f p1) as [[b p2]|] eqn:Eb; [|discriminate].
        apply IHb in Eb.
        destruct (parser_match TOKEN_ELSE p2) as [matched p3] eqn:Em.
        assert (R p2 p3).
        { replace p3 with (snd (parser_match TOKEN_ELSE p2)) by now rewrite Em.
          apply R_match. }
        destruct matched; [|some_inv; eauto].
        destruct (current_is TOKEN_IF p3).
        -- destruct (Enhanced.parser_parse_statement f p3) as [[s p4]|] eqn:Es; [|discriminate].
           apply IHs in Es. some_inv. eauto 6.
        -- destruct (Enhanced.parser_parse_block f p3) as [[b2 p4]|] eqn:Eb2; [|discriminate].
           apply IHb in Eb2. some_inv. eauto 6.
      * (* return *)
        destruct (_ && _).
        -- destruct (Enhanced.parser_parse_expression f _) as [[e p2]|] eqn:Ee; [|discriminate].
           apply R_expression in Ee. some_inv. eauto.
        -- some_inv. auto.
      * (* print *)
        destruct (parser_match TOKEN_LPAREN _) as [matched p1] eqn:Em.
        assert (R p p1).
        { replace p1 with (snd (parser_match TOKEN_LPAREN (parser_advance p)))
            by now rewrite Em.
          eauto using R_match. }
        destruct matched; [|some_inv; auto].
        destruct (Enhanced.parser_parse_expression f p1) as [[e p2]|] eqn:Ee; [|discriminate].
        apply R_expression in Ee. some_inv. eauto 6 using R_match.
    + destruct (Enhanced.skip_terminators q) as [p''|] eqn:Et; [|discriminate].
      apply R_while_advance in Et. some_inv. eauto.
  - intros p n p'. cbn [Enhanced.parser_parse_block].
    destruct (parser_match TOKEN_LBRACE p) as [matched p1] eqn:Em.
    assert (R p p1).
    { replace p1 with (snd (parser_match TOKEN_LBRACE p)) by now rewrite Em.
      apply R_match. }
    destruct matched.
    + destruct (Enhanced.block_loop f p1 _) as [[b p2]|] eqn:El; [|discriminate].
      apply IHl in El. some_inv. eauto 6 using R_match.
    + some_inv. eauto.
  - intros p b n p'. cbn [Enhanced.block_loop].
    destruct (Enhanced.block_continues p); [|some_inv; auto].
    destruct (current_is TOKEN_NEWLINE p).
    + intros H. apply IHl in H. eauto.
    + destruct (Enhanced.parser_parse_statement f p) as [[s p1]|] eqn:Es; [|discriminate].
      apply IHs in Es. intros H. apply IHl in H. eauto.
  - intros p n p'. cbn [Enhanced.parser_parse_function].
    destruct (TokenType_beq _ TOKEN_IDENTIFIER); [|some_inv; auto].
    destruct (parser_match TOKEN_LPAREN _) as [matched p2] eqn:Em.
    assert (R p p2).
    { replace p2 with (snd (parser_match TOKEN_LPAREN (parser_advance (parser_advance p))))
        by now rewrite Em.
      eauto using R_match. }
    match goal with
    | |- match ?body with _ => _ end = _ -> _ =>
        assert (Hb : forall q, body = Some q -> R p2 q);
        [|destruct body as [p3|] eqn:Eb; [|discriminate];
          specialize (Hb _ eq_refl)]
    end.
    + intros q. destruct matched; [|some_inv; auto].
      destruct (skip_to_rparen p2) as [q'|] eqn:Es; [|discriminate].
      apply R_while_advance in Es. some_inv. eauto using R_match.
    + destruct (Enhanced.parser_parse_block f p3) as [[body p4]|] eqn:Ebk; [|discriminate].
      apply IHb in Ebk. some_inv. eauto 6.
Qed.

Lemma R_program_loop fuel : forall p prog n p',
  Enhanced.program_loop fuel p prog = Some (n, p') -> R p p'.
Proof.
  induction fuel as [|f IH]; intros p prog n p'; [discriminate|].
  cbn [Enhanced.program_loop].
  destruct (negb _); [|some_inv; auto].
  destruct (current_is TOKEN_NEWLINE p).
  - intros H. apply IH in H. eauto.
  - destruct (Enhanced.parser_parse_statement f p) as [[s p1]|] eqn:Es; [|discriminate].
    apply R_statements in Es. intros H. apply IH in H. eauto.
Qed.

End ParserRelation.

Lemma later_refl p : later p p.
Proof.
  repeat split; auto; exists []; now rewrite app_nil_r.
Qed.

Lemma later_trans p q r : later p q -> later q r -> later p r.
Proof.
  intros (A1 & A2 & A3 & [d1 A4] & [f1 A5] & A6) (B1 & B2 & B3 & [d2 B4] & [f2 B5] & B6).
  repeat split; try congruence; try lia; auto.
  - exists (d1 ++ d2). now rewrite B4, A4, app_assoc.
  - exists (f1 ++ f2). now rewrite B5, A5, app_assoc.
Qed.

Lemma later_advance p : later p (parser_advance p).
Proof.
  unfold parser_advance. destruct (_ <? _); [|apply later_refl].
  repeat split; simpl; auto; exists []; now rewrite app_nil_r.
Qed.

Lemma later_error a b p : later p (parser_error "Expected '{'" a b p).
Proof.
  repeat split; simpl; auto; [eexists; reflexivity|].
  exists []; now rewrite app_nil_r.
Qed.

Lemma later_register n p : later p (Enhanced.register_function n p).
Proof.
  unfold Enhanced.register_function.
  destruct (function_count p <? MAX_FUNCTIONS) eqn:E; [|apply later_refl].
  apply Nat.ltb_lt in E.
  repeat split; simpl; auto.
  - exists []; now rewrite app_nil_r.
  - eexists; reflexivity.
  - unfold function_count in *. simpl. rewrite length_app. simpl. lia.
Qed.

Lemma add_child_type cap s n : type (add_child cap s n) = type n.
Proof.
  unfold add_child. destruct s; auto. destruct (_ <? _); reflexivity.
Qed.

Lemma add_child_bound cap s n :
  child_count n <= cap -> child_count (add_child cap s n) <= cap.
Proof.
  unfold add_child. destruct s; auto.
  destruct (child_count n <? cap) eqn:E; auto.
  apply Nat.ltb_lt in E. unfold child_count in *. simpl. rewrite length_app. simpl. lia.
Qed.

Lemma program_loop_result fuel : forall p prog n p',
  Enhanced.program_loop fuel p prog = Some (n, p') ->
  current_is TOKEN_EOF p' = true
  /\ type n = type prog
  /\ (child_count prog <= 200 -> child_count n <= 200).
Proof.
  induction fuel as [|f IH]; intros p prog n p'; [discriminate|].
  cbn [Enhanced.program_loop].
  destruct (current_is TOKEN_EOF p) eqn:Ee; cbn [negb].
  - some_inv. auto.
  - destruct (current_is TOKEN_NEWLINE p).
    + apply IH.
    + destruct (Enhanced.parser_parse_statement f p) as [[s p1]|]; [|discriminate].
      intros H. apply IH in H. destruct H as (H1 & H2 & H3).
      rewrite add_child_type in H2. split; [|split]; auto.
      intros Hc. apply H3. now apply add_child_bound.
Qed.

(** X9: whenever [parser_parse] of the enhanced
    compiler returns, the parser stands at the end-of-input token and the
    tree is a program node with at most 200 children; the token array is
    unchanged, the position has not moved back, an error flag that was set
    is still set, diagnostics and registered function names were added at
    the end only, and the registry holds at most 50 names if it did before. *)
Theorem enhanced_parser_parse_result (fuel : nat) (p : Parser) (ast : ASTNode) (p' : Parser) :
  Enhanced.parser_parse fuel p = Some (ast, p') ->
  later p p'
  /\ current_is TOKEN_EOF p' = true
  /\ type ast = NODE_PROGRAM
  /\ child_count ast <= 200.
Proof.
  unfold Enhanced.parser_parse. intros H.
  split.
  - eapply (R_program_loop later); eauto using later_refl, later_trans, later_advance,
      later_error, later_register.
  - apply program_loop_result in H. destruct H as (H1 & H2 & H3).
    split; [exact H1|]. split; [exact H2|]. apply H3.
    unfold child_count. simpl. lia.
Qed.

Lemma enhanced_parser_parse_result_witness :
  let p := parser_create let_x_tokens in
  let ast :=
    set_children
      [set_right (Some (leaf NODE_NUMBER "1"))
         (set_value "x" (ast_create_node NODE_VAR_DECL))]
      (ast_create_node NODE_PROGRAM) in
  later p (set_pos 4 p)
  /\ current_is TOKEN_EOF (set_pos 4 p) = true
  /\ type ast = NODE_PROGRAM
  /\ child_count ast <= 200.
Proof.
  apply (enhanced_parser_parse_result 5 (parser_create let_x_tokens)).
  vm_compute. reflexivity.
Defined.


Lemma brace_errors_refl p : brace_errors p p.
Proof.
  exists []. rewrite app_nil_r. simpl. rewrite orb_false_r. auto.
Qed.

Lemma brace_errors_trans p q r : brace_errors p q -> brace_errors q r -> brace_errors p r.
Proof.
  intros (d1 & A1 & A2 & A3) (d2 & B1 & B2 & B3).
  exists (d1 ++ d2). split; [|split].
  - now rewrite B1, A1, app_assoc.
  - apply Forall_app; auto.
  - rewrite B3, A3, length_app.
    destruct (p_has_error p), d1, d2; reflexivity.
Qed.

Lemma brace_errors_advance p : brace_errors p (parser_advance p).
Proof.
  unfold parser_advance. destruct (_ <? _); [|apply brace_errors_refl].
  exists []. simpl. rewrite app_nil_r, orb_false_r. auto.
Qed.

Lemma brace_errors_register n p : brace_errors p (Enhanced.register_function n p).
Proof.
  unfold Enhanced.register_function. destruct (_ <? _); [|apply brace_errors_refl].
  exists []. simpl. rewrite app_nil_r, orb_false_r. auto.
Qed.

Lemma brace_errors_error a b p : brace_errors p (parser_error "Expected '{'" a b p).
Proof.
  eexists. simpl. split; [reflexivity|]. split; [auto|].
  simpl. now rewrite orb_true_r.
Qed.

(** X10: the only diagnostic the parser
    of the enhanced compiler ever prints is the missing opening brace of a
    block, and when [parser_parse] returns the error flag is set exactly
    when such a diagnostic was printed: no other malformed input is
    reported. *)
Theorem enhanced_parser_reports_only_missing_brace
  (fuel : nat) (toks : list Token) (ast : ASTNode) (p' : Parser) :
  Enhanced.parser_parse fuel (parser_create toks) = Some (ast, p') ->
  Forall (fun d => diag_message d = "Expected '{'") (p_stderr p')
  /\ (p_has_error p' = true <-> p_stderr p' <> []).
Proof.
  intros H.
  apply (R_program_loop brace_errors brace_errors_refl brace_errors_trans
           brace_errors_advance brace_errors_error brace_errors_register) in H.
  destruct H as (ds & H1 & H2 & H3). simpl in H1, H3.
  rewrite H1, H3. split; auto.
  destruct ds; simpl; split; intros; congruence.
Qed.

Lemma enhanced_parser_reports_only_missing_brace_witness :
  let p' :=
    mkParser if_without_block 2 true [mkDiag "Expected '{'" 0 0] [] in
  Forall (fun d => diag_message d = "Expected '{'") (p_stderr p')
  /\ (p_has_error p' = true <-> p_stderr p' <> []).
Proof.
  apply (enhanced_parser_reports_only_missing_brace 5 if_without_block
           (set_children
              [set_then_branch (Some (ast_create_node NODE_PROGRAM))
                 (set_condition (Some (leaf NODE_IDENTIFIER "x"))
                    (ast_create_node NODE_IF_STMT))]
              (ast_create_node NODE_PROGRAM))).
  vm_compute. reflexivity.
Defined.


Lemma later_pos p q : later p q -> p_pos p <= p_pos q.
Proof. intros H; apply H. Qed.

Lemma later_statement fuel p n p' :
  Enhanced.parser_parse_statement fuel p = Some (n, p') -> later p p'.
Proof.
  apply (R_statements later later_refl later_trans later_advance later_error
           later_register fuel).
Qed.

Lemma later_block fuel p n p' :
  Enhanced.parser_parse_block fuel p = Some (n, p') -> later p p'.
Proof.
  apply (R_statements later later_refl later_trans later_advance later_error
           later_register fuel).
Qed.

Lemma later_function fuel p n p' :
  Enhanced.parser_parse_function fuel p = Some (n, p') -> later p p'.
Proof.
  apply (R_statements later later_refl later_trans later_advance later_error
           later_register fuel).
Qed.

Lemma later_expression fuel p n p' :
  Enhanced.parser_parse_expression fuel p = Some (n, p') -> later p p'.
Proof.
  apply (R_expression later later_refl later_trans later_advance).
Qed.

Lemma later_primary fuel p n p' :
  Enhanced.parser_parse_primary fuel p = Some (n, p') -> later p p'.
Proof.
  apply (R_primary later later_refl later_trans later_advance).
Qed.

Lemma advance_moves p t :
  ends_in_eof (p_tokens p) = true ->
  tok_type (parser_current_token p) = t -> t <> TOKEN_EOF ->
  p_pos (parser_advance p) = S (p_pos p).
Proof.
  intros He Ht Hne.
  apply not_eof_advances; auto. eapply current_is_other; eauto.
Qed.

Lemma starts_primary_not_eof t : starts_primary t = true -> t <> TOKEN_EOF.
Proof. intros H E; subst; discriminate. Qed.

Lemma primary_consumes fuel p n q :
  ends_in_eof (p_tokens p) = true ->
  starts_primary (tok_type (parser_current_token p)) = true ->
  Enhanced.parser_parse_primary fuel p = Some (n, q) ->
  p_pos p < p_pos q.
Proof.
  intros He Hs.
  pose proof (advance_moves p _ He eq_refl (starts_primary_not_eof _ Hs)) as Ha.
  destruct fuel as [|f]; [discriminate|].
  cbn [Enhanced.parser_parse_primary].
  destruct (tok_type (parser_current_token p)) eqn:E; try discriminate.
  - destruct (current_is TOKEN_LPAREN (parser_advance p)).
    + destruct (skip_to_rparen _) as [p2|] eqn:E2; [|discriminate].
      apply (R_while_advance later later_refl later_trans later_advance) in E2.
      some_inv.
      pose proof (later_pos _ _ E2).
      pose proof (later_pos _ _ (later_advance (parser_advance p))).
      pose proof (later_pos _ _ (R_match later later_refl later_advance TOKEN_RPAREN p2)).
      lia.
    + some_inv. lia.
  - some_inv. lia.
  - some_inv. lia.
  - destruct (parse_binary_body _ _) as [[m p2]|] eqn:E2; [|discriminate].
    apply (R_binary_body later later_refl later_trans later_advance) in E2;
      [|apply later_primary].
    some_inv.
    pose proof (later_pos _ _ E2).
    pose proof (later_pos _ _ (R_match later later_refl later_advance TOKEN_RPAREN p2)).
    lia.
Qed.

Lemma primary_stays fuel p :
  starts_primary (tok_type (parser_current_token p)) = false ->
  Enhanced.parser_parse_primary (S fuel) p = Some (None, p).
Proof.
  cbn [Enhanced.parser_parse_primary].
  destruct (tok_type (parser_current_token p)); try discriminate; auto.
Qed.

Lemma operator_not_primary t : is_binary_operator t = true -> starts_primary t = false.
Proof. destruct t; simpl; auto; discriminate. Qed.

Lemma operator_not_eof t : is_binary_operator t = true -> t <> TOKEN_EOF.
Proof. intros H E; subst; discriminate. Qed.

Lemma expression_consumes fuel p n q :
  ends_in_eof (p_tokens p) = true ->
  starts_primary (tok_type (parser_current_token p))
  || is_binary_operator (tok_type (parser_current_token p)) = true ->
  Enhanced.parser_parse_expression fuel p = Some (n, q) ->
  p_pos p < p_pos q.
Proof.
  intros He Hs.
  unfold Enhanced.parser_parse_expression, Enhanced.parser_parse_binary, parse_binary_body.
  destruct (Enhanced.parser_parse_primary fuel p) as [[l p1]|] eqn:E1; [|discriminate].
  destruct (starts_primary (tok_type (parser_current_token p))) eqn:Sp.
  - pose proof (primary_consumes _ _ _ _ He Sp E1) as Hlt.
    destruct (is_binary_operator (tok_type (parser_current_token p1))).
    + destruct (Enhanced.parser_parse_primary fuel (parser_advance p1)) as [[r p2]|] eqn:E2;
        [|discriminate].
      apply later_primary in E2. some_inv.
      pose proof (later_pos _ _ E2).
      pose proof (later_pos _ _ (later_advance p1)). lia.
    + some_inv. lia.
  - simpl in Hs.
    destruct fuel as [|f]; [discriminate|].
    rewrite (primary_stays f p Sp) in E1. inversion E1; subst. rewrite Hs.
    destruct (Enhanced.parser_parse_primary (S f) (parser_advance p1)) as [[r p2]|] eqn:E2;
      [|discriminate].
    apply later_primary in E2. some_inv.
    pose proof (later_pos _ _ E2).
    pose proof (advance_moves p1 _ He eq_refl (operator_not_eof _ Hs)). lia.
Qed.

Lemma skip_terminators_consumes p q :
  ends_in_eof (p_tokens p) = true ->
  current_is TOKEN_NEWLINE p || current_is TOKEN_SEMICOLON p = true ->
  Enhanced.skip_terminators p = Some q ->
  p_pos p < p_pos q.
Proof.
  intros He Hc. unfold Enhanced.skip_terminators.
  cbn [while_opt]. rewrite Hc. intros H.
  apply (R_while_advance later later_refl later_trans later_advance) in H.
  pose proof (later_pos _ _ H).
  assert (Hne : current_is TOKEN_EOF p = false).
  { unfold current_is in *.
    destruct (tok_type (parser_current_token p)); try discriminate; reflexivity. }
  destruct (not_eof_advances p He Hne) as (_ & Hp & _). lia.
Qed.

Lemma expression_stays fuel p :
  starts_primary (tok_type (parser_current_token p))
  || is_binary_operator (tok_type (parser_current_token p)) = false ->
  Enhanced.parser_parse_expression (S fuel) p = Some (None, p).
Proof.
  intros H. apply orb_false_iff in H as [H1 H2].
  unfold Enhanced.parser_parse_expression, Enhanced.parser_parse_binary, parse_binary_body.
  rewrite (primary_stays fuel p H1). now rewrite H2.
Qed.

Lemma register_pos n p : p_pos (Enhanced.register_function n p) = p_pos p.
Proof. unfold Enhanced.register_function. destruct (_ <? _); reflexivity. Qed.

(** X11: on tokens that end with the end-of-input
    token, [parser_parse_statement] of the enhanced compiler, called at a
    token that starts a statement (fn, let, print, if, return, a number, a
    string, an identifier, an opening parenthesis, a binary operator, a
    newline or a semicolon), has consumed at least one token when it
    returns. *)
Theorem enhanced_statement_consumes (fuel : nat) (p : Parser) (n : option ASTNode)
  (p' : Parser) :
  ends_in_eof (p_tokens p) = true ->
  starts_statement (tok_type (parser_current_token p)) = true ->
  Enhanced.parser_parse_statement fuel p = Some (n, p') ->
  p_pos p < p_pos p'.
Proof.
  intros He Hs.
  destruct fuel as [|f]; [discriminate|].
  cbn [Enhanced.parser_parse_statement].
  match goal with
  | |- match ?body with _ => _ end = _ -> _ =>
      destruct body as [[m q]|] eqn:Eb; [|discriminate]
  end.
  destruct (Enhanced.skip_terminators q) as [p''|] eqn:Et; [|discriminate].
  some_inv.
  pose proof (R_while_advance later later_refl later_trans later_advance _ _ _ _ Et) as Lt.
  apply later_pos in Lt.
  destruct (tok_type (parser_current_token p)) eqn:E; try discriminate;
    try (apply expression_consumes in Eb; auto; [lia | now rewrite E]).
  - (* let *)
    pose proof (advance_moves p _ He E ltac:(discriminate)) as Ha.
    enough (p_pos (parser_advance p) <= p_pos q) by lia.
    destruct (TokenType_beq _ TOKEN_IDENTIFIER); [|inversion Eb; subst; lia].
    destruct (parser_match TOKEN_ASSIGN _) as [matched p2] eqn:Em.
    assert (L2 : later (parser_advance p) p2).
    { replace p2 with (snd (parser_match TOKEN_ASSIGN (parser_advance (parser_advance p))))
        by now rewrite Em.
      eapply later_trans; [apply later_advance | apply (R_match later later_refl later_advance)]. }
    apply later_pos in L2.
    destruct matched; [|inversion Eb; subst; lia].
    destruct (Enhanced.parser_parse_expression f p2) as [[e p3]|] eqn:Ee; [|discriminate].
    apply later_expression, later_pos in Ee. inversion Eb; subst. lia.
  - (* fn *)
    pose proof (advance_moves p _ He E ltac:(discriminate)) as Ha.
    destruct (Enhanced.parser_parse_function f p) as [[fn p1]|] eqn:Ef; [|discriminate].
    inversion Eb; subst.
    destruct f as [|f']; [discriminate|].
    cbn [Enhanced.parser_parse_function] in Ef.
    destruct (TokenType_beq _ TOKEN_IDENTIFIER); [|inversion Ef; subst; lia].
    destruct (parser_match TOKEN_LPAREN _) as [matched p2] eqn:Em.
    assert (L2 : later (parser_advance p) p2).
    { replace p2 with (snd (parser_match TOKEN_LPAREN (parser_advance (parser_advance p))))
        by now rewrite Em.
      eapply later_trans; [apply later_advance | apply (R_match later later_refl later_advance)]. }
    apply later_pos in L2.
    match type of Ef with
    | match ?body with _ => _ end = _ =>
        assert (Hb : forall r, body = Some r -> later p2 r);
        [|destruct body as [p3|] eqn:Eb3; [|discriminate];
          specialize (Hb _ eq_refl)]
    end.
    { intros r. destruct matched; [|some_inv; apply later_refl].
      destruct (skip_to_rparen p2) as [q'|] eqn:Es; [|discriminate].
      apply (R_while_advance later later_refl later_trans later_advance) in Es.
      some_inv. eapply later_trans; [exact Es|].
      apply (R_match later later_refl later_advance). }
    apply later_pos in Hb.
    destruct (Enhanced.parser_parse_block f' p3) as [[body p4]|] eqn:Ebk; [|discriminate].
    apply later_block, later_pos in Ebk. inversion Ef; subst.
    rewrite register_pos in Lt. lia.
  - (* if *)
    pose proof (advance_moves p _ He E ltac:(discriminate)) as Ha.
    enough (p_pos (parser_advance p) <= p_pos q) by lia.
    destruct (Enhanced.parser_parse_expression f _) as [[c p1]|] eqn:Ee; [|discriminate].
    apply later_expression, later_pos in Ee.
    destruct (Enhanced.parser_parse_block f p1) as [[b p2]|] eqn:Ebk; [|discriminate].
    apply later_block, later_pos in Ebk.
    destruct (parser_match TOKEN_ELSE p2) as [matched p3] eqn:Em.
    assert (L3 : later p2 p3).
    { replace p3 with (snd (parser_match TOKEN_ELSE p2)) by now rewrite Em.
      apply (R_match later later_refl later_advance). }
    apply later_pos in L3.
    destruct matched; [|inversion Eb; subst; lia].
    destruct (current_is TOKEN_IF p3).
    + destruct (Enhanced.parser_parse_statement f p3) as [[s p4]|] eqn:Es; [|discriminate].
      apply later_statement, later_pos in Es. inversion Eb; subst. lia.
    + destruct (Enhanced.parser_parse_block f p3) as [[b2 p4]|] eqn:Eb2; [|discriminate].
      apply later_block, later_pos in Eb2. inversion Eb; subst. lia.
  - (* return *)
    pose proof (advance_moves p _ He E ltac:(discriminate)) as Ha.
    enough (p_pos (parser_advance p) <= p_pos q) by lia.
    destruct (_ && _).
    + destruct (Enhanced.parser_parse_expression f _) as [[e p2]|] eqn:Ee; [|discriminate].
      apply later_expression, later_pos in Ee. inversion Eb; subst. lia.
    + inversion Eb; subst. lia.
  - (* print *)
    pose proof (advance_moves p _ He E ltac:(discriminate)) as Ha.
    enough (p_pos (parser_advance p) <= p_pos q) by lia.
    destruct (parser_match TOKEN_LPAREN _) as [matched p1] eqn:Em.
    assert (L1 : later (parser_advance p) p1).
    { replace p1 with (snd (parser_match TOKEN_LPAREN (parser_advance p)))
        by now rewrite Em.
      apply (R_match later later_refl later_advance). }
    apply later_pos in L1.
    destruct matched; [|inversion Eb; subst; lia].
    destruct (Enhanced.parser_parse_expression f p1) as [[e p2]|] eqn:Ee; [|discriminate].
    apply later_expression, later_pos in Ee. inversion Eb; subst.
    pose proof (later_pos _ _ (R_match later later_refl later_advance TOKEN_RPAREN p2)).
    lia.
  - (* semicolon *)
    destruct f as [|f']; [discriminate|].
    rewrite expression_stays in Eb by (rewrite E; reflexivity).
    inversion Eb; subst.
    eapply skip_terminators_consumes; eauto.
    unfold current_is. rewrite E. reflexivity.
  - (* newline *)
    destruct f as [|f']; [discriminate|].
    rewrite expression_stays in Eb by (rewrite E; reflexivity).
    inversion Eb; subst.
    eapply skip_terminators_consumes; eauto.
    unfold current_is. rewrite E. reflexivity.
Qed.

Lemma enhanced_statement_consumes_witness :
  p_pos (parser_create let_x_tokens) < p_pos (set_pos 4 (parser_create let_x_tokens)).
Proof.
  apply (enhanced_statement_consumes 5 (parser_create let_x_tokens)
           (Some (set_right (Some (leaf NODE_NUMBER "1"))
                    (set_value "x" (ast_create_node NODE_VAR_DECL))))).
  - reflexivity.
  - reflexivity.
  - vm_compute. reflexivity.
Defined.


Lemma starts_statement_split t :
  starts_statement t = false ->
  starts_primary t || is_binary_operator t = false
  /\ t <> TOKEN_NEWLINE /\ t <> TOKEN_SEMICOLON.
Proof. destruct t; simpl; intros H; try discriminate; repeat split; discriminate. Qed.

Lemma skip_terminators_stays p :
  current_is TOKEN_NEWLINE p = false -> current_is TOKEN_SEMICOLON p = false ->
  Enhanced.skip_terminators p = Some p.
Proof.
  intros H1 H2. unfold Enhanced.skip_terminators. cbn [while_opt].
  now rewrite H1, H2.
Qed.

Lemma statement_stays fuel p :
  starts_statement (tok_type (parser_current_token p)) = false ->
  Enhanced.parser_parse_statement (2 + fuel) p = Some (None, p).
Proof.
  intros H. destruct (starts_statement_split _ H) as (H1 & H2 & H3).
  assert (N1 : current_is TOKEN_NEWLINE p = false).
  { unfold current_is. destruct (TokenType_beq _ _) eqn:B; auto.
    apply TokenType_beq_eq in B. contradiction. }
  assert (N2 : current_is TOKEN_SEMICOLON p = false).
  { unfold current_is. destruct (TokenType_beq _ _) eqn:B; auto.
    apply TokenType_beq_eq in B. contradiction. }
  change (2 + fuel) with (S (S fuel)).
  cbn [Enhanced.parser_parse_statement].
  destruct (tok_type (parser_current_token p)) eqn:E; try discriminate;
    rewrite expression_stays by (now rewrite E);
    now rewrite skip_terminators_stays.
Qed.

Lemma statement_stuck fuel p :
  starts_statement (tok_type (parser_current_token p)) = false ->
  Enhanced.parser_parse_statement fuel p = None
  \/ Enhanced.parser_parse_statement fuel p = Some (None, p).
Proof.
  intros Hs. destruct fuel as [|[|f]].
  - left. reflexivity.
  - left. cbn [Enhanced.parser_parse_statement].
    destruct (tok_type (parser_current_token p)); try discriminate; reflexivity.
  - right. now apply (statement_stays f p).
Qed.

Lemma program_loop_hangs p :
  current_is TOKEN_EOF p = false ->
  starts_statement (tok_type (parser_current_token p)) = false ->
  forall fuel program, Enhanced.program_loop fuel p program = None.
Proof.
  intros He Hs. destruct (starts_statement_split _ Hs) as (_ & H2 & _).
  assert (N1 : current_is TOKEN_NEWLINE p = false).
  { unfold current_is. destruct (TokenType_beq _ _) eqn:B; auto.
    apply TokenType_beq_eq in B. contradiction. }
  induction fuel as [|f IH]; intros program; [reflexivity|].
  cbn [Enhanced.program_loop]. rewrite He, N1. cbn [negb].
  destruct (statement_stuck f p Hs) as [E|E]; rewrite E; [reflexivity|].
  cbn [add_child]. apply IH.
Qed.

Lemma block_loop_hangs p :
  Enhanced.block_continues p = true ->
  starts_statement (tok_type (parser_current_token p)) = false ->
  forall fuel block, Enhanced.block_loop fuel p block = None.
Proof.
  intros He Hs. destruct (starts_statement_split _ Hs) as (_ & H2 & _).
  assert (N1 : current_is TOKEN_NEWLINE p = false).
  { unfold current_is. destruct (TokenType_beq _ _) eqn:B; auto.
    apply TokenType_beq_eq in B. contradiction. }
  induction fuel as [|f IH]; intros block; [reflexivity|].
  cbn [Enhanced.block_loop]. rewrite He, N1.
  destruct (statement_stuck f p Hs) as [E|E]; rewrite E; [reflexivity|].
  cbn [add_child]. apply IH.
Qed.

(** X12: at a token that starts no
    statement (else, an assignment sign, a closing parenthesis, a brace, a
    comma, ...), [parser_parse_statement] of the enhanced compiler returns
    null and leaves the parser where it was.  The statement loops do not
    test for that: unless the token is the end of the input, [parser_parse]
    does not return, and unless it is the end of the input or a closing
    brace, the loop of [parser_parse_block] does not return. *)
Theorem enhanced_parser_hangs_at_stray_token (p : Parser) :
  starts_statement (tok_type (parser_current_token p)) = false ->
  (forall fuel, Enhanced.parser_parse_statement (2 + fuel) p = Some (None, p))
  /\ (current_is TOKEN_EOF p = false ->
      forall fuel, Enhanced.parser_parse fuel p = None)
  /\ (current_is TOKEN_EOF p = false -> current_is TOKEN_RBRACE p = false ->
      forall fuel block, Enhanced.block_loop fuel p block = None).
Proof.
  intros Hs. split; [|split].
  - intros fuel. now apply statement_stays.
  - intros He fuel. unfold Enhanced.parser_parse. now apply program_loop_hangs.
  - intros He Hb. apply block_loop_hangs; auto.
    unfold Enhanced.block_continues. now rewrite He, Hb.
Qed.

Lemma enhanced_parser_hangs_at_stray_token_witness :
  let p := parser_create [tk TOKEN_ELSE "else"; tk TOKEN_EOF EmptyString] in
  (forall fuel, Enhanced.parser_parse_statement (2 + fuel) p = Some (None, p))
  /\ (current_is TOKEN_EOF p = false ->
      forall fuel, Enhanced.parser_parse fuel p = None)
  /\ (current_is TOKEN_EOF p = false -> current_is TOKEN_RBRACE p = false ->
      forall fuel block, Enhanced.block_loop fuel p block = None).
Proof.
  apply (enhanced_parser_hangs_at_stray_token
           (parser_create [tk TOKEN_ELSE "else"; tk TOKEN_EOF EmptyString])).
  reflexivity.
Defined.

Lemma block_loop_result fuel : forall p block n p',
  Enhanced.block_loop fuel p block = Some (n, p') ->
  Enhanced.block_continues p' = false
  /\ type n = type block
  /\ (child_count block <= 50 -> child_count n <= 50).
Proof.
  induction fuel as [|f IH]; intros p block n p'; [discriminate|].
  cbn [Enhanced.block_loop].
  destruct (Enhanced.block_continues p) eqn:Ee.
  - destruct (current_is TOKEN_NEWLINE p).
    + apply IH.
    + destruct (Enhanced.parser_parse_statement f p) as [[s p1]|]; [|discriminate].
      intros H. apply IH in H. destruct H as (H1 & H2 & H3).
      rewrite add_child_type in H2. split; [|split]; auto.
      intros Hc. apply H3. now apply add_child_bound.
  - some_inv. auto.
Qed.

(** X13: [parser_parse_block] of the enhanced compiler
    returns a program node with at most 50 children, later statements of
    the block being dropped.  Called at a token that is not an opening
    brace it returns an empty block, consumes nothing, sets the error flag
    and prints one diagnostic with the position of that token. *)
Theorem enhanced_block_result (fuel : nat) (p : Parser) (b : ASTNode) (p' : Parser) :
  Enhanced.parser_parse_block fuel p = Some (b, p') ->
  type b = NODE_PROGRAM
  /\ child_count b <= 50
  /\ (current_is TOKEN_LBRACE p = false ->
      b = ast_create_node NODE_PROGRAM
      /\ p_pos p' = p_pos p
      /\ p_has_error p' = true
      /\ p_stderr p'
         = p_stderr p ++ [mkDiag "Expected '{'" (tok_line (parser_current_token p))
                                 (tok_column (parser_current_token p))]).
Proof.
  destruct fuel as [|f]; [discriminate|].
  cbn [Enhanced.parser_parse_block]. unfold parser_match.
  destruct (current_is TOKEN_LBRACE p) eqn:E.
  - destruct (Enhanced.block_loop f _ _) as [[n p2]|] eqn:El; [|discriminate].
    apply block_loop_result in El. destruct El as (_ & H2 & H3).
    some_inv. split; [exact H2|]. split; [|discriminate].
    apply H3. unfold child_count. simpl. lia.
  - some_inv. split; [reflexivity|]. split; [unfold child_count; simpl; lia|].
    intros _. repeat split.
Qed.

Lemma enhanced_block_result_witness :
  let p := parser_create let_x_tokens in
  let b := ast_create_node NODE_PROGRAM in
  let p' := parser_error "Expected '{'" 0 0 p in
  type b = NODE_PROGRAM
  /\ child_count b <= 50
  /\ (current_is TOKEN_LBRACE p = false ->
      b = ast_create_node NODE_PROGRAM
      /\ p_pos p' = p_pos p
      /\ p_has_error p' = true
      /\ p_stderr p'
         = p_stderr p ++ [mkDiag "Expected '{'" (tok_line (parser_current_token p))
                                 (tok_column (parser_current_token p))]).
Proof.
  apply (enhanced_block_result 5 (parser_create let_x_tokens)).
  vm_compute. reflexivity.
Defined.


(* ------------------------------------------------------------------ *)
(** ** The code generator of the enhanced compiler: expressions *)

Lemma spaced_app a b :
  a <> [] -> b <> [] -> spaced (a ++ b) = spaced a +++ " " +++ spaced b.
Proof.
  intros Ha Hb. induction a as [|x a IH]; [congruence|].
  destruct a as [|y a].
  - simpl. destruct b; [congruence|reflexivity].
  - change (spaced ((x :: y :: a) ++ b)) with (x +++ " " +++ spaced ((y :: a) ++ b)).
    rewrite IH by discriminate.
    change (spaced (x :: y :: a)) with (x +++ " " +++ spaced (y :: a)).
    now rewrite !append_assoc.
Qed.

Lemma in_order_not_nil n : is_expression n = true -> in_order n <> [].
Proof.
  destruct n as [t v l r cd tb eb cs pid sg wr ini sd].
  destruct t; simpl; try discriminate.
  intros _ H. apply app_eq_nil in H as [_ H]. discriminate.
Qed.

Lemma emitted_after n c :
  Enhanced.output (Enhanced.compiler_compile_node n c)
  = Enhanced.output c +++ emitted (Enhanced.to_rust c) (Enhanced.in_function c) n
  /\ Enhanced.to_rust (Enhanced.compiler_compile_node n c) = Enhanced.to_rust c
  /\ Enhanced.in_function (Enhanced.compiler_compile_node n c) = Enhanced.in_function c.
Proof.
  pose proof (compile_node_appends_all n) as H.
  destruct (H c) as (H1 & H2 & _).
  split; [|split]; auto.
  rewrite (appends_at_output (Enhanced.compiler_compile_node n) c) by apply H.
  reflexivity.
Qed.

Lemma expression_text k : forall n rust inf,
  node_size n <= k ->
  is_expression n = true ->
  emitted rust inf n = spaced (in_order n).
Proof.
  induction k as [|k IH]; intros n rust inf Hk He; [destruct n; simpl in Hk; lia|].
  destruct n as [t v l r cd tb eb cs pid sg wr ini sd].
  destruct t; try discriminate; try reflexivity.
  simpl in He.
  destruct l as [l|]; [|discriminate]. destruct r as [r|]; [|discriminate].
  apply andb_true_iff in He as [Hl Hr].
  assert (Sl : node_size l <= k) by (simpl in Hk; lia).
  assert (Sr : node_size r <= k) by (simpl in Hk; lia).
  unfold emitted. cbn [Enhanced.compiler_compile_node type left right value].
  destruct (emitted_after r
              (Enhanced.emit (" " +++ strcpy v +++ " ")
                 (Enhanced.compiler_compile_node l (blank rust inf)))) as (E1 & _).
  rewrite E1.
  destruct (emitted_after l (blank rust inf)) as (E2 & E3 & E4).
  cbn [Enhanced.emit Enhanced.output Enhanced.to_rust Enhanced.in_function].
  rewrite E2, E3, E4. cbn [blank Enhanced.output Enhanced.to_rust Enhanced.in_function].
  rewrite (IH l rust inf Sl Hl), (IH r rust inf Sr Hr).
  cbn [in_order type left right value].
  rewrite spaced_app; [|now apply in_order_not_nil|discriminate].
  change ([strcpy v] ++ in_order r) with (strcpy v :: in_order r).
  pose proof (in_order_not_nil r Hr) as Hn.
  destruct (in_order r) as [|x xs] eqn:Er; [congruence|].
  cbn [spaced]. now rewrite !append_assoc.
Qed.

(** X14: for an expression tree (literals,
    identifiers, calls, operator nodes with both operands) the code
    generator of the enhanced compiler writes the leaves and the operators
    from left to right, separated by single spaces, the same text for C and
    for Rust.  It writes no parentheses: two expression trees with the same
    leaves and operators in the same order give the same text, so the tree
    of [(a + b) * c] is written [a + b * c]. *)
Theorem expression_text_is_in_order (n : ASTNode) :
  is_expression n = true ->
  (forall rust inf, emitted rust inf n = spaced (in_order n))
  /\ (forall m rust rust' inf inf',
        is_expression m = true -> in_order m = in_order n ->
        emitted rust inf m = emitted rust' inf' n).
Proof.
  intros He. split.
  - intros. apply (expression_text (node_size n)); auto.
  - intros m rust rust' inf inf' Hm E.
    rewrite (expression_text (node_size n) n) by auto.
    rewrite (expression_text (node_size m) m) by auto.
    now rewrite E.
Qed.

Lemma expression_text_is_in_order_witness :
  (forall rust inf, emitted rust inf grouped_left = "a + b * c")
  /\ (forall m rust rust' inf inf',
        is_expression m = true -> in_order m = in_order grouped_left ->
        emitted rust inf m = emitted rust' inf' grouped_left).
Proof. apply (expression_text_is_in_order grouped_left). reflexivity. Defined.

(* ------------------------------------------------------------------ *)
(** ** The classifier of so_lang.c: where the search stops *)

(** X15: [detect_solana_program] walks
    the tree from the root through the [children] arrays and stops at the
    first node of a chain kind.  With no such node it returns false and
    leaves the statics as they were; otherwise it returns true and sets
    [detected_solana], and it records a program name only when the node it
    stopped at is a program declaration: a program declared after an
    instruction declaration is detected without its name. *)
Theorem detect_stops_at_first_chain_node (n : ASTNode) (g : Base.Detected) :
  Base.detect_solana_program (Some n) g
  = match first_chain_child n with
    | Some m => (true, detected_at m g)
    | None => (false, g)
    end.
Proof.
  cbn [Base.detect_solana_program].
  revert g.
  induction n as [t v l _ r _ c _ tb _ eb _ cs IH pid sg wr ini sd].
  intros g.
  cbn [Base.detect_solana_program_node first_chain_child type children value].
  rewrite is_chain_kind_code.
  destruct (NodeType_beq t NODE_PROGRAM_DECL) eqn:Ep.
  { cbn [orb]. unfold detected_at. cbn [type value]. now rewrite Ep. }
  destruct (Base.is_solana_node t) eqn:Es.
  { cbn [orb]. unfold detected_at. cbn [type value]. now rewrite Ep. }
  cbn [orb]. revert g.
  induction IH as [|c0 Hc0 cs0 _ IHcs]; intros g; [reflexivity|].
  rewrite (Hc0 g).
  destruct (first_chain_child c0); [reflexivity|]. apply IHcs.
Qed.

Example detect_misses_later_program_name :
  Base.detect_solana_program (Some instruction_then_program) (Base.mkDetected false None)
  = (true, Base.mkDetected true None).
Proof. reflexivity. Qed.

(* ------------------------------------------------------------------ *)
(** ** The driver of so_lang.c *)

Lemma parse_options_consistent n : forall args o,
  length args <= n -> flags_consistent o -> flags_consistent (Base.parse_options args o).
Proof.
  induction n as [|n IH]; intros args o Hn Ho.
  - destruct args; [exact Ho|simpl in Hn; lia].
  - destruct args as [|a rest]; [exact Ho|].
    simpl in Hn. cbn [Base.parse_options].
    destruct Ho as [H1 H2].
    repeat match goal with
           | |- context [if streq a ?s then _ else _] => destruct (streq a s)
           end;
      try (apply IH; [lia|split; simpl; auto]).
    + destruct rest as [|f rest']; [split; auto|].
      apply IH; [simpl in Hn; lia|split; simpl; auto].
Qed.

(** X16: whatever the arguments after the
    input file, in whatever order and with whatever unknown words among
    them, the flags [main] ends up with satisfy what its usage text says:
    the Anchor framework is selected only together with Solana, and Solana
    only together with Rust. *)
Theorem parse_options_implications (flags : list string) :
  let o := Base.parse_options flags (Base.mkOptions false false false None) in
  (Base.use_anchor o = true -> Base.force_solana o = true)
  /\ (Base.force_solana o = true -> Base.to_rust o = true).
Proof.
  apply (parse_options_consistent (length flags)); [lia|].
  split; simpl; intros; discriminate.
Qed.

(** X17: [main] returns 0 or 1.  It returns
    0 exactly when it has written the output file, and the code generator
    is the last stage it calls, and only then.  The file written holds what
    the code generator gives for the parsed tree; a program taken for a
    Solana program is always generated as Rust, and without [--output] the
    file is lib.rs or program.rs for a Solana program, output.rs or
    output.c otherwise. *)
Theorem main_writes_exactly_on_success
  (read_file : string -> option string) (fopen_w : string -> bool)
  (parser_parse : Parser -> option (ASTNode * Parser))
  (compiler_compile : bool -> bool -> bool -> ASTNode -> string)
  (argv : list string) (run : Base.Run) :
  Base.main read_file fopen_w parser_parse compiler_compile argv = Some run ->
  (Base.exit_code run = 1 /\ Base.written run = None
   /\ ~ In Base.CallCompile (Base.calls run))
  \/ (Base.exit_code run = 0
      /\ last (Base.calls run) Base.CallReadFile = Base.CallCompile
      /\ exists file ast rust solana,
           Base.written run
           = Some (file,
                   compiler_compile rust solana
                     (Base.use_anchor
                        (Base.parse_options (skipn 2 argv)
                           (Base.mkOptions false false false None)))
                     ast)
           /\ fopen_w file = true
           /\ (solana = true -> rust = true)
           /\ (Base.output_file
                 (Base.parse_options (skipn 2 argv)
                    (Base.mkOptions false false false None)) = None ->
               file = if solana
                      then (if Base.use_anchor
                                 (Base.parse_options (skipn 2 argv)
                                    (Base.mkOptions false false false None))
                            then "lib.rs" else "program.rs")
                      else if rust then "output.rs" else "output.c")).
Proof.
  unfold Base.main.
  destruct argv as [|a0 [|input flags]];
    try (intros H; inversion H; subst; left; simpl; tauto).
  cbn [skipn].
  set (o := Base.parse_options flags (Base.mkOptions false false false None)).
  destruct (read_file input) as [src|];
    [|intros H; inversion H; subst; left; simpl; intuition discriminate].
  destruct (has_error _);
    [intros H; inversion H; subst; left; simpl; intuition discriminate|].
  destruct (parser_parse _) as [[ast p]|]; [|discriminate].
  destruct (p_has_error p);
    [intros H; inversion H; subst; left; simpl; intuition discriminate|].
  set (sol := Base.force_solana o
              || fst (Base.detect_solana_program (Some ast) (Base.mkDetected false None))).
  destruct (fopen_w _) eqn:Ef.
  - intros H; inversion H; subst. right. cbn [Base.exit_code Base.calls Base.written].
    split; [reflexivity|]. split.
    { destruct (Base.force_solana o); reflexivity. }
    eexists _, ast, (if sol then true else Base.to_rust o), sol.
    split; [reflexivity|]. split; [exact Ef|]. split.
    + intros ->. reflexivity.
    + intros Ho. rewrite Ho. unfold Base.default_output. reflexivity.
  - intros H; inversion H; subst. left. simpl.
    split; [reflexivity|]. split; [reflexivity|].
    destruct (Base.force_solana o); simpl; intuition discriminate.
Qed.

Lemma main_writes_exactly_on_success_witness :
  let run :=
    Base.mkRun 0 [Base.CallReadFile; Base.CallLexerTokenize; Base.CallParserParse;
                  Base.CallDetect; Base.CallCompile]
               (Some ("output.c", "text")) in
  (Base.exit_code run = 1 /\ Base.written run = None
   /\ ~ In Base.CallCompile (Base.calls run))
  \/ (Base.exit_code run = 0
      /\ last (Base.calls run) Base.CallReadFile = Base.CallCompile
      /\ exists (file : string) (ast : ASTNode) (rust solana : bool),
           Base.written run = Some (file, "text")
           /\ true = true
           /\ (solana = true -> rust = true)
           /\ (@None string = None ->
               file = if solana
                      then "program.rs"
                      else if rust then "output.rs" else "output.c")).
Proof.
  apply (main_writes_exactly_on_success
           (fun _ => Some "let x = 1") (fun _ => true)
           (fun p => Some (ast_create_node NODE_PROGRAM, p))
           (fun _ _ _ _ => "text") ["solang"; "a.so"]).
  vm_compute. reflexivity.
Defined.

(* ------------------------------------------------------------------ *)
(** ** The Solana code generator: what it keeps, and the order of declarations *)

Section SolanaRelation.

Import Solana.

(** A relation between compiler states that [fprintf] and the increment of
    the instruction counter establish, and that is reflexive and
    transitive, holds between the state [solana_compiler_compile] is called
    in and the state it returns. *)
Variable R : SolanaCompiler -> SolanaCompiler -> Prop.
Hypothesis R_refl : forall c, R c c.
Hypothesis R_trans : forall a b c, R a b -> R b c -> R a c.
Hypothesis R_emit : forall t c, R c (emit t c).
Hypothesis R_count : forall c, R c (count_instruction c).

Lemma R_fold {A : Type} (F : A -> SolanaCompiler -> SolanaCompiler) (l : list A) :
  (forall n, In n l -> forall c, R c (F n c)) ->
  forall c, R c (fold_left (fun c n => F n c) l c).
Proof.
  induction l as [|n l IH]; intros H c; simpl; [apply R_refl|].
  eapply R_trans; [apply H; now left|].
  apply IH. intros m Hm. apply H. now right.
Qed.

Ltac rel :=
  repeat first
    [ apply R_refl
    | match goal with
      | |- R ?c (emit _ ?x) =>
          apply (R_trans c x); [|apply R_emit]
      | |- R ?c (count_instruction ?x) =>
          apply (R_trans c x); [|apply R_count]
      | |- R _ (if ?b then _ else _) => destruct b
      | |- R _ (match ?o with Some _ => _ | None => _ end) => destruct o
      end ].

Lemma R_account a c : R c (emit_account a c).
Proof. unfold emit_account. rel. Qed.

Lemma R_declare_id i id c : R c (declare_id i id c).
Proof. unfold declare_id. rel. Qed.

Lemma R_compile g n : forall c, R c (solana_compiler_compile g n c).
Proof.
  induction n as [t v l IHl r _ cd IHcd tb _ eb _ cs IHcs st ct an iname pid sg wr ini sd bp].
  intros c.
  destruct t; cbn [solana_compiler_compile type left condition children];
    try (rel; fail).
  - (* program declaration *)
    assert (H : R c (fold_left (fun c n => solana_compiler_compile g n c) cs
                 (emit_program_structure
                    (mkSolanaAST NODE_PROGRAM_DECL v l r cd tb eb cs st ct an iname pid
                                 sg wr ini sd bp)
                    (if use_anchor c then emit_anchor_imports c
                     else emit_native_solana_imports c)))).
    { eapply R_trans; [|apply (R_fold (solana_compiler_compile g))].
      - unfold emit_program_structure, emit_anchor_imports, emit_native_solana_imports.
        cbn [value program_id].
        destruct (use_anchor c) eqn:E; cbn [use_anchor emit]; rewrite ?E.
        + eapply R_trans; [|apply R_declare_id]. rel.
        + rel. eapply R_trans; [|apply R_declare_id]. rel.
      - intros n Hn. apply (list_all_in _ _ IHcs n Hn). }
    rel; exact H.
  - (* instruction declaration *)
    unfold emit_instruction_handler_with, compile_opt. cbn [left instruction_name].
    destruct IHl as [b Hb|]; rel;
      try (eapply R_trans; [|apply Hb]; rel).
  - (* account declaration *)
    unfold emit_account_validation. cbn [children instruction_name]. rel.
    eapply R_trans; [|apply (R_fold emit_account)].
    + rel.
    + intros; apply R_account.
  - (* state declaration *)
    unfold emit_state_structure. cbn [children value]. rel.
    eapply R_trans;
      [|apply (R_fold (fun field c => emit ("    pub " +++ strcpy (value field) +++ ": "
            +++ field_type_name (solana_type field) +++ ",
") c))].
    + rel.
    + intros; apply R_emit.
  - (* require *)
    unfold compile_opt. destruct IHcd as [b Hb|]; rel;
      try (eapply R_trans; [|apply Hb]; rel).
Qed.

End SolanaRelation.

Lemma bookkeeping_refl c : bookkeeping c c.
Proof. repeat split; auto. Qed.

Lemma bookkeeping_trans a b c : bookkeeping a b -> bookkeeping b c -> bookkeeping a c.
Proof.
  intros (A1 & A2 & A3 & A4 & A5 & A6 & A7) (B1 & B2 & B3 & B4 & B5 & B6 & B7).
  repeat split; try congruence. lia.
Qed.

(** X18: whatever tree it compiles,
    [solana_compiler_compile] only appends to the output, keeps the target
    ([use_anchor], [native_solana]), never writes [program_name],
    [program_id], [account_count] or [state_count], and never decreases
    [instruction_count]: the account and state counters stay where
    [solana_compiler_create] put them, at 0, however many accounts and
    state structures are emitted. *)
Theorem solana_compiler_keeps_bookkeeping
  (g : Solana.SolanaCompiler -> Solana.SolanaASTNode -> string)
  (n : Solana.SolanaASTNode) (c : Solana.SolanaCompiler) :
  bookkeeping c (Solana.solana_compiler_compile g n c)
  /\ extends c (Solana.solana_compiler_compile g n c).
Proof.
  split; [|apply compile_extends].
  apply (R_compile bookkeeping bookkeeping_refl bookkeeping_trans).
  - intros t c0. repeat split; simpl; auto.
  - intros c0. repeat split; simpl; auto.
Qed.

Lemma solana_fold_output {A : Type} (text : A -> string) (F : A -> Solana.SolanaCompiler -> Solana.SolanaCompiler) :
  (forall a c, Solana.output (F a c) = Solana.output c +++ text a) ->
  forall l c,
    Solana.output (fold_left (fun c a => F a c) l c)
    = Solana.output c +++ concat_text (map text l).
Proof.
  intros H l; induction l as [|a l IH]; intros c; simpl.
  - now rewrite append_nil_r.
  - now rewrite IH, H, append_assoc.
Qed.

Lemma emit_account_output a c :
  Solana.output (Solana.emit_account a c) = Solana.output c +++ account_text a.
Proof.
  unfold account_text, Solana.emit_account.
  destruct (Solana.is_signer a), (Solana.is_writable a), (Solana.is_init a);
    cbn [Solana.emit Solana.output String.append];
    now rewrite ?append_assoc.
Qed.

(** X19: for the Anchor target
    [emit_account_validation] writes the context structure of an
    instruction with one field per account, in the order of the
    declaration, each with its constraints in the fixed order signer, mut,
    init; for the raw target it writes nothing at all.
    [emit_state_structure] writes one line per field, in the order of the
    declaration, for both targets. *)
Theorem solana_declarations_keep_order
  (accounts state : Solana.SolanaASTNode) (c : Solana.SolanaCompiler) :
  (Solana.use_anchor c = true ->
   Solana.output (Solana.emit_account_validation accounts c)
   = Solana.output c
     +++ "#[derive(Accounts)]
pub struct " +++ Solana.show_str (Solana.instruction_name accounts) +++ "Context<'info> {
"
     +++ concat_text (map account_text (Solana.children accounts))
     +++ "}

")
  /\ (Solana.use_anchor c = false -> Solana.emit_account_validation accounts c = c)
  /\ Solana.output (Solana.emit_state_structure state c)
     = Solana.output c
       +++ (if Solana.use_anchor c then "#[account]
" else EmptyString)
       +++ "#[derive(Clone, Debug, PartialEq)]
pub struct " +++ strcpy (Solana.value state) +++ " {
"
       +++ concat_text (map field_text (Solana.children state))
       +++ "}

".
Proof.
  split; [|split].
  - intros Ha. unfold Solana.emit_account_validation. rewrite Ha.
    cbn [Solana.emit Solana.output].
    rewrite (solana_fold_output account_text Solana.emit_account emit_account_output).
    cbn [Solana.emit Solana.output]. now rewrite !append_assoc.
  - intros Ha. unfold Solana.emit_account_validation. now rewrite Ha.
  - unfold Solana.emit_state_structure.
    cbn [Solana.emit Solana.output].
    rewrite (solana_fold_output field_text
               (fun field c => Solana.emit ("    pub " +++ strcpy (Solana.value field) +++ ": "
                  +++ Solana.field_type_name (Solana.solana_type field) +++ ",
") c)) by reflexivity.
    destruct (Solana.use_anchor c); cbn [Solana.emit Solana.output];
      now rewrite !append_assoc.
Qed.

(* ------------------------------------------------------------------ *)
(** ** Validation of a program id (so_lang.c) *)

Lemma strchr_base58 c : Base.strchr Base.valid_chars c = base58_char c || is_nul c.
Proof. by_cases_on c. Qed.

Lemma strcpy_c_string s : strlen (strcpy s) = String.length (strcpy s).
Proof. apply strncpy_is_c_string. Qed.

Lemma first_invalid_none s :
  strlen s = String.length s ->
  (Base.first_invalid s = None <-> all_chars base58_char s = true).
Proof.
  unfold all_chars.
  induction s as [|c r IH];
    cbn [Base.first_invalid forallb list_ascii_of_string strlen String.length];
    [tauto|].
  destruct (is_nul c) eqn:En; [discriminate|].
  intros H. rewrite strchr_base58, En, orb_false_r.
  destruct (base58_char c); cbn [andb].
  - apply IH. lia.
  - split; discriminate.
Qed.

Lemma first_invalid_some s c :
  strlen s = String.length s ->
  Base.first_invalid s = Some c ->
  base58_char c = false
  /\ exists pre rest, s = pre +++ String c rest /\ all_chars base58_char pre = true.
Proof.
  unfold all_chars.
  induction s as [|a r IH];
    cbn [Base.first_invalid forallb list_ascii_of_string strlen String.length];
    [discriminate|].
  destruct (is_nul a) eqn:En; [discriminate|].
  intros H. rewrite strchr_base58, En, orb_false_r.
  destruct (base58_char a) eqn:Ea.
  - intros E. destruct (IH ltac:(lia) E) as (Hc & pre & rest & Hs & Hp).
    split; auto. exists (String a pre), rest.
    cbn [String.append forallb list_ascii_of_string]. rewrite Hs, Ea, Hp. auto.
  - intros E. inversion E; subst. split; auto.
    exists EmptyString, r. auto.
Qed.

(** X20: [validate_program_id] prints
    that the validation passed exactly for ids of 32 to 44 characters that
    are all letters or digits other than 0, O, I and l.  When it warns of
    an invalid character, that character is the first one of the id that is
    not of this alphabet; when it warns of the length, the length it prints
    is that of the id and lies outside 32..44. *)
Theorem validate_program_id_accepts_base58 (id : string) :
  (Base.validate_program_id (Some id) = Base.ValidationPassed (strcpy id)
   <-> 32 <= strlen id <= 44 /\ all_chars base58_char (strcpy id) = true)
  /\ (forall c, Base.validate_program_id (Some id) = Base.InvalidCharacter c ->
        base58_char c = false
        /\ exists pre rest,
             strcpy id = pre +++ String c rest /\ all_chars base58_char pre = true)
  /\ (forall n, Base.validate_program_id (Some id) = Base.InvalidLength n ->
        n = strlen id /\ (n < 32 \/ 44 < n)).
Proof.
  unfold Base.validate_program_id.
  pose proof (strcpy_c_string id) as Hc.
  destruct (strlen id <? 32) eqn:E1; [|destruct (44 <? strlen id) eqn:E2]; cbn [orb].
  - apply Nat.ltb_lt in E1. split; [|split].
    + split; [discriminate|]. intros [H _]. lia.
    + discriminate.
    + intros n H. inversion H. lia.
  - apply Nat.ltb_lt in E2. split; [|split].
    + split; [discriminate|]. intros [H _]. lia.
    + discriminate.
    + intros n H. inversion H. lia.
  - apply Nat.ltb_ge in E1. apply Nat.ltb_ge in E2.
    destruct (Base.first_invalid (strcpy id)) as [c|] eqn:F.
    + destruct (first_invalid_some _ _ Hc F) as (Hb & pre & rest & Hs & Hp).
      split; [|split].
      * split; [discriminate|]. intros [_ H].
        apply (first_invalid_none _ Hc) in H. congruence.
      * intros c' H. inversion H; subst. eauto.
      * discriminate.
    + split; [|split].
      * split; [|reflexivity]. intros _. split; [lia|].
        now apply (first_invalid_none _ Hc).
      * discriminate.
      * discriminate.
Qed.

(* ------------------------------------------------------------------ *)
(** ** The enhanced compiler, from the source text to the generated program *)

Lemma enhanced_scan_enough f1 : forall f2 l,
  remaining l <= f1 -> remaining l <= f2 ->
  Enhanced.lexer_scan f1 l = Enhanced.lexer_scan f2 l.
Proof.
  induction f1 as [|f1 IH]; intros f2 l H1 H2.
  - destruct f2; [reflexivity|]. simpl.
    rewrite (nul_at_end l) by lia. reflexivity.
  - destruct f2 as [|f2]; simpl.
    + rewrite (nul_at_end l) by lia. reflexivity.
    + destruct (is_nul (lexer_current_char l)) eqn:En; cbn [negb]; [reflexivity|].
      destruct (Enhanced.lexer_step l) as [l1|] eqn:E; [|reflexivity].
      pose proof (not_nul_remaining l En).
      pose proof (scanned_to_remaining l l1 H (enhanced_step_progress l l1 En E)).
      apply IH; lia.
Qed.

Lemma enhanced_scan_step l l1 :
  is_nul (lexer_current_char l) = false ->
  Enhanced.lexer_step l = Some l1 ->
  Enhanced.lexer_scan (remaining l) l = Enhanced.lexer_scan (remaining l1) l1.
Proof.
  intros En E.
  pose proof (not_nul_remaining l En).
  pose proof (scanned_to_remaining l l1 H (enhanced_step_progress l l1 En E)).
  destruct (remaining l) as [|k] eqn:Er; [lia|].
  simpl. rewrite En, E. cbn [negb].
  apply enhanced_scan_enough; lia.
Qed.

Lemma enhanced_scan_stop l :
  is_nul (lexer_current_char l) = true ->
  Enhanced.lexer_scan (remaining l) l = Some l.
Proof.
  intros H. destruct (remaining l); simpl; auto. now rewrite H.
Qed.


Lemma number_loop run : forall pre rest l buf h fuel,
  lexeme_at pre run rest l ->
  decimal_run h run = true ->
  (isdigit (char_at rest 0)
   || (Ascii.eqb (char_at rest 0) "."%char && negb (dot_seen h run))) = false ->
  String.length run <= fuel ->
  while_fuel fuel Enhanced.number_cond Enhanced.number_step (l, buf, h)
  = (advance_n (String.length run) l, copy_into buf run, dot_seen h run).
Proof.
  unfold advance_n.
  induction run as [|c r IH]; intros pre rest l buf h fuel Hl Hr Hrest Hf.
  - simpl. destruct fuel; simpl; auto.
    rewrite (lexeme_end_char pre rest l Hl). simpl in Hrest. now rewrite Hrest.
  - simpl in Hr. apply andb_true_iff in Hr as [Hc Hr].
    assert (Hnul : is_nul c = false).
    { destruct (is_nul c) eqn:E; auto. apply is_nul_true in E. subst. discriminate. }
    destruct fuel as [|fuel]; [simpl in Hf; lia|].
    cbn [while_fuel Enhanced.number_cond Enhanced.number_step].
    rewrite (lexeme_current pre c r rest l Hl Hnul), Hc.
    cbn [String.length steps copy_into dot_seen].
    apply (IH (pre +++ String c EmptyString) rest); auto.
    + now apply lexeme_next.
    + simpl in Hf; lia.
Qed.

Lemma decimal_run_c_string h s : decimal_run h s = true -> strlen s = String.length s.
Proof.
  revert h; induction s as [|c r IH]; intros h; simpl; auto.
  intros H. apply andb_true_iff in H as [Hc Hr].
  destruct (is_nul c) eqn:E.
  - apply is_nul_true in E. subst. discriminate.
  - f_equal. eauto.
Qed.

Lemma decimal_run_remaining pre run rest l h :
  lexeme_at pre run rest l -> decimal_run h run = true ->
  String.length run <= remaining l.
Proof.
  intros (Hs & Hp & Hn) Hr. unfold remaining.
  rewrite Hs, Hp, strlen_app by auto.
  assert (String.length run <= strlen (run +++ rest)).
  { rewrite strlen_app by (eapply decimal_run_c_string; eauto). lia. }
  lia.
Qed.

Lemma enhanced_read_number_at pre number rest l :
  lexeme_at pre number rest l ->
  decimal_run false number = true ->
  (isdigit (char_at rest 0)
   || (Ascii.eqb (char_at rest 0) "."%char && negb (dot_seen false number))) = false ->
  Enhanced.lexer_read_number l
  = lexer_add_token TOKEN_NUMBER
      (first_chars (MAX_TOKEN_LEN - 1) number) (advance_n (String.length number) l).
Proof.
  intros Hl Hn Hr. unfold Enhanced.lexer_read_number.
  rewrite (number_loop number pre rest l EmptyString false); auto.
  - rewrite copy_into_first by (simpl; unfold MAX_TOKEN_LEN; lia). reflexivity.
  - eapply decimal_run_remaining; eauto.
Qed.

Lemma enhanced_read_identifier_at pre name rest l :
  lexeme_at pre name rest l ->
  all_chars ident_char name = true ->
  ident_char (char_at rest 0) = false ->
  Enhanced.lexer_read_identifier l
  = lexer_add_token (Enhanced.keyword (first_chars (MAX_TOKEN_LEN - 1) name))
      (first_chars (MAX_TOKEN_LEN - 1) name) (advance_n (String.length name) l).
Proof.
  intros Hl Hn Hr. unfold Enhanced.lexer_read_identifier.
  now rewrite (copy_loop_lexeme ident_char pre name rest).
Qed.

Lemma class_letter_slash c :
  isalpha c || Ascii.eqb c "_"%char = true -> Ascii.eqb c "/"%char = false.
Proof. by_cases_on c. Qed.

Lemma class_digit_slash c : isdigit c = true -> Ascii.eqb c "/"%char = false.
Proof. by_cases_on c. Qed.

Lemma class_digit_dot c : isdigit c = true -> Ascii.eqb c "."%char = false.
Proof. by_cases_on c. Qed.

Lemma enhanced_step_identifier pre name rest L l :
  scanned pre (name +++ rest) L l ->
  identifier_shape name = true ->
  ident_char (char_at rest 0) = false ->
  length L < MAX_TOKENS ->
  exists l',
    Enhanced.lexer_step l = Some l'
    /\ is_nul (lexer_current_char l) = false
    /\ scanned (pre +++ name) rest
         (L ++ [(Enhanced.keyword (first_chars (MAX_TOKEN_LEN - 1) name),
                 first_chars (MAX_TOKEN_LEN - 1) name)]) l'.
Proof.
  intros (Hl & HL & He) Hn Hr Hc.
  destruct name as [|c name]; [discriminate|].
  simpl in Hn. apply andb_true_iff in Hn as [Hc1 Hn].
  destruct (class_letter c Hc1) as (C1 & C2 & C3 & C4).
  pose proof (class_letter_slash c Hc1) as C5.
  assert (Hnul : is_nul c = false) by (eapply (cond_not_nul ident_char); eauto).
  assert (Hall : all_chars ident_char (String c name) = true).
  { unfold all_chars in *. simpl. now rewrite C4. }
  assert (Hcs : strlen (String c name) = String.length (String c name)).
  { eapply (all_chars_c_string ident_char); eauto. }
  apply lexeme_split in Hl.
  assert (Hcur : lexer_current_char l = c) by (eapply lexeme_current; eauto).
  eexists. split; [|split; [now rewrite Hcur|]].
  - unfold Enhanced.lexer_step. rewrite Hcur, C1, C2, C3, C5, Hc1. cbn [andb].
    reflexivity.
  - rewrite (enhanced_read_identifier_at pre (String c name) rest) by auto.
    destruct (advance_n_facts (String.length (String c name)) l) as (_ & _ & E3 & E4 & _).
    destruct (add_token_lexemes
                (Enhanced.keyword (first_chars (MAX_TOKEN_LEN - 1) (String c name)))
                (first_chars (MAX_TOKEN_LEN - 1) (String c name))
                (advance_n (String.length (String c name)) l) L) as [T1 T2];
      auto; try congruence.
    rewrite strncpy_first_chars in T1 by auto.
    split; [|split]; auto.
    apply lexeme_add_token, lexeme_after; auto.
Qed.

Lemma enhanced_step_number pre number rest L l :
  scanned pre (number +++ rest) L l ->
  decimal_shape number = true ->
  (isdigit (char_at rest 0)
   || (Ascii.eqb (char_at rest 0) "."%char && negb (dot_seen false number))) = false ->
  length L < MAX_TOKENS ->
  exists l',
    Enhanced.lexer_step l = Some l'
    /\ is_nul (lexer_current_char l) = false
    /\ scanned (pre +++ number) rest
         (L ++ [(TOKEN_NUMBER, first_chars (MAX_TOKEN_LEN - 1) number)]) l'.
Proof.
  intros (Hl & HL & He) Hn Hr Hc.
  destruct number as [|c number]; [discriminate|].
  simpl in Hn. apply andb_true_iff in Hn as [Hc1 Hn].
  destruct (class_digit c Hc1) as (C1 & C2 & C3 & C4 & C5).
  pose proof (class_digit_slash c Hc1) as C6.
  pose proof (class_digit_dot c Hc1) as Hdot.
  assert (Hrun : decimal_run false (String c number) = true).
  { simpl. now rewrite Hc1, Hdot. }
  assert (Hcs : strlen (String c number) = String.length (String c number)).
  { eapply decimal_run_c_string; eauto. }
  assert (Hnul : is_nul c = false).
  { simpl in Hcs. destruct (is_nul c); [discriminate|reflexivity]. }
  apply lexeme_split in Hl.
  assert (Hcur : lexer_current_char l = c) by (eapply lexeme_current; eauto).
  eexists. split; [|split; [now rewrite Hcur|]].
  - unfold Enhanced.lexer_step. rewrite Hcur, C1, C2, C3, C4, C6, Hc1. cbn [andb].
    reflexivity.
  - rewrite (enhanced_read_number_at pre (String c number) rest) by auto.
    destruct (advance_n_facts (String.length (String c number)) l) as (_ & _ & E3 & E4 & _).
    destruct (add_token_lexemes TOKEN_NUMBER
                (first_chars (MAX_TOKEN_LEN - 1) (String c number))
                (advance_n (String.length (String c number)) l) L) as [T1 T2];
      auto; try congruence.
    rewrite strncpy_first_chars in T1 by auto.
    split; [|split]; auto.
    apply lexeme_add_token, lexeme_after; auto.
Qed.

Lemma enhanced_step_blanks pre run rest L l :
  scanned pre (run +++ rest) L l ->
  run <> EmptyString ->
  all_chars blank_char run = true ->
  blank_char (char_at rest 0) = false ->
  exists l',
    Enhanced.lexer_step l = Some l'
    /\ is_nul (lexer_current_char l) = false
    /\ scanned (pre +++ run) rest L l'.
Proof.
  intros (Hl & HL & He) Hne Hn Hr.
  destruct run as [|c run]; [congruence|].
  assert (Hcs : strlen (String c run) = String.length (String c run)).
  { eapply (all_chars_c_string blank_char); eauto. }
  pose proof Hn as Hn'. unfold all_chars in Hn'. simpl in Hn'.
  apply andb_true_iff in Hn' as [Hc1 _].
  assert (Hnul : is_nul c = false) by (eapply (cond_not_nul blank_char); eauto).
  apply lexeme_split in Hl.
  assert (Hcur : lexer_current_char l = c) by (eapply lexeme_current; eauto).
  eexists. split; [|split; [now rewrite Hcur|]].
  - unfold Enhanced.lexer_step. rewrite Hcur. fold (blank_char c). rewrite Hc1.
    reflexivity.
  - unfold lexer_skip_whitespace.
    assert (Loop : while_fuel (remaining l)
                     (fun l0 => isspace (lexer_current_char l0)
                                && negb (Ascii.eqb (lexer_current_char l0) LF))
                     lexer_advance l
                   = steps lexer_advance (String.length (String c run)) l).
    { apply (run_loop _ (fun l => l) lexer_advance blank_char (fun s => eq_refl) eq_refl
               (String c run) pre rest); auto.
      apply (lexeme_remaining pre (String c run) rest l blank_char); auto. }
    rewrite Loop. fold (advance_n (String.length (String c run)) l).
    destruct (advance_n_facts (String.length (String c run)) l) as (_ & _ & E3 & E4 & _).
    split; [|split]; try congruence.
    apply lexeme_after; auto.
Qed.

Lemma enhanced_step_assign pre rest L l :
  scanned pre ("=" +++ rest) L l ->
  Ascii.eqb (char_at rest 0) "="%char = false ->
  length L < MAX_TOKENS ->
  exists l',
    Enhanced.lexer_step l = Some l'
    /\ is_nul (lexer_current_char l) = false
    /\ scanned (pre +++ "=") rest (L ++ [(TOKEN_ASSIGN, "=")]) l'.
Proof.
  intros (Hl & HL & He) Hr Hc.
  apply lexeme_split in Hl.
  assert (Hcur : lexer_current_char l = "="%char) by (eapply lexeme_current; eauto).
  assert (Hnext : char_at (source l) (pos l + 1) = char_at rest 0).
  { destruct Hl as (Hs & Hp & _). rewrite Hs, Hp.
    replace (pre +++ "=" +++ rest) with ((pre +++ "=") +++ rest)
      by apply append_assoc.
    replace (String.length pre + 1) with (String.length (pre +++ "=") + 0)
      by (rewrite length_append; simpl; lia).
    apply char_at_app. }
  destruct (add_token_lexemes TOKEN_ASSIGN "=" l L) as [T1 T2]; auto.
  eexists. split; [|split; [now rewrite Hcur|]].
  - unfold Enhanced.lexer_step. rewrite Hcur.
    change (isspace "=") with false. change (isalpha "=") with false.
    change (isdigit "=") with false. cbn [andb orb Ascii.eqb Bool.eqb].
    unfold Enhanced.lexer_punctuation. cbn [Ascii.eqb Bool.eqb].
    rewrite Hnext, Hr. reflexivity.
  - split; [|split].
    + apply (lexeme_after pre "=" rest (lexer_add_token TOKEN_ASSIGN "=" l)); auto.
      now apply lexeme_add_token.
    + now rewrite advance_tokens.
    + now rewrite advance_has_error.
Qed.

Lemma enhanced_scan_finished pre L l :
  scanned pre EmptyString L l ->
  length L < MAX_TOKENS ->
  exists l',
    Enhanced.lexer_tokenize l = Some l'
    /\ lexemes (tokens l') = L ++ [(TOKEN_EOF, EmptyString)]
    /\ has_error l' = false.
Proof.
  intros (Hl & HL & He) Hc. unfold Enhanced.lexer_tokenize.
  rewrite enhanced_scan_stop.
  - eexists. split; [reflexivity|].
    apply (add_token_lexemes TOKEN_EOF EmptyString l L); auto.
  - now rewrite (lexeme_end_char pre EmptyString l Hl).
Qed.

Lemma decimal_first number :
  decimal_shape number = true -> exists c r, number = String c r /\ isdigit c = true.
Proof.
  destruct number as [|c r]; [discriminate|]. simpl. intros H.
  apply andb_true_iff in H as [H _]. eauto.
Qed.

Lemma enhanced_tokenize_scan l l1 :
  Enhanced.lexer_scan (remaining l) l = Enhanced.lexer_scan (remaining l1) l1 ->
  Enhanced.lexer_tokenize l = Enhanced.lexer_tokenize l1.
Proof. unfold Enhanced.lexer_tokenize. now intros ->. Qed.

(** The tokens of [let name = number]. *)
Lemma enhanced_lexer_let_statement (name number : string) :
  identifier_shape name = true ->
  Enhanced.keyword name = TOKEN_IDENTIFIER ->
  decimal_shape number = true ->
  String.length name <= MAX_TOKEN_LEN - 1 ->
  String.length number <= MAX_TOKEN_LEN - 1 ->
  exists l,
    Enhanced.lexer_tokenize (lexer_create ("let " +++ name +++ " = " +++ number)) = Some l
    /\ lexemes (tokens l)
       = [(TOKEN_LET, "let"); (TOKEN_IDENTIFIER, name); (TOKEN_ASSIGN, "=");
          (TOKEN_NUMBER, number); (TOKEN_EOF, EmptyString)]
    /\ has_error l = false.
Proof.
  intros Hn Hk Hd Ln Ld.
  destruct (identifier_first name Hn) as (c & r & En & Hc).
  destruct (decimal_first number Hd) as (d & q & Ed & Hdg).
  destruct (class_letter c Hc) as (C1 & _).
  destruct (class_digit d Hdg) as (D1 & _).
  set (l0 := lexer_create ("let " +++ name +++ " = " +++ number)).
  assert (S0 : scanned EmptyString ("let" +++ " " +++ name +++ " = " +++ number) [] l0)
    by apply scanned_create.
  apply enhanced_step_identifier in S0 as (l1 & T0 & N0 & S1);
    [|reflexivity|reflexivity|simpl; unfold MAX_TOKENS; lia].
  apply enhanced_step_blanks in S1 as (l2 & T1 & N1 & S2);
    [|discriminate|reflexivity
     |rewrite En; unfold blank_char; simpl; unfold char_at; simpl; now rewrite C1].
  apply enhanced_step_identifier in S2 as (l3 & T2 & N2 & S3);
    [|assumption|reflexivity|simpl; unfold MAX_TOKENS; lia].
  change (" = " +++ number) with (" " +++ "=" +++ " " +++ number) in S3.
  apply enhanced_step_blanks in S3 as (l4 & T3 & N3 & S4);
    [|discriminate|reflexivity|reflexivity].
  apply enhanced_step_assign in S4 as (l5 & T4 & N4 & S5);
    [|reflexivity|simpl; unfold MAX_TOKENS; lia].
  apply enhanced_step_blanks in S5 as (l6 & T5 & N5 & S6);
    [|discriminate|reflexivity
     |rewrite Ed; unfold blank_char; simpl; unfold char_at; simpl; now rewrite D1].
  rewrite <- (append_nil_r number) in S6 at 1.
  apply enhanced_step_number in S6 as (l7 & T6 & N6 & S7);
    [|assumption|reflexivity|simpl; unfold MAX_TOKENS; lia].
  apply enhanced_scan_finished in S7 as (l8 & T7 & S8 & E8);
    [|simpl; unfold MAX_TOKENS; lia].
  exists l8. split.
  - rewrite <- T7.
    rewrite (enhanced_tokenize_scan _ _ (enhanced_scan_step _ _ N0 T0)),
      (enhanced_tokenize_scan _ _ (enhanced_scan_step _ _ N1 T1)),
      (enhanced_tokenize_scan _ _ (enhanced_scan_step _ _ N2 T2)),
      (enhanced_tokenize_scan _ _ (enhanced_scan_step _ _ N3 T3)),
      (enhanced_tokenize_scan _ _ (enhanced_scan_step _ _ N4 T4)),
      (enhanced_tokenize_scan _ _ (enhanced_scan_step _ _ N5 T5)),
      (enhanced_tokenize_scan _ _ (enhanced_scan_step _ _ N6 T6)).
    reflexivity.
  - rewrite !first_chars_whole in S8 by (auto; simpl; unfold MAX_TOKEN_LEN; lia).
    rewrite Hk in S8. auto.
Qed.

Lemma strcpy_c_string_id s : strlen s = String.length s -> strcpy s = s.
Proof.
  intros H. unfold strcpy. rewrite strncpy_no_nul by auto.
  now apply substring_whole.
Qed.

Lemma let_program_parsed toks name number fuel :
  lexemes toks
  = [(TOKEN_LET, "let"); (TOKEN_IDENTIFIER, name); (TOKEN_ASSIGN, "=");
     (TOKEN_NUMBER, number); (TOKEN_EOF, EmptyString)] ->
  Enhanced.parser_parse (3 + fuel) (parser_create toks)
  = Some (set_children
            [set_right (Some (leaf NODE_NUMBER (strcpy number)))
               (set_value (strcpy name) (ast_create_node NODE_VAR_DECL))]
            (ast_create_node NODE_PROGRAM),
          set_pos 4 (parser_create toks)).
Proof.
  intros H.
  destruct toks as [|[t0 v0 a0 b0] [|[t1 v1 a1 b1] [|[t2 v2 a2 b2] [|[t3 v3 a3 b3]
    [|[t4 v4 a4 b4] [|]]]]]]; try discriminate.
  inversion H; subst. reflexivity.
Qed.

Lemma identifier_c_string name :
  identifier_shape name = true -> strlen name = String.length name.
Proof.
  intros H. destruct name as [|c r]; [discriminate|].
  simpl in H. apply andb_true_iff in H as [Hc Hr].
  destruct (class_letter c Hc) as (_ & _ & _ & C4).
  apply (all_chars_c_string ident_char); [reflexivity|].
  unfold all_chars in *. simpl. now rewrite C4.
Qed.

Lemma decimal_c_string number :
  decimal_shape number = true -> strlen number = String.length number.
Proof.
  intros H. destruct number as [|c r]; [discriminate|].
  simpl in H. apply andb_true_iff in H as [Hc Hr].
  apply (decimal_run_c_string false). simpl.
  now rewrite (class_digit_dot c Hc), Hc, Hr.
Qed.

(** X21: the enhanced compiler end to end.
    For every identifier [name] that is no keyword and every number
    [number] (a digit, then digits with at most one dot), each of at most
    255 characters, [main] run on a file that holds "let name = number"
    returns 0 and writes output.c with the three includes and a [main]
    that declares [int name = number] and returns 0, or, with [--rust],
    output.rs with a [main] that holds [let name = number]. *)
Theorem enhanced_compiles_let_statement
  (read_file : string -> option string) (fopen_w : string -> bool)
  (program input name number : string) (rust : bool) (fuel : nat) :
  identifier_shape name = true ->
  Enhanced.keyword name = TOKEN_IDENTIFIER ->
  decimal_shape number = true ->
  String.length name <= MAX_TOKEN_LEN - 1 ->
  String.length number <= MAX_TOKEN_LEN - 1 ->
  read_file input = Some ("let " +++ name +++ " = " +++ number) ->
  fopen_w (Enhanced.output_filename rust false) = true ->
  Enhanced.main read_file fopen_w (3 + fuel)
    (program :: input :: (if rust then ["--rust"] else []))
  = Some (Enhanced.mkResult 0
            (Some (if rust then "output.rs" else "output.c",
                   let_program_text rust name number))).
Proof.
  intros Hn Hk Hd Ln Ld Hread Hopen.
  destruct (enhanced_lexer_let_statement name number Hn Hk Hd Ln Ld) as (l & T & HL & He).
  unfold Enhanced.main.
  assert (F : Enhanced.parse_flags (if rust then ["--rust"] else []) (false, false)
              = (rust, false)) by (destruct rust; reflexivity).
  rewrite F, Hread, T, He, (let_program_parsed _ name number fuel HL).
  cbn [p_has_error set_pos parser_create]. rewrite Hopen.
  assert (E : forall a b c d : string, a = c -> b = d ->
              Some (Enhanced.mkResult 0 (Some (a, b)))
              = Some (Enhanced.mkResult 0 (Some (c, d)))) by (intros; subst; reflexivity).
  apply E.
  - destruct rust; reflexivity.
  - pose proof (identifier_c_string name Hn) as Cn.
    pose proof (decimal_c_string number Hd) as Cd.
    destruct rust; unfold let_program_text;
      cbn -[strcpy String.append c_headers];
      rewrite ?append_assoc;
      rewrite !(strcpy_c_string_id name Cn), !(strcpy_c_string_id number Cd);
      reflexivity.
Qed.

Lemma enhanced_compiles_let_statement_witness :
  Enhanced.main (fun _ => Some "let x = 42") (fun _ => true) 3 ["solang"; "a.so"]
  = Some (Enhanced.mkResult 0
            (Some ("output.c", let_program_text false "x" "42"))).
Proof.
  apply (enhanced_compiles_let_statement (fun _ => Some "let x = 42") (fun _ => true)
           "solang" "a.so" "x" "42" false 0);
    try reflexivity; simpl; unfold MAX_TOKEN_LEN; lia.
Defined.

(** X22: at two slashes the lexer of the
    enhanced compiler moves to the end of the line, or of the input, and
    stores no token and reports nothing; the newline that ends the comment
    is left to be scanned. *)
Theorem enhanced_comment_is_skipped (pre text rest : string)
  (L : list (TokenType * string)) (l : Lexer) :
  scanned pre ("//" +++ text +++ rest) L l ->
  all_chars comment_char text = true ->
  comment_char (char_at rest 0) = false ->
  exists l',
    Enhanced.lexer_step l = Some l'
    /\ scanned (pre +++ "//" +++ text) rest L l'
    /\ stderr l' = stderr l.
Proof.
  intros (Hl & HL & He) Ht Hr.
  assert (Hl' : lexeme_at pre ("//" +++ text) rest l).
  { apply lexeme_split. now rewrite append_assoc. }
  assert (Hall : all_chars comment_char ("//" +++ text) = true).
  { unfold all_chars in *. simpl. exact Ht. }
  assert (Hcs : strlen ("//" +++ text) = String.length ("//" +++ text)).
  { apply (all_chars_c_string comment_char); auto. }
  assert (Hcur : lexer_current_char l = "/"%char).
  { apply (lexeme_current pre "/" ("/" +++ text) rest); auto. }
  assert (Hnext : char_at (source l) (pos l + 1) = "/"%char).
  { destruct Hl' as (Hs & Hp & _). rewrite Hs, Hp.
    rewrite char_at_app. reflexivity. }
  eexists. split; [|split].
  - unfold Enhanced.lexer_step. rewrite Hcur, Hnext.
    change (isspace "/") with false. cbn [andb Ascii.eqb Bool.eqb].
    reflexivity.
  - unfold Enhanced.lexer_skip_comment. rewrite Hcur, Hnext.
    cbn [andb Ascii.eqb Bool.eqb].
    assert (Loop : while_fuel (remaining l)
                     (fun l0 => negb (Ascii.eqb (lexer_current_char l0) LF)
                                && negb (is_nul (lexer_current_char l0)))
                     lexer_advance l
                   = steps lexer_advance (String.length ("//" +++ text)) l).
    { apply (run_loop _ (fun l => l) lexer_advance comment_char (fun s => eq_refl) eq_refl
               ("//" +++ text) pre rest); auto.
      apply (lexeme_remaining pre ("//" +++ text) rest l comment_char); auto. }
    rewrite Loop. fold (advance_n (String.length ("//" +++ text)) l).
    destruct (advance_n_facts (String.length ("//" +++ text)) l) as (_ & _ & E3 & E4 & _).
    split; [|split]; try congruence.
    apply (lexeme_after pre ("//" +++ text) rest l); auto.
  - unfold Enhanced.lexer_skip_comment. rewrite Hcur, Hnext.
    cbn [andb Ascii.eqb Bool.eqb].
    assert (Loop : while_fuel (remaining l)
                     (fun l0 => negb (Ascii.eqb (lexer_current_char l0) LF)
                                && negb (is_nul (lexer_current_char l0)))
                     lexer_advance l
                   = steps lexer_advance (String.length ("//" +++ text)) l).
    { apply (run_loop _ (fun l => l) lexer_advance comment_char (fun s => eq_refl) eq_refl
               ("//" +++ text) pre rest); auto.
      apply (lexeme_remaining pre ("//" +++ text) rest l comment_char); auto. }
    rewrite Loop. fold (advance_n (String.length ("//" +++ text)) l).
    apply advance_n_facts.
Qed.

Lemma enhanced_comment_is_skipped_witness :
  exists l',
    Enhanced.lexer_step (lexer_create "// a comment
x") = Some l'
    /\ scanned (EmptyString +++ "//" +++ " a comment") "
x" [] l'
    /\ stderr l' = stderr (lexer_create "// a comment
x").
Proof.
  apply (enhanced_comment_is_skipped EmptyString " a comment" "
x" [] (lexer_create "// a comment
x")).
  - repeat split.
  - reflexivity.
  - reflexivity.
Defined.

(* ------------------------------------------------------------------ *)
(** ** The statement parser of so_lang.c *)

Section BaseStatements.

Variable g1 g2 : Parser -> option (option ASTNode * Parser).

Lemma base_primary_stays fuel p :
  starts_primary (tok_type (parser_current_token p)) = false ->
  Base.parser_parse_primary (S fuel) p = Some (None, p).
Proof.
  cbn [Base.parser_parse_primary].
  destruct (tok_type (parser_current_token p)); try discriminate; auto.
Qed.

Lemma base_expression_stays fuel p :
  starts_primary (tok_type (parser_current_token p))
  || is_binary_operator (tok_type (parser_current_token p)) = false ->
  Base.parser_parse_expression (S fuel) p = Some (None, p).
Proof.
  intros H. apply orb_false_iff in H as [H1 H2].
  unfold Base.parser_parse_expression, Base.parser_parse_binary, parse_binary_body.
  rewrite (base_primary_stays fuel p H1). now rewrite H2.
Qed.

Lemma base_skip_terminators_stays p :
  current_is TOKEN_NEWLINE p = false -> current_is TOKEN_SEMICOLON p = false ->
  Base.skip_terminators p = Some p.
Proof.
  intros H1 H2. unfold Base.skip_terminators. cbn [while_opt].
  now rewrite H1, H2.
Qed.

Lemma base_starts_statement_split t :
  base_starts_statement t = false ->
  starts_primary t || is_binary_operator t = false
  /\ t <> TOKEN_NEWLINE /\ t <> TOKEN_SEMICOLON.
Proof. destruct t; simpl; intros H; try discriminate; repeat split; discriminate. Qed.

Lemma current_is_not t p :
  tok_type (parser_current_token p) <> t -> current_is t p = false.
Proof.
  intros H. unfold current_is. destruct (TokenType_beq _ _) eqn:B; auto.
  apply TokenType_beq_eq in B. contradiction.
Qed.

Lemma base_statement_stays fuel p :
  base_starts_statement (tok_type (parser_current_token p)) = false ->
  Base.parser_parse_statement g1 g2 (2 + fuel) p = Some (None, p).
Proof.
  intros H. destruct (base_starts_statement_split _ H) as (H1 & H2 & H3).
  change (2 + fuel) with (S (S fuel)).
  cbn [Base.parser_parse_statement].
  destruct (tok_type (parser_current_token p)) eqn:E; try discriminate;
    rewrite base_expression_stays by (now rewrite E);
    rewrite base_skip_terminators_stays; auto;
    apply current_is_not; rewrite E; discriminate.
Qed.

Lemma base_statement_stuck fuel p :
  base_starts_statement (tok_type (parser_current_token p)) = false ->
  Base.parser_parse_statement g1 g2 fuel p = None
  \/ Base.parser_parse_statement g1 g2 fuel p = Some (None, p).
Proof.
  intros Hs. destruct fuel as [|[|f]].
  - left. reflexivity.
  - left. cbn [Base.parser_parse_statement].
    destruct (tok_type (parser_current_token p)); try discriminate; reflexivity.
  - right. now apply (base_statement_stays f p).
Qed.

Lemma base_program_loop_hangs p :
  current_is TOKEN_EOF p = false ->
  base_starts_statement (tok_type (parser_current_token p)) = false ->
  forall fuel program, Base.program_loop g1 g2 fuel p program = None.
Proof.
  intros He Hs.
  induction fuel as [|f IH]; intros program; [reflexivity|].
  cbn [Base.program_loop]. rewrite He. cbn [negb].
  destruct (base_statement_stuck f p Hs) as [E|E]; rewrite E; [reflexivity|].
  apply IH.
Qed.

(** X24: [parser_parse_statement] of
    so_lang.c has no rule for [fn], [else], the braces, the closing
    parenthesis, the comma, the assignment sign, [@] and the Solana keywords
    other than [program] and [instruction]: at such a token it returns null
    and leaves the parser where it was, and [parser_parse], whose loop only
    tests for the end of the input, does not return. *)
Theorem base_parser_hangs_at_unhandled_token (p : Parser) :
  base_starts_statement (tok_type (parser_current_token p)) = false ->
  (forall fuel, Base.parser_parse_statement g1 g2 (2 + fuel) p = Some (None, p))
  /\ (current_is TOKEN_EOF p = false ->
      forall fuel, Base.parser_parse g1 g2 fuel p = None).
Proof.
  intros Hs. split.
  - intros fuel. now apply base_statement_stays.
  - intros He fuel. unfold Base.parser_parse. now apply base_program_loop_hangs.
Qed.

End BaseStatements.

Lemma base_parser_hangs_at_unhandled_token_witness :
  let p := parser_create fn_tokens in
  (forall fuel,
     Base.parser_parse_statement (fun _ => None) (fun _ => None) (2 + fuel) p
     = Some (None, p))
  /\ (current_is TOKEN_EOF p = false ->
      forall fuel, Base.parser_parse (fun _ => None) (fun _ => None) fuel p = None).
Proof.
  apply (base_parser_hangs_at_unhandled_token (fun _ => None) (fun _ => None)
           (parser_create fn_tokens)).
  reflexivity.
Defined.

Section BaseOverrun.

Variable g1 g2 : Parser -> option (option ASTNode * Parser).
Variable nums : list Token.
Variable e : Token.
Hypothesis nums_numbers : Forall (fun t => tok_type t = TOKEN_NUMBER) nums.
Hypothesis e_eof : tok_type e = TOKEN_EOF.

Let p0 : Parser := parser_create (nums ++ [e]).

Lemma numbers_current i :
  i < length nums ->
  parser_current_token (set_pos i p0) = nth i nums no_token
  /\ tok_type (parser_current_token (set_pos i p0)) = TOKEN_NUMBER.
Proof.
  intros Hi. unfold parser_current_token, p_token_count. cbn [set_pos p0 parser_create p_tokens p_pos].
  rewrite length_app. simpl length.
  replace (length nums + 1 <=? i) with false by (symmetry; apply Nat.leb_gt; lia).
  rewrite app_nth1 by lia. split; auto.
  rewrite Forall_forall in nums_numbers. apply nums_numbers. now apply nth_In.
Qed.

Lemma numbers_next i :
  i <= length nums ->
  is_binary_operator (tok_type (parser_current_token (set_pos i p0))) = false
  /\ current_is TOKEN_NEWLINE (set_pos i p0) = false
  /\ current_is TOKEN_SEMICOLON (set_pos i p0) = false.
Proof.
  intros Hi.
  assert (H : tok_type (parser_current_token (set_pos i p0)) = TOKEN_NUMBER
              \/ tok_type (parser_current_token (set_pos i p0)) = TOKEN_EOF).
  { destruct (Nat.eq_dec i (length nums)) as [->|Hne].
    - right. unfold parser_current_token, p_token_count.
      cbn [set_pos p0 parser_create p_tokens p_pos].
      rewrite length_app. simpl length.
      replace (length nums + 1 <=? length nums) with false
        by (symmetry; apply Nat.leb_gt; lia).
      rewrite app_nth2 by lia. rewrite Nat.sub_diag. exact e_eof.
    - left. apply numbers_current. lia. }
  unfold current_is. destruct H as [-> | ->]; auto.
Qed.

Lemma numbers_advance i :
  i < length nums -> parser_advance (set_pos i p0) = set_pos (S i) p0.
Proof.
  intros Hi. unfold parser_advance, p_token_count.
  cbn [set_pos p0 parser_create p_tokens p_pos].
  rewrite length_app. simpl length.
  replace (S i <? length nums + 1) with true by (symmetry; apply Nat.ltb_lt; lia).
  reflexivity.
Qed.

Lemma numbers_statement i fuel :
  i < length nums ->
  Base.parser_parse_statement g1 g2 (2 + fuel) (set_pos i p0)
  = Some (Some (set_value (strcpy (tok_value (nth i nums no_token)))
                          (ast_create_node NODE_NUMBER)),
          set_pos (S i) p0).
Proof.
  intros Hi. destruct (numbers_current i Hi) as [Hc Ht].
  destruct (numbers_next (S i) ltac:(lia)) as (N1 & N2 & N3).
  change (2 + fuel) with (S (S fuel)).
  cbn [Base.parser_parse_statement]. rewrite Ht.
  unfold Base.parser_parse_expression, Base.parser_parse_binary, parse_binary_body.
  cbn [Base.parser_parse_primary]. rewrite Ht, Hc, (numbers_advance i Hi), N1.
  now rewrite base_skip_terminators_stays.
Qed.

Lemma numbers_overrun m : forall i program fuel,
  child_count program + m = 100 ->
  i + m < length nums ->
  Base.program_loop g1 g2 (m + 3 + fuel) (set_pos i p0) program
  = Some Base.ChildrenOverrun.
Proof.
  induction m as [|m IH]; intros i program fuel Hc Hi.
  - change (0 + 3 + fuel) with (S (2 + fuel)).
    cbn [Base.program_loop].
    destruct (numbers_current i ltac:(lia)) as [_ Ht].
    rewrite (current_is_other _ _ _ Ht) by discriminate. cbn [negb].
    rewrite (numbers_statement i fuel) by lia.
    replace (child_count program <? 100) with false
      by (symmetry; apply Nat.ltb_ge; lia).
    reflexivity.
  - replace (S m + 3 + fuel) with (S (2 + (m + 1 + fuel))) by lia.
    cbn [Base.program_loop].
    destruct (numbers_current i ltac:(lia)) as [_ Ht].
    rewrite (current_is_other _ _ _ Ht) by discriminate. cbn [negb].
    rewrite (numbers_statement i (m + 1 + fuel)) by lia.
    replace (child_count program <? 100) with true
      by (symmetry; apply Nat.ltb_lt; lia).
    replace (2 + (m + 1 + fuel)) with (m + 3 + fuel) by lia.
    apply IH; [|lia].
    unfold child_count in *. cbn [set_children children]. rewrite length_app.
    simpl. lia.
Qed.

End BaseOverrun.

(** X25: [parser_parse] of so_lang.c
    allocates 100 pointers for the statements of a program and stores
    every statement it parses without a bound check: on a token sequence
    of more than 100 numbers, each a statement of its own, the 101st store
    falls outside the array. *)
Theorem base_parser_overruns_children
  (g1 g2 : Parser -> option (option ASTNode * Parser))
  (nums : list Token) (e : Token) (fuel : nat) :
  numbers_then_eof nums e = true ->
  Base.parser_parse g1 g2 (103 + fuel) (parser_create (nums ++ [e]))
  = Some Base.ChildrenOverrun.
Proof.
  intros H. unfold numbers_then_eof in H.
  apply andb_true_iff in H as [H Hl]. apply andb_true_iff in H as [Hn He].
  apply Nat.ltb_lt in Hl. apply TokenType_beq_eq in He.
  assert (Hn' : Forall (fun t => tok_type t = TOKEN_NUMBER) nums).
  { apply Forall_forall. intros x Hx. rewrite forallb_forall in Hn.
    apply TokenType_beq_eq. now apply Hn. }
  clear Hn. rename Hn' into Hn.
  unfold Base.parser_parse.
  change (103 + fuel) with (100 + 3 + fuel).
  change (parser_create (nums ++ [e])) with (set_pos 0 (parser_create (nums ++ [e]))).
  apply numbers_overrun; auto.
Qed.

Lemma base_parser_overruns_children_witness :
  Base.parser_parse (fun _ => None) (fun _ => None) 103
    (parser_create (repeat (tk TOKEN_NUMBER "1") 101 ++ [tk TOKEN_EOF EmptyString]))
  = Some Base.ChildrenOverrun.
Proof.
  apply (base_parser_overruns_children (fun _ => None) (fun _ => None)
           (repeat (tk TOKEN_NUMBER "1") 101) (tk TOKEN_EOF EmptyString) 0).
  vm_compute. reflexivity.
Defined.

Section BasePlain.

Variable g1 g2 : Parser -> option (option ASTNode * Parser).

Lemma plain_create t : is_chain_kind t = false -> plain_node (ast_create_node t).
Proof. intros H. split; [exact H|reflexivity]. Qed.

Lemma plain_set_value v n : plain_node n -> plain_node (set_value v n).
Proof. intros [H1 H2]. split; auto. Qed.
Lemma plain_set_type t n :
  is_chain_kind t = false -> plain_node n -> plain_node (set_type t n).
Proof. intros Ht [H1 H2]. split; auto. Qed.
Lemma plain_set_left x n : plain_node n -> plain_node (set_left x n).
Proof. intros [H1 H2]. split; auto. Qed.
Lemma plain_set_right x n : plain_node n -> plain_node (set_right x n).
Proof. intros [H1 H2]. split; auto. Qed.
Lemma plain_set_condition x n : plain_node n -> plain_node (set_condition x n).
Proof. intros [H1 H2]. split; auto. Qed.
Lemma plain_set_then x n : plain_node n -> plain_node (set_then_branch x n).
Proof. intros [H1 H2]. split; auto. Qed.
Lemma plain_set_else x n : plain_node n -> plain_node (set_else_branch x n).
Proof. intros [H1 H2]. split; auto. Qed.

Create HintDb plain.
#[local] Hint Resolve plain_create plain_set_value plain_set_type plain_set_left
  plain_set_right plain_set_condition plain_set_then plain_set_else : plain.

Lemma plain_some s : plain_node s -> plain_result (Some s).
Proof. intros H s' E. inversion E; subst. exact H. Qed.

Lemma plain_none : plain_result None.
Proof. intros s E. discriminate. Qed.

#[local] Hint Resolve plain_some plain_none : plain.

Lemma plain_binary_body prim p n p' :
  (forall q m q', prim q = Some (m, q') -> plain_result m) ->
  parse_binary_body prim p = Some (n, p') -> plain_result n.
Proof.
  intros Hprim. unfold parse_binary_body.
  destruct (prim p) as [[l p1]|] eqn:E1; [|discriminate].
  apply Hprim in E1.
  destruct (is_binary_operator _).
  - destruct (prim (parser_advance p1)) as [[r p2]|] eqn:E2; [|discriminate].
    intros H; inversion H; subst. auto 6 with plain.
  - intros H; inversion H; subst. auto.
Qed.

Lemma base_primary_plain fuel : forall p n p',
  Base.parser_parse_primary fuel p = Some (n, p') -> plain_result n.
Proof.
  induction fuel as [|f IH]; intros p n p'; [discriminate|].
  cbn [Base.parser_parse_primary].
  destruct (tok_type (parser_current_token p)) eqn:E;
    try (some_inv; auto 6 with plain; fail).
  - destruct (current_is TOKEN_LPAREN (parser_advance p)); some_inv;
      auto 6 with plain.
  - destruct (parse_binary_body _ _) as [[m p2]|] eqn:E2; [|discriminate].
    apply plain_binary_body in E2; auto. some_inv. auto.
Qed.

Lemma base_expression_plain fuel p n p' :
  Base.parser_parse_expression fuel p = Some (n, p') -> plain_result n.
Proof. apply plain_binary_body. apply base_primary_plain. Qed.

Lemma base_expression_follows fuel p n p' :
  Base.parser_parse_expression fuel p = Some (n, p') -> follows p p'.
Proof. apply binary_body_follows. apply base_primary_follows. Qed.

Lemma base_skip_terminators_follows p p' :
  Base.skip_terminators p = Some p' -> follows p p'.
Proof.
  unfold Base.skip_terminators. intros H.
  eapply (while_opt_some _ _ (follows p)) in H; [tauto | | apply follows_refl].
  intros s _ Hs. eapply follows_trans; eauto with scan.
Qed.

Lemma current_token_in p :
  p_tokens p <> [] -> In (parser_current_token p) (p_tokens p).
Proof.
  intros H. unfold parser_current_token, p_token_count.
  assert (0 < length (p_tokens p)) by (destruct (p_tokens p); simpl; [congruence|lia]).
  destruct (length (p_tokens p) <=? p_pos p) eqn:E.
  - apply nth_In. lia.
  - apply Nat.leb_gt in E. now apply nth_In.
Qed.

Lemma no_declarations_current p :
  no_declarations (p_tokens p) = true ->
  tok_type (parser_current_token p) <> TOKEN_PROGRAM
  /\ tok_type (parser_current_token p) <> TOKEN_INSTRUCTION.
Proof.
  intros H.
  destruct (p_tokens p) as [|t0 ts] eqn:Et.
  - unfold parser_current_token, p_token_count. rewrite Et. simpl.
    destruct (p_pos p); simpl; split; discriminate.
  - assert (Hin : In (parser_current_token p) (p_tokens p)).
    { apply current_token_in. rewrite Et. discriminate. }
    rewrite Et in Hin. unfold no_declarations in H. rewrite forallb_forall in H.
    apply H in Hin. apply andb_true_iff in Hin as [A B].
    apply negb_true_iff in A, B.
    split; intros E; rewrite E in *; discriminate.
Qed.

Lemma match_pair t p m q : parser_match t p = (m, q) -> follows p q.
Proof.
  intros E. replace q with (snd (parser_match t p)) by now rewrite E.
  apply match_follows.
Qed.

Lemma base_statement_plain fuel : forall p n p',
  no_declarations (p_tokens p) = true ->
  Base.parser_parse_statement g1 g2 fuel p = Some (n, p') ->
  follows p p' /\ plain_result n.
Proof.
  induction fuel as [|f IH]; intros p n p' Hno; [discriminate|].
  destruct (no_declarations_current p Hno) as [N1 N2].
  cbn [Base.parser_parse_statement].
  match goal with
  | |- match ?body with _ => _ end = _ -> _ =>
      assert (Hb : forall m q, body = Some (m, q) -> follows p q /\ plain_result m);
      [|destruct body as [[m q]|] eqn:Eb; [|discriminate];
        destruct (Hb _ _ eq_refl) as [F P]]
  end.
  - intros m q.
    destruct (tok_type (parser_current_token p)) eqn:E; try congruence;
      try (intros H; split;
           [eapply base_expression_follows | eapply base_expression_plain]; eauto; fail).
    + (* let *)
      destruct (TokenType_beq _ TOKEN_IDENTIFIER);
        [|some_inv; split; auto 8 with scan plain].
      destruct (parser_match TOKEN_ASSIGN _) as [matched p2] eqn:Em.
      apply match_pair in Em.
      assert (F2 : follows p p2) by eauto 6 using follows_trans with scan.
      destruct matched; [|some_inv; split; auto 8 with plain].
      destruct (Base.parser_parse_expression f p2) as [[e p3]|] eqn:Ee; [|discriminate].
      apply base_expression_follows in Ee. some_inv.
      split; eauto using follows_trans with plain.
    + (* if *)
      destruct (Base.parser_parse_expression f _) as [[c p1]|] eqn:Ee; [|discriminate].
      apply base_expression_follows in Ee.
      assert (F1 : follows p p1) by eauto using follows_trans with scan.
      destruct (parser_match TOKEN_LBRACE p1) as [matched p2] eqn:Em.
      apply match_pair in Em.
      assert (F2 : follows p p2) by eauto using follows_trans.
      destruct matched; [|some_inv; split; auto 8 with plain].
      destruct (Base.parser_parse_statement g1 g2 f p2) as [[t p3]|] eqn:Es; [|discriminate].
      apply IH in Es; [|destruct F2 as [-> _]; auto]. destruct Es as [F3 _].
      assert (F4 : follows p (snd (parser_match TOKEN_RBRACE p3)))
        by eauto 6 using follows_trans with scan.
      destruct (parser_match TOKEN_ELSE _) as [m2 p5] eqn:Em2.
      apply match_pair in Em2.
      assert (F5 : follows p p5) by eauto using follows_trans.
      destruct m2; [|some_inv; split; auto 8 with plain].
      destruct (parser_match TOKEN_LBRACE p5) as [m3 p6] eqn:Em3.
      apply match_pair in Em3.
      assert (F6 : follows p p6) by eauto using follows_trans.
      destruct m3; [|some_inv; split; auto 8 with plain].
      destruct (Base.parser_parse_statement g1 g2 f p6) as [[e p7]|] eqn:Es2; [|discriminate].
      apply IH in Es2; [|destruct F6 as [-> _]; auto]. destruct Es2 as [F7 _].
      some_inv. split; [eauto 6 using follows_trans with scan|auto 8 with plain].
    + (* return *)
      destruct (Base.parser_parse_expression f _) as [[e p1]|] eqn:Ee; [|discriminate].
      apply base_expression_follows in Ee. some_inv.
      split; [eauto using follows_trans with scan|auto 8 with plain].
    + (* print *)
      destruct (parser_match TOKEN_LPAREN _) as [matched p1] eqn:Em.
      apply match_pair in Em.
      assert (F1 : follows p p1) by eauto using follows_trans with scan.
      destruct matched; [|some_inv; split; auto 8 with plain].
      destruct (Base.parser_parse_expression f p1) as [[e p2]|] eqn:Ee; [|discriminate].
      apply base_expression_follows in Ee. some_inv.
      split; [eauto 6 using follows_trans with scan|auto 8 with plain].
  - destruct (Base.skip_terminators q) as [p''|] eqn:Et; [|discriminate].
    apply base_skip_terminators_follows in Et. some_inv.
    split; eauto using follows_trans.
Qed.

Lemma plain_not_chain s : plain_node s -> contains_chain_child s = false.
Proof.
  intros [H1 H2]. destruct s; simpl in *. subst. now rewrite H1.
Qed.

Lemma base_program_loop_plain fuel : forall p program ast p',
  no_declarations (p_tokens p) = true ->
  Forall plain_node (children program) ->
  Base.program_loop g1 g2 fuel p program = Some (Base.Parsed ast p') ->
  type ast = type program /\ Forall plain_node (children ast).
Proof.
  induction fuel as [|f IH]; intros p program ast p' Hno Hc; [discriminate|].
  cbn [Base.program_loop].
  destruct (negb _).
  - destruct (Base.parser_parse_statement g1 g2 f p) as [[stmt p1]|] eqn:Es; [|discriminate].
    apply base_statement_plain in Es; auto. destruct Es as [[Ft _] Pl].
    destruct stmt as [s|].
    + destruct (child_count program <? 100); [|discriminate].
      intros H. apply IH in H; auto.
      * now rewrite Ft.
      * cbn [set_children children]. apply Forall_app. split; auto.
    + apply IH; auto. now rewrite Ft.
  - intros H; inversion H; subst. auto.
Qed.

Lemma detect_untouched n : forall g,
  contains_chain_child n = false -> Base.detect_solana_program_node n g = (false, g).
Proof.
  induction n as [t v l _ r _ c _ tb _ eb _ cs IH pid sg wr ini sd].
  intros g. cbn [Base.detect_solana_program_node contains_chain_child type children].
  rewrite is_chain_kind_code.
  destruct (NodeType_beq t NODE_PROGRAM_DECL); [discriminate|].
  destruct (Base.is_solana_node t); [discriminate|].
  cbn [orb]. revert g.
  induction IH as [|c0 Hc0 cs0 _ IHcs]; intros g; [reflexivity|].
  cbn [existsb]. intros H. apply orb_false_iff in H as [H1 H2].
  rewrite (Hc0 g H1). now apply IHcs.
Qed.

(** X26: on tokens with no
    [program] and no [instruction] keyword, every statement
    [parser_parse] of so_lang.c stores in the program is a node of no chain
    kind with no children, so [detect_solana_program] returns false on the
    tree and leaves its statics alone: such a source is compiled as a
    Solana program only when a flag forces it. *)
Theorem base_parser_without_declarations_is_generic
  (toks : list Token) (fuel : nat) (ast : ASTNode) (p' : Parser) (g : Base.Detected) :
  no_declarations toks = true ->
  Base.parser_parse g1 g2 fuel (parser_create toks) = Some (Base.Parsed ast p') ->
  Base.detect_solana_program (Some ast) g = (false, g)
  /\ Base.classify ast = Base.Generic.
Proof.
  intros Hno H. unfold Base.parser_parse in H.
  apply base_program_loop_plain in H; [|exact Hno|constructor].
  destruct H as [Ht Hc].
  assert (Hcc : contains_chain_child ast = false).
  { destruct ast as [t v l r c tb eb cs pid sg wr ini sd].
    cbn [type children ast_create_node] in *. subst t.
    cbn [contains_chain_child type children is_chain_kind orb].
    clear -Hc. induction Hc as [|s cs Hs _ IH]; [reflexivity|].
    cbn [existsb]. now rewrite (plain_not_chain s Hs), IH. }
  split.
  - cbn [Base.detect_solana_program]. now apply detect_untouched.
  - unfold Base.classify. cbn [Base.detect_solana_program].
    now rewrite detect_searches_children, Hcc.
Qed.

End BasePlain.

Lemma base_parser_without_declarations_is_generic_witness :
  let ast :=
    set_children
      [set_right (Some (leaf NODE_NUMBER "1"))
         (set_value "x" (ast_create_node NODE_VAR_DECL))]
      (ast_create_node NODE_PROGRAM) in
  Base.detect_solana_program (Some ast) (Base.mkDetected false None)
  = (false, Base.mkDetected false None)
  /\ Base.classify ast = Base.Generic.
Proof.
  apply (base_parser_without_declarations_is_generic (fun _ => None) (fun _ => None)
           let_x_tokens 5 _ (set_pos 4 (parser_create let_x_tokens))).
  - reflexivity.
  - vm_compute. reflexivity.
Defined.

(* ------------------------------------------------------------------ *)
(** ** The lexer of so_lang.c: the text of a token fits its type *)

Lemma tokens_ok_advance l : tokens_ok l -> tokens_ok (lexer_advance l).
Proof. unfold tokens_ok. now rewrite advance_tokens. Qed.

Lemma tokens_ok_add t v l :
  lexeme_ok t (strncpy (MAX_TOKEN_LEN - 1) v) = true ->
  tokens_ok l -> tokens_ok (lexer_add_token t v l).
Proof.
  unfold tokens_ok. intros Hv H.
  destruct (add_token_cases t v l) as [(_ & E & _)|(_ & E & _)]; rewrite E; auto.
  rewrite forallb_app, H. cbn [forallb andb]. unfold token_ok. cbn [tok_type tok_value].
  now rewrite Hv.
Qed.

Lemma tokens_ok_copy_loop fuel cond l buf :
  tokens_ok l -> tokens_ok (fst (while_fuel fuel cond copy_step (l, buf))).
Proof.
  intros H.
  apply (while_fuel_invariant cond copy_step (fun st => tokens_ok (fst st))); auto.
  intros [l' b'] _ H'. simpl in *. now apply tokens_ok_advance.
Qed.

Lemma all_chars_snoc f b c : all_chars f b = true -> f c = true -> all_chars f (snoc b c) = true.
Proof.
  unfold all_chars, snoc. induction b as [|a b IH]; simpl; intros H Hc.
  - now rewrite Hc.
  - apply andb_true_iff in H as [Ha Hb]. rewrite Ha. simpl. auto.
Qed.

Lemma buffer_of_put cnd b c : buffer_of cnd b -> cnd c = true -> buffer_of cnd (buffer_put b c).
Proof.
  intros [H1 H2] Hc. split; [|now apply buffer_put_length].
  unfold buffer_put. destruct (_ <? _); auto. now apply all_chars_snoc.
Qed.

Lemma copy_loop_buffer cnd fuel l buf :
  buffer_of cnd buf ->
  buffer_of cnd (snd (while_fuel fuel (fun st => cnd (lexer_current_char (fst st)))
                        copy_step (l, buf))).
Proof.
  intros H.
  apply (while_fuel_invariant (fun st => cnd (lexer_current_char (fst st))) copy_step
           (fun st => buffer_of cnd (snd st))); auto.
  intros [l' b'] Hc H'. simpl in *. now apply buffer_of_put.
Qed.

(** A copy loop entered at a character that passes the test stores it
    first. *)
Lemma copy_loop_first cnd l c :
  lexer_current_char l = c -> cnd c = true -> is_nul c = false ->
  exists r,
    snd (while_fuel (remaining l) (fun st => cnd (lexer_current_char (fst st)))
           copy_step (l, EmptyString)) = String c r.
Proof.
  intros Hc Hcnd Hn.
  assert (Hr : 0 < remaining l) by (apply not_nul_remaining; now rewrite Hc).
  destruct (remaining l) as [|k]; [lia|].
  cbn [while_fuel fst]. rewrite Hc, Hcnd.
  unfold copy_step at 2. cbn [fst snd]. rewrite Hc.
  change (buffer_put EmptyString c) with (String c EmptyString).
  apply (while_fuel_invariant (fun st => cnd (lexer_current_char (fst st))) copy_step
           (fun st => exists r, snd st = String c r)).
  - intros [l' b'] _ [r Hb]. simpl in *. subst b'.
    unfold buffer_put. destruct (_ <? _); eauto.
    unfold snoc. simpl. eauto.
  - simpl. eauto.
Qed.

Lemma buffer_strncpy cnd b :
  cnd NUL = false -> buffer_of cnd b -> strncpy (MAX_TOKEN_LEN - 1) b = b.
Proof.
  intros H0 [H1 H2].
  rewrite strncpy_no_nul by (eapply all_chars_c_string; eauto).
  now apply substring_whole.
Qed.

Lemma base_keyword_word b : word_type (Base.keyword b) = true.
Proof. unfold Base.keyword. split_ifs; reflexivity. Qed.

Lemma lexeme_ok_word b :
  identifier_shape b = true -> lexeme_ok (Base.keyword b) b = true.
Proof.
  intros H. pose proof (base_keyword_word b) as W.
  destruct (Base.keyword b) eqn:E; try discriminate;
    cbn [lexeme_ok]; rewrite H, E; reflexivity.
Qed.

Lemma tokens_ok_read_identifier l c :
  lexer_current_char l = c -> isalpha c || Ascii.eqb c "_"%char = true ->
  tokens_ok l -> tokens_ok (Base.lexer_read_identifier l).
Proof.
  intros Hc Hl H. unfold Base.lexer_read_identifier.
  destruct (class_letter c Hl) as (_ & _ & _ & C4).
  assert (Hn : is_nul c = false) by (apply (cond_not_nul ident_char); auto).
  pose proof (tokens_ok_copy_loop (remaining l)
                (fun st => ident_char (lexer_current_char (fst st))) l EmptyString H) as T.
  pose proof (copy_loop_buffer ident_char (remaining l) l EmptyString) as B.
  destruct (copy_loop_first ident_char l c Hc C4 Hn) as [r F].
  destruct (while_fuel _ _ _ _) as [l1 buffer]. cbn [fst snd] in *.
  assert (Bf : buffer_of ident_char buffer).
  { apply B. split; [reflexivity|simpl; unfold MAX_TOKEN_LEN; lia]. }
  apply tokens_ok_add; auto.
  rewrite (buffer_strncpy ident_char) by auto.
  apply lexeme_ok_word. subst buffer. destruct Bf as [Ba _].
  unfold all_chars in Ba. simpl in Ba. apply andb_true_iff in Ba as [_ Ba].
  simpl. now rewrite Hl.
Qed.

Lemma tokens_ok_read_number l c :
  lexer_current_char l = c -> isdigit c = true ->
  tokens_ok l -> tokens_ok (Base.lexer_read_number l).
Proof.
  intros Hc Hd H. unfold Base.lexer_read_number.
  destruct (class_digit c Hd) as (_ & _ & _ & _ & C5).
  assert (Hn : is_nul c = false) by (apply (cond_not_nul digit_or_dot); auto).
  fold digit_or_dot.
  change (fun st : Lexer * string =>
            isdigit (lexer_current_char (fst st))
            || Ascii.eqb (lexer_current_char (fst st)) ".")
    with (fun st : Lexer * string => digit_or_dot (lexer_current_char (fst st))).
  pose proof (tokens_ok_copy_loop (remaining l)
                (fun st => digit_or_dot (lexer_current_char (fst st))) l EmptyString H) as T.
  pose proof (copy_loop_buffer digit_or_dot (remaining l) l EmptyString) as B.
  destruct (copy_loop_first digit_or_dot l c Hc C5 Hn) as [r F].
  destruct (while_fuel _ _ _ _) as [l1 buffer]. cbn [fst snd] in *.
  assert (Bf : buffer_of digit_or_dot buffer).
  { apply B. split; [reflexivity|simpl; unfold MAX_TOKEN_LEN; lia]. }
  apply tokens_ok_add; auto.
  rewrite (buffer_strncpy digit_or_dot) by auto.
  subst buffer. destruct Bf as [Ba _].
  unfold all_chars in Ba. simpl in Ba. apply andb_true_iff in Ba as [_ Ba].
  cbn [lexeme_ok number_shape]. now rewrite Hd.
Qed.

Lemma tokens_ok_read_string l :
  tokens_ok l -> tokens_ok (Base.lexer_read_string l).
Proof.
  intros H. unfold Base.lexer_read_string.
  change (fun st : Lexer * string =>
            negb (Ascii.eqb (lexer_current_char (fst st)) QUOTE)
            && negb (is_nul (lexer_current_char (fst st))))
    with (fun st : Lexer * string => string_char (lexer_current_char (fst st))).
  pose proof (tokens_ok_copy_loop (remaining (lexer_advance l))
                (fun st => string_char (lexer_current_char (fst st)))
                (lexer_advance l) EmptyString (tokens_ok_advance l H)) as T.
  pose proof (copy_loop_buffer string_char (remaining (lexer_advance l))
                (lexer_advance l) EmptyString) as B.
  destruct (while_fuel _ _ _ _) as [l2 buffer]. cbn [fst snd] in *.
  assert (Bf : buffer_of string_char buffer).
  { apply B. split; [reflexivity|simpl; unfold MAX_TOKEN_LEN; lia]. }
  apply tokens_ok_add.
  - rewrite (buffer_strncpy string_char) by auto. apply Bf.
  - destruct (Ascii.eqb _ _); auto using tokens_ok_advance.
Qed.

Lemma tokens_ok_error m a b l : tokens_ok l -> tokens_ok (error m a b l).
Proof. auto. Qed.

Lemma tokens_ok_punctuation c l :
  tokens_ok l -> tokens_ok (Base.lexer_punctuation c l).
Proof.
  intros H. unfold Base.lexer_punctuation. apply tokens_ok_advance.
  repeat match goal with
         | |- context [if Ascii.eqb c ?x then _ else _] =>
             let E := fresh in
             destruct (Ascii.eqb c x) eqn:E;
             [apply Ascii.eqb_eq in E; subst c|]
         end;
    try (apply tokens_ok_add; [reflexivity|assumption]);
    try assumption.
  destruct (Ascii.eqb _ _).
  - apply tokens_ok_add; [reflexivity|]. now apply tokens_ok_advance.
  - apply tokens_ok_add; [reflexivity|assumption].
Qed.

Lemma tokens_ok_step l : tokens_ok l -> tokens_ok (Base.lexer_step l).
Proof.
  intros H. unfold Base.lexer_step.
  destruct (_ && _).
  { unfold lexer_skip_whitespace. apply while_fuel_invariant; auto.
    intros; now apply tokens_ok_advance. }
  destruct (Ascii.eqb _ LF).
  { apply tokens_ok_advance, tokens_ok_add; [reflexivity|assumption]. }
  destruct (Ascii.eqb _ QUOTE).
  { now apply tokens_ok_read_string. }
  destruct (_ || _) eqn:El.
  { eapply tokens_ok_read_identifier; eauto. }
  destruct (isdigit _) eqn:Ed.
  { eapply tokens_ok_read_number; eauto. }
  now apply tokens_ok_punctuation.
Qed.

(** X27: whatever the source, the text of
    every token the lexer of so_lang.c stores fits its type: a punctuation
    token holds its sign, a number token a digit followed by digits and
    dots, a string token no quote, an identifier token a word that starts
    with a letter or an underscore and is no keyword, a keyword token its
    keyword, and the end-of-input token nothing. *)
Theorem base_tokens_match_their_type (src : string) :
  forallb token_ok (tokens (Base.lexer_tokenize (lexer_create src))) = true.
Proof.
  unfold Base.lexer_tokenize.
  apply tokens_ok_add; [reflexivity|].
  unfold Base.lexer_scan. apply while_fuel_invariant.
  - intros; now apply tokens_ok_step.
  - reflexivity.
Qed.

(* ------------------------------------------------------------------ *)
(** ** The lexer of the enhanced compiler on a number *)

Lemma decimal_run_chars h s :
  decimal_run h s = true -> all_chars digit_or_dot s = true.
Proof.
  unfold all_chars. revert h; induction s as [|c r IH]; intros h; simpl; auto.
  intros H. apply andb_true_iff in H as [Hc Hr].
  rewrite (IH _ Hr), andb_true_r. unfold digit_or_dot.
  destruct (isdigit c); [reflexivity|]. simpl in *.
  now apply andb_true_iff in Hc as [Hc _].
Qed.

(** X28: [lexer_read_number] of
    the enhanced compiler takes a run of digits with at most one dot as one
    number token holding the first 255 characters of the run, and stops
    before a second dot, which is left to be scanned next. *)
Theorem enhanced_read_number_stops_at_second_dot
  (pre number rest : string) (l : Lexer) :
  lexeme_at pre number rest l ->
  decimal_run false number = true ->
  (isdigit (char_at rest 0)
   || (Ascii.eqb (char_at rest 0) "."%char && negb (dot_seen false number))) = false ->
  token_count l < MAX_TOKENS ->
  let l' := Enhanced.lexer_read_number l in
  pos l' = pos l + String.length number
  /\ tokens l'
     = tokens l ++ [mkToken TOKEN_NUMBER (first_chars (MAX_TOKEN_LEN - 1) number)
                            (line l) (column l + String.length number)]
  /\ has_error l' = has_error l
  /\ stderr l' = stderr l.
Proof.
  intros Hl Hn Hr Hc l'. subst l'.
  rewrite (enhanced_read_number_at pre number rest) by auto.
  destruct (advance_n_facts (String.length number) l) as (E1 & E2 & E3 & E4 & E5).
  destruct (advance_run_position number pre rest l Hl) as [E6 E7].
  { eapply all_chars_impl; [|exact (decimal_run_chars _ _ Hn)].
    apply class_digit_or_dot. }
  rewrite add_token_below by (unfold token_count; now rewrite E3).
  cbn [pos tokens has_error stderr]. rewrite E2, E3, E4, E5, E6, E7.
  rewrite strncpy_first_chars by (eapply decimal_run_c_string; eauto).
  auto.
Qed.

Lemma enhanced_read_number_stops_at_second_dot_witness :
  let l := lexer_create "1.2.3" in
  let l' := Enhanced.lexer_read_number l in
  pos l' = 3
  /\ tokens l' = [mkToken TOKEN_NUMBER "1.2" 1 4]
  /\ has_error l' = false
  /\ stderr l' = [].
Proof.
  apply (enhanced_read_number_stops_at_second_dot EmptyString "1.2" ".3"
           (lexer_create "1.2.3")).
  - vm_compute. auto.
  - reflexivity.
  - reflexivity.
  - vm_compute. lia.
Defined.

(** ** The options of the enhanced compiler *)

Lemma parse_flags_pair flags : forall rust bootstrap,
  Enhanced.parse_flags flags (rust, bootstrap)
  = (fst (Enhanced.parse_flags flags (rust, false)),
     bootstrap || snd (Enhanced.parse_flags flags (rust, false))).
Proof.
  induction flags as [|a rest IH]; intros rust bootstrap; cbn [Enhanced.parse_flags fst snd].
  - now rewrite orb_false_r.
  - destruct (streq a "--rust"); [apply IH|].
    destruct (streq a "--bootstrap"); [|apply IH].
    rewrite (IH rust true). rewrite orb_true_r. reflexivity.
Qed.

Ltac same_run :=
  split; [reflexivity|]; split; [reflexivity|];
  let E := fresh in let W := fresh in
  intros ? ? ? E W; try discriminate E; inversion E; subst; discriminate W.

(** X23: the enhanced compiler's [--bootstrap]
    flag changes nothing but the name of the output file.  With the flag put
    in front of the other options, [main] exits with the same code and
    writes the same text as without it, provided the two file names can be
    opened alike; and whatever it writes goes to [solang_self_hosted.c] or
    [solang_self_hosted.rs]. *)
Theorem bootstrap_flag_only_renames_output
  (read_file : string -> option string) (fopen_w : string -> bool)
  (fuel : nat) (program input : string) (flags : list string) :
  (forall rust, fopen_w (Enhanced.output_filename rust true)
                = fopen_w (Enhanced.output_filename rust false)) ->
  let plain := Enhanced.main read_file fopen_w fuel (program :: input :: flags) in
  let boot :=
    Enhanced.main read_file fopen_w fuel (program :: input :: "--bootstrap" :: flags) in
  option_map Enhanced.exit_code boot = option_map Enhanced.exit_code plain
  /\ written_text boot = written_text plain
  /\ (forall r file text,
        boot = Some r -> Enhanced.written r = Some (file, text) ->
        file = "solang_self_hosted.c" \/ file = "solang_self_hosted.rs").
Proof.
  intros Hopen plain boot. subst plain boot. unfold Enhanced.main.
  cbn [Enhanced.parse_flags]. change (streq "--bootstrap" "--rust") with false.
  change (streq "--bootstrap" "--bootstrap") with true. cbn [fst snd].
  rewrite (parse_flags_pair flags false true).
  destruct (Enhanced.parse_flags flags (false, false)) as [rust b] eqn:F.
  cbn [fst snd orb].
  destruct (read_file input) as [src|]; [|same_run].
  destruct (Enhanced.lexer_tokenize _) as [lexer|]; [|same_run].
  destruct (has_error lexer); [same_run|].
  destruct (Enhanced.parser_parse _ _) as [[ast p]|]; [|same_run].
  destruct (p_has_error p); [same_run|].
  assert (Ho : fopen_w (Enhanced.output_filename rust true)
               = fopen_w (Enhanced.output_filename rust b)).
  { destruct b; [reflexivity|apply Hopen]. }
  rewrite Ho.
  destruct (fopen_w (Enhanced.output_filename rust b));
    [|same_run].
  split; [reflexivity|]. split; [reflexivity|].
  intros r file text E W. inversion E; subst. cbn [Enhanced.written] in W.
  inversion W; subst. destruct rust; auto.
Qed.

Lemma bootstrap_flag_only_renames_output_witness :
  let plain :=
    Enhanced.main (fun _ => Some "let x = 1") (fun _ => true) 5
      ["solang"; "a.so"; "--rust"] in
  let boot :=
    Enhanced.main (fun _ => Some "let x = 1") (fun _ => true) 5
      ["solang"; "a.so"; "--bootstrap"; "--rust"] in
  option_map Enhanced.exit_code boot = option_map Enhanced.exit_code plain
  /\ written_text boot = written_text plain
  /\ (forall r file text,
        boot = Some r -> Enhanced.written r = Some (file, text) ->
        file = "solang_self_hosted.c" \/ file = "solang_self_hosted.rs").
Proof.
  apply (bootstrap_flag_only_renames_output (fun _ => Some "let x = 1") (fun _ => true)
           5 "solang" "a.so" ["--rust"]).
  reflexivity.
Defined.
